(** * Unrolled ADMM deconvolution (Galaxy-Deconv): model and properties

    A shallow embedding of [models/Unrolled_ADMM_Gaussian.py] and of the
    tensor operations it calls.  Floating-point numbers are idealised as
    real numbers; a tensor of shape (N,1,H,W) is a list of N matrices,
    each a list of H rows of W entries (the channel dimension is 1
    throughout: the first layer of [SubNet] is [Down(1,4)]). *)

From Stdlib Require Import Reals Lra Lia List ZArith Bool PeanoNat.
From Stdlib Require Ascii String.
Import ListNotations.
Import Ascii.AsciiSyntax String.StringSyntax.
Delimit Scope char_scope with char.
Delimit Scope string_scope with string.

Set Implicit Arguments.

(** ** Outcomes of a call *)

(** What a Python call can end in besides a value.  [ShapeError] is
    torch's RuntimeError on operands that cannot be broadcast (or on a
    [view] of the wrong size, and stands for the ValueError of a batch
    norm on a single value), [IndexError] is Python's on an index out of
    range, as [l[-1]] of an empty list.  [DivByZero] marks an
    elementwise division whose divisor is 0: torch stores a non-finite
    value there (inf or nan) and goes on; the real numbers have no such
    value, so the model stops. *)
Inductive error : Set := ShapeError | IndexError | DivByZero.

Inductive res (A : Type) : Type :=
| Ok (a : A)
| Err (e : error).

Arguments Ok {A} a.
Arguments Err {A} e.

Definition bind {A B} (m : res A) (k : A -> res B) : res B :=
  match m with
  | Ok a => k a
  | Err e => Err e
  end.

Notation "x <- m ;; k" := (bind m (fun x => k))
  (at level 61, m at next level, right associativity).

Fixpoint mapM {A B} (f : A -> res B) (l : list A) : res (list B) :=
  match l with
  | [] => Ok []
  | a :: l' => b <- f a ;; bs <- mapM f l' ;; Ok (b :: bs)
  end.

Fixpoint mapM2 {A B C} (f : A -> B -> res C) (la : list A) (lb : list B)
  : res (list C) :=
  match la, lb with
  | a :: la', b :: lb' => c <- f a b ;; cs <- mapM2 f la' lb' ;; Ok (c :: cs)
  | _, _ => Ok []
  end.

(** ** Tensors *)

Definition image (A : Type) := list (list A).
Definition tensor (A : Type) := list (image A).

Definition width {A} (X : image A) : nat := length (hd [] X).

(** A list of [n] elements that all satisfy [P]. *)
Definition sized {A} (P : A -> Prop) (n : nat) (l : list A) : Prop :=
  length l = n /\ Forall P l.

(** A batch of [n] matrices of [h] rows of [w] entries, every entry
    satisfying [P]. *)
Definition shaped {A} (P : A -> Prop) (n h w : nat) (T : tensor A) : Prop :=
  sized (sized (sized P w) h) n T.

Definition has_shape {A} (n h w : nat) (T : tensor A) : Prop :=
  shaped (fun _ => True) n h w T.

(** The rows of a matrix all have the length of the first one. *)
Definition rect {A} (X : image A) : Prop :=
  Forall (fun r => length r = width X) X.

(** One dimension of torch's broadcasting: sizes are equal, or one of
    them is 1 and its only element is repeated. *)
Definition bzip {A B C} (f : A -> B -> res C) (la : list A) (lb : list B)
  : res (list C) :=
  if length la =? length lb then mapM2 f la lb
  else match la, lb with
       | [a], _ => mapM (f a) lb
       | _, [b] => mapM (fun a => f a b) la
       | _, _ => Err ShapeError
       end.

(** An elementwise binary operation on two batches, broadcast along the
    batch, the rows and the columns. *)
Definition tzip {A B C} (f : A -> B -> res C) : tensor A -> tensor B -> res (tensor C) :=
  bzip (bzip (bzip f)).

Definition tmap {A B} (f : A -> B) (T : tensor A) : tensor B :=
  map (map (map f)) T.

(** ** Padding and cropping ([utils.utils_torch.pad_double], [crop_half]) *)

Definition pad_list {A} (zero : A) (before after : nat) (l : list A) : list A :=
  repeat zero before ++ l ++ repeat zero after.

(** Modelled from the spec: [pad_double] is imported from
    [utils.utils_torch] but its body is not among the sources.  The spec
    gives it as: zero-pads an image symmetrically to twice its linear
    extent along both axes (centered).  An extent [h] grows to [2*h], the
    [h] added lines split floor/ceil between the two sides. *)
Definition pad_double2d {A} (zero : A) (X : image A) : image A :=
  let h := length X in
  let w := width X in
  pad_list (repeat zero (2 * w)) (h / 2) (h - h / 2)
           (map (pad_list zero (w / 2) (w - w / 2)) X).

(** Modelled from the spec: [pad_double] on a batch pads the last two
    dimensions of every element. *)
Definition pad_double {A} (zero : A) (T : tensor A) : tensor A :=
  map (pad_double2d zero) T.

(** The centered half of a line of [n] entries: [n / 2] of them, leaving
    out half of the rest on the left. *)
Definition crop_list {A} (l : list A) : list A :=
  let n := length l in
  firstn (n / 2) (skipn ((n - n / 2) / 2) l).

(** Modelled from the spec: [crop_half] is imported from
    [utils.utils_torch] but its body is not among the sources.  The spec
    gives it as: inverse of padDouble, extracts the centered half-size
    region. *)
Definition crop_half2d {A} (X : image A) : image A :=
  map crop_list (crop_list X).

(** Modelled from the spec: [crop_half] on a batch crops the last two
    dimensions of every element. *)
Definition crop_half {A} (T : tensor A) : tensor A :=
  map crop_half2d T.

(** ** Complex numbers and the Fourier transforms ([torch.fft]) *)

Open Scope R_scope.

Definition C : Type := (R * R)%type.

Definition RtoC (x : R) : C := (x, 0).
Definition C0 : C := (0, 0).
Definition Cadd (a b : C) : C := (fst a + fst b, snd a + snd b).
Definition Cmul (a b : C) : C :=
  (fst a * fst b - snd a * snd b, fst a * snd b + snd a * fst b).
Definition Cscal (r : R) (a : C) : C := (r * fst a, r * snd a).
Definition Cconj (a : C) : C := (fst a, - snd a).
Definition Cabs (a : C) : R := sqrt (fst a * fst a + snd a * snd a).
Definition Creal (a : C) : R := fst a.

Definition Csum (l : list C) : C := fold_right Cadd C0 l.

Definition cis (t : R) : C := (cos t, sin t).

(** exp(sgn * 2 pi i * k * m / n) *)
Definition twiddle (sgn : R) (k m n : nat) : C :=
  cis (sgn * 2 * PI * INR k * INR m / INR n).

Definition indexed {A} (l : list A) : list (nat * A) :=
  combine (seq 0 (length l)) l.

(** The two-dimensional discrete Fourier sum over the last two
    dimensions, without normalisation. *)
Definition dft2 (sgn : R) (X : image C) : image C :=
  let M := length X in
  let N := width X in
  map (fun k =>
    map (fun l =>
      Csum (map (fun mr =>
        Csum (map (fun nv =>
          Cmul (snd nv) (Cmul (twiddle sgn k (fst mr) M) (twiddle sgn l (fst nv) N)))
          (indexed (snd mr))))
        (indexed X)))
      (seq 0 N))
    (seq 0 M).

Definition fft2 (T : tensor C) : tensor C := map (dft2 (-1)) T.

Definition ifft2 (T : tensor C) : tensor C :=
  map (fun X => map (map (Cscal (/ INR (length X * width X)))) (dft2 1 X)) T.

(** [torch.roll] to the left by [s] places along one dimension. *)
Definition roll_left {A} (s : nat) (l : list A) : list A :=
  skipn s l ++ firstn s l.

(** [ifftshift] moves entry [n // 2] to the front; [fftshift] moves the
    front entry to place [n // 2]. *)
Definition ifftshift1 {A} (l : list A) : list A := roll_left (length l / 2) l.
Definition fftshift1 {A} (l : list A) : list A :=
  roll_left (length l - length l / 2) l.

(** Both shifts are called with [dim=(-2,-1)]. *)
Definition ifftshift {A} (T : tensor A) : tensor A :=
  map (fun X => ifftshift1 (map ifftshift1 X)) T.
Definition fftshift {A} (T : tensor A) : tensor A :=
  map (fun X => fftshift1 (map fftshift1 X)) T.

(** ** Elementwise arithmetic with broadcasting *)

Definition lift2 {A B D} (f : A -> B -> D) (a : A) (b : B) : res D := Ok (f a b).

Definition radd : tensor R -> tensor R -> res (tensor R) := tzip (lift2 Rplus).
Definition rsub : tensor R -> tensor R -> res (tensor R) := tzip (lift2 Rminus).
Definition rmul : tensor R -> tensor R -> res (tensor R) := tzip (lift2 Rmult).
Definition cadd : tensor C -> tensor C -> res (tensor C) := tzip (lift2 Cadd).
Definition cmul : tensor C -> tensor C -> res (tensor C) := tzip (lift2 Cmul).

(** Division of a complex entry by a real one. *)
Definition cdiv_entry (a : C) (d : R) : res C :=
  if Req_dec_T d 0 then Err DivByZero else Ok (Cscal (/ d) a).

Definition cdiv : tensor C -> tensor R -> res (tensor C) := tzip cdiv_entry.

(** [1/alpha] on a tensor. *)
Definition recip_entry (d : R) : res R :=
  if Req_dec_T d 0 then Err DivByZero else Ok (/ d).

Definition recip (T : tensor R) : res (tensor R) :=
  mapM (mapM (mapM recip_entry)) T.

(** [torch.abs(H)**2] *)
Definition abs_sq (T : tensor C) : tensor R :=
  tmap (fun c => Cabs c * Cabs c) T.

Definition conj (T : tensor C) : tensor C := tmap Cconj T.
Definition real (T : tensor C) : tensor R := tmap Creal T.
Definition complex (T : tensor R) : tensor C := tmap RtoC T.

(** [torch.maximum(y, torch.zeros_like(y))] and [torch.zeros_like]. *)
Definition clamp_nonneg (T : tensor R) : tensor R := tmap (fun v => Rmax v 0) T.
Definition zeros_like (T : tensor R) : tensor R := tmap (fun _ => 0) T.

(** A 0-dimensional tensor, as it takes part in broadcasting. *)
Definition scalar (r : R) : tensor R := [[[r]]].

(** ** Layers of the weight predictor ([torch.nn]) *)

(** A feature map of one batch element: one matrix per channel. *)
Definition fmap : Type := list (image R).

Definition rsum (l : list R) : R := fold_right Rplus 0 l.

Fixpoint pool_pairs {A} (f : A -> A -> A) (l : list A) : list A :=
  match l with
  | a :: b :: l' => f a b :: pool_pairs f l'
  | _ => []
  end.

Definition zip_with {A} (f : A -> A -> A) (la lb : list A) : list A :=
  map (fun p => f (fst p) (snd p)) (combine la lb).

(** [nn.MaxPool2d(2)]: windows of 2 by 2, stride 2, an odd last line is
    dropped. *)
Definition maxpool2d (X : image R) : image R :=
  pool_pairs (zip_with Rmax) (map (pool_pairs Rmax) X).

(** Entry [(p-1, q-1)] of a matrix, 0 outside of it: the matrix with a
    border of zeros of width 1, read at [(p, q)]. *)
Definition pix (X : image R) (p q : nat) : R :=
  match p, q with
  | S p', S q' => nth q' (nth p' X []) 0
  | _, _ => 0
  end.

Record conv_w : Type := { cw : nat -> nat -> nat -> nat -> R; cb : nat -> R }.

(** [nn.Conv2d(cin, cout, kernel_size=3, padding=1)] on one element. *)
Definition conv2d (cin cout : nat) (p : conv_w) (F : fmap) : res fmap :=
  if length F =? cin then
    let h := length (hd [] F) in
    let w := width (hd [] F) in
    Ok (map (fun o =>
          map (fun y =>
            map (fun x =>
              cb p o +
              rsum (map (fun i =>
                rsum (map (fun dy =>
                  rsum (map (fun dx =>
                    cw p o i dy dx * pix (nth i F []) (y + dy) (x + dx))
                    (seq 0 3)))
                  (seq 0 3)))
                (seq 0 cin)))
              (seq 0 w))
            (seq 0 h))
          (seq 0 cout))
  else Err ShapeError.

Record bn_w : Type :=
  { gamma : nat -> R; beta : nat -> R; running_mean : nat -> R; running_var : nat -> R }.

Definition bn_eps : R := 1 / 100000.

(** All entries of channel [c] over the batch. *)
Definition chan_values (B : list fmap) (c : nat) : list R :=
  concat (map (fun F => concat (nth c F [])) B).

Definition mean (l : list R) : R := rsum l / INR (length l).

Definition var_biased (l : list R) : R :=
  rsum (map (fun v => (v - mean l) * (v - mean l)) l) / INR (length l).

(** [nn.BatchNorm2d(c)].  When the module is in training mode the mean
    and the variance of a channel are taken over the whole batch (and one
    value per channel is refused); in evaluation mode they are the stored
    running statistics.  The update of the running statistics in
    training mode is not modelled: no output of the same call reads
    it. *)
Definition batchnorm2d (training : bool) (c : nat) (p : bn_w) (B : list fmap)
  : res (list fmap) :=
  if forallb (fun F => length F =? c) B then
    if training && (length (chan_values B 0) =? 1)%nat then Err ShapeError
    else
      let mu k := if training then mean (chan_values B k) else running_mean p k in
      let va k := if training then var_biased (chan_values B k) else running_var p k in
      Ok (map (fun F =>
            map (fun kX =>
              map (map (fun v =>
                (v - mu (fst kX)) / sqrt (va (fst kX) + bn_eps) * gamma p (fst kX)
                + beta p (fst kX)))
                (snd kX))
              (indexed F))
            B)
  else Err ShapeError.

Definition relu (B : list fmap) : list fmap := map (map (map (map (fun v => Rmax v 0)))) B.

Record dconv_w : Type :=
  { conv1 : conv_w; bn1 : bn_w; conv2 : conv_w; bn2 : bn_w }.

(** [DoubleConv(cin, cout)]: (convolution, batch norm, ReLU) twice. *)
Definition DoubleConv (training : bool) (cin cout : nat) (p : dconv_w) (B : list fmap)
  : res (list fmap) :=
  a <- mapM (conv2d cin cout (conv1 p)) B ;;
  b <- batchnorm2d training cout (bn1 p) a ;;
  c <- mapM (conv2d cout cout (conv2 p)) (relu b) ;;
  d <- batchnorm2d training cout (bn2 p) c ;;
  Ok (relu d).

(** [Down(cin, cout)]: max pooling, then [DoubleConv]. *)
Definition Down (training : bool) (cin cout : nat) (p : dconv_w) (B : list fmap)
  : res (list fmap) :=
  DoubleConv training cin cout p (map (map maxpool2d) B).

Record lin_w : Type := { lw : nat -> nat -> R; lb : nat -> R }.

(** [nn.Linear(n_in, n_out)] on the last dimension. *)
Definition Linear (n_in n_out : nat) (p : lin_w) (v : list R) : res (list R) :=
  if length v =? n_in then
    Ok (map (fun o => lb p o + rsum (map (fun ix => lw p o (fst ix) * snd ix) (indexed v)))
            (seq 0 n_out))
  else Err ShapeError.

(** [nn.Softplus()], with torch's defaults beta = 1 and threshold = 20:
    the identity above the threshold. *)
Definition Softplus (x : R) : R :=
  if Rlt_dec 20 x then x else ln (1 + exp x).

(** [F.pad] along one dimension; a negative amount removes entries. *)
Definition pad_crop {A} (zero : A) (before after : Z) (l : list A) : list A :=
  let l1 := if (0 <=? before)%Z then repeat zero (Z.to_nat before) ++ l
            else skipn (Z.to_nat (- before)) l in
  if (0 <=? after)%Z then l1 ++ repeat zero (Z.to_nat after)
  else firstn (length l1 - Z.to_nat (- after)) l1.

(** ** The weight predictor ([SubNet]) *)

Record subnet_w : Type :=
  { down1 : dconv_w; down2 : dconv_w; down3 : dconv_w; down4 : dconv_w;
    fc1 : lin_w; fc2 : lin_w; fc3 : lin_w }.

(** The floor added to the predicted weights. *)
Definition rho_floor : R := 1 / 1000000.

(** [F.pad(kernel, (w1,w2,h1,h2), "constant", 0)] of [SubNet.forward],
    on one kernel of the batch, [h] and [w] being the batch's sizes. *)
Definition pad_128 (h w : nat) (K : image R) : image R :=
  let h1 := ((128 - Z.of_nat h) / 2)%Z in
  let h2 := (- ((Z.of_nat h - 128) / 2))%Z in
  let w1 := ((128 - Z.of_nat w) / 2)%Z in
  let w2 := (- ((Z.of_nat w - 128) / 2))%Z in
  pad_crop (repeat 0 (Z.to_nat (Z.of_nat w + w1 + w2))) h1 h2
           (map (pad_crop 0 w1 w2) K).

Definition conv_layers (training : bool) (p : subnet_w) (B : list fmap) : res (list fmap) :=
  a <- Down training 1 4 (down1 p) B ;;
  b <- Down training 4 8 (down2 p) a ;;
  c <- Down training 8 16 (down3 p) b ;;
  Down training 16 16 (down4 p) c.

Definition mlp (n : nat) (p : subnet_w) (v : list R) : res (list R) :=
  a <- Linear (16 * 8 * 8 + 1) 64 (fc1 p) v ;;
  b <- Linear 64 64 (fc2 p) (map (fun x => Rmax x 0) a) ;;
  c <- Linear 64 n (fc3 p) (map (fun x => Rmax x 0) b) ;;
  Ok (map Softplus c).

(** [x.view(N,1,16*8*8)] on one element. *)
Definition view_features (F : fmap) : res (list R) :=
  let v := concat (map (@concat R) F) in
  if length v =? 16 * 8 * 8 then Ok v else Err ShapeError.

(** [alpha.float().view(N,1,1)] *)
Definition view_scalars (N : nat) (alpha : tensor R) : res (list R) :=
  let v := concat (map (@concat R) alpha) in
  if length v =? N then Ok v else Err ShapeError.

(** [SubNet.forward(kernel, alpha)]: row [b] of the result holds the [n]
    weights of batch element [b]. *)
Definition SubNet_forward (training : bool) (n : nat) (p : subnet_w)
  (kernel alpha : tensor R) : res (list (list R)) :=
  let N := length kernel in
  let h := length (hd [] kernel) in
  let w := width (hd [] kernel) in
  let k_pad := map (pad_128 h w) kernel in
  let H := fft2 (complex (ifftshift k_pad)) in
  let HtH := abs_sq H in
  x <- conv_layers training p (map (fun X => [X]) HtH) ;;
  xs <- mapM view_features x ;;
  al <- view_scalars N alpha ;;
  let xa := map (fun xa => fst xa ++ [snd xa]) (combine xs al) in
  out <- mapM (mlp n p) xa ;;
  Ok (map (map (fun v => v + rho_floor)) out).

(** ** The two closed-form solves *)

(** [X_Update_Gaussian.forward(Y, Ht, HtH, z, u, rho)] *)
Definition X_Update_Gaussian (Y Ht : tensor C) (HtH z u rho : tensor R)
  : res (tensor R) :=
  lhs <- radd rho HtH ;;
  hy <- cmul Ht Y ;;
  rz <- rmul rho z ;;
  d <- rsub rz u ;;
  rhs <- cadd hy (fft2 (complex (ifftshift (pad_double 0 d)))) ;;
  q <- cdiv rhs lhs ;;
  Ok (crop_half (real (fftshift (ifft2 q)))).

(** [Unrolled_ADMM_Gaussian.init_l2(Y, Ht, HtH, alpha)] *)
Definition init_l2 (Y Ht : tensor C) (HtH alpha : tensor R) : res (tensor R) :=
  rhs <- cmul Y Ht ;;
  ra <- recip alpha ;;
  lhs <- radd HtH ra ;;
  q <- cdiv rhs lhs ;;
  Ok (crop_half (real (fftshift (ifft2 q)))).

(** ** The controller ([Unrolled_ADMM_Gaussian]) *)

(** The module: its configuration, its mode and its learned parameters.
    [Z] is the denoiser ([Z_Update_ResUNet], whose network is not among
    the sources): a function from a batch to a batch.  [init] is read
    only when [subnet] holds, [rho_iters] only when it does not. *)
Record model : Type :=
  { n_iters : nat;
    subnet : bool;
    training : bool;
    Z : tensor R -> tensor R;
    init : subnet_w;
    rho_iters : list R }.

(** [__init__]: the fixed weights start as [torch.ones(n_iters)]. *)
Definition Unrolled_ADMM_Gaussian_init (n : nat) (use_subnet : bool)
  (denoiser : tensor R -> tensor R) (w : subnet_w) : model :=
  {| n_iters := n; subnet := use_subnet; training := true;
     Z := denoiser; init := w; rho_iters := repeat 1 n |}.

(** The variables of the loop; [z_calls] counts the calls of [self.Z]. *)
Record admm : Type :=
  { st_z : tensor R; st_u : tensor R; x_list : list (tensor R); z_calls : nat }.

(** What [forward] computes before the loop. *)
Record setup_t : Type :=
  { s_Y : tensor C; s_Ht : tensor C; s_HtH : tensor R;
    s_rho : list (list R); s_z : tensor R; s_u : tensor R }.

Definition setup (m : model) (y kernel alpha : tensor R) : res setup_t :=
  let y := clamp_nonneg y in
  let Y := fft2 (complex (ifftshift (pad_double 0 y))) in
  let H := fft2 (complex (ifftshift (pad_double 0 kernel))) in
  let Ht := conj H in
  let HtH := abs_sq H in
  rho <- (if subnet m
          then SubNet_forward (training m) (n_iters m) (init m) kernel alpha
          else Ok []) ;;
  z <- init_l2 Y Ht HtH alpha ;;
  Ok {| s_Y := Y; s_Ht := Ht; s_HtH := HtH; s_rho := rho; s_z := z;
        s_u := zeros_like y |}.

(** [rho_iters[:,:,:,i].view(-1,1,1,1)] and [self.rho_iters[i]]. *)
Definition select_rho (m : model) (sched : list (list R)) (i : nat) : res (tensor R) :=
  if subnet m then
    mapM (fun row => match nth_error row i with
                     | Some r => Ok [[r]]
                     | None => Err IndexError
                     end) sched
  else match nth_error (rho_iters m) i with
       | Some r => Ok (scalar r)
       | None => Err IndexError
       end.

(** The body of the loop at iteration [i]. *)
Definition iteration (m : model) (c : setup_t) (i : nat) (s : admm) : res admm :=
  rho <- select_rho m (s_rho c) i ;;
  x <- X_Update_Gaussian (s_Y c) (s_Ht c) (s_HtH c) (st_z s) (st_u s) rho ;;
  let z := Z m x in
  ux <- radd (st_u s) x ;;
  u <- rsub ux z ;;
  Ok {| st_z := z; st_u := u; x_list := x_list s ++ [z]; z_calls := S (z_calls s) |}.

Fixpoint for_range (body : nat -> admm -> res admm) (range : list nat) (s : admm)
  : res admm :=
  match range with
  | [] => Ok s
  | i :: range' => s' <- body i s ;; for_range body range' s'
  end.

(** [l[-1]] *)
Definition last_item {A} (l : list A) : res A :=
  match rev l with
  | [] => Err IndexError
  | a :: _ => Ok a
  end.

(** The state of [forward] when it reaches its [return]. *)
Definition run (m : model) (y kernel alpha : tensor R) : res admm :=
  c <- setup m y kernel alpha ;;
  for_range (iteration m c) (seq 0 (n_iters m))
            {| st_z := s_z c; st_u := s_u c; x_list := []; z_calls := 0 |}.

(** [Unrolled_ADMM_Gaussian.forward(y, kernel, alpha)], the spec's
    [restore]. *)
Definition forward (m : model) (y kernel alpha : tensor R) : res (tensor R) :=
  s <- run m y kernel alpha ;;
  last_item (x_list s).

(** ** Small inputs *)

Definition zero_conv_w : conv_w := {| cw := fun _ _ _ _ => 0; cb := fun _ => 0 |}.

Definition unit_bn_w : bn_w :=
  {| gamma := fun _ => 1; beta := fun _ => 0;
     running_mean := fun _ => 0; running_var := fun _ => 1 |}.

Definition zero_dconv_w : dconv_w :=
  {| conv1 := zero_conv_w; bn1 := unit_bn_w; conv2 := zero_conv_w; bn2 := unit_bn_w |}.

Definition zero_lin_w : lin_w := {| lw := fun _ _ => 0; lb := fun _ => 0 |}.

Definition zero_subnet_w : subnet_w :=
  {| down1 := zero_dconv_w; down2 := zero_dconv_w; down3 := zero_dconv_w;
     down4 := zero_dconv_w; fc1 := zero_lin_w; fc2 := zero_lin_w; fc3 := zero_lin_w |}.

(** The identity as denoiser, as in the spec's scenario. *)
Definition identity_denoiser (T : tensor R) : tensor R := T.

(** A module with [subnet=False] and the given fixed weights, in
    evaluation mode, with the identity as denoiser. *)
Definition fixed_model (n : nat) (rho : list R) : model :=
  {| n_iters := n; subnet := false; training := false; Z := identity_denoiser;
     init := zero_subnet_w; rho_iters := rho |}.

(** Convolution weights that copy input channel 0 to every output
    channel: the centre tap of channel 0 is 1, all else is 0. *)
Definition tap_conv_w : conv_w :=
  {| cw := fun _ i dy dx => if ((i =? 0) && (dy =? 1) && (dx =? 1))%nat then 1 else 0;
     cb := fun _ => 0 |}.

Definition tap_dconv_w : dconv_w :=
  {| conv1 := tap_conv_w; bn1 := unit_bn_w; conv2 := tap_conv_w; bn2 := unit_bn_w |}.

(** Linear weights whose every output is input 0. *)
Definition first_lin_w : lin_w :=
  {| lw := fun _ i => if (i =? 0)%nat then 1 else 0; lb := fun _ => 0 |}.

Definition tap_subnet_w : subnet_w :=
  {| down1 := tap_dconv_w; down2 := tap_dconv_w; down3 := tap_dconv_w;
     down4 := tap_dconv_w; fc1 := first_lin_w; fc2 := first_lin_w; fc3 := first_lin_w |}.

(** A denoiser that adds 1 to every entry. *)
Definition shift_denoiser (T : tensor R) : tensor R := tmap (fun v => v + 1) T.

(** A module with [subnet=True], two iterations, in training mode, as
    it is after construction. *)
Definition training_model : model :=
  Unrolled_ADMM_Gaussian_init 2 true shift_denoiser tap_subnet_w.

(** A feature map whose [c] channels are all the constant [v]. *)
Definition uni (c h w : nat) (v : R) : fmap := repeat (repeat (repeat v w) h) c.

(** ** Predicates on the entries of a batch *)

Definition all_entries {A} (P : A -> Prop) (T : tensor A) : Prop :=
  Forall (Forall (Forall P)) T.

Definition some_entry {A} (P : A -> Prop) (T : tensor A) : Prop :=
  Exists (Exists (Exists P)) T.

(** What a call may end in: a value satisfying [Q], or an error
    satisfying [E]. *)
Definition res_sat {A} (Q : A -> Prop) (E : error -> Prop) (r : res A) : Prop :=
  match r with
  | Ok a => Q a
  | Err e => E e
  end.

(** The contract of the denoiser: the output has the shape of the
    input. *)
Definition shape_preserving (f : tensor R -> tensor R) : Prop :=
  forall n h w T, has_shape n h w T -> has_shape n h w (f T).

(** A weight schedule that gives, at every iteration of the module, one
    strictly positive weight per batch element, or one for the batch. *)
Definition sched_ok (m : model) (n : nat) (sched : list (list R)) : Prop :=
  forall i, (i < n_iters m)%nat ->
    exists rho nr, select_rho m sched i = Ok rho /\ (nr = n \/ nr = 1%nat) /\
                   shaped (fun r => 0 < r) nr 1 1 rho.

(** ** A batch of two and its elements *)

(** [T] holds two elements, [T0] the first and [T1] the second. *)
Definition splits {A} (T T0 T1 : list A) : Prop :=
  exists a b, T = [a; b] /\ T0 = [a] /\ T1 = [b].

(** The same, or one value shared by the batch and by both elements, as
    a weight that is broadcast. *)
Definition bsplits {A} (T T0 T1 : list A) : Prop :=
  splits T T0 T1 \/ exists s, T = [s] /\ T0 = [s] /\ T1 = [s].

(** A call on the batch returns exactly when the calls on the two
    elements return, and the three values are related by [J]. *)
Definition res_splits {A} (J : A -> A -> A -> Prop) (r r0 r1 : res A) : Prop :=
  (forall a, r = Ok a -> exists a0 a1, r0 = Ok a0 /\ r1 = Ok a1 /\ J a a0 a1) /\
  (forall a0 a1, r0 = Ok a0 -> r1 = Ok a1 -> exists a, r = Ok a /\ J a a0 a1).

(** A function of a batch that treats each element by itself. *)
Definition elementwise {A B} (f : list A -> list B) : Prop :=
  exists g, forall T, f T = map g T.

(** ** [forward] after the prediction of the weights *)

(** The weight schedule [forward] works with. *)
Definition predict (m : model) (kernel alpha : tensor R) : res (list (list R)) :=
  if subnet m
  then SubNet_forward (training m) (n_iters m) (init m) kernel alpha
  else Ok [].

(** The rest of the setup, the schedule being given. *)
Definition setup_with (rho : list (list R)) (y kernel alpha : tensor R) : res setup_t :=
  let y := clamp_nonneg y in
  let Y := fft2 (complex (ifftshift (pad_double 0 y))) in
  let H := fft2 (complex (ifftshift (pad_double 0 kernel))) in
  let Ht := conj H in
  let HtH := abs_sq H in
  z <- init_l2 Y Ht HtH alpha ;;
  Ok {| s_Y := Y; s_Ht := Ht; s_HtH := HtH; s_rho := rho; s_z := z;
        s_u := zeros_like y |}.

(** The loop and the result, the schedule being given. *)
Definition forward_with (m : model) (rho : list (list R)) (y kernel alpha : tensor R)
  : res (tensor R) :=
  c <- setup_with rho y kernel alpha ;;
  s <- for_range (iteration m c) (seq 0 (n_iters m))
                 {| st_z := s_z c; st_u := s_u c; x_list := []; z_calls := 0 |} ;;
  last_item (x_list s).

(** ** Closed forms used on small inputs *)

(** The spectrum of a 1 by 1 image of value [d], padded and shifted. *)
Definition spec1 (d : R) : tensor C := [[[(d, 0); (- d, 0)]; [(- d, 0); (d, 0)]]].

(** A 1 by 1 kernel of value [c], padded to 128 by 128 and shifted: all
    zero but the last entry of the last row. *)
Definition hot128 (c : R) : image C :=
  repeat (repeat C0 128) 127 ++ [repeat C0 127 ++ [(c, 0)]].

(** Entry [(k, l)] of the Fourier sum. *)
Definition dft2_entry (sgn : R) (X : image C) (k l : nat) : C :=
  Csum (map (fun mr =>
    Csum (map (fun nv =>
      Cmul (snd nv)
           (Cmul (twiddle sgn k (fst mr) (length X)) (twiddle sgn l (fst nv) (width X))))
      (indexed (snd mr))))
    (indexed X)).

(** The value batch norm in training mode gives to an entry [v] of a
    channel whose entries over the batch are [L], with gamma = 1 and
    beta = 0. *)
Definition bnf (L : list R) (v : R) : R :=
  (v - mean L) / sqrt (var_biased L + bn_eps) * 1 + 0.

(** The entries of a channel over a batch of uniform feature maps of
    values [vs], [n] entries each. *)
Definition pooled (n : nat) (vs : list R) : list R :=
  concat (map (fun v => repeat v n) vs).

(** Convolution by [tap_conv_w], batch norm in training mode and ReLU, on
    the values of a batch of uniform feature maps. *)
Definition step (n : nat) (vs : list R) : list R :=
  map (fun v => Rmax (bnf (pooled n vs) v) 0) vs.

(** The same through the four [Down] blocks of [conv_layers]. *)
Definition steps (vs : list R) : list R :=
  step 64 (step 64 (step 256 (step 256 (step 1024 (step 1024
    (step 4096 (step 4096 vs))))))).

(** ** Relations on the state of the controller *)

(** What the setup holds for a batch of [n] images of [h] by [w]. *)
Record setup_shaped (n h w : nat) (c : setup_t) : Prop :=
  { ss_Y : has_shape n (2 * h) (2 * w) (s_Y c);
    ss_Ht : has_shape n (2 * h) (2 * w) (s_Ht c);
    ss_HtH : shaped (fun v => 0 <= v) n (2 * h) (2 * w) (s_HtH c);
    ss_z : has_shape n h w (s_z c);
    ss_u : has_shape n h w (s_u c) }.

(** What relates the setup of the batch to the setups of its elements. *)
Record setup_splits (m : model) (c c0 c1 : setup_t) : Prop :=
  { sp_Y : splits (s_Y c) (s_Y c0) (s_Y c1);
    sp_Ht : splits (s_Ht c) (s_Ht c0) (s_Ht c1);
    sp_HtH : splits (s_HtH c) (s_HtH c0) (s_HtH c1);
    sp_z : splits (s_z c) (s_z c0) (s_z c1);
    sp_u : splits (s_u c) (s_u c0) (s_u c1);
    sp_rho : subnet m = true -> splits (s_rho c) (s_rho c0) (s_rho c1) }.

(** The same for the pair (auxiliary estimate, dual variable). *)
Definition pair_splits (zu zu0 zu1 : tensor R * tensor R) : Prop :=
  splits (fst zu) (fst zu0) (fst zu1) /\ splits (snd zu) (snd zu0) (snd zu1).

(** ** Broadcast sizes *)

(** Two sizes of one dimension that torch accepts together, and the size
    of the result. *)
Definition compat (a b : nat) : Prop := a = b \/ a = 1%nat \/ b = 1%nat.

Definition bdim (a b : nat) : nat := if (a =? 1)%nat then b else a.

(** ** The spec's reading of the solver and of the loop *)

(** The spec's formulas of the per-iteration solve: the numerator, the
    denominator, then the cropped real part of the shifted inverse
    transform of their quotient.  A complex number is the pair of its
    real and its imaginary part: retaining the real part is taking the
    first component, the second is dropped. *)
Definition spec_numerator (Y Ht : tensor C) (z u rho : tensor R) : res (tensor C) :=
  hy <- cmul Ht Y ;;
  rz <- rmul rho z ;;
  d <- rsub rz u ;;
  cadd hy (fft2 (complex (ifftshift (pad_double 0 d)))).

Definition spec_denominator (HtH rho : tensor R) : res (tensor R) :=
  radd rho HtH.

Definition spec_solve (Y Ht : tensor C) (HtH z u rho : tensor R) : res (tensor R) :=
  num <- spec_numerator Y Ht z u rho ;;
  den <- spec_denominator HtH rho ;;
  q <- cdiv num den ;;
  Ok (crop_half (tmap fst (fftshift (ifft2 q)))).

(** The spec's iteration [i], on the pair (auxiliary estimate, dual
    variable): select rho_i, solve for x, denoise, update the dual. *)
Definition spec_iteration (m : model) (c : setup_t) (i : nat)
  (zu : tensor R * tensor R) : res (tensor R * tensor R) :=
  rho <- select_rho m (s_rho c) i ;;
  x <- X_Update_Gaussian (s_Y c) (s_Ht c) (s_HtH c) (fst zu) (snd zu) rho ;;
  let z' := Z m x in
  ux <- radd (snd zu) x ;;
  u' <- rsub ux z' ;;
  Ok (z', u').

(** Iterations [i], [i+1], ..., [i+n-1] of the spec's state machine. *)
Fixpoint spec_iterate (m : model) (c : setup_t) (i n : nat)
  (zu : tensor R * tensor R) : res (tensor R * tensor R) :=
  match n with
  | O => Ok zu
  | S n' => zu' <- spec_iteration m c i zu ;; spec_iterate m c (S i) n' zu'
  end.

(** Setup, the iterations 0..N-1, and the terminal state, which reports
    the auxiliary estimate. *)
Definition spec_restore (m : model) (y kernel alpha : tensor R) : res (tensor R) :=
  c <- setup m y kernel alpha ;;
  zu <- spec_iterate m c 0 (n_iters m) (s_z c, s_u c) ;;
  Ok (fst zu).

(** ** Shifts by rolling ([utils.utils_torch.ifftshift]) *)

(** [torch.roll(x, shifts, dims)] along one dimension: the entry at
    place [i] moves to place [(i + shifts) mod n]. *)
Definition roll {A} (shifts : nat) (l : list A) : list A :=
  roll_left (length l - shifts mod length l) l.

(** [utils.utils_torch.ifftshift(x)] on a tensor of four dimensions
    (N,C,H,W): the loop runs over the dimensions 3, 2 and 1, each rolled
    by half of its size; the batch dimension is left alone.  The name
    is prefixed: [ifftshift] is torch's function above. *)
Definition utils_ifftshift {A} (x : list (list (image A))) : list (list (image A)) :=
  let x3 := map (map (map (roll (width (hd [] (hd [] x)) / 2)))) x in
  let x2 := map (map (roll (length (hd [] (hd [] x3)) / 2))) x3 in
  map (roll (length (hd [] x2) / 2)) x2.

(** A batch of this development with its channel dimension of size 1
    written out. *)
Definition unsqueeze1 {A} (T : tensor A) : list (list (image A)) :=
  map (fun X => [X]) T.

(** ** Keys of a state dictionary ([utils.utils_torch.rename_state_dict_keys]) *)

(** [key.partition('.')[2]]: what follows the first dot of [key], the
    empty string when [key] holds no dot. *)
Fixpoint partition_tail (key : String.string) : String.string :=
  match key with
  | String.EmptyString => String.EmptyString
  | String.String c rest => if Ascii.eqb c "."%char then rest else partition_tail rest
  end.

(** Whether [key] holds a dot. *)
Fixpoint has_dot (key : String.string) : bool :=
  match key with
  | String.EmptyString => false
  | String.String c rest => Ascii.eqb c "."%char || has_dot rest
  end.

(** An [OrderedDict] with string keys: its items in the order of
    insertion. *)
Definition odict (V : Type) : Type := list (String.string * V).

(** [d[k] = v]: the value of an existing key is replaced where it
    stands, a new key goes to the end. *)
Fixpoint od_set {V} (k : String.string) (v : V) (d : odict V) : odict V :=
  match d with
  | [] => [(k, v)]
  | (k', v') :: d' =>
      if String.eqb k' k then (k', v) :: d' else (k', v') :: od_set k v d'
  end.

(** [d.get(k)] *)
Fixpoint od_get {V} (k : String.string) (d : odict V) : option V :=
  match d with
  | [] => None
  | (k', v') :: d' => if String.eqb k' k then Some v' else od_get k d'
  end.

(** [rename_state_dict_keys(state_dict)] *)
Definition rename_state_dict_keys {V} (state_dict : odict V) : odict V :=
  fold_left (fun new_state_dict kv =>
               od_set (partition_tail (fst kv)) (snd kv) new_state_dict)
            state_dict [].

(** The keys that the loop of [rename_state_dict_keys] writes, in its
    order. *)
Definition new_keys {V} (d : odict V) : list String.string :=
  map (fun kv => partition_tail (fst kv)) d.

(** ** Downsampling ([utils.utils_data.down_sample]) *)

(** Entry [(i, j)] of a matrix. *)
Definition entry (X : image R) (i j : nat) : R := nth j (nth i X []) 0.

(** [down_sample(input, rate)]: [F.conv2d] of the image with a [rate]
    by [rate] filter of entries [1/rate**2], stride [rate], no padding.
    The convolution refuses a stride of 0 and a filter larger than the
    image; its output has [(H - rate) // rate + 1] rows. *)
Definition down_sample (rate : nat) (input : image R) : res (image R) :=
  let H := length input in
  let W := width input in
  if (rate =? 0)%nat || (H <? rate)%nat || (W <? rate)%nat then Err ShapeError
  else
    let weight := 1 / INR (rate * rate) in
    Ok (map (fun i =>
          map (fun j =>
            rsum (map (fun a =>
              rsum (map (fun b => weight * entry input (i * rate + a) (j * rate + b))
                        (seq 0 rate)))
              (seq 0 rate)))
            (seq 0 ((W - rate) / rate + 1)))
          (seq 0 ((H - rate) / rate + 1))).

(** ** The transfer function of a kernel ([utils.utils_torch.psf_to_otf]) *)

(** A slice of one dimension of size [n], as the first index it holds
    and the index after the last: [:c], [c:] and [-c:] (which is [0:]
    when [c] is 0). *)
Definition slice_to (c n : nat) : nat * nat := (0, min c n)%nat.
Definition slice_from (c n : nat) : nat * nat := (min c n, n)%nat.
Definition slice_last (c n : nat) : nat * nat :=
  if (c =? 0)%nat then (0, n)%nat else (n - c, n)%nat.

Definition extent (s : nat * nat) : nat := snd s - fst s.

(** [l[a:b]] *)
Definition take {A} (s : nat * nat) (l : list A) : list A :=
  firstn (extent s) (skipn (fst s) l).

(** [l[a:b] = new], for [new] of the size of the slice. *)
Definition put {A} (s : nat * nat) (new l : list A) : list A :=
  firstn (fst s) l ++ new ++ skipn (snd s) l.

(** One dimension of the source of an assignment fits the target when
    the sizes are equal or the source has size 1. *)
Definition fits (src dst : nat) : bool := (src =? dst)%nat || (src =? 1)%nat.

(** The source along one dimension, its only element repeated when the
    sizes differ. *)
Definition expand {A} (d : A) (n : nat) (l : list A) : list A :=
  if (length l =? n)%nat then l else repeat (hd d l) n.

(** [X[rs, cs] = src] on one matrix. *)
Definition assign2d (rs cs : nat * nat) (src X : image R) : image R :=
  put rs (map (fun p => put cs (expand 0 (extent cs) (fst p)) (snd p))
              (combine (expand [] (extent rs) src) (take rs X)))
      X.

(** [psf[:, :, rs, cs] = ker[:, :, srs, scs]]: torch refuses a source
    that cannot be broadcast to the target. *)
Definition assign (rs cs srs scs : nat * nat) (ker psf : tensor R) : res (tensor R) :=
  if fits (length ker) (length psf) && fits (extent srs) (extent rs)
     && fits (extent scs) (extent cs)
  then Ok (map (fun p => assign2d rs cs (map (take scs) (take srs (fst p))) (snd p))
               (combine (expand [] (length psf) ker) psf))
  else Err ShapeError.

(** [psf_to_otf(ker, size)], [size] being [[N, 1, H, W]]. *)
Definition psf_to_otf (ker : tensor R) (size : nat * nat * nat)
  : res (tensor R * tensor C) :=
  let '(N, H, W) := size in
  let h := length (hd [] ker) in
  let w := width (hd [] ker) in
  let psf := repeat (repeat (repeat 0 W) H) N in
  let center := ((h + 1) / 2)%nat in
  psf <- assign (slice_to center H) (slice_to center W)
                (slice_from center h) (slice_from center w) ker psf ;;
  psf <- assign (slice_to center H) (slice_last center W)
                (slice_from center h) (slice_to center w) ker psf ;;
  psf <- assign (slice_last center H) (slice_to center W)
                (slice_to center h) (slice_from center w) ker psf ;;
  psf <- assign (slice_last center H) (slice_last center W)
                (slice_to center h) (slice_to center w) ker psf ;;
  Ok (psf, fft2 (complex psf)).

(** [laplacian_kernel()], a batch (1,1,3,3). *)
Definition laplacian_kernel : tensor R :=
  [[[0; 1; 0]; [1; -4; 1]; [0; 1; 0]]].

(** Whether index [i] lies in a slice. *)
Definition in_slice (s : nat * nat) (i : nat) : bool :=
  (fst s <=? i)%nat && (i <? snd s)%nat.

(** Entry [(i, j)] of element [b] of a batch, 0 outside of it. *)
Definition bentry (T : tensor R) (b i j : nat) : R := entry (nth b T []) i j.

(** A batch of shape (N,H,W) given entry by entry. *)
Definition holds (N H W : nat) (F : nat -> nat -> nat -> R) (psf : tensor R) : Prop :=
  has_shape N H W psf /\
  forall b i j, (b < N)%nat -> entry (nth b psf []) i j = F b i j.

(** The entries of [psf] after the four assignments of [psf_to_otf], for
    a kernel of [h] by [w] and [center = c] no larger than the sizes:
    the last assignment that covers a place decides. *)
Definition psf_entries (H W h w c : nat) (ker : tensor R) (b i j : nat) : R :=
  if in_slice (H - c, H)%nat i && in_slice (W - c, W)%nat j
  then entry (nth b ker []) (i - (H - c)) (j - (W - c))
  else if in_slice (H - c, H)%nat i && in_slice (0, c)%nat j
  then entry (nth b ker []) (i - (H - c)) (c + (if (w - c =? c)%nat then j else 0))
  else if in_slice (0, c)%nat i && in_slice (W - c, W)%nat j
  then entry (nth b ker []) (c + (if (h - c =? c)%nat then i else 0)) (j - (W - c))
  else if in_slice (0, c)%nat i && in_slice (0, c)%nat j
  then entry (nth b ker []) (c + (if (h - c =? c)%nat then i else 0))
                            (c + (if (w - c =? c)%nat then j else 0))
  else 0.

(** ** Python exceptions besides torch's *)

(** What [MultiScaleLoss.forward] and [Galaxy_Dataset.__init__] can end
    in: a value, Python's AttributeError on an attribute that was never
    assigned, or one of the outcomes of a tensor operation above. *)
Inductive raised : Set := AttributeError | Torch (e : error).

Inductive outcome (A : Type) : Type :=
| Return (a : A)
| Raise (r : raised).

Arguments Return {A} a.
Arguments Raise {A} r.

Definition obind {A B} (m : outcome A) (k : A -> outcome B) : outcome B :=
  match m with
  | Return a => k a
  | Raise r => Raise r
  end.

(** The outcome of a tensor operation, as an outcome of Python. *)
Definition torch {A} (r : res A) : outcome A :=
  match r with
  | Ok a => Return a
  | Err e => Raise (Torch e)
  end.

(** ** The multi-scale loss ([utils.utils_torch.MultiScaleLoss]) *)

(** [nn.AvgPool2d(k, k)] on one matrix: the means of the windows of [k]
    by [k], stride [k]; an output without rows or columns is refused. *)
Definition avg_pool (k : nat) (X : image R) : res (image R) :=
  let H := length X in
  let W := width X in
  if (k =? 0)%nat || (H <? k)%nat || (W <? k)%nat then Err ShapeError
  else
    Ok (map (fun i =>
          map (fun j =>
            rsum (map (fun a =>
              rsum (map (fun b => entry X (i * k + a) (j * k + b)) (seq 0 k)))
              (seq 0 k))
            / INR (k * k))
            (seq 0 ((W - k) / k + 1)))
          (seq 0 ((H - k) / k + 1))).

Definition AvgPool2d (k : nat) (T : tensor R) : res (tensor R) :=
  mapM (avg_pool k) T.

(** All entries of a batch. *)
Definition flatten (T : tensor R) : list R := concat (map (@concat R) T).

(** The mean over all entries; torch gives nan for a batch without
    entries, the division of 0 by 0. *)
Definition mean_all (T : tensor R) : res R :=
  if (length (flatten T) =? 0)%nat then Err DivByZero else Ok (mean (flatten T)).

(** [nn.L1Loss()] and [nn.MSELoss()], with the default reduction. *)
Definition L1Loss (input target : tensor R) : res R :=
  d <- tzip (lift2 (fun x y => Rabs (x - y))) input target ;; mean_all d.

Definition MSELoss (input target : tensor R) : res R :=
  d <- tzip (lift2 (fun x y => (x - y) * (x - y))) input target ;; mean_all d.

(** The [norm] argument: ['L1'], ['L2'], or any other string. *)
Inductive norm_t : Set := L1 | L2 | other_norm.

(** The module: [loss] is assigned only for the two known norms. *)
Record MultiScaleLoss : Type :=
  { scales : nat; loss : option (tensor R -> tensor R -> res R) }.

Definition MultiScaleLoss_init (n_scales : nat) (norm : norm_t) : MultiScaleLoss :=
  {| scales := n_scales;
     loss := match norm with
             | L1 => Some L1Loss
             | L2 => Some MSELoss
             | other_norm => None
             end |}.

(** One pass of the loop of [forward], at scale [i], on the running
    sum. *)
Definition loss_step (m : MultiScaleLoss) (output target : tensor R) (i : nat) (acc : R)
  : outcome R :=
  obind (torch (AvgPool2d (2 ^ i) output)) (fun output_i =>
  obind (torch (AvgPool2d (2 ^ i) target)) (fun target_i =>
  obind (match loss m with
         | Some f => torch (f output_i target_i)
         | None => Raise AttributeError
         end) (fun l =>
  Return (acc + 1 / 2 ^ i * l)))).

Fixpoint loss_loop (m : MultiScaleLoss) (output target : tensor R) (range : list nat)
  (acc : R) : outcome R :=
  match range with
  | [] => Return acc
  | i :: range' =>
      obind (loss_step m output target i acc)
            (loss_loop m output target range')
  end.

(** [MultiScaleLoss.forward(output, target)] *)
Definition MultiScaleLoss_forward (m : MultiScaleLoss) (output target : tensor R)
  : outcome R :=
  loss_loop m output target (seq 0 (scales m)) 0.

(** One of the two losses that [__init__] can assign. *)
Definition known (f : tensor R -> tensor R -> res R) : Prop := f = L1Loss \/ f = MSELoss.

(** ** The data set ([utils.utils_data.Galaxy_Dataset]) *)

(** The values of the information file, and the values that the
    attributes of the data set hold. *)
Inductive jsonval : Type :=
| JInt (n : nat)
| JSeq (l : list nat).

Inductive pyval : Type :=
| VStr (s : String.string)
| VBool (b : bool)
| VJson (j : jsonval)
| VDict (d : odict jsonval)
| VLogger.

(** What the constructor reaches outside of the program:
    [os.path.join], the text of [f'{a}_{b}_info.json'], and the
    dictionary that [open] and [json.load] give for a path, [None] when
    one of them raises. *)
Record env_t : Type :=
  { path_join : String.string -> String.string -> String.string;
    info_name : pyval -> pyval -> String.string;
    load_json : String.string -> option (odict jsonval) }.

(** [self.name] on an object given by its assigned attributes: neither
    [Galaxy_Dataset] nor [Dataset] defines class attributes that the
    constructor reads. *)
Definition getattr (self : odict pyval) (name : String.string) : outcome pyval :=
  match od_get name self with
  | Some v => Return v
  | None => Raise AttributeError
  end.

(** The body of the [try] block, on the dictionary read from the file:
    a key that is missing ends the block, what was assigned before it
    stays. *)
Definition read_info (d : odict jsonval) (self : odict pyval) : odict pyval :=
  let self := od_set "info"%string (VDict d) self in
  match od_get "n_total"%string d with
  | None => self
  | Some v1 =>
      let self := od_set "n_total"%string (VJson v1) self in
      match od_get "n_train"%string d with
      | None => self
      | Some v2 =>
          let self := od_set "n_train"%string (VJson v2) self in
          match od_get "n_test"%string d with
          | None => self
          | Some v3 =>
              let self := od_set "n_test"%string (VJson v3) self in
              match od_get "sequence"%string d with
              | None => self
              | Some v4 => od_set "sequence"%string (VJson v4) self
              end
          end
      end
  end.

(** [Galaxy_Dataset.__init__(data_path, train, psf_folder, obs_folder,
    gt_folder)]: the attributes of the object it leaves. *)
Definition Galaxy_Dataset_init (env : env_t) (data_path : String.string) (train : bool)
  (psf_folder obs_folder gt_folder : String.string) : outcome (odict pyval) :=
  let self := od_set "logger"%string VLogger [] in
  let self := od_set "data_path"%string (VStr data_path) self in
  let self := od_set "train"%string (VBool train) self in
  let self := od_set "psf_folder"%string (VStr psf_folder) self in
  let self := od_set "obs_folder"%string (VStr obs_folder) self in
  let self := od_set "gt_folder"%string (VStr gt_folder) self in
  let self := od_set "n_total"%string (VJson (JInt 0)) self in
  let self := od_set "n_train"%string (VJson (JInt 0)) self in
  let self := od_set "n_test"%string (VJson (JInt 0)) self in
  let self := od_set "sequence"%string (VJson (JSeq [])) self in
  let self := od_set "info"%string (VDict []) self in
  obind (getattr self "data_path"%string) (fun dp =>
  obind (getattr self "survey"%string) (fun survey =>
  obind (getattr self "I"%string) (fun band =>
  let file := path_join env (match dp with VStr s => s | _ => ""%string end)
                        (info_name env survey band) in
  let self := od_set "info_file"%string (VStr file) self in
  Return (match load_json env file with
          | Some d => read_info d self
          | None => self
          end)))).

(** [get_dataloader(data_path, train, ..., psf_folder, obs_folder,
    gt_folder)]: the data set is built first; [loaders_train] and
    [loaders_test] stand for the splitting and the wrapping into
    loaders that follow. *)
Definition get_dataloader {L : Type} (env : env_t)
  (loaders_train loaders_test : odict pyval -> outcome L)
  (data_path : String.string) (train : bool)
  (psf_folder obs_folder gt_folder : String.string) : outcome L :=
  if train
  then obind (Galaxy_Dataset_init env data_path true "psf/"%string "obs/"%string
                                  "gt/"%string) loaders_train
  else obind (Galaxy_Dataset_init env data_path false psf_folder obs_folder gt_folder)
             loaders_test.

(** ** Convolution by the transfer function ([utils.utils_torch.conv_fft_batch]) *)

(** [fftn(x)] and [ifftn(x)]: the transforms over the dimensions 2 and
    3 of a batch (N,1,H,W), its last two. *)
Definition fftn (x : tensor C) : tensor C := fft2 x.
Definition ifftn (x : tensor C) : tensor C := ifft2 x.

(** [conv_fft_batch(H, x)] on a real batch. *)
Definition conv_fft_batch (H : tensor C) (x : tensor R) : res (tensor R) :=
  Y_fft <- cmul (fftn (complex x)) H ;;
  Ok (real (ifftn Y_fft)).

(** Entry [(i, j)] of a complex matrix, and a double sum over indices. *)
Definition centry (X : image C) (i j : nat) : C := nth j (nth i X []) C0.

Definition Csum2 (M N : nat) (F : nat -> nat -> C) : C :=
  Csum (map (fun m => Csum (map (fun n => F m n) (seq 0 N))) (seq 0 M)).


(** ** Entries and weights of a batch *)

(** Two batches of one shape, entry by entry. *)
Definition zip3 {A B} (Ta : tensor A) (Tb : tensor B) : tensor (A * B) :=
  map (fun p => map (fun q => combine (fst q) (snd q)) (combine (fst p) (snd p)))
      (combine Ta Tb).

(** The weights of a batch of [n] elements, one per element, from a
    tensor that holds one weight per element or one for the batch. *)
Definition weights_of (n : nat) (rho : tensor R) : list R :=
  if (length rho =? n)%nat
  then map (fun X => nth 0 (nth 0 X []) 0) rho
  else repeat (nth 0 (nth 0 (hd [] rho) []) 0) n.

(** Entry [(i, j)] of element [b] of a batch, for any type of entry. *)
Definition nth3 {A} (d : A) (T : tensor A) (b i j : nat) : A :=
  nth j (nth i (nth b T []) []) d.

(** A map over a batch whose function depends on the weight of the
    element. *)
Definition wmap {A D} (g : R -> A -> D) (rs : list R) (T : tensor A) : tensor D :=
  map (fun p => map (map (g (fst p))) (snd p)) (combine rs T).

(** * Properties *)

(** ** Padding and cropping *)

Lemma pad_list_length A (z : A) b a l :
  length (pad_list z b a l) = (b + length l + a)%nat.
Proof. unfold pad_list. rewrite !length_app, !repeat_length. lia. Qed.

Lemma half_split (n : nat) : (n / 2 + n + (n - n / 2) = 2 * n)%nat.
Proof.
  assert (n / 2 <= n)%nat by (apply Nat.Div0.div_le_upper_bound; lia). lia.
Qed.

Lemma double_half (n : nat) : ((2 * n) / 2 = n)%nat.
Proof. rewrite Nat.mul_comm. apply Nat.div_mul. discriminate. Qed.

Lemma crop_pad_list A (z : A) (l : list A) :
  crop_list (pad_list z (length l / 2) (length l - length l / 2) l) = l.
Proof.
  unfold crop_list. rewrite pad_list_length, half_split, double_half.
  replace (2 * length l - length l)%nat with (length l) by lia.
  unfold pad_list.
  rewrite skipn_app, repeat_length, Nat.sub_diag. simpl skipn at 2.
  rewrite skipn_all2 by (rewrite repeat_length; lia). simpl.
  rewrite firstn_app, Nat.sub_diag, firstn_all. simpl. apply app_nil_r.
Qed.

Lemma crop_pad_2d A (z : A) (X : image A) :
  rect X -> crop_half2d (pad_double2d z X) = X.
Proof.
  intros HX. unfold crop_half2d, pad_double2d.
  set (P := map _ X).
  assert (HP : length P = length X) by (unfold P; apply length_map).
  rewrite <- HP, crop_pad_list. unfold P. rewrite map_map.
  rewrite <- (map_id X) at 2. apply map_ext_in. intros r Hr.
  unfold rect in HX. rewrite Forall_forall in HX. rewrite <- (HX r Hr).
  apply crop_pad_list.
Qed.

(** C3: cropping the centered half of the doubled, zero-padded batch
    gives the batch back, entry for entry, whatever value fills the
    border. *)
Theorem crop_half_pad_double A (z : A) (T : tensor A) :
  Forall rect T -> crop_half (pad_double z T) = T.
Proof.
  intros HT. unfold crop_half, pad_double. rewrite map_map.
  rewrite <- (map_id T) at 2. apply map_ext_in. intros X HX.
  rewrite Forall_forall in HT. apply crop_pad_2d; auto.
Qed.

Lemma crop_half_pad_double_witness :
  Forall rect [[[1; 2; 3]; [4; 5; 6]]; [[7; 8; 9]; [10; 11; 12]]]%nat /\
  crop_half (pad_double 0%nat [[[1; 2; 3]; [4; 5; 6]]; [[7; 8; 9]; [10; 11; 12]]]%nat)
  = [[[1; 2; 3]; [4; 5; 6]]; [[7; 8; 9]; [10; 11; 12]]]%nat.
Proof.
  assert (H : Forall rect [[[1; 2; 3]; [4; 5; 6]]; [[7; 8; 9]; [10; 11; 12]]]%nat)
    by (repeat constructor).
  split; [exact H | exact (crop_half_pad_double 0%nat H)].
Defined.

(** ** Sizes of the results of the tensor operations *)

Lemma sized_impl A (P Q : A -> Prop) n l :
  (forall a, P a -> Q a) -> sized P n l -> sized Q n l.
Proof. intros H [Hl HF]. split; auto. eapply Forall_impl; eauto. Qed.

Lemma sized_map A B (f : A -> B) (P : A -> Prop) (Q : B -> Prop) n l :
  (forall a, P a -> Q (f a)) -> sized P n l -> sized Q n (map f l).
Proof.
  intros H [Hl HF]. split.
  - now rewrite length_map.
  - apply Forall_map. eapply Forall_impl; eauto.
Qed.

Lemma shaped_tmap A B (f : A -> B) (P : A -> Prop) (Q : B -> Prop) n h w T :
  (forall a, P a -> Q (f a)) -> shaped P n h w T -> shaped Q n h w (tmap f T).
Proof.
  intros H. unfold shaped, tmap.
  apply sized_map. intro X. apply sized_map. intro r. now apply sized_map.
Qed.

Lemma shaped_impl A (P Q : A -> Prop) n h w (T : tensor A) :
  (forall a, P a -> Q a) -> shaped P n h w T -> shaped Q n h w T.
Proof.
  intros H. unfold shaped.
  apply sized_impl. intro X. apply sized_impl. intro r. now apply sized_impl.
Qed.

Lemma mapM_sized A B (f : A -> res B) (P : A -> Prop) (Q : B -> Prop) n l :
  (forall a, P a -> exists b, f a = Ok b /\ Q b) ->
  sized P n l -> exists l', mapM f l = Ok l' /\ sized Q n l'.
Proof.
  intros Hf [Hl HF]. subst n. induction HF as [|a l Ha _ IH]; simpl.
  - exists []. split; auto. split; auto.
  - destruct (Hf a Ha) as (b & -> & Hb). destruct IH as (l' & -> & Hl' & HF').
    simpl. exists (b :: l'). split; auto. split; simpl; auto.
Qed.

Lemma mapM2_sized A B D (f : A -> B -> res D) (PA : A -> Prop) (PB : B -> Prop)
  (PC : D -> Prop) n la lb :
  (forall a b, PA a -> PB b -> exists c, f a b = Ok c /\ PC c) ->
  sized PA n la -> sized PB n lb ->
  exists lc, mapM2 f la lb = Ok lc /\ sized PC n lc.
Proof.
  intros Hf [Hla HA] [Hlb HB]. subst n. revert lb Hlb HB.
  induction HA as [|a la Ha _ IH]; intros [|b lb] Hlb HB; simpl in *; try discriminate.
  - exists []. split; auto. split; auto.
  - inversion HB as [|? ? Hb HB']; subst.
    destruct (Hf a b Ha Hb) as (c & -> & Hc).
    destruct (IH lb) as (lc & -> & Hlc & HC); auto.
    simpl. exists (c :: lc). split; auto. split; simpl; auto.
Qed.

Lemma bzip_sized A B D (f : A -> B -> res D) (PA : A -> Prop) (PB : B -> Prop)
  (PC : D -> Prop) na nb la lb :
  (forall a b, PA a -> PB b -> exists c, f a b = Ok c /\ PC c) ->
  compat na nb -> sized PA na la -> sized PB nb lb ->
  exists lc, bzip f la lb = Ok lc /\ sized PC (bdim na nb) lc.
Proof.
  intros Hf Hc HA HB. unfold bzip, bdim.
  destruct HA as [Hla HA], HB as [Hlb HB].
  destruct (length la =? length lb)%nat eqn:E.
  - apply Nat.eqb_eq in E.
    assert (Hn : (if (na =? 1)%nat then nb else na) = na).
    { destruct (na =? 1)%nat eqn:E1; auto. apply Nat.eqb_eq in E1. lia. }
    rewrite Hn. apply mapM2_sized with (PA := PA) (PB := PB); auto.
    + split; auto.
    + split; auto. lia.
  - apply Nat.eqb_neq in E.
    destruct Hc as [Hc | [Hc | Hc]]; [lia | |].
    + rewrite Hc in *. simpl.
      destruct la as [|a [|a' la]]; simpl in Hla; try discriminate.
      inversion HA; subst.
      apply mapM_sized with (P := PB); [intros; apply Hf; auto | split; auto].
    + assert (Hn : (if (na =? 1)%nat then nb else na) = na).
      { destruct (na =? 1)%nat eqn:E1; auto. apply Nat.eqb_eq in E1. lia. }
      rewrite Hn.
      destruct lb as [|b [|b' lb]]; simpl in Hlb; try lia.
      inversion HB; subst.
      assert (Hgoal : exists lc, mapM (fun a => f a b) la = Ok lc /\ sized PC (length la) lc).
      { apply mapM_sized with (P := PA); [intros; apply Hf; auto | split; auto]. }
      destruct la as [|a [|a' la]]; auto.
Qed.

Lemma tzip_shaped A B D (f : A -> B -> res D) (PA : A -> Prop) (PB : B -> Prop)
  (PC : D -> Prop) na ha wa nb hb wb Ta Tb :
  (forall a b, PA a -> PB b -> exists c, f a b = Ok c /\ PC c) ->
  compat na nb -> compat ha hb -> compat wa wb ->
  shaped PA na ha wa Ta -> shaped PB nb hb wb Tb ->
  exists Tc, tzip f Ta Tb = Ok Tc /\ shaped PC (bdim na nb) (bdim ha hb) (bdim wa wb) Tc.
Proof.
  intros Hf Hn Hh Hw. unfold shaped, tzip.
  apply bzip_sized; auto. intros X X'.
  apply bzip_sized; auto. intros r r'.
  apply bzip_sized; auto.
Qed.

Lemma bdim_same n : bdim n n = n.
Proof. unfold bdim. destruct (n =? 1)%nat; reflexivity. Qed.

Lemma In_firstn A n (l : list A) x : In x (firstn n l) -> In x l.
Proof.
  revert l. induction n as [|n IH]; intros [|a l]; simpl; try tauto.
  intros [H | H]; auto.
Qed.

Lemma In_skipn A n (l : list A) x : In x (skipn n l) -> In x l.
Proof.
  revert l. induction n as [|n IH]; intros [|a l]; simpl; try tauto.
  intros H. right. auto.
Qed.

Lemma sized_repeat A (P : A -> Prop) (z : A) n : P z -> sized P n (repeat z n).
Proof.
  intros Hz. split; [apply repeat_length|].
  apply Forall_forall. intros x Hx. apply repeat_spec in Hx. now subst.
Qed.

Lemma sized_app A (P : A -> Prop) n1 n2 (l1 l2 : list A) :
  sized P n1 l1 -> sized P n2 l2 -> sized P (n1 + n2) (l1 ++ l2).
Proof.
  intros [H1 F1] [H2 F2]. split.
  - rewrite length_app. lia.
  - apply Forall_app. auto.
Qed.

Lemma sized_pad_list A (P : A -> Prop) (z : A) b a n l :
  P z -> sized P n l -> sized P (b + n + a) (pad_list z b a l).
Proof.
  intros Hz Hl. unfold pad_list. rewrite <- Nat.add_assoc.
  repeat apply sized_app; auto using sized_repeat.
Qed.

Lemma sized_crop_list A (P : A -> Prop) n (l : list A) :
  sized P (2 * n) l -> sized P n (crop_list l).
Proof.
  intros [Hl HF]. unfold crop_list. rewrite Hl, double_half. split.
  - rewrite length_firstn, length_skipn, Hl.
    assert (n / 2 <= n)%nat by (apply Nat.Div0.div_le_upper_bound; lia).
    replace (2 * n - n)%nat with n by lia. lia.
  - rewrite Forall_forall in *. intros x Hx.
    apply HF. eapply In_skipn, In_firstn, Hx.
Qed.

Lemma sized_roll_left A (P : A -> Prop) s n (l : list A) :
  sized P n l -> sized P n (roll_left s l).
Proof.
  intros [Hl HF]. unfold roll_left. split.
  - rewrite length_app, length_firstn, length_skipn. lia.
  - rewrite Forall_forall in *. intros x Hx. apply in_app_or in Hx.
    apply HF. destruct Hx; eauto using In_skipn, In_firstn.
Qed.

Lemma shaped_pad_double A (P : A -> Prop) (z : A) n h w T :
  P z -> shaped P n h w T -> shaped P n (2 * h) (2 * w) (pad_double z T).
Proof.
  intros Hz. unfold shaped, pad_double. apply sized_map. intros X HX.
  unfold pad_double2d. destruct HX as [Hl HF].
  destruct X as [|r X].
  - simpl in *. subst h. simpl. split; auto.
  - assert (Hw : width (r :: X) = w).
    { inversion HF as [|? ? [Hr _] _]; subst. reflexivity. }
    rewrite Hw, Hl. rewrite <- (half_split h).
    apply sized_pad_list.
    + apply sized_repeat; auto.
    + apply sized_map with (P := sized P w); [|split; auto].
      intros r' Hr'. rewrite <- (half_split w). apply sized_pad_list; auto.
Qed.

Lemma shaped_crop_half A (P : A -> Prop) n h w (T : tensor A) :
  shaped P n (2 * h) (2 * w) T -> shaped P n h w (crop_half T).
Proof.
  unfold shaped, crop_half. apply sized_map. intros X HX.
  unfold crop_half2d.
  apply sized_map with (P := sized P (2 * w)).
  - intros r. apply sized_crop_list.
  - now apply sized_crop_list.
Qed.

Lemma shaped_ifftshift A (P : A -> Prop) n h w (T : tensor A) :
  shaped P n h w T -> shaped P n h w (ifftshift T).
Proof.
  unfold shaped, ifftshift. apply sized_map. intros X HX.
  apply sized_roll_left. eapply sized_map; [|exact HX].
  intros r. apply sized_roll_left.
Qed.

Lemma shaped_fftshift A (P : A -> Prop) n h w (T : tensor A) :
  shaped P n h w T -> shaped P n h w (fftshift T).
Proof.
  unfold shaped, fftshift. apply sized_map. intros X HX.
  apply sized_roll_left. eapply sized_map; [|exact HX].
  intros r. apply sized_roll_left.
Qed.

Lemma sized_seq_map A (f : nat -> A) (P : A -> Prop) n :
  (forall k, P (f k)) -> sized P n (map f (seq 0 n)).
Proof.
  intros H. split.
  - now rewrite length_map, length_seq.
  - apply Forall_map, Forall_forall. intros; apply H.
Qed.

Lemma sized_dft2 (P : C -> Prop) sgn h w (X : image C) :
  sized (sized P w) h X -> sized (sized (fun _ => True) w) h (dft2 sgn X).
Proof.
  intros HX. unfold dft2. destruct HX as [Hl HF].
  destruct X as [|r X].
  - simpl in *. subst h. split; auto.
  - assert (Hw : width (r :: X) = w).
    { inversion HF as [|? ? [Hr _] _]; subst. reflexivity. }
    rewrite Hw, Hl. apply sized_seq_map. intros k.
    apply sized_seq_map. trivial.
Qed.

Lemma shaped_fft2 (P : C -> Prop) n h w (T : tensor C) :
  shaped P n h w T -> has_shape n h w (fft2 T).
Proof.
  unfold has_shape, shaped, fft2. apply sized_map. intros X. apply sized_dft2.
Qed.

Lemma shaped_ifft2 (P : C -> Prop) n h w (T : tensor C) :
  shaped P n h w T -> has_shape n h w (ifft2 T).
Proof.
  unfold has_shape, shaped, ifft2. apply sized_map. intros X HX.
  eapply sized_map; [|eapply sized_dft2; exact HX].
  intros r. apply sized_map. trivial.
Qed.

Lemma tzip_lift2_shaped A B D (f : A -> B -> D) (PA : A -> Prop) (PB : B -> Prop)
  (PC : D -> Prop) na ha wa nb hb wb Ta Tb :
  (forall a b, PA a -> PB b -> PC (f a b)) ->
  compat na nb -> compat ha hb -> compat wa wb ->
  shaped PA na ha wa Ta -> shaped PB nb hb wb Tb ->
  exists Tc, tzip (lift2 f) Ta Tb = Ok Tc /\
             shaped PC (bdim na nb) (bdim ha hb) (bdim wa wb) Tc.
Proof.
  intros Hf. apply tzip_shaped. intros a b Ha Hb.
  exists (f a b). split; [reflexivity | auto].
Qed.

Lemma compat_refl n : compat n n.
Proof. left. reflexivity. Qed.

Lemma compat_1_l n : compat 1 n.
Proof. right. left. reflexivity. Qed.

Lemma compat_batch nr n : nr = n \/ nr = 1%nat -> compat nr n.
Proof. intros [H | H]; [left | right; left]; assumption. Qed.

Lemma bdim_batch nr n : nr = n \/ nr = 1%nat -> bdim nr n = n.
Proof. intros [-> | ->]; [apply bdim_same | reflexivity]. Qed.

Lemma bdim_batch_r nr n : nr = n \/ nr = 1%nat -> bdim n nr = n.
Proof.
  intros [-> | ->]; [apply bdim_same |].
  unfold bdim. destruct (n =? 1)%nat eqn:E; auto. apply Nat.eqb_eq in E. auto.
Qed.

Lemma compat_batch_r nr n : nr = n \/ nr = 1%nat -> compat n nr.
Proof. intros [H | H]; [left; auto | right; right; assumption]. Qed.

Lemma bdim_1_l n : bdim 1 n = n.
Proof. reflexivity. Qed.

Lemma compat_1_r n : compat n 1.
Proof. right. right. reflexivity. Qed.

Lemma bdim_1_r n : bdim n 1 = n.
Proof. unfold bdim. destruct (n =? 1)%nat eqn:E; auto. apply Nat.eqb_eq in E. auto. Qed.

Create HintDb shape.

#[local] Hint Resolve compat_refl compat_1_l compat_1_r compat_batch compat_batch_r : shape.

Lemma Cabs_sq_nonneg (c : C) : 0 <= Cabs c * Cabs c.
Proof. apply Rle_0_sqr. Qed.

Lemma shaped_abs_sq (P : C -> Prop) n h w (T : tensor C) :
  shaped P n h w T -> shaped (fun v => 0 <= v) n h w (abs_sq T).
Proof. apply shaped_tmap. intros; apply Cabs_sq_nonneg. Qed.

Lemma recip_shaped n h w (T : tensor R) :
  shaped (fun v => 0 < v) n h w T ->
  exists T', recip T = Ok T' /\ shaped (fun v => 0 < v) n h w T'.
Proof.
  unfold shaped, recip. apply mapM_sized. intros X.
  apply mapM_sized. intros r. apply mapM_sized. intros d Hd.
  unfold recip_entry. destruct (Req_dec_T d 0) as [E | E]; [lra|].
  exists (/ d). split; auto. now apply Rinv_0_lt_compat.
Qed.

Lemma cdiv_shaped (P : C -> Prop) n h w (Ta : tensor C) (Tb : tensor R) :
  shaped P n h w Ta -> shaped (fun v => 0 < v) n h w Tb ->
  exists Tc, cdiv Ta Tb = Ok Tc /\ has_shape n h w Tc.
Proof.
  intros HA HB. unfold cdiv, has_shape.
  rewrite <- (bdim_same n), <- (bdim_same h), <- (bdim_same w).
  eapply tzip_shaped; eauto with shape.
  intros a d _ Hd. unfold cdiv_entry.
  destruct (Req_dec_T d 0) as [E | E]; [simpl in Hd; lra|].
  eexists; split; [reflexivity | exact I].
Qed.

(** The last steps of both solves: inverse transform, shift, real part,
    crop. *)
Lemma back_shaped (P : C -> Prop) n h w (q : tensor C) :
  shaped P n (2 * h) (2 * w) q ->
  has_shape n h w (crop_half (real (fftshift (ifft2 q)))).
Proof.
  intros Hq. apply shaped_crop_half.
  apply shaped_tmap with (P := fun _ : C => True); [trivial|].
  apply shaped_fftshift. eapply shaped_ifft2; eauto.
Qed.

(** The transform of a padded real batch. *)
Lemma spectrum_shaped (P : R -> Prop) n h w (T : tensor R) :
  shaped P n h w T ->
  has_shape n (2 * h) (2 * w) (fft2 (complex (ifftshift (pad_double 0 T)))).
Proof.
  intros HT. apply shaped_fft2 with (P := fun _ => True).
  apply shaped_tmap with (P := fun _ : R => True); [trivial|].
  apply shaped_ifftshift, shaped_pad_double; [trivial|].
  eapply shaped_impl; [|exact HT]. trivial.
Qed.

Lemma init_l2_shaped n h w na (Y Ht : tensor C) (HtH alpha : tensor R) :
  has_shape n (2 * h) (2 * w) Y -> has_shape n (2 * h) (2 * w) Ht ->
  shaped (fun v => 0 <= v) n (2 * h) (2 * w) HtH ->
  na = n \/ na = 1%nat ->
  shaped (fun v => 0 < v) na 1 1 alpha ->
  exists z, init_l2 Y Ht HtH alpha = Ok z /\ has_shape n h w z.
Proof.
  intros HY HHt HHtH Hna Ha. unfold init_l2, cmul, radd.
  destruct (tzip_lift2_shaped Cmul (fun _ => True) (fun _ _ _ _ => I)
              (compat_refl n) (compat_refl (2 * h)) (compat_refl (2 * w)) HY HHt)
    as (rhs & -> & Hrhs).
  rewrite !bdim_same in Hrhs. simpl.
  destruct (recip_shaped Ha) as (ra & -> & Hra). simpl.
  assert (Hpos : forall a b : R, 0 <= a -> 0 < b -> 0 < a + b) by (intros; lra).
  destruct (tzip_lift2_shaped Rplus (fun v => 0 < v) Hpos
              (compat_batch_r Hna) (compat_1_r (2 * h)) (compat_1_r (2 * w)) HHtH Hra)
    as (lhs & Elhs & Hlhs).
  rewrite Elhs. simpl.
  rewrite (bdim_batch_r Hna), !bdim_1_r in Hlhs.
  destruct (cdiv_shaped Hrhs Hlhs) as (q & -> & Hq). simpl.
  eexists. split; [reflexivity|]. eapply back_shaped; eauto.
Qed.

Lemma X_Update_shaped n h w nr (Y Ht : tensor C) (HtH z u rho : tensor R) :
  has_shape n (2 * h) (2 * w) Y -> has_shape n (2 * h) (2 * w) Ht ->
  shaped (fun v => 0 <= v) n (2 * h) (2 * w) HtH ->
  has_shape n h w z -> has_shape n h w u ->
  nr = n \/ nr = 1%nat ->
  shaped (fun v => 0 < v) nr 1 1 rho ->
  exists x, X_Update_Gaussian Y Ht HtH z u rho = Ok x /\ has_shape n h w x.
Proof.
  intros HY HHt HHtH Hz Hu Hnr Hrho. unfold X_Update_Gaussian, cmul, radd, rmul, rsub, cadd.
  assert (Hpos : forall a b : R, 0 < a -> 0 <= b -> 0 < a + b) by (intros; lra).
  destruct (tzip_lift2_shaped Rplus (fun v => 0 < v) Hpos
              (compat_batch Hnr) (compat_1_l (2 * h)) (compat_1_l (2 * w)) Hrho HHtH)
    as (lhs & Elhs & Hlhs).
  rewrite Elhs. simpl.
  rewrite (bdim_batch Hnr), !bdim_1_l in Hlhs.
  destruct (tzip_lift2_shaped Cmul (fun _ => True) (fun _ _ _ _ => I)
              (compat_refl n) (compat_refl (2 * h)) (compat_refl (2 * w)) HHt HY)
    as (hy & Ehy & Hhy).
  rewrite Ehy. simpl. rewrite !bdim_same in Hhy.
  destruct (tzip_lift2_shaped Rmult (fun _ => True) (fun _ _ _ _ => I)
              (compat_batch Hnr) (compat_1_l h) (compat_1_l w) Hrho Hz)
    as (rz & Erz & Hrz).
  rewrite Erz. simpl.
  rewrite (bdim_batch Hnr), !bdim_1_l in Hrz.
  destruct (tzip_lift2_shaped Rminus (fun _ => True) (fun _ _ _ _ => I)
              (compat_refl n) (compat_refl h) (compat_refl w) Hrz Hu)
    as (d & Ed & Hd).
  rewrite Ed. simpl. rewrite !bdim_same in Hd.
  pose proof (spectrum_shaped Hd) as HF.
  destruct (tzip_lift2_shaped Cadd (fun _ => True) (fun _ _ _ _ => I)
              (compat_refl n) (compat_refl (2 * h)) (compat_refl (2 * w)) Hhy HF)
    as (rhs & Erhs & Hrhs).
  rewrite Erhs. simpl. rewrite !bdim_same in Hrhs.
  destruct (cdiv_shaped Hrhs Hlhs) as (q & -> & Hq). simpl.
  eexists. split; [reflexivity|]. eapply back_shaped; eauto.
Qed.

(** ** The loop of the controller *)

Lemma last_item_snoc A (l : list A) (a : A) : last_item (l ++ [a]) = Ok a.
Proof. unfold last_item. rewrite rev_unit. reflexivity. Qed.

Lemma iteration_spec m c i s :
  (s' <- iteration m c i s ;; Ok (st_z s', st_u s'))
  = spec_iteration m c i (st_z s, st_u s).
Proof.
  unfold iteration, spec_iteration. simpl.
  destruct (select_rho m (s_rho c) i) as [rho|e]; simpl; auto.
  destruct (X_Update_Gaussian _ _ _ _ _ rho) as [x|e]; simpl; auto.
  destruct (radd (st_u s) x) as [ux|e]; simpl; auto.
  destruct (rsub ux (Z m x)) as [u|e]; simpl; auto.
Qed.

Lemma iteration_last m c i s s' :
  iteration m c i s = Ok s' ->
  last_item (x_list s') = Ok (st_z s') /\ z_calls s' = S (z_calls s) /\
  exists x, st_z s' = Z m x.
Proof.
  unfold iteration.
  destruct (select_rho m (s_rho c) i) as [rho|e]; simpl; try discriminate.
  destruct (X_Update_Gaussian _ _ _ _ _ rho) as [x|e]; simpl; try discriminate.
  destruct (radd (st_u s) x) as [ux|e]; simpl; try discriminate.
  destruct (rsub ux (Z m x)) as [u|e]; simpl; try discriminate.
  intros H. inversion H; subst; simpl.
  split; [apply last_item_snoc|]. split; eauto.
Qed.

Lemma for_range_spec m c n : forall i s,
  (s' <- for_range (iteration m c) (seq i n) s ;; Ok (st_z s', st_u s'))
  = spec_iterate m c i n (st_z s, st_u s).
Proof.
  induction n as [|n IH]; intros i s; simpl; auto.
  rewrite <- iteration_spec.
  destruct (iteration m c i s) as [s1|e]; simpl; auto.
Qed.

Lemma for_range_keeps m c (P : admm -> Prop) range : forall s s',
  (forall i s s', iteration m c i s = Ok s' -> P s') ->
  P s -> for_range (iteration m c) range s = Ok s' -> P s'.
Proof.
  induction range as [|i range IH]; intros s s' Hstep Hs; simpl.
  - intros H. inversion H; subst. exact Hs.
  - destruct (iteration m c i s) as [s1|e] eqn:E; simpl; try discriminate.
    apply IH; eauto.
Qed.

Lemma for_range_last m c n i s s' :
  (1 <= n)%nat ->
  for_range (iteration m c) (seq i n) s = Ok s' ->
  last_item (x_list s') = Ok (st_z s') /\ exists x, st_z s' = Z m x.
Proof.
  intros Hn. destruct n as [|n]; [lia|]. simpl.
  destruct (iteration m c i s) as [s1|e] eqn:E; simpl; try discriminate.
  apply for_range_keeps
    with (P := fun s' => last_item (x_list s') = Ok (st_z s') /\ exists x, st_z s' = Z m x).
  - intros j t t' Ht. apply iteration_last in Ht. tauto.
  - apply iteration_last in E. tauto.
Qed.

Lemma forward_spec_restore m y kernel alpha :
  (1 <= n_iters m)%nat ->
  forward m y kernel alpha = spec_restore m y kernel alpha.
Proof.
  intros Hn. unfold forward, spec_restore, run.
  destruct (setup m y kernel alpha) as [c|e]; simpl; auto.
  pose proof (for_range_spec m c (n_iters m) 0
                {| st_z := s_z c; st_u := s_u c; x_list := []; z_calls := 0 |}) as Hs.
  simpl in Hs. rewrite <- Hs. clear Hs.
  destruct (for_range _ _ _) as [s'|e] eqn:E; simpl; auto.
  now destruct (for_range_last _ _ _ _ Hn E) as (Hl & _).
Qed.



(** ** Values and errors of the tensor operations *)

Lemma bind_sat A B (Q : A -> Prop) (Q' : B -> Prop) (E : error -> Prop)
  (m : res A) (k : A -> res B) :
  res_sat Q E m -> (forall a, Q a -> res_sat Q' E (k a)) -> res_sat Q' E (a <- m ;; k a).
Proof. destruct m; simpl; auto. Qed.

Lemma res_sat_impl A (Q Q' : A -> Prop) (E E' : error -> Prop) (r : res A) :
  (forall a, Q a -> Q' a) -> (forall e, E e -> E' e) -> res_sat Q E r -> res_sat Q' E' r.
Proof. destruct r; simpl; auto. Qed.

Lemma mapM_sat A B (f : A -> res B) (P : A -> Prop) (Q : B -> Prop) E l :
  (forall a, P a -> res_sat Q E (f a)) -> Forall P l -> res_sat (Forall Q) E (mapM f l).
Proof.
  intros Hf HF. induction HF as [|a l Ha _ IH]; simpl; auto.
  apply bind_sat with (Q := Q); auto. intros b Hb.
  apply bind_sat with (Q := Forall Q); auto. intros bs Hbs. simpl. auto.
Qed.

Lemma mapM2_sat A B D (f : A -> B -> res D) (PA : A -> Prop) (PB : B -> Prop)
  (Q : D -> Prop) E la : forall lb,
  (forall a b, PA a -> PB b -> res_sat Q E (f a b)) ->
  Forall PA la -> Forall PB lb -> res_sat (Forall Q) E (mapM2 f la lb).
Proof.
  induction la as [|a la IH]; intros [|b lb] Hf HA HB; simpl; auto.
  inversion HA; inversion HB; subst.
  apply bind_sat with (Q := Q); auto. intros c Hc.
  apply bind_sat with (Q := Forall Q); auto. intros cs Hcs. simpl. auto.
Qed.

Lemma bzip_sat A B D (f : A -> B -> res D) (PA : A -> Prop) (PB : B -> Prop)
  (Q : D -> Prop) (E : error -> Prop) la lb :
  E ShapeError ->
  (forall a b, PA a -> PB b -> res_sat Q E (f a b)) ->
  Forall PA la -> Forall PB lb -> res_sat (Forall Q) E (bzip f la lb).
Proof.
  intros HE Hf HA HB. unfold bzip.
  destruct (length la =? length lb)%nat.
  - apply mapM2_sat with (PA := PA) (PB := PB); auto.
  - destruct la as [|a [|a' la]].
    + destruct lb as [|b [|b' lb]]; simpl; auto.
    + inversion HA; subst. apply mapM_sat with (P := PB); auto.
    + destruct lb as [|b [|b' lb]]; try exact HE.
      inversion HB; subst. apply mapM_sat with (P := PA); auto.
Qed.

Lemma tzip_sat A B D (f : A -> B -> res D) (PA : A -> Prop) (PB : B -> Prop)
  (Q : D -> Prop) (E : error -> Prop) Ta Tb :
  E ShapeError ->
  (forall a b, PA a -> PB b -> res_sat Q E (f a b)) ->
  all_entries PA Ta -> all_entries PB Tb ->
  res_sat (all_entries Q) E (tzip f Ta Tb).
Proof.
  intros HE Hf. unfold all_entries, tzip.
  apply bzip_sat; auto. intros X X'.
  apply bzip_sat; auto. intros r r'.
  apply bzip_sat; auto.
Qed.

Lemma all_entries_True A (T : tensor A) : all_entries (fun _ => True) T.
Proof.
  unfold all_entries. apply Forall_forall. intros X _.
  apply Forall_forall. intros r _. apply Forall_forall. trivial.
Qed.

Lemma all_entries_tmap A B (f : A -> B) (Q : B -> Prop) (T : tensor A) :
  (forall a, Q (f a)) -> all_entries Q (tmap f T).
Proof.
  intros H. unfold all_entries, tmap.
  apply Forall_map, Forall_forall. intros X _.
  apply Forall_map, Forall_forall. intros r _.
  apply Forall_map, Forall_forall. intros; apply H.
Qed.

(** An arithmetic operation without division fails on sizes only. *)
Lemma tzip_lift2_sat A B D (f : A -> B -> D) (PA : A -> Prop) (PB : B -> Prop)
  (Q : D -> Prop) Ta Tb :
  (forall a b, PA a -> PB b -> Q (f a b)) ->
  all_entries PA Ta -> all_entries PB Tb ->
  res_sat (all_entries Q) (fun e => e = ShapeError) (tzip (lift2 f) Ta Tb).
Proof.
  intros Hf. apply tzip_sat; auto.
Qed.

Lemma tzip_lift2_err A B D (f : A -> B -> D) Ta Tb :
  res_sat (fun _ => True) (fun e => e = ShapeError) (tzip (lift2 f) Ta Tb).
Proof.
  eapply res_sat_impl;
    [| | apply tzip_lift2_sat with (PA := fun _ => True) (PB := fun _ => True)
                                  (Q := fun _ => True)];
    auto using all_entries_True.
Qed.

(** A division by positive entries fails on sizes only. *)
Lemma cdiv_pos_sat (Ta : tensor C) (Tb : tensor R) :
  all_entries (fun v => 0 < v) Tb ->
  res_sat (fun _ => True) (fun e => e = ShapeError) (cdiv Ta Tb).
Proof.
  intros HB.
  eapply res_sat_impl;
    [| | apply tzip_sat with (PA := fun _ : C => True) (PB := fun v => 0 < v)
                            (Q := fun _ : C => True) (E := fun e => e = ShapeError)];
    auto using all_entries_True.
  intros a d _ Hd. unfold cdiv_entry.
  destruct (Req_dec_T d 0); simpl; [lra | trivial].
Qed.

(** ** The per-iteration solve *)

Lemma map_roll_left A B (f : A -> B) s (l : list A) :
  map f (roll_left s l) = roll_left s (map f l).
Proof. unfold roll_left. now rewrite map_app, skipn_map, firstn_map. Qed.

Lemma map_fftshift1 A B (f : A -> B) (l : list A) :
  map f (fftshift1 l) = fftshift1 (map f l).
Proof. unfold fftshift1. now rewrite map_roll_left, length_map. Qed.

Lemma tmap_fftshift A B (f : A -> B) (T : tensor A) :
  tmap f (fftshift T) = fftshift (tmap f T).
Proof.
  unfold tmap, fftshift. rewrite !map_map. apply map_ext. intros X.
  rewrite map_fftshift1. f_equal. rewrite !map_map. apply map_ext. intros r.
  apply map_fftshift1.
Qed.

(** ** The clamp of the observed image *)

Lemma Rmax_0_idem v : Rmax (Rmax v 0) 0 = Rmax v 0.
Proof. apply Rmax_left. apply Rmax_r. Qed.

Lemma tmap_tmap A B D (f : A -> B) (g : B -> D) (T : tensor A) :
  tmap g (tmap f T) = tmap (fun a => g (f a)) T.
Proof.
  unfold tmap. rewrite map_map. apply map_ext. intros X.
  rewrite map_map. apply map_ext. intros r. apply map_map.
Qed.

Lemma tmap_ext A B (f g : A -> B) (T : tensor A) :
  (forall a, f a = g a) -> tmap f T = tmap g T.
Proof.
  intros H. unfold tmap. apply map_ext. intros X. apply map_ext. intros r.
  now apply map_ext.
Qed.

Lemma clamp_nonneg_idem y : clamp_nonneg (clamp_nonneg y) = clamp_nonneg y.
Proof.
  unfold clamp_nonneg. rewrite tmap_tmap. apply tmap_ext. apply Rmax_0_idem.
Qed.

Lemma zeros_like_clamp y : zeros_like (clamp_nonneg y) = zeros_like y.
Proof. unfold zeros_like, clamp_nonneg. now rewrite tmap_tmap. Qed.

Lemma setup_clamp m y kernel alpha :
  setup m (clamp_nonneg y) kernel alpha = setup m y kernel alpha.
Proof. unfold setup. now rewrite clamp_nonneg_idem. Qed.

(** ** Denominators *)

Lemma abs_sq_nonneg (H : tensor C) : all_entries (fun v => 0 <= v) (abs_sq H).
Proof. apply all_entries_tmap. intros; apply Cabs_sq_nonneg. Qed.

Lemma X_Update_denominator_pos (HtH rho : tensor R) :
  all_entries (fun r => 0 < r) rho -> all_entries (fun v => 0 <= v) HtH ->
  res_sat (all_entries (fun v => 0 < v)) (fun e => e = ShapeError) (radd rho HtH).
Proof.
  intros Hrho HH. unfold radd.
  apply tzip_lift2_sat with (PA := fun r => 0 < r) (PB := fun v => 0 <= v); auto.
  intros; lra.
Qed.

Lemma X_Update_errors (Y Ht : tensor C) (HtH z u rho : tensor R) :
  all_entries (fun r => 0 < r) rho -> all_entries (fun v => 0 <= v) HtH ->
  res_sat (fun _ => True) (fun e => e = ShapeError) (X_Update_Gaussian Y Ht HtH z u rho).
Proof.
  intros Hrho HH. unfold X_Update_Gaussian.
  eapply bind_sat; [apply X_Update_denominator_pos; auto|]. intros lhs Hlhs.
  eapply bind_sat; [apply tzip_lift2_err|]. intros hy _.
  eapply bind_sat; [apply tzip_lift2_err|]. intros rz _.
  eapply bind_sat; [apply tzip_lift2_err|]. intros d _.
  eapply bind_sat; [apply tzip_lift2_err|]. intros rhs _.
  eapply bind_sat; [apply cdiv_pos_sat; exact Hlhs|]. intros q _.
  exact I.
Qed.

(** C4: with strictly positive rho, every bin of the denominator
    rho + |H|^2 that the solver computes is strictly positive, and the
    solver never divides by zero. *)
Theorem X_Update_no_division_by_zero (Y Ht H : tensor C) (z u rho : tensor R) :
  all_entries (fun r => 0 < r) rho ->
  (forall lhs, radd rho (abs_sq H) = Ok lhs -> all_entries (fun v => 0 < v) lhs) /\
  X_Update_Gaussian Y Ht (abs_sq H) z u rho <> Err DivByZero.
Proof.
  intros Hrho. split.
  - intros lhs E.
    pose proof (X_Update_denominator_pos Hrho (abs_sq_nonneg H)) as Hs.
    rewrite E in Hs. exact Hs.
  - intros E.
    pose proof (X_Update_errors Y Ht z u Hrho (abs_sq_nonneg H)) as Hs.
    rewrite E in Hs. simpl in Hs. discriminate.
Qed.

Lemma X_Update_no_division_by_zero_witness :
  all_entries (fun r => 0 < r) (scalar 1) /\
  X_Update_Gaussian [[[(1, 0)]]] [[[(1, 0)]]] (abs_sq [[[(1, 0)]]])
                    [[[1]]] [[[0]]] (scalar 1) <> Err DivByZero.
Proof.
  assert (H : all_entries (fun r => 0 < r) (scalar 1)).
  { repeat constructor. lra. }
  split; [exact H|].
  exact (proj2 (X_Update_no_division_by_zero [[[(1, 0)]]] [[[(1, 0)]]] [[[(1, 0)]]]
                  [[[1]]] [[[0]]] H)).
Defined.

(** ** The warm start *)

Lemma recip_pos_sat (alpha : tensor R) :
  all_entries (fun a => 0 < a) alpha ->
  res_sat (all_entries (fun v => 0 < v)) (fun _ => False) (recip alpha).
Proof.
  unfold all_entries, recip. apply mapM_sat. intros X.
  apply mapM_sat. intros r. apply mapM_sat. intros d Hd.
  unfold recip_entry. destruct (Req_dec_T d 0); simpl; [lra|].
  now apply Rinv_0_lt_compat.
Qed.

Lemma mapM_some_err A B (f : A -> res B) (P : A -> Prop) e0 l :
  (forall a, res_sat (fun _ => True) (fun e => e = e0) (f a)) ->
  (forall a, P a -> f a = Err e0) ->
  Exists P l -> mapM f l = Err e0.
Proof.
  intros Hall HP HE. induction l as [|a l IH]; [inversion HE|].
  simpl. specialize (Hall a).
  destruct (f a) as [b|e] eqn:E; simpl in *.
  - inversion HE as [? ? Ha|? ? Hl]; subst.
    + rewrite (HP a Ha) in E. discriminate.
    + rewrite (IH Hl). reflexivity.
  - now subst.
Qed.

Lemma mapM_err_only A B (f : A -> res B) e0 l :
  (forall a, res_sat (fun _ => True) (fun e => e = e0) (f a)) ->
  res_sat (fun _ => True) (fun e => e = e0) (mapM f l).
Proof.
  intros H.
  assert (HF : Forall (fun _ : A => True) l) by (apply Forall_forall; trivial).
  pose proof (@mapM_sat A B f (fun _ => True) (fun _ => True) (fun e => e = e0) l
                (fun a _ => H a) HF) as Hs.
  eapply res_sat_impl; [| |exact Hs]; simpl; auto.
Qed.

Lemma recip_entry_err d :
  res_sat (fun _ => True) (fun e => e = DivByZero) (recip_entry d).
Proof. unfold recip_entry. destruct (Req_dec_T d 0); simpl; auto. Qed.

Lemma recip_zero (alpha : tensor R) :
  some_entry (fun a => a = 0) alpha -> recip alpha = Err DivByZero.
Proof.
  unfold some_entry, recip.
  apply mapM_some_err.
  { intros X. apply mapM_err_only. intros r. apply mapM_err_only. apply recip_entry_err. }
  intros X. apply mapM_some_err.
  { intros r. apply mapM_err_only. apply recip_entry_err. }
  intros r. apply mapM_some_err.
  { apply recip_entry_err. }
  intros d ->. unfold recip_entry. destruct (Req_dec_T 0 0); [reflexivity | tauto].
Qed.

Lemma init_l2_errors (Y Ht : tensor C) (HtH alpha : tensor R) :
  all_entries (fun a => 0 < a) alpha -> all_entries (fun v => 0 <= v) HtH ->
  res_sat (fun _ => True) (fun e => e = ShapeError) (init_l2 Y Ht HtH alpha).
Proof.
  intros Ha HH. unfold init_l2.
  eapply bind_sat; [apply tzip_lift2_err|]. intros rhs _.
  eapply bind_sat with (Q := all_entries (fun v => 0 < v)).
  { eapply res_sat_impl; [| |apply recip_pos_sat; exact Ha]; simpl; tauto. }
  intros ra Hra.
  eapply bind_sat with (Q := all_entries (fun v => 0 < v)).
  { unfold radd.
    apply tzip_lift2_sat with (PA := fun v => 0 <= v) (PB := fun v => 0 < v); auto.
    intros; lra. }
  intros lhs Hlhs.
  eapply bind_sat; [apply cdiv_pos_sat; exact Hlhs|]. intros q _.
  exact I.
Qed.

Lemma init_l2_zero (Y Ht : tensor C) (HtH alpha : tensor R) :
  some_entry (fun a => a = 0) alpha ->
  (forall rhs, cmul Y Ht = Ok rhs -> init_l2 Y Ht HtH alpha = Err DivByZero) /\
  exists e, init_l2 Y Ht HtH alpha = Err e.
Proof.
  intros Hz. unfold init_l2. rewrite (recip_zero Hz).
  split.
  - intros rhs ->. reflexivity.
  - destruct (cmul Y Ht); simpl; eauto.
Qed.

Lemma setup_zero_alpha m y kernel alpha :
  some_entry (fun a => a = 0) alpha -> exists e, setup m y kernel alpha = Err e.
Proof.
  intros Hz. unfold setup.
  destruct (if subnet m then _ else _) as [rho|e]; simpl; eauto.
  match goal with |- context [init_l2 ?Y ?Ht ?HtH alpha] =>
    destruct (proj2 (init_l2_zero Y Ht HtH Hz)) as (e & ->) end.
  simpl. eauto.
Qed.

Lemma sized_and A (P Q : A -> Prop) n (l : list A) :
  sized P n l -> Forall Q l -> sized (fun a => P a /\ Q a) n l.
Proof.
  intros [Hl HP] HQ. split; auto.
  rewrite Forall_forall in *. intros a Ha. split; auto.
Qed.

Lemma shaped_of_entries A (P : A -> Prop) n h w (T : tensor A) :
  has_shape n h w T -> all_entries P T -> shaped P n h w T.
Proof.
  intros HS HE. unfold has_shape, shaped, all_entries in *.
  eapply sized_impl; [|apply (sized_and HS HE)].
  intros X [HX HEX]. simpl in *.
  eapply sized_impl; [|apply (sized_and HX HEX)].
  intros r [Hr HEr]. simpl in *.
  eapply sized_impl; [|apply (sized_and Hr HEr)].
  intros a [_ Ha]. exact Ha.
Qed.

(** C10: the warm start divides by alpha.  With every alpha strictly
    positive, each denominator bin |H|^2 + 1/alpha is strictly positive
    and the warm start is computed whenever the sizes agree; an alpha
    equal to 0 is not guarded: the reciprocal is a division by zero, and
    [forward] returns no value. *)
Theorem init_l2_needs_positive_alpha (Y Ht H : tensor C) (alpha : tensor R) :
  (all_entries (fun a => 0 < a) alpha ->
     (forall ra lhs, recip alpha = Ok ra -> radd (abs_sq H) ra = Ok lhs ->
                     all_entries (fun v => 0 < v) lhs) /\
     init_l2 Y Ht (abs_sq H) alpha <> Err DivByZero /\
     (forall n h w,
        has_shape n (2 * h) (2 * w) Y -> has_shape n (2 * h) (2 * w) Ht ->
        has_shape n (2 * h) (2 * w) H -> has_shape n 1 1 alpha ->
        exists z, init_l2 Y Ht (abs_sq H) alpha = Ok z /\ has_shape n h w z)) /\
  (some_entry (fun a => a = 0) alpha ->
     recip alpha = Err DivByZero /\
     (forall rhs, cmul Y Ht = Ok rhs -> init_l2 Y Ht (abs_sq H) alpha = Err DivByZero) /\
     (forall m y kernel, exists e, forward m y kernel alpha = Err e)).
Proof.
  split.
  - intros Ha. split; [|split].
    + intros ra lhs Era Elhs.
      pose proof (recip_pos_sat Ha) as Hra. rewrite Era in Hra. simpl in Hra.
      pose proof (tzip_lift2_sat Rplus (fun v => 0 < v)
                    (fun a b (Ha : 0 <= a) (Hb : 0 < b) => Rplus_le_lt_0_compat a b Ha Hb)
                    (abs_sq_nonneg H) Hra) as Hs.
      unfold radd in Elhs. rewrite Elhs in Hs. exact Hs.
    + intros E. pose proof (init_l2_errors Y Ht Ha (abs_sq_nonneg H)) as Hs.
      rewrite E in Hs. simpl in Hs. discriminate.
    + intros n h w HY HHt HH Hal.
      apply init_l2_shaped with (n := n) (na := n); auto.
      * eapply shaped_abs_sq; eauto.
      * apply shaped_of_entries; auto.
  - intros Hz. split; [apply recip_zero; auto|]. split.
    + apply init_l2_zero; auto.
    + intros m y kernel. unfold forward, run.
      destruct (setup_zero_alpha m y kernel Hz) as (e & ->). simpl. eauto.
Qed.

Lemma init_l2_needs_positive_alpha_witness :
  init_l2 [[[(1, 0)]]] [[[(1, 0)]]] (abs_sq [[[(1, 0)]]]) [[[1]]] <> Err DivByZero /\
  init_l2 [[[(1, 0)]]] [[[(1, 0)]]] (abs_sq [[[(1, 0)]]]) [[[0]]] = Err DivByZero.
Proof.
  split.
  - assert (H : all_entries (fun a => 0 < a) [[[1]]]) by (repeat constructor; lra).
    exact (proj1 (proj2 (proj1 (init_l2_needs_positive_alpha
                                  [[[(1, 0)]]] [[[(1, 0)]]] [[[(1, 0)]]] [[[1]]]) H))).
  - assert (H : some_entry (fun a => a = 0) [[[0]]]) by (repeat constructor).
    exact (proj1 (proj2 (proj2 (init_l2_needs_positive_alpha
                                  [[[(1, 0)]]] [[[(1, 0)]]] [[[(1, 0)]]] [[[0]]]) H))
             [[[Cmul (1, 0) (1, 0)]]] eq_refl).
Defined.


(** ** Sizes through the controller *)

Lemma setup_ok m n h w y kernel alpha sched :
  has_shape n h w y -> has_shape n h w kernel ->
  shaped (fun a => 0 < a) n 1 1 alpha ->
  (if subnet m
   then SubNet_forward (training m) (n_iters m) (init m) kernel alpha
   else Ok []) = Ok sched ->
  exists c, setup m y kernel alpha = Ok c /\ setup_shaped n h w c /\ s_rho c = sched.
Proof.
  intros Hy Hk Ha Hs. unfold setup. rewrite Hs. simpl.
  assert (HY : has_shape n (2 * h) (2 * w)
                 (fft2 (complex (ifftshift (pad_double 0 (clamp_nonneg y)))))).
  { apply spectrum_shaped with (P := fun _ => True).
    eapply shaped_tmap; [|exact Hy]. trivial. }
  pose proof (spectrum_shaped Hk) as HH.
  assert (HHt : has_shape n (2 * h) (2 * w)
                  (conj (fft2 (complex (ifftshift (pad_double 0 kernel)))))).
  { eapply shaped_tmap; [|exact HH]. trivial. }
  pose proof (shaped_abs_sq HH) as HHtH.
  destruct (@init_l2_shaped n h w n _ _ _ _ HY HHt HHtH (or_introl eq_refl) Ha)
    as (z & -> & Hz).
  simpl. eexists. split; [reflexivity|]. split; [|reflexivity].
  constructor; simpl; auto.
  unfold zeros_like, clamp_nonneg. rewrite tmap_tmap.
  eapply shaped_tmap; [|exact Hy]. trivial.
Qed.

Lemma iteration_ok m c n h w i s :
  shape_preserving (Z m) -> sched_ok m n (s_rho c) -> setup_shaped n h w c ->
  (i < n_iters m)%nat ->
  has_shape n h w (st_z s) -> has_shape n h w (st_u s) ->
  exists s', iteration m c i s = Ok s' /\
             has_shape n h w (st_z s') /\ has_shape n h w (st_u s').
Proof.
  intros HZ Hsched Hc Hi Hz Hu. unfold iteration.
  destruct (Hsched i Hi) as (rho & nr & -> & Hnr & Hrho). simpl.
  destruct (@X_Update_shaped n h w nr _ _ _ _ _ _ (ss_Y Hc) (ss_Ht Hc) (ss_HtH Hc)
              Hz Hu Hnr Hrho)
    as (x & -> & Hx). simpl.
  pose proof (HZ _ _ _ _ Hx) as Hzx.
  destruct (tzip_lift2_shaped Rplus (fun _ => True) (fun _ _ _ _ => I)
              (compat_refl n) (compat_refl h) (compat_refl w) Hu Hx)
    as (ux & Eux & Hux).
  unfold radd, rsub. rewrite Eux. simpl. rewrite !bdim_same in Hux.
  destruct (tzip_lift2_shaped Rminus (fun _ => True) (fun _ _ _ _ => I)
              (compat_refl n) (compat_refl h) (compat_refl w) Hux Hzx)
    as (u' & Eu & Hu').
  rewrite Eu. simpl. rewrite !bdim_same in Hu'.
  eexists. split; [reflexivity|]. simpl. auto.
Qed.

Lemma for_range_ok m c n h w k : forall i s,
  shape_preserving (Z m) -> sched_ok m n (s_rho c) -> setup_shaped n h w c ->
  (i + k <= n_iters m)%nat ->
  has_shape n h w (st_z s) -> has_shape n h w (st_u s) ->
  exists s', for_range (iteration m c) (seq i k) s = Ok s' /\
             has_shape n h w (st_z s') /\ has_shape n h w (st_u s').
Proof.
  induction k as [|k IH]; intros i s HZ Hsched Hc Hi Hz Hu; simpl.
  - eauto.
  - destruct (@iteration_ok m c n h w i s) as (s1 & -> & Hz1 & Hu1); auto; [lia|].
    simpl. apply IH; auto. lia.
Qed.

Lemma forward_ok m n h w y kernel alpha sched :
  (1 <= n_iters m)%nat -> shape_preserving (Z m) ->
  has_shape n h w y -> has_shape n h w kernel ->
  shaped (fun a => 0 < a) n 1 1 alpha ->
  (if subnet m
   then SubNet_forward (training m) (n_iters m) (init m) kernel alpha
   else Ok []) = Ok sched ->
  sched_ok m n sched ->
  exists out, forward m y kernel alpha = Ok out /\ has_shape n h w out.
Proof.
  intros HN HZ Hy Hk Ha Hs Hsched. unfold forward, run.
  destruct (setup_ok m Hy Hk Ha Hs) as (c & -> & Hc & Hrho). simpl.
  rewrite <- Hrho in Hsched.
  destruct (@for_range_ok m c n h w (n_iters m) 0
              {| st_z := s_z c; st_u := s_u c; x_list := []; z_calls := 0 |})
    as (s' & E & Hz & Hu); auto; try apply Hc.
  rewrite E. simpl.
  destruct (for_range_last _ _ _ _ HN E) as (Hl & _).
  rewrite Hl. eauto.
Qed.

(** The fixed weights as a schedule. *)
Lemma fixed_sched_ok m n :
  subnet m = false -> length (rho_iters m) = n_iters m ->
  Forall (fun r => 0 < r) (rho_iters m) -> sched_ok m n [].
Proof.
  intros Hs Hl Hpos i Hi. unfold select_rho. rewrite Hs.
  destruct (nth_error (rho_iters m) i) as [r|] eqn:E.
  - exists (scalar r), 1%nat. split; auto. split; auto.
    rewrite Forall_forall in Hpos. apply nth_error_In in E. apply Hpos in E.
    unfold scalar, shaped, sized. repeat constructor. exact E.
  - apply nth_error_None in E. lia.
Qed.

(** ** Zero iterations *)

Lemma has_shape_111 (v : R) : has_shape 1 1 1 [[[v]]].
Proof. unfold has_shape, shaped, sized. repeat constructor. Qed.

Lemma setup_111 m (y k a : R) :
  subnet m = false -> 0 < a ->
  exists c, setup m [[[y]]] [[[k]]] [[[a]]] = Ok c /\ setup_shaped 1 1 1 c.
Proof.
  intros Hs Ha.
  destruct (@setup_ok m 1 1 1 [[[y]]] [[[k]]] [[[a]]] [])
    as (c & E & Hc & _); auto using has_shape_111.
  - unfold shaped, sized. repeat constructor. exact Ha.
  - now rewrite Hs.
  - eauto.
Qed.

(** C6, as stated, fails: with N = 0 the warm start is computed, but the
    call ends in an index error and returns nothing. *)
Lemma forward_zero_iterations_counterexample :
  n_iters (fixed_model 0 []) = 0%nat /\
  exists c, setup (fixed_model 0 []) [[[1]]] [[[1]]] [[[1]]] = Ok c /\
            forward (fixed_model 0 []) [[[1]]] [[[1]]] [[[1]]] = Err IndexError /\
            forward (fixed_model 0 []) [[[1]]] [[[1]]] [[[1]]] <> Ok (s_z c).
Proof.
  split; [reflexivity|].
  destruct (@setup_111 (fixed_model 0 []) 1 1 1 eq_refl Rlt_0_1) as (c & E & _).
  exists c. split; [exact E|].
  unfold forward, run. rewrite E. simpl. split; [reflexivity | discriminate].
Qed.

(** C6, amended: with N = 0 the loop body never runs and the denoiser is
    not called; the state at the [return] holds the warm start as
    auxiliary estimate and an empty list of iterates, and [forward] ends
    in an index error instead of returning. *)
Theorem forward_zero_iterations m y kernel alpha :
  n_iters m = 0%nat ->
  (forall c, setup m y kernel alpha = Ok c ->
     run m y kernel alpha
     = Ok {| st_z := s_z c; st_u := s_u c; x_list := []; z_calls := 0 |} /\
     forward m y kernel alpha = Err IndexError) /\
  (forall out, forward m y kernel alpha <> Ok out).
Proof.
  intros Hn. unfold forward, run. rewrite Hn.
  destruct (setup m y kernel alpha) as [c|e]; simpl.
  - split; [|discriminate]. intros c' E. inversion E; subst. auto.
  - split; [discriminate | discriminate].
Qed.

Lemma forward_zero_iterations_witness :
  n_iters (fixed_model 0 []) = 0%nat /\
  forall out, forward (fixed_model 0 []) [[[1]]] [[[1]]] [[[1]]] <> Ok out.
Proof.
  split; [reflexivity|].
  exact (proj2 (@forward_zero_iterations (fixed_model 0 []) [[[1]]] [[[1]]] [[[1]]]
                  eq_refl)).
Defined.

(** ** Kernels of another size than the image *)

Lemma bzip_mismatch A B D (f : A -> B -> res D) la lb :
  length la <> length lb -> length la <> 1%nat -> length lb <> 1%nat ->
  bzip f la lb = Err ShapeError.
Proof.
  intros Hne Ha Hb. unfold bzip.
  destruct (length la =? length lb)%nat eqn:E; [apply Nat.eqb_eq in E; tauto|].
  destruct la as [|a [|a' la]]; simpl in *; try tauto;
    destruct lb as [|b [|b' lb]]; simpl in *; tauto.
Qed.

Lemma bzip_head_err A B D (f : A -> B -> res D) a la b lb e :
  length la = length lb -> f a b = Err e -> bzip f (a :: la) (b :: lb) = Err e.
Proof.
  intros Hl Hf. unfold bzip. simpl. rewrite Hl, Nat.eqb_refl. simpl.
  now rewrite Hf.
Qed.

Lemma tzip_mismatch A B D (f : A -> B -> res D) (PA : A -> Prop) (PB : B -> Prop)
  n h w hk wk (Ta : tensor A) (Tb : tensor B) :
  (1 <= n)%nat -> (1 <= h)%nat -> (1 <= hk)%nat ->
  (hk, wk) <> (h, w) ->
  shaped PA n (2 * h) (2 * w) Ta -> shaped PB n (2 * hk) (2 * wk) Tb ->
  tzip f Ta Tb = Err ShapeError.
Proof.
  intros Hn Hh Hhk Hne [Hla HA] [Hlb HB]. unfold tzip.
  assert (Hne' : hk <> h \/ wk <> w).
  { destruct (Nat.eq_dec hk h), (Nat.eq_dec wk w); subst; tauto. }
  clear Hne.
  destruct Ta as [|X Ta]; [simpl in Hla; lia|].
  destruct Tb as [|X' Tb]; [simpl in Hlb; lia|].
  apply bzip_head_err; [unfold image in *; simpl in Hla, Hlb; lia|].
  inversion HA as [|? ? [HlX HX] _]; inversion HB as [|? ? [HlX' HX'] _]; subst.
  destruct (Nat.eq_dec h hk) as [Eh | Eh].
  - subst hk.
    destruct X as [|r X]; [simpl in HlX; lia|].
    destruct X' as [|r' X']; [simpl in HlX'; lia|].
    apply bzip_head_err; [simpl in HlX, HlX'; lia|].
    inversion HX as [|? ? [Hr _] _]; inversion HX' as [|? ? [Hr' _] _]; subst.
    apply bzip_mismatch; rewrite ?Hr, ?Hr'; lia.
  - apply bzip_mismatch; rewrite ?HlX, ?HlX'; lia.
Qed.

Lemma forward_mismatch m n h w hk wk y kernel alpha :
  (1 <= n)%nat -> (1 <= h)%nat -> (1 <= hk)%nat ->
  (hk, wk) <> (h, w) ->
  has_shape n h w y -> has_shape n hk wk kernel ->
  (exists e, forward m y kernel alpha = Err e) /\
  (subnet m = false -> forward m y kernel alpha = Err ShapeError).
Proof.
  intros Hn Hh Hhk Hne Hy Hk.
  assert (HY : has_shape n (2 * h) (2 * w)
                 (fft2 (complex (ifftshift (pad_double 0 (clamp_nonneg y)))))).
  { apply spectrum_shaped with (P := fun _ => True).
    eapply shaped_tmap; [|exact Hy]. trivial. }
  assert (HHt : has_shape n (2 * hk) (2 * wk)
                  (conj (fft2 (complex (ifftshift (pad_double 0 kernel)))))).
  { eapply shaped_tmap; [|exact (spectrum_shaped Hk)]. trivial. }
  pose proof (tzip_mismatch (lift2 Cmul) Hn Hh Hhk Hne HY HHt) as E.
  unfold forward, run, setup, init_l2, cmul. rewrite E.
  destruct (subnet m); simpl.
  - split; [|discriminate].
    destruct (SubNet_forward _ _ _ _ _); simpl; eauto.
  - split; eauto.
Qed.

(** C7, as stated, fails: a 1 by 1 kernel with a 2 by 2 image is padded
    to 2 by 2, not to the image's working size 4 by 4, and the product
    of the two spectra is refused. *)
Lemma forward_small_kernel_counterexample :
  has_shape 1 2 2 [[[1; 1]; [1; 1]]] /\ has_shape 1 1 1 [[[1]]] /\
  forward (fixed_model 1 [1]) [[[1; 1]; [1; 1]]] [[[1]]] [[[1]]] = Err ShapeError.
Proof.
  assert (Hy : has_shape 1 2 2 [[[1; 1]; [1; 1]]]).
  { unfold has_shape, shaped, sized. repeat constructor. }
  split; [exact Hy|]. split; [apply has_shape_111|].
  refine (proj2 (@forward_mismatch (fixed_model 1 [1]) 1 2 2 1 1 _ _ [[[1]]]
                   _ _ _ _ Hy (has_shape_111 1)) eq_refl); try lia.
  discriminate.
Qed.

(** ** The predicted weights *)

Lemma rho_floor_pos : 0 < rho_floor.
Proof. unfold rho_floor. lra. Qed.

Lemma Softplus_pos x : 0 < Softplus x.
Proof.
  unfold Softplus. destruct (Rlt_dec 20 x) as [H | H]; [lra|].
  rewrite <- ln_1. apply ln_increasing; [lra|].
  pose proof (exp_pos x). lra.
Qed.

Lemma mlp_pos n p v :
  res_sat (Forall (fun r => 0 < r)) (fun _ => True) (mlp n p v).
Proof.
  unfold mlp.
  destruct (Linear _ _ _ _) as [a|e]; simpl; auto.
  destruct (Linear _ _ _ _) as [b|e]; simpl; auto.
  destruct (Linear _ _ _ _) as [c|e]; simpl; auto.
  apply Forall_map, Forall_forall. intros; apply Softplus_pos.
Qed.

Lemma SubNet_forward_floor training n p kernel alpha :
  res_sat (Forall (Forall (fun r => rho_floor < r))) (fun _ => True)
          (SubNet_forward training n p kernel alpha).
Proof.
  unfold SubNet_forward.
  destruct (conv_layers _ _ _) as [x|e]; simpl; auto.
  destruct (mapM view_features x) as [xs|e]; simpl; auto.
  destruct (view_scalars _ _) as [al|e]; simpl; auto.
  match goal with |- context [mapM (mlp n p) ?l] =>
    pose proof (@mapM_sat _ _ (mlp n p) (fun _ => True) (Forall (fun r => 0 < r))
                  (fun _ => True) l (fun a _ => mlp_pos n p a)) as Hs end.
  destruct (mapM (mlp n p) _) as [out|e]; simpl in *; auto.
  assert (Hout : Forall (Forall (fun r => 0 < r)) out).
  { apply Hs. apply Forall_forall. trivial. }
  apply Forall_map. eapply Forall_impl; [|exact Hout]. intros row Hrow.
  apply Forall_map. eapply Forall_impl; [|exact Hrow]. intros r Hr. simpl. lra.
Qed.

Lemma select_rho_subnet m sched i (P : R -> Prop) :
  subnet m = true -> Forall (Forall P) sched ->
  res_sat (all_entries P) (fun _ => True) (select_rho m sched i).
Proof.
  intros Hs HF. unfold select_rho. rewrite Hs. unfold all_entries.
  eapply mapM_sat; [|exact HF]. intros row Hrow. simpl.
  destruct (nth_error row i) as [r|] eqn:E; simpl; auto.
  rewrite Forall_forall in Hrow. apply nth_error_In in E.
  repeat constructor. auto.
Qed.

(** C5, as stated, fails for the fixed weights: they are a plain learned
    vector, used as stored, and a stored 0 is the weight of the
    iteration. *)
Lemma fixed_weight_counterexample :
  subnet (fixed_model 1 [0]) = false /\
  select_rho (fixed_model 1 [0]) [] 0 = Ok (scalar 0) /\
  ~ all_entries (fun r => rho_floor <= r) (scalar 0).
Proof.
  split; [reflexivity|]. split; [reflexivity|].
  intros H. unfold all_entries, scalar in H.
  inversion H as [|? ? Ha _]; inversion Ha as [|? ? Hb _]; inversion Hb as [|? ? Hc _].
  pose proof rho_floor_pos. lra.
Qed.

(** C5, amended: every weight predicted by the subnetwork is above the
    floor 1e-6, hence strictly positive, and so is every weight the
    controller selects from the prediction; the fixed weights are the
    stored vector, which is all ones when the module is constructed. *)
Theorem schedule_weights training n p kernel alpha m y sched i rho :
  (SubNet_forward training n p kernel alpha = Ok sched ->
     Forall (Forall (fun r => rho_floor <= r /\ 0 < r)) sched) /\
  (subnet m = true ->
     forall c, setup m y kernel alpha = Ok c ->
               select_rho m (s_rho c) i = Ok rho ->
               all_entries (fun r => rho_floor <= r /\ 0 < r) rho) /\
  (subnet m = false ->
     select_rho m sched i = Ok rho ->
     exists r, nth_error (rho_iters m) i = Some r /\ rho = scalar r) /\
  (forall denoiser w,
     select_rho (Unrolled_ADMM_Gaussian_init n false denoiser w) sched i = Ok rho ->
     rho = scalar 1 /\ all_entries (fun r => rho_floor <= r /\ 0 < r) rho).
Proof.
  assert (Hweak : forall r, rho_floor < r -> rho_floor <= r /\ 0 < r).
  { intros r Hr. pose proof rho_floor_pos. lra. }
  assert (Hsub : forall tr k q ker al s, SubNet_forward tr k q ker al = Ok s ->
                   Forall (Forall (fun r => rho_floor <= r /\ 0 < r)) s).
  { intros tr k q ker al s E.
    pose proof (SubNet_forward_floor tr k q ker al) as Hs. rewrite E in Hs. simpl in Hs.
    eapply Forall_impl; [|exact Hs]. intros row Hrow.
    eapply Forall_impl; [|exact Hrow]. exact Hweak. }
  split; [apply Hsub|]. split; [|split].
  - intros Hs c Ec Er.
    assert (Hc : Forall (Forall (fun r => rho_floor <= r /\ 0 < r)) (s_rho c)).
    { unfold setup in Ec. rewrite Hs in Ec.
      destruct (SubNet_forward _ _ _ _ _) as [s|e] eqn:E; simpl in Ec; [|discriminate].
      destruct (init_l2 _ _ _ _) as [z|e]; simpl in Ec; [|discriminate].
      inversion Ec; subst; simpl. eapply Hsub; eauto. }
    pose proof (select_rho_subnet m i Hs Hc) as Hr. rewrite Er in Hr. exact Hr.
  - intros Hs. unfold select_rho. rewrite Hs.
    destruct (nth_error (rho_iters m) i) as [r|]; [|discriminate].
    intros E. inversion E. eauto.
  - intros denoiser w. unfold select_rho. simpl.
    destruct (nth_error (repeat 1 n) i) as [r|] eqn:E; [|discriminate].
    apply nth_error_In, repeat_spec in E. subst r.
    intros E. inversion E. split; [reflexivity|].
    unfold all_entries, scalar. repeat constructor; unfold rho_floor; lra.
Qed.

Lemma schedule_weights_witness :
  select_rho (Unrolled_ADMM_Gaussian_init 2 false identity_denoiser zero_subnet_w) [] 1
  = Ok (scalar 1) /\
  all_entries (fun r => rho_floor <= r /\ 0 < r) (scalar 1).
Proof.
  split; [reflexivity|].
  exact (proj2 (proj2 (proj2 (proj2
           (schedule_weights true 2 zero_subnet_w [] [] (fixed_model 0 []) [] [] 1
              (scalar 1))))
           identity_denoiser zero_subnet_w eq_refl)).
Defined.

(** ** Sizes through the weight predictor *)

Lemma pad_crop_sized A (P : A -> Prop) (z : A) (n : nat) (l : list A) :
  P z -> sized P n l ->
  sized P 128 (pad_crop z ((128 - Z.of_nat n) / 2) (- ((Z.of_nat n - 128) / 2)) l).
Proof.
  intros Hz [Hl HF]. unfold pad_crop.
  set (b := ((128 - Z.of_nat n) / 2)%Z).
  set (a := (- ((Z.of_nat n - 128) / 2))%Z).
  assert (Hab : (b + a = 128 - Z.of_nat n)%Z)
    by (unfold a, b; Z.to_euclidean_division_equations; lia).
  assert (Hb : (- Z.of_nat n <= 2 * b)%Z)
    by (unfold b; Z.to_euclidean_division_equations; lia).
  clearbody a b.
  set (l1 := if (0 <=? b)%Z then repeat z (Z.to_nat b) ++ l else skipn (Z.to_nat (- b)) l).
  assert (H1 : sized P (Z.to_nat (Z.of_nat n + b)) l1).
  { unfold l1. destruct (0 <=? b)%Z eqn:E.
    - apply Z.leb_le in E.
      replace (Z.to_nat (Z.of_nat n + b)) with (Z.to_nat b + n)%nat by lia.
      apply sized_app; [apply sized_repeat; auto | split; auto].
    - apply Z.leb_gt in E. split.
      + rewrite length_skipn. lia.
      + rewrite Forall_forall in *. intros x Hx. eauto using In_skipn. }
  destruct H1 as [Hl1 HF1].
  destruct (0 <=? a)%Z eqn:E.
  - apply Z.leb_le in E.
    replace 128%nat with (Z.to_nat (Z.of_nat n + b) + Z.to_nat a)%nat by lia.
    apply sized_app; [split; auto | apply sized_repeat; auto].
  - apply Z.leb_gt in E. split.
    + rewrite length_firstn, Hl1. lia.
    + rewrite Forall_forall in *. intros x Hx. eauto using In_firstn.
Qed.

Lemma pad_128_sized h w (K : image R) :
  sized (sized (fun _ => True) w) h K ->
  sized (sized (fun _ => True) 128) 128 (pad_128 h w K).
Proof.
  intros HK. unfold pad_128.
  apply pad_crop_sized.
  - replace (Z.to_nat _) with 128%nat
      by (Z.to_euclidean_division_equations; lia).
    apply sized_repeat. trivial.
  - eapply sized_map; [|exact HK]. intros r Hr.
    apply pad_crop_sized; auto.
Qed.

Lemma pool_pairs_sized A (f : A -> A -> A) (P Q : A -> Prop) n : forall l,
  (forall a b, P a -> P b -> Q (f a b)) ->
  sized P (2 * n) l -> sized Q n (pool_pairs f l).
Proof.
  induction n as [|n IH]; intros l Hf [Hl HF].
  - destruct l; [|discriminate]. split; auto.
  - destruct l as [|a [|b l]]; simpl in Hl; try lia.
    inversion HF as [|? ? Ha HF1]; inversion HF1 as [|? ? Hb HF2]; subst.
    destruct (IH l Hf) as [Hl' HF']; [split; auto; lia|].
    simpl. split; simpl; auto.
Qed.

Lemma zip_with_sized A (f : A -> A -> A) (P : A -> Prop) n (la lb : list A) :
  sized P n la -> sized P n lb -> sized (fun _ => True) n (zip_with f la lb).
Proof.
  intros [Ha _] [Hb _]. unfold zip_with. split.
  - rewrite length_map, length_combine. lia.
  - apply Forall_forall. trivial.
Qed.

Lemma maxpool2d_sized h w (X : image R) :
  sized (sized (fun _ => True) (2 * w)) (2 * h) X ->
  sized (sized (fun _ => True) w) h (maxpool2d X).
Proof.
  intros HX. unfold maxpool2d.
  apply pool_pairs_sized with (P := sized (fun _ => True) w).
  - intros a b. apply zip_with_sized.
  - eapply sized_map; [|exact HX]. intros r Hr.
    eapply pool_pairs_sized; [|exact Hr]. trivial.
Qed.

Lemma conv2d_ok cin cout p h w (F : fmap) :
  (1 <= cin)%nat -> (1 <= h)%nat -> has_shape cin h w F ->
  exists G, conv2d cin cout p F = Ok G /\ has_shape cout h w G.
Proof.
  intros Hc Hh [Hl HF]. unfold conv2d. unfold fmap, image in *.
  rewrite Hl, Nat.eqb_refl.
  eexists. split; [reflexivity|].
  destruct F as [|X F]; [simpl in Hl; lia|]. simpl hd.
  inversion HF as [|? ? [HlX HX] _]; subst.
  assert (Hw : width X = w).
  { destruct X as [|r X]; [simpl in Hh; lia|].
    inversion HX as [|? ? [Hr _] _]. exact Hr. }
  rewrite Hw. unfold has_shape, shaped.
  apply sized_seq_map. intros o. apply sized_seq_map. intros yy.
  apply sized_seq_map. trivial.
Qed.

Lemma indexed_sized A B (g : nat * A -> B) (P : A -> Prop) (Q : B -> Prop) n (l : list A) :
  (forall k a, P a -> Q (g (k, a))) -> sized P n l -> sized Q n (map g (indexed l)).
Proof.
  intros Hg [Hl HF]. unfold indexed. split.
  - rewrite length_map, length_combine, length_seq. lia.
  - apply Forall_map, Forall_forall. intros [k a] Hka.
    apply in_combine_r in Hka. rewrite Forall_forall in HF. auto.
Qed.

Lemma length_concat_sized A (P : A -> Prop) h w (X : list (list A)) :
  sized (sized P w) h X -> length (concat X) = (h * w)%nat.
Proof.
  intros [Hl HF]. subst h. induction HF as [|r X [Hr _] _ IH]; simpl; auto.
  rewrite length_app, IH, Hr. reflexivity.
Qed.

Lemma chan_values_length c h w n (B : list fmap) :
  (1 <= c)%nat -> sized (has_shape c h w) n B ->
  length (chan_values B 0) = (n * (h * w))%nat.
Proof.
  intros Hc [Hl HF]. subst n. unfold chan_values.
  induction HF as [|F B HFs _ IH]; simpl; auto.
  rewrite length_app, IH. f_equal.
  destruct HFs as [HlF HFF].
  destruct F as [|X F]; [simpl in HlF; lia|]. simpl.
  inversion HFF as [|? ? HX _]; subst.
  eapply length_concat_sized; eauto.
Qed.

Lemma batchnorm2d_ok training c p h w n (B : list fmap) :
  (1 <= c)%nat -> (2 <= h)%nat ->
  sized (has_shape c h w) n B ->
  exists B', batchnorm2d training c p B = Ok B' /\ sized (has_shape c h w) n B'.
Proof.
  intros Hc Hh HB. unfold batchnorm2d.
  assert (Hall : forallb (fun F => (length F =? c)%nat) B = true).
  { apply forallb_forall. intros F HF. destruct HB as [_ HB].
    rewrite Forall_forall in HB. destruct (HB F HF) as [HlF _].
    unfold image in *. rewrite HlF. apply Nat.eqb_refl. }
  rewrite Hall.
  assert (Hone : (length (chan_values B 0) =? 1)%nat = false).
  { rewrite (chan_values_length Hc HB). apply Nat.eqb_neq. intros E.
    apply Nat.eq_mul_1 in E. destruct E as [_ E].
    apply Nat.eq_mul_1 in E. lia. }
  rewrite Hone, andb_false_r.
  eexists. split; [reflexivity|].
  eapply sized_map; [|exact HB]. intros F HF.
  unfold has_shape, shaped in *.
  eapply indexed_sized; [|exact HF]. intros k X HX. simpl.
  eapply sized_map; [|exact HX]. intros r Hr.
  eapply sized_map; [|exact Hr]. trivial.
Qed.

Lemma relu_sized c h w n (B : list fmap) :
  sized (has_shape c h w) n B -> sized (has_shape c h w) n (relu B).
Proof.
  intros HB. unfold relu. eapply sized_map; [|exact HB]. intros F HF.
  unfold has_shape in *. eapply shaped_tmap with (f := fun v => Rmax v 0) in HF; eauto.
Qed.

Lemma DoubleConv_ok training cin cout p h w n (B : list fmap) :
  (1 <= cin)%nat -> (1 <= cout)%nat -> (2 <= h)%nat ->
  sized (has_shape cin h w) n B ->
  exists B', DoubleConv training cin cout p B = Ok B' /\ sized (has_shape cout h w) n B'.
Proof.
  intros Hi Ho Hh HB. unfold DoubleConv.
  destruct (@mapM_sized _ _ (conv2d cin cout (conv1 p)) (has_shape cin h w)
              (has_shape cout h w) n B) as (a & -> & Ha); auto.
  { intros F HF. apply conv2d_ok; auto. lia. }
  simpl.
  destruct (batchnorm2d_ok training (bn1 p) Ho Hh Ha) as (b & -> & Hb). simpl.
  destruct (@mapM_sized _ _ (conv2d cout cout (conv2 p)) (has_shape cout h w)
              (has_shape cout h w) n (relu b)) as (c & -> & Hc); auto using relu_sized.
  { intros F HF. apply conv2d_ok; auto. lia. }
  simpl.
  destruct (batchnorm2d_ok training (bn2 p) Ho Hh Hc) as (d & -> & Hd). simpl.
  eexists. split; [reflexivity|]. now apply relu_sized.
Qed.

Lemma Down_ok training cin cout p h w n (B : list fmap) :
  (1 <= cin)%nat -> (1 <= cout)%nat -> (2 <= h)%nat ->
  sized (has_shape cin (2 * h) (2 * w)) n B ->
  exists B', Down training cin cout p B = Ok B' /\ sized (has_shape cout h w) n B'.
Proof.
  intros Hi Ho Hh HB. unfold Down. apply DoubleConv_ok; auto.
  eapply sized_map; [|exact HB]. intros F HF.
  eapply sized_map; [|exact HF]. intros X. apply maxpool2d_sized.
Qed.

Lemma conv_layers_ok training p n (B : list fmap) :
  sized (has_shape 1 128 128) n B ->
  exists B', conv_layers training p B = Ok B' /\ sized (has_shape 16 8 8) n B'.
Proof.
  intros HB. unfold conv_layers.
  change (sized (has_shape 1 (2 * 64) (2 * 64)) n B) in HB.
  destruct (@Down_ok training 1 4 (down1 p) 64 64 n B) as (a & -> & Ha); auto; try lia.
  simpl. change (sized (has_shape 4 (2 * 32) (2 * 32)) n a) in Ha.
  destruct (@Down_ok training 4 8 (down2 p) 32 32 n a) as (b & -> & Hb); auto; try lia.
  simpl. change (sized (has_shape 8 (2 * 16) (2 * 16)) n b) in Hb.
  destruct (@Down_ok training 8 16 (down3 p) 16 16 n b) as (c & -> & Hc); auto; try lia.
  simpl. change (sized (has_shape 16 (2 * 8) (2 * 8)) n c) in Hc.
  apply Down_ok; auto; lia.
Qed.

Lemma view_features_ok (F : fmap) :
  has_shape 16 8 8 F -> exists v, view_features F = Ok v /\ length v = 1024%nat.
Proof.
  intros HF. unfold view_features.
  assert (Hl : length (concat (map (@concat R) F)) = (16 * 64)%nat).
  { apply length_concat_sized with (P := fun _ : R => True).
    eapply sized_map; [|exact HF]. intros X HX.
    split; [|apply Forall_forall; trivial].
    apply (length_concat_sized HX). }
  rewrite Hl. simpl. eauto.
Qed.

Lemma view_scalars_ok n (alpha : tensor R) :
  has_shape n 1 1 alpha -> exists v, view_scalars n alpha = Ok v /\ length v = n.
Proof.
  intros Ha. unfold view_scalars.
  assert (Hl : length (concat (map (@concat R) alpha)) = (n * 1)%nat).
  { apply length_concat_sized with (P := fun _ : R => True).
    eapply sized_map; [|exact Ha]. intros X HX.
    split; [|apply Forall_forall; trivial].
    apply (length_concat_sized HX). }
  rewrite Hl, Nat.mul_1_r, Nat.eqb_refl. eexists. split; [reflexivity|]. lia.
Qed.

Lemma Linear_ok n_in n_out p (v : list R) :
  length v = n_in -> exists o, Linear n_in n_out p v = Ok o /\ length o = n_out.
Proof.
  intros Hl. unfold Linear. rewrite Hl, Nat.eqb_refl.
  eexists. split; [reflexivity|]. now rewrite length_map, length_seq.
Qed.

Lemma mlp_ok n p (v : list R) :
  length v = 1025%nat -> exists o, mlp n p v = Ok o /\ sized (fun r => 0 < r) n o.
Proof.
  intros Hl. unfold mlp.
  destruct (@Linear_ok (16 * 8 * 8 + 1) 64 (fc1 p) v Hl) as (a & -> & Ha). simpl.
  destruct (@Linear_ok 64 64 (fc2 p) (map (fun x => Rmax x 0) a)) as (b & -> & Hb).
  { now rewrite length_map. }
  simpl.
  destruct (@Linear_ok 64 n (fc3 p) (map (fun x => Rmax x 0) b)) as (c & -> & Hc).
  { now rewrite length_map. }
  simpl. eexists. split; [reflexivity|]. split.
  - now rewrite length_map.
  - apply Forall_map, Forall_forall. intros; apply Softplus_pos.
Qed.

Lemma kernel_own_sizes n h w (kernel : tensor R) :
  has_shape n h w kernel ->
  sized (sized (sized (fun _ => True) (width (hd [] kernel))) (length (hd [] kernel)))
        n kernel.
Proof.
  intros [Hl HF]. split; auto.
  destruct kernel as [|K0 kernel]; auto. simpl hd.
  inversion HF as [|? ? [HK0 HF0] _]; subst.
  destruct K0 as [|r K0].
  - simpl. eapply Forall_impl; [|exact HF]. intros K [HK _]. simpl in HK.
    destruct K; [|discriminate]. split; auto.
  - inversion HF0 as [|? ? [Hr _] _]; subst. exact HF.
Qed.

Lemma SubNet_forward_ok training nit p n h w (kernel alpha : tensor R) :
  has_shape n h w kernel -> has_shape n 1 1 alpha ->
  exists sched, SubNet_forward training nit p kernel alpha = Ok sched /\
                sized (sized (fun r => 0 < r) nit) n sched.
Proof.
  intros Hk Ha. unfold SubNet_forward.
  pose proof (kernel_own_sizes Hk) as Hk'.
  set (h0 := length (hd [] kernel)) in *. set (w0 := width (hd [] kernel)) in *.
  assert (Hpad : has_shape n 128 128 (map (pad_128 h0 w0) kernel)).
  { eapply sized_map; [|exact Hk']. intros K. apply pad_128_sized. }
  assert (HH : has_shape n 128 128
                 (abs_sq (fft2 (complex (ifftshift (map (pad_128 h0 w0) kernel)))))).
  { pose proof (shaped_ifftshift Hpad) as H1.
    pose proof (shaped_tmap RtoC (fun _ => True) (fun _ _ => I) H1) as H2.
    pose proof (shaped_abs_sq (shaped_fft2 H2)) as H3.
    eapply shaped_impl; [|exact H3]. trivial. }
  destruct (@conv_layers_ok training p n
              (map (fun X => [X])
                   (abs_sq (fft2 (complex (ifftshift (map (pad_128 h0 w0) kernel)))))))
    as (x & -> & Hx).
  { eapply sized_map; [|exact HH]. intros X HX.
    split; [reflexivity | constructor; [exact HX | constructor]]. }
  simpl.
  destruct (@mapM_sized _ _ view_features (has_shape 16 8 8)
              (fun v => length v = 1024%nat) n x) as (xs & -> & Hxs); auto.
  { intros F HF. apply view_features_ok; auto. }
  simpl.
  destruct Hk as [Hn _]. unfold tensor, image in *. rewrite Hn.
  destruct (@view_scalars_ok n alpha Ha) as (al & -> & Hal). simpl.
  destruct (@mapM_sized _ _ (mlp nit p) (fun v => length v = 1025%nat)
              (sized (fun r => 0 < r) nit) n
              (map (fun xa => fst xa ++ [snd xa]) (combine xs al)))
    as (out & -> & Hout).
  { intros v Hv. apply mlp_ok; auto. }
  { destruct Hxs as [Hlx HFx]. split.
    - rewrite length_map, length_combine. lia.
    - apply Forall_map, Forall_forall. intros [xv a] Hin.
      apply in_combine_l in Hin. rewrite Forall_forall in HFx.
      simpl. rewrite length_app, (HFx xv Hin). reflexivity. }
  simpl. eexists. split; [reflexivity|].
  eapply sized_map; [|exact Hout]. intros row Hrow.
  eapply sized_map; [|exact Hrow]. intros r Hr. simpl.
  pose proof rho_floor_pos. lra.
Qed.

Lemma subnet_sched_ok m n sched :
  subnet m = true -> sized (sized (fun r => 0 < r) (n_iters m)) n sched ->
  sched_ok m n sched.
Proof.
  intros Hs Hsched i Hi. unfold select_rho. rewrite Hs.
  destruct (@mapM_sized _ _
              (fun row => match nth_error row i with
                          | Some r => Ok [[r]]
                          | None => Err IndexError
                          end)
              (sized (fun r => 0 < r) (n_iters m))
              (sized (sized (fun r => 0 < r) 1) 1) n sched) as (rho & E & Hrho); auto.
  { intros row [Hl HF].
    destruct (nth_error row i) as [r|] eqn:E.
    - eexists. split; [reflexivity|].
      apply nth_error_In in E. rewrite Forall_forall in HF.
      unfold sized. repeat constructor. auto.
    - apply nth_error_None in E. lia. }
  exists rho, n. split; auto.
Qed.

Lemma identity_shape_preserving : shape_preserving identity_denoiser.
Proof. intros n h w T HT. exact HT. Qed.

(** C7, amended: [forward] pads the kernel to twice the kernel's own
    size.  A kernel of the observed image's shape gives, for N >= 1, one
    positive noise scalar per batch element, a shape-preserving denoiser
    and (when the weights are fixed) N positive weights, a restored batch
    of the observed image's shape; a kernel of any other shape makes the
    call fail, on the product of the two spectra. *)
Theorem forward_kernel_of_image_shape m n h w hk wk y kernel alpha :
  (1 <= n)%nat -> (1 <= h)%nat -> (1 <= hk)%nat ->
  has_shape n h w y -> has_shape n hk wk kernel ->
  ((hk, wk) <> (h, w) ->
     (exists e, forward m y kernel alpha = Err e) /\
     (subnet m = false -> forward m y kernel alpha = Err ShapeError)) /\
  ((hk, wk) = (h, w) ->
     (1 <= n_iters m)%nat -> shape_preserving (Z m) ->
     shaped (fun a => 0 < a) n 1 1 alpha ->
     (subnet m = false ->
        length (rho_iters m) = n_iters m /\ Forall (fun r => 0 < r) (rho_iters m)) ->
     exists out, forward m y kernel alpha = Ok out /\ has_shape n h w out).
Proof.
  intros Hn Hh Hhk Hy Hk. split.
  - intros Hne. apply forward_mismatch with (n := n) (h := h) (w := w) (hk := hk) (wk := wk);
      auto.
  - intros Heq HN HZ Ha Hfix. inversion Heq; subst hk wk.
    destruct (subnet m) eqn:Hs.
    + assert (Hal : has_shape n 1 1 alpha).
      { eapply shaped_impl; [|exact Ha]. trivial. }
      destruct (@SubNet_forward_ok (training m) (n_iters m) (init m) n h w kernel alpha
                  Hk Hal) as (sched & E & Hsched).
      apply forward_ok with (sched := sched); auto.
      * now rewrite Hs.
      * now apply subnet_sched_ok.
    + destruct (Hfix eq_refl) as [Hl Hpos].
      apply forward_ok with (sched := []); auto.
      * now rewrite Hs.
      * now apply fixed_sched_ok.
Qed.

Lemma forward_kernel_of_image_shape_witness :
  has_shape 1 1 1 [[[1]]] /\
  exists out, forward (fixed_model 1 [1]) [[[1]]] [[[1]]] [[[1]]] = Ok out /\
              has_shape 1 1 1 out.
Proof.
  split; [apply has_shape_111|].
  refine (proj2 (@forward_kernel_of_image_shape (fixed_model 1 [1]) 1 1 1 1 1
                   [[[1]]] [[[1]]] [[[1]]] (le_n 1) (le_n 1) (le_n 1)
                   (has_shape_111 1) (has_shape_111 1))
                eq_refl (le_n 1) identity_shape_preserving _ _).
  - unfold shaped, sized. repeat constructor. exact Rlt_0_1.
  - intros _. split; [reflexivity|]. repeat constructor. exact Rlt_0_1.
Defined.

(** ** A batch of two against its two elements *)

Lemma splits_map A B (f : A -> B) (T T0 T1 : list A) :
  splits T T0 T1 -> splits (map f T) (map f T0) (map f T1).
Proof. intros (a & b & -> & -> & ->). exists (f a), (f b). auto. Qed.

Lemma splits_bsplits A (T T0 T1 : list A) : splits T T0 T1 -> bsplits T T0 T1.
Proof. intros H. left. exact H. Qed.

Lemma ret_splits A (J : A -> A -> A -> Prop) (a a0 a1 : A) :
  J a a0 a1 -> res_splits J (Ok a) (Ok a0) (Ok a1).
Proof.
  intros H. split.
  - intros x Hx. inversion Hx; subst. eauto.
  - intros x0 x1 H0 H1. inversion H0; inversion H1; subst. eauto.
Qed.

Lemma err_splits A (J : A -> A -> A -> Prop) e e0 (r1 : res A) :
  res_splits J (Err e) (Err e0) r1.
Proof. split; intros; discriminate. Qed.

Lemma res_splits_impl A (J J' : A -> A -> A -> Prop) (r r0 r1 : res A) :
  (forall a a0 a1, J a a0 a1 -> J' a a0 a1) ->
  res_splits J r r0 r1 -> res_splits J' r r0 r1.
Proof.
  intros HJ [H1 H2]. split.
  - intros a Ha. destruct (H1 a Ha) as (a0 & a1 & ? & ? & ?). eauto 6.
  - intros a0 a1 Ha0 Ha1. destruct (H2 a0 a1 Ha0 Ha1) as (a & ? & ?). eauto.
Qed.

Lemma bind_splits A B (J : A -> A -> A -> Prop) (J' : B -> B -> B -> Prop)
  (m m0 m1 : res A) (k k0 k1 : A -> res B) :
  res_splits J m m0 m1 ->
  (forall a a0 a1, J a a0 a1 -> res_splits J' (k a) (k0 a0) (k1 a1)) ->
  res_splits J' (a <- m ;; k a) (a <- m0 ;; k0 a) (a <- m1 ;; k1 a).
Proof.
  intros [H1 H2] Hk. split.
  - intros b Hb. destruct m as [a|e]; simpl in Hb; [|discriminate].
    destruct (H1 a eq_refl) as (a0 & a1 & -> & -> & HJ). simpl.
    apply (proj1 (Hk a a0 a1 HJ)). exact Hb.
  - intros b0 b1 Hb0 Hb1.
    destruct m0 as [a0|e]; simpl in Hb0; [|discriminate].
    destruct m1 as [a1|e]; simpl in Hb1; [|discriminate].
    destruct (H2 a0 a1 eq_refl eq_refl) as (a & -> & HJ). simpl.
    apply (proj2 (Hk a a0 a1 HJ)); assumption.
Qed.

Lemma mapM_splits A B (f : A -> res B) (T T0 T1 : list A) :
  splits T T0 T1 -> res_splits splits (mapM f T) (mapM f T0) (mapM f T1).
Proof.
  intros (a & b & -> & -> & ->). simpl.
  destruct (f a) as [x|e], (f b) as [y|e']; simpl;
    try (split; intros; discriminate).
  apply ret_splits. exists x, y. auto.
Qed.

Lemma bzip_splits A B D (f : A -> B -> res D) (TA TA0 TA1 : list A)
  (TB TB0 TB1 : list B) :
  bsplits TA TA0 TA1 -> splits TB TB0 TB1 ->
  res_splits splits (bzip f TA TB) (bzip f TA0 TB0) (bzip f TA1 TB1).
Proof.
  intros [(a & a' & -> & -> & ->) | (s & -> & -> & ->)] (b & b' & -> & -> & ->);
    unfold bzip; simpl.
  - destruct (f a b) as [x|e], (f a' b') as [y|e']; simpl;
      try (split; intros; discriminate).
    apply ret_splits. exists x, y. auto.
  - destruct (f s b) as [x|e], (f s b') as [y|e']; simpl;
      try (split; intros; discriminate).
    apply ret_splits. exists x, y. auto.
Qed.

Lemma tzip_splits A B D (f : A -> B -> res D) (TA TA0 TA1 : tensor A)
  (TB TB0 TB1 : tensor B) :
  bsplits TA TA0 TA1 -> splits TB TB0 TB1 ->
  res_splits splits (tzip f TA TB) (tzip f TA0 TB0) (tzip f TA1 TB1).
Proof. apply bzip_splits. Qed.

Ltac split_maps :=
  unfold crop_half, real, complex, conj, abs_sq, fftshift, ifftshift, ifft2, fft2,
         pad_double, clamp_nonneg, zeros_like, tmap;
  repeat apply splits_map; try assumption;
  try (eexists _, _; split; [reflexivity | split; reflexivity]).

Lemma X_Update_splits (Y Y0 Y1 Ht Ht0 Ht1 : tensor C)
  (HtH HtH0 HtH1 z z0 z1 u u0 u1 rho rho0 rho1 : tensor R) :
  splits Y Y0 Y1 -> splits Ht Ht0 Ht1 -> splits HtH HtH0 HtH1 ->
  splits z z0 z1 -> splits u u0 u1 -> bsplits rho rho0 rho1 ->
  res_splits splits (X_Update_Gaussian Y Ht HtH z u rho)
             (X_Update_Gaussian Y0 Ht0 HtH0 z0 u0 rho0)
             (X_Update_Gaussian Y1 Ht1 HtH1 z1 u1 rho1).
Proof.
  intros HY HHt HHtH Hz Hu Hrho.
  unfold X_Update_Gaussian, radd, rsub, rmul, cadd, cmul, cdiv.
  eapply bind_splits; [apply tzip_splits; auto|]. intros lhs lhs0 lhs1 Hlhs.
  eapply bind_splits; [apply tzip_splits; auto using splits_bsplits|].
  intros hy hy0 hy1 Hhy.
  eapply bind_splits; [apply tzip_splits; auto|]. intros rz rz0 rz1 Hrz.
  eapply bind_splits; [apply tzip_splits; auto using splits_bsplits|].
  intros d d0 d1 Hd.
  eapply bind_splits; [apply tzip_splits; [apply splits_bsplits; auto | split_maps]|].
  intros rhs rhs0 rhs1 Hrhs.
  eapply bind_splits; [apply tzip_splits; auto using splits_bsplits|].
  intros q q0 q1 Hq.
  apply ret_splits. split_maps.
Qed.

Lemma init_l2_splits (Y Y0 Y1 Ht Ht0 Ht1 : tensor C)
  (HtH HtH0 HtH1 alpha alpha0 alpha1 : tensor R) :
  splits Y Y0 Y1 -> splits Ht Ht0 Ht1 -> splits HtH HtH0 HtH1 ->
  splits alpha alpha0 alpha1 ->
  res_splits splits (init_l2 Y Ht HtH alpha) (init_l2 Y0 Ht0 HtH0 alpha0)
             (init_l2 Y1 Ht1 HtH1 alpha1).
Proof.
  intros HY HHt HHtH Ha. unfold init_l2, radd, cmul, cdiv, recip.
  eapply bind_splits; [apply tzip_splits; auto using splits_bsplits|].
  intros rhs rhs0 rhs1 Hrhs.
  eapply bind_splits; [apply mapM_splits; auto|]. intros ra ra0 ra1 Hra.
  eapply bind_splits; [apply tzip_splits; auto using splits_bsplits|].
  intros lhs lhs0 lhs1 Hlhs.
  eapply bind_splits; [apply tzip_splits; auto using splits_bsplits|].
  intros q q0 q1 Hq.
  apply ret_splits. split_maps.
Qed.

Lemma batchnorm2d_eval_splits c p (B B0 B1 : list fmap) :
  splits B B0 B1 ->
  res_splits splits (batchnorm2d false c p B) (batchnorm2d false c p B0)
             (batchnorm2d false c p B1).
Proof.
  intros (F & G & -> & -> & ->). unfold batchnorm2d. simpl.
  destruct (length F =? c)%nat, (length G =? c)%nat; simpl;
    try (split; intros; discriminate).
  apply ret_splits. eexists _, _. eauto.
Qed.

Lemma DoubleConv_eval_splits cin cout p (B B0 B1 : list fmap) :
  splits B B0 B1 ->
  res_splits splits (DoubleConv false cin cout p B) (DoubleConv false cin cout p B0)
             (DoubleConv false cin cout p B1).
Proof.
  intros HB. unfold DoubleConv.
  eapply bind_splits; [apply mapM_splits; auto|]. intros a a0 a1 Ha.
  eapply bind_splits; [apply batchnorm2d_eval_splits; auto|]. intros b b0 b1 Hb.
  eapply bind_splits; [apply mapM_splits; unfold relu; apply splits_map; auto|].
  intros c c0 c1 Hc.
  eapply bind_splits; [apply batchnorm2d_eval_splits; auto|]. intros d d0 d1 Hd.
  apply ret_splits. unfold relu. now apply splits_map.
Qed.

Lemma Down_eval_splits cin cout p (B B0 B1 : list fmap) :
  splits B B0 B1 ->
  res_splits splits (Down false cin cout p B) (Down false cin cout p B0)
             (Down false cin cout p B1).
Proof. intros HB. unfold Down. now apply DoubleConv_eval_splits, splits_map. Qed.

Lemma conv_layers_eval_splits p (B B0 B1 : list fmap) :
  splits B B0 B1 ->
  res_splits splits (conv_layers false p B) (conv_layers false p B0)
             (conv_layers false p B1).
Proof.
  intros HB. unfold conv_layers.
  eapply bind_splits; [apply Down_eval_splits; auto|]. intros a a0 a1 Ha.
  eapply bind_splits; [apply Down_eval_splits; auto|]. intros b b0 b1 Hb.
  eapply bind_splits; [apply Down_eval_splits; auto|]. intros c c0 c1 Hc.
  now apply Down_eval_splits.
Qed.

(** In evaluation mode the weights predicted for a batch of two kernels
    of one size are those predicted for each kernel alone. *)
Lemma SubNet_forward_eval_splits n p (k0 k1 : image R) (a0 a1 : R) :
  length k0 = length k1 -> width k0 = width k1 ->
  res_splits splits
    (SubNet_forward false n p [k0; k1] [[[a0]]; [[a1]]])
    (SubNet_forward false n p [k0] [[[a0]]])
    (SubNet_forward false n p [k1] [[[a1]]]).
Proof.
  intros Hl Hw. unfold SubNet_forward. simpl hd. rewrite <- Hl, <- Hw.
  eapply bind_splits.
  { apply conv_layers_eval_splits. unfold abs_sq, fft2, complex, ifftshift, tmap.
    repeat apply splits_map. eexists _, _. eauto. }
  intros x x0 x1 Hx.
  eapply bind_splits; [apply mapM_splits; exact Hx|].
  intros xs xs0 xs1 (v & v' & -> & -> & ->).
  change (view_scalars (length [k0; k1]) [[[a0]]; [[a1]]]) with (Ok [a0; a1]).
  change (view_scalars (length [k0]) [[[a0]]]) with (Ok [a0]).
  change (view_scalars (length [k1]) [[[a1]]]) with (Ok [a1]).
  cbn [bind].
  apply bind_splits with (J := splits).
  - apply mapM_splits. eexists _, _.
    split; [reflexivity | split; reflexivity].
  - intros out out0 out1 Hout. apply ret_splits. now apply splits_map.
Qed.

Lemma setup_splits_ok m (y0 y1 k0 k1 : image R) (a0 a1 : R) :
  (subnet m = true -> training m = false) ->
  length k0 = length k1 -> width k0 = width k1 ->
  res_splits (setup_splits m)
    (setup m [y0; y1] [k0; k1] [[[a0]]; [[a1]]])
    (setup m [y0] [k0] [[[a0]]])
    (setup m [y1] [k1] [[[a1]]]).
Proof.
  intros Hmode Hl Hw. unfold setup.
  assert (Hy : splits [y0; y1] [y0] [y1]) by (eexists _, _; eauto).
  assert (Hk : splits [k0; k1] [k0] [k1]) by (eexists _, _; eauto).
  assert (Ha : splits [[[a0]]; [[a1]]] [[[a0]]] [[[a1]]]) by (eexists _, _; eauto).
  apply bind_splits
    with (J := fun s s0 s1 : list (list R) => subnet m = true -> splits s s0 s1).
  - destruct (subnet m) eqn:Hs.
    + rewrite (Hmode eq_refl).
      eapply res_splits_impl; [|apply SubNet_forward_eval_splits; auto]. auto.
    + apply ret_splits. discriminate.
  - intros rho rho0 rho1 Hrho.
    eapply bind_splits; [apply init_l2_splits; auto; split_maps|].
    intros z z0 z1 Hz. apply ret_splits.
    constructor; simpl; auto;
      eexists _, _; (split; [reflexivity | split; reflexivity]).
Qed.

Lemma select_rho_splits m (s s0 s1 : list (list R)) i :
  (subnet m = true -> splits s s0 s1) ->
  res_splits bsplits (select_rho m s i) (select_rho m s0 i) (select_rho m s1 i).
Proof.
  intros Hs. unfold select_rho. destruct (subnet m).
  - eapply res_splits_impl; [|apply mapM_splits; auto]. apply splits_bsplits.
  - destruct (nth_error (rho_iters m) i) as [r|].
    + apply ret_splits. right. exists [[r]]. auto.
    + apply err_splits.
Qed.

Lemma spec_iteration_splits m c c0 c1 i zu zu0 zu1 :
  elementwise (Z m) -> setup_splits m c c0 c1 -> pair_splits zu zu0 zu1 ->
  res_splits pair_splits (spec_iteration m c i zu) (spec_iteration m c0 i zu0)
             (spec_iteration m c1 i zu1).
Proof.
  intros (g & Hg) Hc [Hz Hu]. unfold spec_iteration.
  eapply bind_splits; [apply select_rho_splits; apply Hc|]. intros rho rho0 rho1 Hrho.
  eapply bind_splits; [apply X_Update_splits; auto; apply Hc|]. intros x x0 x1 Hx.
  unfold radd, rsub.
  eapply bind_splits; [apply tzip_splits; auto using splits_bsplits|].
  intros ux ux0 ux1 Hux.
  assert (HZ : splits (Z m x) (Z m x0) (Z m x1)).
  { rewrite !Hg. now apply splits_map. }
  eapply bind_splits; [apply tzip_splits; auto using splits_bsplits|].
  intros u' u0' u1' Hu'.
  apply ret_splits. split; simpl; auto.
Qed.

Lemma spec_iterate_splits m c c0 c1 n : forall i zu zu0 zu1,
  elementwise (Z m) -> setup_splits m c c0 c1 -> pair_splits zu zu0 zu1 ->
  res_splits pair_splits (spec_iterate m c i n zu) (spec_iterate m c0 i n zu0)
             (spec_iterate m c1 i n zu1).
Proof.
  induction n as [|n IH]; intros i zu zu0 zu1 HZ Hc Hzu; simpl.
  - now apply ret_splits.
  - eapply bind_splits; [apply spec_iteration_splits; auto|].
    intros zu' zu0' zu1' Hzu'. now apply IH.
Qed.

Lemma forward_zero_not_ok m y kernel alpha out :
  n_iters m = 0%nat -> forward m y kernel alpha <> Ok out.
Proof.
  intros Hn. unfold forward, run. rewrite Hn.
  destruct (setup m y kernel alpha); simpl; discriminate.
Qed.

Lemma forward_splits m (y0 y1 k0 k1 : image R) (a0 a1 : R) :
  (subnet m = true -> training m = false) -> elementwise (Z m) ->
  length k0 = length k1 -> width k0 = width k1 ->
  res_splits splits
    (forward m [y0; y1] [k0; k1] [[[a0]]; [[a1]]])
    (forward m [y0] [k0] [[[a0]]])
    (forward m [y1] [k1] [[[a1]]]).
Proof.
  intros Hmode HZ Hl Hw.
  destruct (n_iters m) as [|n] eqn:Hn.
  - split.
    + intros a Ha. now apply forward_zero_not_ok in Ha.
    + intros a b Ha. now apply forward_zero_not_ok in Ha.
  - rewrite !forward_spec_restore by lia. unfold spec_restore.
    eapply bind_splits; [apply setup_splits_ok; auto|]. intros c c0 c1 Hc.
    eapply bind_splits.
    + apply spec_iterate_splits; eauto. split; simpl; apply Hc.
    + intros zu zu0 zu1 [Hz _]. now apply ret_splits.
Qed.

(** ** The loop on a given schedule *)

Lemma forward_predict m y kernel alpha :
  forward m y kernel alpha
  = rho <- predict m kernel alpha ;; forward_with m rho y kernel alpha.
Proof.
  unfold forward, run, setup, forward_with, setup_with, predict.
  destruct (if subnet m then _ else _) as [rho|e]; simpl; auto.
  destruct (init_l2 _ _ _ _) as [z|e]; simpl; auto.
Qed.

Lemma forward_with_spec m rho y kernel alpha :
  (1 <= n_iters m)%nat ->
  forward_with m rho y kernel alpha
  = c <- setup_with rho y kernel alpha ;;
    zu <- spec_iterate m c 0 (n_iters m) (s_z c, s_u c) ;; Ok (fst zu).
Proof.
  intros Hn. unfold forward_with.
  destruct (setup_with rho y kernel alpha) as [c|e]; simpl; auto.
  pose proof (for_range_spec m c (n_iters m) 0
                {| st_z := s_z c; st_u := s_u c; x_list := []; z_calls := 0 |}) as Hs.
  simpl in Hs. rewrite <- Hs. clear Hs.
  destruct (for_range _ _ _) as [s'|e] eqn:E; simpl; auto.
  now destruct (for_range_last _ _ _ _ Hn E) as (Hl & _).
Qed.

Lemma setup_with_splits m (rho rho0 rho1 : list (list R))
  (y y0 y1 kernel kernel0 kernel1 alpha alpha0 alpha1 : tensor R) :
  (subnet m = true -> splits rho rho0 rho1) ->
  splits y y0 y1 -> splits kernel kernel0 kernel1 -> splits alpha alpha0 alpha1 ->
  res_splits (setup_splits m) (setup_with rho y kernel alpha)
             (setup_with rho0 y0 kernel0 alpha0) (setup_with rho1 y1 kernel1 alpha1).
Proof.
  intros Hrho Hy Hk Ha. unfold setup_with.
  eapply bind_splits; [apply init_l2_splits; auto; split_maps|].
  intros z z0 z1 Hz. apply ret_splits.
  constructor; simpl; auto; split_maps.
Qed.

Lemma forward_with_splits m (rho rho0 rho1 : list (list R))
  (y y0 y1 kernel kernel0 kernel1 alpha alpha0 alpha1 : tensor R) :
  (1 <= n_iters m)%nat -> elementwise (Z m) ->
  (subnet m = true -> splits rho rho0 rho1) ->
  splits y y0 y1 -> splits kernel kernel0 kernel1 -> splits alpha alpha0 alpha1 ->
  res_splits splits (forward_with m rho y kernel alpha)
             (forward_with m rho0 y0 kernel0 alpha0)
             (forward_with m rho1 y1 kernel1 alpha1).
Proof.
  intros Hn HZ Hrho Hy Hk Ha. rewrite !forward_with_spec by exact Hn.
  eapply bind_splits; [apply setup_with_splits; eauto|]. intros c c0 c1 Hc.
  eapply bind_splits.
  - apply spec_iterate_splits; eauto. split; simpl; apply Hc.
  - intros zu zu0 zu1 [Hz _]. now apply ret_splits.
Qed.

(** ** A 1 by 1 image through the two solves *)

Ltac entries :=
  repeat match goal with
         | |- _ :: _ = _ :: _ => apply f_equal2
         | |- (_, _) = (_, _) => apply f_equal2
         | |- Ok _ = Ok _ => apply f_equal
         | |- @nil _ = @nil _ => reflexivity
         end.

Lemma cis_0 : cis 0 = (1, 0).
Proof. unfold cis. now rewrite cos_0, sin_0. Qed.

Lemma twiddle_0_l sgn m n : twiddle sgn 0 m n = (1, 0).
Proof.
  unfold twiddle. simpl INR.
  replace (sgn * 2 * PI * 0 * INR m / INR n) with 0 by (unfold Rdiv; ring).
  apply cis_0.
Qed.

Lemma twiddle_0_r sgn k n : twiddle sgn k 0 n = (1, 0).
Proof.
  unfold twiddle. simpl INR.
  replace (sgn * 2 * PI * INR k * 0 / INR n) with 0 by (unfold Rdiv; ring).
  apply cis_0.
Qed.

Lemma twiddle_half sgn : sgn = 1 \/ sgn = -1 -> twiddle sgn 1 1 2 = (-1, 0).
Proof.
  intros [-> | ->]; unfold twiddle, cis; simpl INR.
  - replace (1 * 2 * PI * 1 * 1 / (1 + 1)) with PI by field.
    now rewrite cos_PI, sin_PI.
  - replace (-1 * 2 * PI * 1 * 1 / (1 + 1)) with (- PI) by field.
    rewrite cos_neg, sin_neg, cos_PI, sin_PI. f_equal. ring.
Qed.

Lemma dft2_2x2 sgn (a b c e : C) :
  sgn = 1 \/ sgn = -1 ->
  dft2 sgn [[a; b]; [c; e]]
  = [[(fst a + fst b + fst c + fst e, snd a + snd b + snd c + snd e);
      (fst a - fst b + fst c - fst e, snd a - snd b + snd c - snd e)];
     [(fst a + fst b - fst c - fst e, snd a + snd b - snd c - snd e);
      (fst a - fst b - fst c + fst e, snd a - snd b - snd c + snd e)]].
Proof.
  intros Hs. unfold dft2.
  cbn [length width hd seq map indexed combine fst snd].
  rewrite !twiddle_0_l, !twiddle_0_r, !(@twiddle_half sgn Hs).
  unfold Csum, Cadd, Cmul, C0. cbn [fold_right fst snd].
  entries; ring.
Qed.

Lemma spectrum_1x1 d : fft2 (complex (ifftshift (pad_double 0 [[[d]]]))) = spec1 d.
Proof.
  unfold fft2, complex, ifftshift, pad_double, tmap, spec1. simpl.
  rewrite dft2_2x2 by (right; reflexivity).
  unfold RtoC. cbn [fst snd]. entries; ring.
Qed.

Lemma back_1x1 (q00 q01 q10 q11 : C) :
  crop_half (real (fftshift (ifft2 [[[q00; q01]; [q10; q11]]])))
  = [[[ / 4 * (fst q00 - fst q01 - fst q10 + fst q11) ]]].
Proof.
  unfold crop_half, real, fftshift, ifft2, tmap.
  cbn [map]. rewrite dft2_2x2 by (left; reflexivity).
  simpl. unfold Creal, Cscal. cbn [fst snd].
  unfold crop_half2d, crop_list. simpl. entries. field.
Qed.

Lemma cdiv_entry_ok a d : d <> 0 -> cdiv_entry a d = Ok (Cscal (/ d) a).
Proof. intros H. unfold cdiv_entry. destruct (Req_dec_T d 0); tauto. Qed.

Lemma recip_entry_ok d : d <> 0 -> recip_entry d = Ok (/ d).
Proof. intros H. unfold recip_entry. destruct (Req_dec_T d 0); tauto. Qed.

Lemma Cabs_sq x y : Cabs (x, y) * Cabs (x, y) = x * x + y * y.
Proof. unfold Cabs. cbn [fst snd]. apply sqrt_sqrt. nra. Qed.

Lemma abs_sq_spec1 c : abs_sq (spec1 c) = [[[c * c; c * c]; [c * c; c * c]]].
Proof.
  unfold abs_sq, spec1, tmap. cbn [map]. rewrite !Cabs_sq. entries; ring.
Qed.

Lemma X_Update_1x1 (y c z u rho : R) :
  0 < rho ->
  X_Update_Gaussian (spec1 y) (conj (spec1 c)) (abs_sq (spec1 c)) [[[z]]] [[[u]]] [[[rho]]]
  = Ok [[[ (rho * z - u) / (rho + c * c) ]]].
Proof.
  intros Hrho. rewrite abs_sq_spec1. unfold X_Update_Gaussian.
  unfold radd, rmul, rsub, cmul, cadd, conj, spec1, tmap.
  cbn [tzip bzip length Nat.eqb mapM mapM2 lift2 bind map].
  rewrite spectrum_1x1. unfold spec1, cdiv.
  cbn [tzip bzip length Nat.eqb mapM mapM2 lift2 bind map].
  assert (Hd : rho + c * c <> 0) by nra.
  rewrite !cdiv_entry_ok by exact Hd.
  cbn [bind]. rewrite back_1x1.
  unfold Cscal, Cadd, Cmul, Cconj. cbn [fst snd].
  entries. field. exact Hd.
Qed.

Lemma init_l2_1x1 (y c a : R) :
  0 < a ->
  init_l2 (spec1 y) (conj (spec1 c)) (abs_sq (spec1 c)) [[[a]]] = Ok [[[0]]].
Proof.
  intros Ha. rewrite abs_sq_spec1. unfold init_l2.
  unfold radd, cmul, recip, conj, spec1, tmap.
  cbn [tzip bzip length Nat.eqb mapM mapM2 lift2 bind map].
  rewrite recip_entry_ok by lra.
  cbn [tzip bzip length Nat.eqb mapM mapM2 lift2 bind map].
  unfold cdiv.
  cbn [tzip bzip length Nat.eqb mapM mapM2 lift2 bind map].
  assert (Hd : c * c + / a <> 0).
  { pose proof (Rinv_0_lt_compat a Ha). nra. }
  rewrite !cdiv_entry_ok by exact Hd.
  cbn [bind]. rewrite back_1x1.
  unfold Cscal, Cadd, Cmul, Cconj. cbn [fst snd].
  entries. field. split; nra.
Qed.

Lemma spec_iteration_1x1 (y c z u rho : R) (row : list R) (z0 u0 : tensor R) i :
  nth_error row i = Some rho -> 0 < rho ->
  spec_iteration training_model
    {| s_Y := spec1 y; s_Ht := conj (spec1 c); s_HtH := abs_sq (spec1 c);
       s_rho := [row]; s_z := z0; s_u := u0 |} i ([[[z]]], [[[u]]])
  = Ok ([[[ (rho * z - u) / (rho + c * c) + 1 ]]],
        [[[ u + (rho * z - u) / (rho + c * c) - ((rho * z - u) / (rho + c * c) + 1) ]]]).
Proof.
  intros Hi Hrho. unfold spec_iteration, select_rho.
  cbn [s_rho s_Y s_Ht s_HtH subnet training_model Unrolled_ADMM_Gaussian_init
       mapM bind fst snd].
  rewrite Hi. cbn [bind]. rewrite X_Update_1x1 by exact Hrho.
  cbn [bind Z training_model Unrolled_ADMM_Gaussian_init].
  unfold shift_denoiser, radd, rsub, tmap.
  cbn [tzip bzip length Nat.eqb mapM mapM2 lift2 bind map].
  reflexivity.
Qed.

Lemma forward_with_1x1 (r1 r2 y c a : R) :
  0 < r1 -> 0 < r2 -> 0 < a ->
  forward_with training_model [[r1; r2]] [[[y]]] [[[c]]] [[[a]]]
  = Ok [[[ (r2 + 1) / (r2 + c * c) + 1 ]]].
Proof.
  intros H1 H2 Ha. rewrite forward_with_spec by (simpl; lia).
  unfold setup_with, clamp_nonneg, zeros_like, tmap. cbn [map].
  rewrite !spectrum_1x1, init_l2_1x1 by exact Ha.
  cbn [bind n_iters training_model Unrolled_ADMM_Gaussian_init spec_iterate s_z s_u].
  rewrite spec_iteration_1x1 with (rho := r1) by (reflexivity || assumption).
  cbn [bind].
  rewrite spec_iteration_1x1 with (rho := r2) by (reflexivity || assumption).
  cbn [bind fst]. entries. field. split; nra.
Qed.

(** ** The spectrum of a 1 by 1 kernel in the weight predictor *)

Lemma Cmul_0_l z : Cmul C0 z = C0.
Proof. unfold Cmul, C0. cbn [fst snd]. f_equal; ring. Qed.

Lemma Cadd_0_l z : Cadd C0 z = z.
Proof. unfold Cadd, C0. destruct z. cbn [fst snd]. f_equal; ring. Qed.

Lemma Cadd_0_r z : Cadd z C0 = z.
Proof. unfold Cadd, C0. destruct z. cbn [fst snd]. f_equal; ring. Qed.

Lemma Csum_zero A (F : A -> C) l : (forall x, In x l -> F x = C0) -> Csum (map F l) = C0.
Proof.
  induction l as [|a l IH]; intros H; simpl; auto.
  rewrite H by (left; auto). rewrite IH by (intros; apply H; right; auto).
  apply Cadd_0_l.
Qed.

(** A sum over an indexed list whose entries all vanish but the last. *)
Lemma Csum_last A (F : nat * A -> C) (z x : A) n : forall s,
  (forall i, F (i, z) = C0) ->
  Csum (map F (combine (seq s (S n)) (repeat z n ++ [x]))) = F ((s + n)%nat, x).
Proof.
  induction n as [|n IH]; intros s Hz.
  - simpl. rewrite Cadd_0_r. now rewrite Nat.add_0_r.
  - change (repeat z (S n) ++ [x]) with (z :: (repeat z n ++ [x])).
    change (seq s (S (S n))) with (s :: seq (S s) (S n)).
    cbn [combine map Csum fold_right].
    change (fold_right Cadd C0 (map F (combine (seq (S s) (S n)) (repeat z n ++ [x]))))
      with (Csum (map F (combine (seq (S s) (S n)) (repeat z n ++ [x])))).
    rewrite IH by exact Hz. rewrite Hz, Cadd_0_l. f_equal. f_equal. lia.
Qed.

Lemma cis_norm t : fst (cis t) * fst (cis t) + snd (cis t) * snd (cis t) = 1.
Proof.
  unfold cis. cbn [fst snd]. pose proof (sin2_cos2 t) as H. unfold Rsqr in H. lra.
Qed.

Lemma dft2_entries sgn X :
  dft2 sgn X = map (fun k => map (dft2_entry sgn X k) (seq 0 (width X))) (seq 0 (length X)).
Proof. reflexivity. Qed.

Lemma map_seq_const A (f : nat -> A) (v : A) n s :
  (forall k, f k = v) -> map f (seq s n) = repeat v n.
Proof.
  intros Hf. revert s. induction n as [|n IH]; intros s; simpl; auto.
  now rewrite Hf, IH.
Qed.

Lemma dft2_entry_hot128_value sgn c k l :
  dft2_entry sgn (hot128 c) k l
  = Cmul (c, 0) (Cmul (twiddle sgn k 127 128) (twiddle sgn l 127 128)).
Proof.
  unfold dft2_entry.
  change (length (hot128 c)) with 128%nat. change (width (hot128 c)) with 128%nat.
  unfold indexed at 1. change (length (hot128 c)) with 128%nat. unfold hot128.
  rewrite (@Csum_last _ _ (repeat C0 128) (repeat C0 127 ++ [(c, 0)]) 127 0).
  - cbn [fst snd Nat.add]. unfold indexed.
    change (length (repeat C0 127 ++ [(c, 0)])) with 128%nat.
    rewrite (@Csum_last _ _ C0 (c, 0) 127 0).
    + reflexivity.
    + intros i. cbn [fst snd]. apply Cmul_0_l.
  - intros i. cbn [fst snd]. apply Csum_zero. intros [n v] Hin.
    apply in_combine_r in Hin. apply repeat_spec in Hin. subst v.
    cbn [fst snd]. apply Cmul_0_l.
Qed.

Lemma dft2_entry_hot128 sgn c k l :
  Cabs (dft2_entry sgn (hot128 c) k l) * Cabs (dft2_entry sgn (hot128 c) k l) = c * c.
Proof.
  rewrite dft2_entry_hot128_value. unfold twiddle.
  pose proof (cis_norm (sgn * 2 * PI * INR k * INR 127 / INR 128)) as H1.
  pose proof (cis_norm (sgn * 2 * PI * INR l * INR 127 / INR 128)) as H2.
  destruct (cis (sgn * 2 * PI * INR k * INR 127 / INR 128)) as [s1 s2].
  destruct (cis (sgn * 2 * PI * INR l * INR 127 / INR 128)) as [t1 t2].
  cbn [fst snd] in *.
  unfold Cmul. cbn [fst snd]. rewrite Cabs_sq.
  transitivity (c * c * ((s1 * s1 + s2 * s2) * (t1 * t1 + t2 * t2))); [ring|].
  rewrite H1, H2. ring.
Qed.

(** ** Uniform feature maps through the weight predictor in training mode *)

Lemma Rmax_same v : Rmax v v = v.
Proof. apply Rmax_left. lra. Qed.

Lemma pool_pairs_repeat A (f : A -> A -> A) (v : A) n :
  pool_pairs f (repeat v (2 * n)) = repeat (f v v) n.
Proof.
  replace (2 * n)%nat with (n + n)%nat by lia.
  induction n as [|n IH]; [reflexivity|].
  replace (S n + S n)%nat with (S (S (n + n))) by lia.
  simpl. now rewrite IH.
Qed.

Lemma zip_with_repeat A (f : A -> A -> A) (a b : A) n :
  zip_with f (repeat a n) (repeat b n) = repeat (f a b) n.
Proof.
  unfold zip_with. induction n as [|n IH]; [reflexivity|]. simpl. now rewrite IH.
Qed.

Lemma maxpool_uni c h w v :
  map maxpool2d (uni c (2 * h) (2 * w) v) = uni c h w v.
Proof.
  unfold uni. rewrite map_repeat. f_equal. unfold maxpool2d.
  rewrite map_repeat, !pool_pairs_repeat, zip_with_repeat, !Rmax_same. reflexivity.
Qed.

Lemma rsum_zero A (f : A -> R) l : (forall x, In x l -> f x = 0) -> rsum (map f l) = 0.
Proof.
  induction l as [|a l IH]; intros H; simpl; auto.
  rewrite H by (left; auto). rewrite IH by (intros; apply H; right; auto). ring.
Qed.

Lemma map_seq_range A (f : nat -> A) (v : A) n s :
  (forall k, (s <= k < s + n)%nat -> f k = v) -> map f (seq s n) = repeat v n.
Proof.
  revert s. induction n as [|n IH]; intros s Hf; simpl; auto.
  rewrite Hf by lia. rewrite IH; auto. intros k Hk. apply Hf. lia.
Qed.

Lemma nth_repeat_lt A (v d : A) n k : (k < n)%nat -> nth k (repeat v n) d = v.
Proof.
  revert k. induction n as [|n IH]; intros [|k] Hk; simpl; try lia; auto.
  apply IH. lia.
Qed.

Lemma pix_uni h w v y x :
  (y < h)%nat -> (x < w)%nat -> pix (repeat (repeat v w) h) (y + 1) (x + 1) = v.
Proof.
  intros Hy Hx. rewrite !Nat.add_1_r. simpl.
  rewrite (@nth_repeat_lt _ (repeat v w) [] h y Hy). now apply nth_repeat_lt.
Qed.

Lemma hd_repeat A (v d : A) n : (1 <= n)%nat -> hd d (repeat v n) = v.
Proof. destruct n; [lia | reflexivity]. Qed.

Lemma conv_tap_uni cin cout h w v :
  (1 <= cin)%nat -> (1 <= h)%nat ->
  conv2d cin cout tap_conv_w (uni cin h w v) = Ok (uni cout h w v).
Proof.
  intros Hc Hh. unfold conv2d, uni, width.
  rewrite repeat_length, Nat.eqb_refl.
  rewrite (@hd_repeat _ (repeat (repeat v w) h) [] cin Hc).
  rewrite (@hd_repeat _ (repeat v w) [] h Hh), !repeat_length.
  apply f_equal.
  apply map_seq_range. intros o _.
  apply map_seq_range. intros y Hy.
  apply map_seq_range. intros x Hx.
  destruct cin as [|cin]; [lia|].
  cbn [seq map rsum fold_right cw cb tap_conv_w Nat.eqb andb].
  rewrite rsum_zero.
  - rewrite !Nat.add_0_r. cbn [nth repeat].
    rewrite (@pix_uni h w v y x) by lia. ring.
  - intros i Hi. apply in_seq in Hi.
    destruct i as [|i]; [lia|]. cbn [Nat.eqb andb]. ring.
Qed.

Lemma concat_repeat A (a : A) w h : concat (repeat (repeat a w) h) = repeat a (h * w).
Proof.
  induction h as [|h IH]; [reflexivity|]. simpl. rewrite IH. symmetry. apply repeat_app.
Qed.

Lemma map_indexed_repeat A B (G : nat * A -> B) (X : A) (Y : B) c :
  (forall k, (k < c)%nat -> G (k, X) = Y) -> map G (indexed (repeat X c)) = repeat Y c.
Proof.
  intros HG. unfold indexed. rewrite repeat_length.
  assert (H : forall s n, (s + n <= c)%nat ->
                map G (combine (seq s n) (repeat X n)) = repeat Y n).
  { intros s n. revert s. induction n as [|n IH]; intros s Hs; simpl; auto.
    rewrite HG by lia. rewrite IH by lia. reflexivity. }
  apply H. lia.
Qed.

Lemma chan_values_uni c h w vs k :
  (k < c)%nat -> chan_values (map (uni c h w) vs) k = pooled (h * w) vs.
Proof.
  intros Hk. unfold chan_values, pooled. rewrite map_map. f_equal.
  apply map_ext. intros v. unfold uni.
  rewrite (@nth_repeat_lt _ (repeat (repeat v w) h) [] c k Hk).
  apply concat_repeat.
Qed.

Lemma pooled_length n vs : length (pooled n vs) = (length vs * n)%nat.
Proof.
  unfold pooled. induction vs as [|v vs IH]; [reflexivity|].
  simpl. rewrite length_app, repeat_length, IH. reflexivity.
Qed.

Lemma batchnorm_uni c h w vs :
  (1 <= c)%nat -> (2 <= h * w)%nat ->
  batchnorm2d true c unit_bn_w (map (uni c h w) vs)
  = Ok (map (fun v => uni c h w (bnf (pooled (h * w) vs) v)) vs).
Proof.
  intros Hc Hn. unfold batchnorm2d.
  match goal with |- context [forallb ?f ?l] =>
    assert (Hall : forallb f l = true) end.
  { apply forallb_forall. intros F HF. apply in_map_iff in HF.
    destruct HF as (v & <- & _). unfold uni. rewrite repeat_length. apply Nat.eqb_refl. }
  rewrite Hall.
  match goal with |- context [chan_values ?B 0] =>
    replace (chan_values B 0) with (pooled (h * w) vs)
      by (symmetry; apply chan_values_uni; lia) end.
  assert (Hone : (length (pooled (h * w) vs) =? 1)%nat = false).
  { rewrite pooled_length. apply Nat.eqb_neq. intros E.
    apply Nat.eq_mul_1 in E. lia. }
  rewrite Hone. cbn [andb]. rewrite map_map. apply f_equal.
  apply map_ext. intros v. unfold uni at 1 3.
  apply map_indexed_repeat.
  intros k Hk. cbn [fst snd].
  repeat match goal with |- context [chan_values ?B k] =>
    replace (chan_values B k) with (pooled (h * w) vs)
      by (symmetry; apply chan_values_uni; lia) end.
  rewrite !map_repeat. reflexivity.
Qed.

Lemma relu_uni c h w vs :
  relu (map (uni c h w) vs) = map (uni c h w) (map (fun v => Rmax v 0) vs).
Proof.
  unfold relu. rewrite !map_map. apply map_ext. intros v.
  unfold uni. now rewrite !map_repeat.
Qed.

Lemma conv_tap_batch cin cout h w vs :
  (1 <= cin)%nat -> (1 <= h)%nat ->
  mapM (conv2d cin cout tap_conv_w) (map (uni cin h w) vs) = Ok (map (uni cout h w) vs).
Proof.
  intros Hc Hh. induction vs as [|v vs IH]; [reflexivity|].
  simpl. rewrite conv_tap_uni by assumption. rewrite IH. reflexivity.
Qed.

Lemma DoubleConv_uni cin cout h w vs :
  (1 <= cin)%nat -> (1 <= cout)%nat -> (1 <= h)%nat -> (2 <= h * w)%nat ->
  DoubleConv true cin cout tap_dconv_w (map (uni cin h w) vs)
  = Ok (map (uni cout h w) (step (h * w) (step (h * w) vs))).
Proof.
  intros Hi Ho Hh Hn. unfold DoubleConv.
  cbn [conv1 conv2 bn1 bn2 tap_dconv_w].
  rewrite conv_tap_batch by assumption. cbn [bind].
  rewrite batchnorm_uni by assumption. cbn [bind].
  rewrite <- (map_map (bnf (pooled (h * w) vs)) (uni cout h w)).
  rewrite relu_uni, (map_map (bnf (pooled (h * w) vs)) (fun v => Rmax v 0)).
  fold (step (h * w) vs).
  rewrite conv_tap_batch by assumption. cbn [bind].
  rewrite batchnorm_uni by assumption. cbn [bind].
  rewrite <- (map_map (bnf (pooled (h * w) (step (h * w) vs))) (uni cout h w)).
  rewrite relu_uni, (map_map (bnf (pooled (h * w) (step (h * w) vs))) (fun v => Rmax v 0)).
  reflexivity.
Qed.

Lemma Down_uni cin cout h w vs :
  (1 <= cin)%nat -> (1 <= cout)%nat -> (1 <= h)%nat -> (2 <= h * w)%nat ->
  Down true cin cout tap_dconv_w (map (uni cin (2 * h) (2 * w)) vs)
  = Ok (map (uni cout h w) (step (h * w) (step (h * w) vs))).
Proof.
  intros Hi Ho Hh Hn. unfold Down. rewrite map_map.
  rewrite (map_ext _ (uni cin h w)) by (intros; apply maxpool_uni).
  now apply DoubleConv_uni.
Qed.

Lemma conv_layers_uni vs :
  conv_layers true tap_subnet_w (map (uni 1 128 128) vs) = Ok (map (uni 16 8 8) (steps vs)).
Proof.
  unfold conv_layers. cbn [down1 down2 down3 down4 tap_subnet_w].
  change (uni 1 128 128) with (uni 1 (2 * 64) (2 * 64)).
  rewrite Down_uni by lia. cbn [bind].
  change (uni 4 64 64) with (uni 4 (2 * 32) (2 * 32)).
  rewrite Down_uni by lia. cbn [bind].
  change (uni 8 32 32) with (uni 8 (2 * 16) (2 * 16)).
  rewrite Down_uni by lia. cbn [bind].
  change (uni 16 16 16) with (uni 16 (2 * 8) (2 * 8)).
  rewrite Down_uni by lia. reflexivity.
Qed.

Lemma rsum_repeat v n : rsum (repeat v n) = INR n * v.
Proof.
  induction n as [|n IH]; [simpl; ring|].
  rewrite S_INR. cbn [repeat rsum fold_right]. fold (rsum (repeat v n)).
  rewrite IH. ring.
Qed.

Lemma rsum_app l1 l2 : rsum (l1 ++ l2) = rsum l1 + rsum l2.
Proof.
  induction l1 as [|a l1 IH]; simpl; [ring|]. fold (rsum (l1 ++ l2)). fold (rsum l1).
  rewrite IH. ring.
Qed.

Lemma rsum_nonneg l : Forall (fun v => 0 <= v) l -> 0 <= rsum l.
Proof.
  induction 1 as [|a l Ha _ IH]; simpl; [lra|]. fold (rsum l). lra.
Qed.

Lemma var_biased_nonneg L : 0 <= var_biased L.
Proof.
  unfold var_biased.
  assert (H : 0 <= rsum (map (fun v => (v - mean L) * (v - mean L)) L)).
  { apply rsum_nonneg, Forall_map, Forall_forall. intros v _. apply Rle_0_sqr. }
  destruct L as [|a L].
  - simpl. unfold Rdiv. rewrite Rinv_0. lra.
  - apply Rmult_le_pos; [exact H|].
    apply Rlt_le, Rinv_0_lt_compat, lt_0_INR. simpl. lia.
Qed.

Lemma bn_scale_pos L : 0 < sqrt (var_biased L + bn_eps).
Proof.
  apply sqrt_lt_R0. pose proof (var_biased_nonneg L). unfold bn_eps. lra.
Qed.

Lemma mean_single n v : (1 <= n)%nat -> mean (pooled n [v]) = v.
Proof.
  intros Hn. unfold mean, pooled. cbn [map concat]. rewrite app_nil_r.
  rewrite rsum_repeat, repeat_length. field.
  apply not_0_INR. lia.
Qed.

Lemma step_single n v : (1 <= n)%nat -> step n [v] = [0].
Proof.
  intros Hn. unfold step, bnf. cbn [map]. rewrite mean_single by exact Hn.
  f_equal. replace ((v - v) / _ * 1 + 0) with 0 by (unfold Rdiv; ring).
  apply Rmax_same.
Qed.

Lemma mean_pair n t : (1 <= n)%nat -> mean (pooled n [t; 0]) = t / 2.
Proof.
  intros Hn. unfold mean, pooled. cbn [map concat]. rewrite app_nil_r.
  rewrite rsum_app, !rsum_repeat, length_app, !repeat_length, plus_INR. field.
  assert (0 < INR n) by (apply lt_0_INR; lia). lra.
Qed.

Lemma step_pair n t :
  (1 <= n)%nat -> 0 < t -> exists t', 0 < t' /\ step n [t; 0] = [t'; 0].
Proof.
  intros Hn Ht. unfold step, bnf. cbn [map]. rewrite mean_pair by exact Hn.
  set (s := sqrt _). assert (Hs : 0 < s) by apply bn_scale_pos.
  assert (Hi : 0 < / s) by now apply Rinv_0_lt_compat.
  exists ((t - t / 2) / s * 1 + 0).
  assert (Hp : 0 < (t - t / 2) / s * 1 + 0).
  { unfold Rdiv at 1. assert (0 < t - t / 2) by lra. nra. }
  assert (Hm : (0 - t / 2) / s * 1 + 0 <= 0).
  { unfold Rdiv at 1. assert (0 - t / 2 < 0) by lra. nra. }
  split; [exact Hp|]. f_equal.
  - apply Rmax_left. lra.
  - f_equal. apply Rmax_right. exact Hm.
Qed.

Lemma steps_single v : steps [v] = [0].
Proof. unfold steps. now rewrite !step_single by lia. Qed.

Lemma steps_pair t : 0 < t -> exists t', 0 < t' /\ steps [t; 0] = [t'; 0].
Proof.
  intros Ht. unfold steps.
  destruct (@step_pair 4096 t) as (t1 & H1 & ->); [lia | exact Ht |].
  destruct (@step_pair 4096 t1) as (t2 & H2 & ->); [lia | exact H1 |].
  destruct (@step_pair 1024 t2) as (t3 & H3 & ->); [lia | exact H2 |].
  destruct (@step_pair 1024 t3) as (t4 & H4 & ->); [lia | exact H3 |].
  destruct (@step_pair 256 t4) as (t5 & H5 & ->); [lia | exact H4 |].
  destruct (@step_pair 256 t5) as (t6 & H6 & ->); [lia | exact H5 |].
  destruct (@step_pair 64 t6) as (t7 & H7 & ->); [lia | exact H6 |].
  destruct (@step_pair 64 t7) as (t8 & H8 & ->); [lia | exact H7 |].
  eauto.
Qed.

(** ** The weights predicted in training mode, and a batch of two *)

Lemma Linear_first n_in n_out x v :
  length (x :: v) = n_in ->
  Linear n_in n_out first_lin_w (x :: v) = Ok (repeat x n_out).
Proof.
  intros Hl. unfold Linear. rewrite Hl, Nat.eqb_refl. apply f_equal.
  apply map_seq_const. intros o.
  unfold indexed. cbn [length seq combine map rsum fold_right fst snd lw lb
                       first_lin_w Nat.eqb].
  rewrite rsum_zero; [ring|].
  intros [i a] Hin. apply in_combine_l, in_seq in Hin.
  cbn [fst snd]. destruct i as [|i]; [lia|]. cbn [Nat.eqb]. ring.
Qed.

Lemma Rmax_nonneg t : 0 <= t -> Rmax t 0 = t.
Proof. intros H. now apply Rmax_left. Qed.

Lemma mlp_first n t a :
  0 <= t -> mlp n tap_subnet_w (repeat t 1024 ++ [a]) = Ok (repeat (Softplus t) n).
Proof.
  intros Ht. unfold mlp. cbn [fc1 fc2 fc3 tap_subnet_w].
  change (repeat t 1024 ++ [a]) with (t :: (repeat t 1023 ++ [a])).
  rewrite Linear_first by reflexivity. cbn [bind].
  rewrite map_repeat, Rmax_nonneg by exact Ht.
  change (repeat t 64) with (t :: repeat t 63).
  rewrite Linear_first by reflexivity. cbn [bind].
  rewrite map_repeat, Rmax_nonneg by exact Ht.
  change (repeat t 64) with (t :: repeat t 63).
  rewrite Linear_first by reflexivity. cbn [bind].
  now rewrite map_repeat.
Qed.

Lemma shifted_kernel_image c :
  map (map RtoC) (ifftshift1 (map ifftshift1 (pad_128 1 1 [[c]]))) = hot128 c.
Proof. reflexivity. Qed.

Lemma kernel_spectrum_image c :
  map (map (fun z : C => Cabs z * Cabs z))
      (dft2 (-1) (map (map RtoC) (ifftshift1 (map ifftshift1 (pad_128 1 1 [[c]])))))
  = repeat (repeat (c * c) 128) 128.
Proof.
  rewrite shifted_kernel_image, dft2_entries.
  change (length (hot128 c)) with 128%nat. change (width (hot128 c)) with 128%nat.
  rewrite map_map. apply map_seq_const. intros k.
  rewrite map_map. apply map_seq_const. intros l.
  apply dft2_entry_hot128.
Qed.

Lemma spectra_pair c0 c1 :
  map (fun X : image R => [X])
      (abs_sq (fft2 (complex (ifftshift (map (pad_128 1 1) [[[c0]]; [[c1]]])))))
  = map (uni 1 128 128) [c0 * c0; c1 * c1].
Proof.
  unfold abs_sq, fft2, complex, ifftshift, tmap.
  change (map (pad_128 1 1) [[[c0]]; [[c1]]]) with [pad_128 1 1 [[c0]]; pad_128 1 1 [[c1]]].
  cbn [map]. rewrite !kernel_spectrum_image. reflexivity.
Qed.

Lemma spectra_single c :
  map (fun X : image R => [X])
      (abs_sq (fft2 (complex (ifftshift (map (pad_128 1 1) [[[c]]])))))
  = map (uni 1 128 128) [c * c].
Proof.
  unfold abs_sq, fft2, complex, ifftshift, tmap.
  change (map (pad_128 1 1) [[[c]]]) with [pad_128 1 1 [[c]]].
  cbn [map]. rewrite kernel_spectrum_image. reflexivity.
Qed.

Lemma SubNet_forward_training_pair (c0 c1 a0 a1 t0 t1 : R) :
  steps [c0 * c0; c1 * c1] = [t0; t1] -> 0 <= t0 -> 0 <= t1 ->
  SubNet_forward true 2 tap_subnet_w [[[c0]]; [[c1]]] [[[a0]]; [[a1]]]
  = Ok [[Softplus t0 + rho_floor; Softplus t0 + rho_floor];
        [Softplus t1 + rho_floor; Softplus t1 + rho_floor]].
Proof.
  intros Hs H0 H1. unfold SubNet_forward.
  change (length (hd [] [[[c0]]; [[c1]]])) with 1%nat.
  change (width (hd [] [[[c0]]; [[c1]]])) with 1%nat.
  rewrite spectra_pair, conv_layers_uni, Hs. cbn [bind].
  change (mapM view_features (map (uni 16 8 8) [t0; t1]))
    with (Ok [repeat t0 1024; repeat t1 1024]).
  cbn [bind].
  change (view_scalars (length [[[c0]]; [[c1]]]) [[[a0]]; [[a1]]]) with (Ok [a0; a1]).
  cbn [bind combine map fst snd mapM].
  rewrite !mlp_first by assumption. reflexivity.
Qed.

Lemma SubNet_forward_training_single (c a : R) :
  SubNet_forward true 2 tap_subnet_w [[[c]]] [[[a]]]
  = Ok [[Softplus 0 + rho_floor; Softplus 0 + rho_floor]].
Proof.
  unfold SubNet_forward.
  change (length (hd [] [[[c]]])) with 1%nat.
  change (width (hd [] [[[c]]])) with 1%nat.
  rewrite spectra_single, conv_layers_uni, steps_single. cbn [bind].
  change (mapM view_features (map (uni 16 8 8) [0])) with (Ok [repeat 0 1024]).
  cbn [bind].
  change (view_scalars (length [[[c]]]) [[[a]]]) with (Ok [a]).
  cbn [bind combine map fst snd mapM].
  rewrite !mlp_first by lra. reflexivity.
Qed.

Lemma Softplus_0_lt t : 0 < t -> Softplus 0 < Softplus t.
Proof.
  intros Ht. unfold Softplus.
  destruct (Rlt_dec 20 0) as [H|_]; [lra|].
  rewrite exp_0.
  destruct (Rlt_dec 20 t) as [H|H].
  - apply Rlt_trans with 20; [|exact H].
    rewrite <- (ln_exp 20). apply ln_increasing; [lra|].
    pose proof (exp_ineq1 20). lra.
  - apply ln_increasing; [lra|].
    pose proof (exp_increasing 0 t Ht) as He. rewrite exp_0 in He. lra.
Qed.

Lemma output_injective (a b : R) :
  0 < a -> 0 < b ->
  (a + 1) / (a + 2 * 2) + 1 = (b + 1) / (b + 2 * 2) + 1 -> a = b.
Proof.
  intros Ha Hb H.
  assert (E : (a + 1) * (b + 2 * 2) = (b + 1) * (a + 2 * 2)).
  { transitivity (((a + 1) / (a + 2 * 2) + 1 - 1) * ((a + 2 * 2) * (b + 2 * 2)));
      [field; lra|].
    rewrite H. field. lra. }
  lra.
Qed.

Lemma shift_denoiser_elementwise : elementwise shift_denoiser.
Proof. exists (map (map (fun v => v + 1))). reflexivity. Qed.

Lemma forward_training_single c :
  forward training_model [[[1]]] [[[c]]] [[[1]]]
  = Ok [[[ (Softplus 0 + rho_floor + 1) / (Softplus 0 + rho_floor + c * c) + 1 ]]].
Proof.
  rewrite forward_predict. unfold predict.
  cbn [subnet training n_iters init training_model Unrolled_ADMM_Gaussian_init].
  rewrite SubNet_forward_training_single. cbn [bind].
  pose proof (Softplus_pos 0). pose proof rho_floor_pos.
  apply forward_with_1x1; lra.
Qed.

Lemma forward_training_pair :
  exists t, 0 < t /\
    forward training_model [[[1]]; [[1]]] [[[2]]; [[0]]] [[[1]]; [[1]]]
    = Ok [[[ (Softplus t + rho_floor + 1) / (Softplus t + rho_floor + 2 * 2) + 1 ]];
          [[ (Softplus 0 + rho_floor + 1) / (Softplus 0 + rho_floor + 0 * 0) + 1 ]]].
Proof.
  destruct (@steps_pair (2 * 2)) as (t & Ht & Hs); [lra|].
  exists t. split; [exact Ht|].
  rewrite forward_predict. unfold predict.
  cbn [subnet training n_iters init training_model Unrolled_ADMM_Gaussian_init].
  rewrite (@SubNet_forward_training_pair 2 0 1 1 t 0); try lra.
  2:{ rewrite Rmult_0_l. exact Hs. }
  cbn [bind].
  pose proof (Softplus_pos t). pose proof (Softplus_pos 0). pose proof rho_floor_pos.
  set (r := Softplus t + rho_floor). set (r' := Softplus 0 + rho_floor).
  assert (Hsp : res_splits splits
            (forward_with training_model [[r; r]; [r'; r']]
                          [[[1]]; [[1]]] [[[2]]; [[0]]] [[[1]]; [[1]]])
            (forward_with training_model [[r; r]] [[[1]]] [[[2]]] [[[1]]])
            (forward_with training_model [[r'; r']] [[[1]]] [[[0]]] [[[1]]])).
  { apply forward_with_splits.
    - simpl. lia.
    - apply shift_denoiser_elementwise.
    - intros _. eexists _, _. eauto.
    - eexists _, _. eauto.
    - eexists _, _. eauto.
    - eexists _, _. eauto. }
  destruct Hsp as [_ H2].
  destruct (H2 _ _ (@forward_with_1x1 r r 1 2 1 ltac:(unfold r; lra) ltac:(unfold r; lra) Rlt_0_1)
               (@forward_with_1x1 r' r' 1 0 1 ltac:(unfold r'; lra) ltac:(unfold r'; lra) Rlt_0_1))
    as (a & -> & (x & y & -> & Hx & Hy)).
  inversion Hx; inversion Hy; subst. reflexivity.
Qed.

(** C8, as stated, fails in training mode: with the module as
    constructed, the element (image 1, kernel 2, alpha 1) restored in a
    batch with (image 1, kernel 0, alpha 1) gives another output than
    restored alone, through the batch statistics of the batch norm
    layers of the weight predictor. *)
Lemma training_batch_counterexample :
  training training_model = true /\ elementwise (Z training_model) /\
  (exists o0 o1 o0',
     forward training_model [[[1]]; [[1]]] [[[2]]; [[0]]] [[[1]]; [[1]]] = Ok [o0; o1] /\
     forward training_model [[[1]]] [[[2]]] [[[1]]] = Ok [o0'] /\
     o0 <> o0') /\
  ~ res_splits splits
      (forward training_model [[[1]]; [[1]]] [[[2]]; [[0]]] [[[1]]; [[1]]])
      (forward training_model [[[1]]] [[[2]]] [[[1]]])
      (forward training_model [[[1]]] [[[0]]] [[[1]]]).
Proof.
  split; [reflexivity|]. split; [apply shift_denoiser_elementwise|].
  destruct forward_training_pair as (t & Ht & Eb).
  pose proof (Softplus_pos t). pose proof (Softplus_pos 0). pose proof rho_floor_pos.
  pose proof Softplus_0_lt as Hlt. specialize (Hlt t Ht).
  assert (Hne : [[(Softplus t + rho_floor + 1) / (Softplus t + rho_floor + 2 * 2) + 1]]
                <> [[(Softplus 0 + rho_floor + 1) / (Softplus 0 + rho_floor + 2 * 2) + 1]]).
  { intros E. inversion E as [E']. apply output_injective in E'; lra. }
  split.
  - eexists _, _, _. split; [exact Eb|]. split; [apply forward_training_single|].
    exact Hne.
  - intros [_ H2].
    destruct (H2 _ _ (forward_training_single 2) (forward_training_single 0))
      as (a & Ea & (x & y & -> & Hx & Hy)).
    rewrite Eb in Ea. inversion Ea; subst. inversion Hx as [E].
    apply Hne. now rewrite E.
Qed.

Lemma identity_elementwise : elementwise identity_denoiser.
Proof. exists (fun X => X). intros T. symmetry. apply map_id. Qed.

(** C8, amended: with a denoiser that treats each batch element by
    itself, and with the weight predictor in evaluation mode (or the
    weights fixed), restoring a batch of two elements whose kernels have
    one size returns exactly when restoring each element alone returns,
    and the batch output is the two single outputs, in order. *)
Theorem forward_batch_of_two m (y0 y1 k0 k1 : image R) (a0 a1 : R) :
  (subnet m = true -> training m = false) -> elementwise (Z m) ->
  length k0 = length k1 -> width k0 = width k1 ->
  (forall out, forward m [y0; y1] [k0; k1] [[[a0]]; [[a1]]] = Ok out ->
     exists o0 o1, out = [o0; o1] /\
                   forward m [y0] [k0] [[[a0]]] = Ok [o0] /\
                   forward m [y1] [k1] [[[a1]]] = Ok [o1]) /\
  (forall out0 out1,
     forward m [y0] [k0] [[[a0]]] = Ok out0 ->
     forward m [y1] [k1] [[[a1]]] = Ok out1 ->
     exists o0 o1, out0 = [o0] /\ out1 = [o1] /\
                   forward m [y0; y1] [k0; k1] [[[a0]]; [[a1]]] = Ok [o0; o1]).
Proof.
  intros Hmode HZ Hl Hw.
  destruct (@forward_splits m y0 y1 k0 k1 a0 a1 Hmode HZ Hl Hw) as [H1 H2]. split.
  - intros out E. destruct (H1 out E) as (T0 & T1 & E0 & E1 & (x & y & -> & -> & ->)).
    eauto.
  - intros out0 out1 E0 E1.
    destruct (H2 out0 out1 E0 E1) as (out & E & (x & y & -> & -> & ->)). eauto.
Qed.

Lemma forward_batch_of_two_witness :
  elementwise (Z (fixed_model 1 [1])) /\
  forall out,
    forward (fixed_model 1 [1]) [[[1]]; [[1]]] [[[1]]; [[1]]] [[[1]]; [[1]]] = Ok out ->
    exists o0 o1, out = [o0; o1] /\
                  forward (fixed_model 1 [1]) [[[1]]] [[[1]]] [[[1]]] = Ok [o0] /\
                  forward (fixed_model 1 [1]) [[[1]]] [[[1]]] [[[1]]] = Ok [o1].
Proof.
  split; [exact identity_elementwise|].
  refine (proj1 (@forward_batch_of_two (fixed_model 1 [1]) [[1]] [[1]] [[1]] [[1]] 1 1
                   _ identity_elementwise eq_refl eq_refl)).
  simpl. discriminate.
Defined.

(** ** Counts and the dual variable through the loop *)

Lemma for_range_counts m c range : forall s s',
  for_range (iteration m c) range s = Ok s' ->
  z_calls s' = (z_calls s + length range)%nat /\
  length (x_list s') = (length (x_list s) + length range)%nat.
Proof.
  induction range as [|i range IH]; intros s s' E; simpl in E.
  - inversion E; subst. simpl. lia.
  - destruct (iteration m c i s) as [s1|e] eqn:E1; simpl in E; [|discriminate].
    apply IH in E. destruct E as [Ez Ex].
    unfold iteration in E1.
    destruct (select_rho m (s_rho c) i); simpl in E1; [|discriminate].
    destruct (X_Update_Gaussian _ _ _ _ _ _); simpl in E1; [|discriminate].
    destruct (radd _ _); simpl in E1; [|discriminate].
    destruct (rsub _ _); simpl in E1; [|discriminate].
    inversion E1; subst s1. simpl in *. rewrite length_app in Ex. simpl in *. lia.
Qed.

Lemma sched_exists m n h w kernel alpha :
  has_shape n h w kernel -> shaped (fun a => 0 < a) n 1 1 alpha ->
  (subnet m = false ->
     length (rho_iters m) = n_iters m /\ Forall (fun r => 0 < r) (rho_iters m)) ->
  exists sched,
    (if subnet m
     then SubNet_forward (training m) (n_iters m) (init m) kernel alpha
     else Ok []) = Ok sched /\ sched_ok m n sched.
Proof.
  intros Hk Ha Hfix. destruct (subnet m) eqn:Hs.
  - assert (Hal : has_shape n 1 1 alpha).
    { eapply shaped_impl; [|exact Ha]. trivial. }
    destruct (@SubNet_forward_ok (training m) (n_iters m) (init m) n h w kernel alpha
                Hk Hal) as (sched & E & Hsched).
    exists sched. split; auto. now apply subnet_sched_ok.
  - destruct (Hfix eq_refl) as [Hl Hpos]. exists []. split; auto.
    now apply fixed_sched_ok.
Qed.

Lemma run_ok m n h w y kernel alpha :
  shape_preserving (Z m) ->
  has_shape n h w y -> has_shape n h w kernel ->
  shaped (fun a => 0 < a) n 1 1 alpha ->
  (subnet m = false ->
     length (rho_iters m) = n_iters m /\ Forall (fun r => 0 < r) (rho_iters m)) ->
  exists c s,
    setup m y kernel alpha = Ok c /\ setup_shaped n h w c /\ sched_ok m n (s_rho c) /\
    for_range (iteration m c) (seq 0 (n_iters m))
              {| st_z := s_z c; st_u := s_u c; x_list := []; z_calls := 0 |} = Ok s /\
    run m y kernel alpha = Ok s /\
    has_shape n h w (st_z s) /\ has_shape n h w (st_u s).
Proof.
  intros HZ Hy Hk Ha Hfix.
  destruct (@sched_exists m n h w kernel alpha Hk Ha Hfix) as (sched & Es & Hs).
  destruct (@setup_ok m n h w y kernel alpha sched Hy Hk Ha Es) as (c & Ec & Hc & Hr).
  rewrite <- Hr in Hs.
  destruct (@for_range_ok m c n h w (n_iters m) 0
              {| st_z := s_z c; st_u := s_u c; x_list := []; z_calls := 0 |}
              HZ Hs Hc (le_n _)) as (s & E & Hz & Hu).
  { apply (ss_z Hc). } { apply (ss_u Hc). }
  exists c, s. repeat (split; [assumption|]).
  split; [unfold run; rewrite Ec; exact E|]. split; assumption.
Qed.

Lemma pos_111 : shaped (fun a => 0 < a) 1 1 1 [[[1]]].
Proof. unfold shaped, sized. repeat constructor. exact Rlt_0_1. Qed.

Lemma fixed_model_weights :
  subnet (fixed_model 1 [1]) = false ->
  length (rho_iters (fixed_model 1 [1])) = n_iters (fixed_model 1 [1]) /\
  Forall (fun r => 0 < r) (rho_iters (fixed_model 1 [1])).
Proof. intros _. split; [reflexivity|]. repeat constructor. exact Rlt_0_1. Qed.

(** X1: on a batch of images with a kernel of their shape, one positive
    noise scalar per element, a shape-preserving denoiser and (when the
    weights are fixed) one positive weight per iteration, [forward]
    reaches its [return] for every number of iterations, zero
    included, having called the denoiser exactly once per iteration
    and appended exactly one estimate per iteration to [x_list]; the
    auxiliary estimate and the dual variable then have the shape of
    the observed batch. *)
Theorem forward_calls_denoiser_once_per_iteration m n h w y kernel alpha :
  shape_preserving (Z m) ->
  has_shape n h w y -> has_shape n h w kernel ->
  shaped (fun a => 0 < a) n 1 1 alpha ->
  (subnet m = false ->
     length (rho_iters m) = n_iters m /\ Forall (fun r => 0 < r) (rho_iters m)) ->
  exists s, run m y kernel alpha = Ok s /\
            z_calls s = n_iters m /\ length (x_list s) = n_iters m /\
            has_shape n h w (st_z s) /\ has_shape n h w (st_u s).
Proof.
  intros HZ Hy Hk Ha Hfix.
  destruct (@run_ok m n h w y kernel alpha HZ Hy Hk Ha Hfix)
    as (c & s & _ & _ & _ & E & Er & Hz & Hu).
  exists s. apply for_range_counts in E. simpl in E. rewrite length_seq in E.
  tauto.
Qed.

Lemma forward_calls_denoiser_once_per_iteration_witness :
  exists s, run (fixed_model 1 [1]) [[[1]]] [[[1]]] [[[1]]] = Ok s /\
            z_calls s = 1%nat /\ length (x_list s) = 1%nat /\
            has_shape 1 1 1 (st_z s) /\ has_shape 1 1 1 (st_u s).
Proof.
  exact (@forward_calls_denoiser_once_per_iteration (fixed_model 1 [1]) 1 1 1
           [[[1]]] [[[1]]] [[[1]]] identity_shape_preserving
           (has_shape_111 1) (has_shape_111 1) pos_111 fixed_model_weights).
Defined.

Lemma mapM2_length A B D (f : A -> B -> res D) : forall la lb lc,
  length la = length lb -> mapM2 f la lb = Ok lc -> length lc = length la.
Proof.
  induction la as [|a la IH]; intros lb lc Hl E.
  - simpl in E. now inversion E.
  - destruct lb as [|b lb]; [discriminate|]. simpl in E.
    destruct (f a b); simpl in E; [|discriminate].
    destruct (mapM2 f la lb) eqn:E2; simpl in E; [|discriminate].
    inversion E; subst. simpl. f_equal. apply IH with (lb := lb); auto.
Qed.

Lemma bzip_cancel A B D (f : A -> B -> res D) (g : D -> B -> res A)
  (PA : A -> Prop) (PB : B -> Prop) n la lb lc ld :
  (forall a b c d, PA a -> PB b -> f a b = Ok c -> g c b = Ok d -> d = a) ->
  sized PA n la -> sized PB n lb ->
  bzip f la lb = Ok lc -> bzip g lc lb = Ok ld -> ld = la.
Proof.
  intros Hfg [Hla HPa] [Hlb HPb] Hf Hg.
  unfold bzip in Hf. rewrite Hla, Hlb, Nat.eqb_refl in Hf.
  assert (Hl : length lc = length lb).
  { rewrite (mapM2_length f la lb); auto; lia. }
  unfold bzip in Hg. rewrite Hl, Nat.eqb_refl in Hg.
  assert (Hab : length la = length lb) by lia.
  clear Hl Hla Hlb. revert lb lc ld Hab HPb Hf Hg.
  induction HPa as [|a la Ha HPa IH]; intros lb lc ld Hab HPb Hf Hg.
  - simpl in Hf. inversion Hf; subst. simpl in Hg. now inversion Hg.
  - destruct lb as [|b lb]; [discriminate|]. simpl in Hf.
    destruct (f a b) as [c|] eqn:Ec; simpl in Hf; [|discriminate].
    destruct (mapM2 f la lb) as [cs|] eqn:Ecs; simpl in Hf; [|discriminate].
    inversion Hf; subst lc. simpl in Hg.
    destruct (g c b) as [d|] eqn:Ed; simpl in Hg; [|discriminate].
    destruct (mapM2 g cs lb) as [ds|] eqn:Eds; simpl in Hg; [|discriminate].
    inversion Hg; subst ld. inversion HPb; subst.
    f_equal.
    + eapply Hfg; eauto.
    + eapply IH with (lb := lb) (lc := cs); eauto.
Qed.

Lemma tzip_cancel A B D (f : A -> B -> D) (g : D -> B -> A) n h w
  (Ta : tensor A) (Tb : tensor B) Tc Td :
  (forall a b, g (f a b) b = a) ->
  has_shape n h w Ta -> has_shape n h w Tb ->
  tzip (lift2 f) Ta Tb = Ok Tc -> tzip (lift2 g) Tc Tb = Ok Td -> Td = Ta.
Proof.
  intros Hfg Ha Hb. unfold tzip.
  apply bzip_cancel with (PA := sized (sized (fun _ => True) w) h)
                         (PB := sized (sized (fun _ => True) w) h) (n := n); auto.
  intros a b c d Pa Pb.
  apply bzip_cancel with (PA := sized (fun _ => True) w)
                         (PB := sized (fun _ => True) w) (n := h); auto.
  intros a' b' c' d' Pa' Pb'.
  apply bzip_cancel with (PA := fun _ => True) (PB := fun _ => True) (n := w); auto.
  intros x y z t _ _ E1 E2. unfold lift2 in *. inversion E1; inversion E2; subst.
  apply Hfg.
Qed.

Lemma iteration_identity_dual m c n h w i s s' :
  (forall T, Z m T = T) -> sched_ok m n (s_rho c) -> setup_shaped n h w c ->
  (i < n_iters m)%nat ->
  has_shape n h w (st_z s) -> has_shape n h w (st_u s) ->
  iteration m c i s = Ok s' -> st_u s' = st_u s.
Proof.
  intros HZ Hs Hc Hi Hz Hu E. unfold iteration in E.
  destruct (Hs i Hi) as (rho & nr & Er & Hnr & Hrho). rewrite Er in E. simpl in E.
  destruct Hc as [HcY HcHt HcHtH _ _].
  destruct (@X_Update_shaped n h w nr _ _ _ _ _ _ HcY HcHt HcHtH Hz Hu Hnr Hrho)
    as (x & Ex & Hx).
  rewrite Ex in E. simpl in E. rewrite HZ in E.
  destruct (radd (st_u s) x) as [ux|] eqn:E1; simpl in E; [|discriminate].
  destruct (rsub ux x) as [u'|] eqn:E2; simpl in E; [|discriminate].
  inversion E; subst s'. simpl.
  apply (@tzip_cancel R R R Rplus Rminus n h w (st_u s) x ux u'); auto.
  intros a b. ring.
Qed.

Lemma for_range_identity_dual m c n h w k : forall i s s',
  (forall T, Z m T = T) -> sched_ok m n (s_rho c) -> setup_shaped n h w c ->
  (i + k <= n_iters m)%nat ->
  has_shape n h w (st_z s) -> has_shape n h w (st_u s) ->
  for_range (iteration m c) (seq i k) s = Ok s' -> st_u s' = st_u s.
Proof.
  induction k as [|k IH]; intros i s s' HZ Hs Hc Hi Hz Hu E; simpl in E.
  - now inversion E.
  - assert (HP : shape_preserving (Z m)).
    { intros n' h' w' T HT. now rewrite HZ. }
    assert (Hi' : (i < n_iters m)%nat) by lia.
    destruct (@iteration_ok m c n h w i s HP Hs Hc Hi' Hz Hu) as (s1 & E1 & Hz1 & Hu1).
    rewrite E1 in E. simpl in E.
    rewrite (IH (S i) s1 s'); auto; [|lia].
    eapply iteration_identity_dual; eauto.
Qed.

(** X2: with a denoiser that returns its input, the dual variable never
    leaves its initial value: when the loop ends, [u] is still
    [zeros_like(y)], whatever the number of iterations (the update
    [u + x - z] adds and removes the same batch). *)
Theorem identity_denoiser_keeps_dual_zero m n h w y kernel alpha :
  (forall T, Z m T = T) ->
  has_shape n h w y -> has_shape n h w kernel ->
  shaped (fun a => 0 < a) n 1 1 alpha ->
  (subnet m = false ->
     length (rho_iters m) = n_iters m /\ Forall (fun r => 0 < r) (rho_iters m)) ->
  exists s, run m y kernel alpha = Ok s /\ st_u s = zeros_like y.
Proof.
  intros HZ Hy Hk Ha Hfix.
  assert (HP : shape_preserving (Z m)).
  { intros n' h' w' T HT. now rewrite HZ. }
  destruct (@run_ok m n h w y kernel alpha HP Hy Hk Ha Hfix)
    as (c & s & Ec & Hc & Hs & E & Er & Hz & Hu).
  exists s. split; auto.
  rewrite (@for_range_identity_dual m c n h w (n_iters m) 0
             {| st_z := s_z c; st_u := s_u c; x_list := []; z_calls := 0 |}
             s HZ Hs Hc (le_n _) (ss_z Hc) (ss_u Hc) E).
  simpl. unfold setup in Ec.
  destruct (if subnet m then _ else _); simpl in Ec; [|discriminate].
  destruct (init_l2 _ _ _ _); simpl in Ec; [|discriminate].
  inversion Ec; subst c. simpl. unfold zeros_like, clamp_nonneg. apply tmap_tmap.
Qed.

Lemma identity_denoiser_keeps_dual_zero_witness :
  exists s, run (fixed_model 1 [1]) [[[1]]] [[[1]]] [[[1]]] = Ok s /\
            st_u s = zeros_like [[[1]]].
Proof.
  exact (@identity_denoiser_keeps_dual_zero (fixed_model 1 [1]) 1 1 1
           [[[1]]] [[[1]]] [[[1]]] (fun T => eq_refl)
           (has_shape_111 1) (has_shape_111 1) pos_111 fixed_model_weights).
Defined.

(** ** The warm start as a solve from zero *)

Lemma mapM2_swap A B D (f : A -> B -> res D) (g : B -> A -> res D) :
  (forall a b, f a b = g b a) ->
  forall la lb, mapM2 f la lb = mapM2 g lb la.
Proof.
  intros Hfg. induction la as [|a la IH]; intros [|b lb]; simpl; auto.
  now rewrite Hfg, IH.
Qed.

Lemma mapM_ext A B (f g : A -> res B) l :
  (forall a, f a = g a) -> mapM f l = mapM g l.
Proof.
  intros H. induction l as [|a l IH]; simpl; auto. now rewrite H, IH.
Qed.

Lemma bzip_swap A B D (f : A -> B -> res D) (g : B -> A -> res D) la lb :
  (forall a b, f a b = g b a) -> bzip f la lb = bzip g lb la.
Proof.
  intros Hfg. unfold bzip. rewrite (Nat.eqb_sym (length lb)).
  destruct (length la =? length lb)%nat eqn:E.
  - now apply mapM2_swap.
  - destruct la as [|a [|a' la]]; destruct lb as [|b [|b' lb]];
      try discriminate; try reflexivity; apply mapM_ext; auto.
Qed.

Lemma tzip_swap A B D (f : A -> B -> D) (g : B -> A -> D) Ta Tb :
  (forall a b, f a b = g b a) -> tzip (lift2 f) Ta Tb = tzip (lift2 g) Tb Ta.
Proof.
  intros Hfg. unfold tzip. apply bzip_swap. intros a b.
  apply bzip_swap. intros a' b'. apply bzip_swap. intros x y.
  unfold lift2. now rewrite Hfg.
Qed.

Lemma bzip_right_unit A B (f : A -> B -> res A) (PA : A -> Prop) (PB : B -> Prop) n la lb :
  (forall a b, PA a -> PB b -> f a b = Ok a) ->
  sized PA n la -> sized PB n lb -> bzip f la lb = Ok la.
Proof.
  intros Hf [Hla HPa] [Hlb HPb]. unfold bzip. rewrite Hla, Hlb, Nat.eqb_refl.
  assert (Hab : length la = length lb) by lia. clear Hla Hlb.
  revert lb Hab HPb. induction HPa as [|a la Ha HPa IH]; intros lb Hab HPb.
  - reflexivity.
  - destruct lb as [|b lb]; [discriminate|]. inversion HPb; subst. simpl.
    rewrite Hf; auto. simpl. rewrite IH; auto.
Qed.

Lemma tzip_right_unit A B (f : A -> B -> A) (PB : B -> Prop) n h w
  (Ta : tensor A) (Tb : tensor B) :
  (forall a b, PB b -> f a b = a) ->
  has_shape n h w Ta -> shaped PB n h w Tb -> tzip (lift2 f) Ta Tb = Ok Ta.
Proof.
  intros Hf Ha Hb. unfold tzip.
  apply bzip_right_unit with (PA := sized (sized (fun _ => True) w) h)
                             (PB := sized (sized PB w) h) (n := n); auto.
  intros a b Pa Pb.
  apply bzip_right_unit with (PA := sized (fun _ => True) w)
                             (PB := sized PB w) (n := h); auto.
  intros a' b' Pa' Pb'.
  apply bzip_right_unit with (PA := fun _ => True) (PB := PB) (n := w); auto.
  intros x y _ Py. unfold lift2. now rewrite Hf.
Qed.

Lemma Csum_zeros (l : list C) : Forall (fun c => c = C0) l -> Csum l = C0.
Proof.
  induction 1 as [|c l Hc _ IH]; simpl; auto.
  rewrite IH, Hc. unfold Cadd, C0. simpl. f_equal; ring.
Qed.

Lemma Cmul_zero_l c : Cmul C0 c = C0.
Proof. unfold Cmul, C0. simpl. f_equal; ring. Qed.

Lemma dft2_zero sgn h w (X : image C) :
  sized (sized (fun c => c = C0) w) h X ->
  sized (sized (fun c => c = C0) w) h (dft2 sgn X).
Proof.
  intros [Hl HX]. unfold dft2. split.
  - now rewrite length_map, length_seq.
  - apply Forall_map, Forall_forall. intros k Hk. split.
    + rewrite length_map, length_seq.
      destruct X as [|r X]; [contradiction|].
      inversion HX; subst. unfold width. simpl. apply H1.
    + apply Forall_map, Forall_forall. intros l _.
      apply Csum_zeros. apply Forall_map, Forall_forall. intros [i r] Hir.
      apply Csum_zeros. apply Forall_map, Forall_forall. intros [j v] Hjv. simpl.
      unfold indexed in *. apply in_combine_r in Hir, Hjv. simpl in Hjv.
      rewrite Forall_forall in HX. destruct (HX r Hir) as [_ Hr].
      rewrite Forall_forall in Hr. rewrite (Hr v Hjv). apply Cmul_zero_l.
Qed.

Lemma fft2_zero n h w (T : tensor C) :
  shaped (fun c => c = C0) n h w T -> shaped (fun c => c = C0) n h w (fft2 T).
Proof.
  intros HT. unfold fft2. eapply sized_map; [|exact HT].
  intros X HX. now apply dft2_zero.
Qed.

Lemma mapM_keeps_sized A B (f : A -> res B) (P : A -> Prop) (Q : B -> Prop) n :
  (forall a b, P a -> f a = Ok b -> Q b) ->
  forall l l', mapM f l = Ok l' -> sized P n l -> sized Q n l'.
Proof.
  intros Hf l. revert n. induction l as [|a l IH]; intros n l' E [Hl HP]; simpl in E.
  - inversion E; subst. split; auto.
  - destruct (f a) as [b|] eqn:Eb; simpl in E; [|discriminate].
    destruct (mapM f l) as [bs|] eqn:Ebs; simpl in E; [|discriminate].
    inversion E; subst. inversion HP; subst.
    destruct (IH (length l) bs eq_refl) as [Hl' HQ]; [split; auto|].
    split; simpl; [now rewrite Hl'|]. constructor; eauto.
Qed.

Lemma recip_has_shape n h w (T T' : tensor R) :
  recip T = Ok T' -> has_shape n h w T -> has_shape n h w T'.
Proof.
  intros E HT. unfold recip in E. unfold has_shape, shaped in *.
  eapply mapM_keeps_sized; [|exact E|exact HT].
  intros a b Ha Eb. eapply mapM_keeps_sized; [|exact Eb|exact Ha].
  intros a' b' Ha' Eb'. eapply mapM_keeps_sized; [|exact Eb'|exact Ha'].
  trivial.
Qed.

(** X3: the warm start is the per-iteration solve taken at z = 0 and
    u = 0 with the weight 1/alpha: on spectra of one doubled shape, and
    alpha holding one scalar per element (or one for the batch) whose
    reciprocal exists, [X_Update_Gaussian(Y, Ht, HtH, 0, 0, 1/alpha)] and
    [init_l2(Y, Ht, HtH, alpha)] end in the same value or in the same
    error. *)
Theorem init_l2_is_X_Update_from_zero n h w na (Y Ht : tensor C)
  (HtH alpha ra z u : tensor R) :
  has_shape n (2 * h) (2 * w) Y -> has_shape n (2 * h) (2 * w) Ht ->
  has_shape n (2 * h) (2 * w) HtH ->
  na = n \/ na = 1%nat -> has_shape na 1 1 alpha ->
  recip alpha = Ok ra ->
  shaped (fun v => v = 0) n h w z -> shaped (fun v => v = 0) n h w u ->
  X_Update_Gaussian Y Ht HtH z u ra = init_l2 Y Ht HtH alpha.
Proof.
  intros HY HHt HHtH Hna Ha Hra Hz Hu.
  pose proof (recip_has_shape Hra Ha) as Hr.
  unfold X_Update_Gaussian, init_l2. rewrite Hra.
  unfold radd, cmul, rmul, rsub, cadd.
  rewrite (@tzip_swap R R R Rplus Rplus ra HtH) by (intros; ring).
  rewrite (@tzip_swap C C C Cmul Cmul Ht Y)
    by (intros a b; unfold Cmul; f_equal; ring).
  assert (Hc1 : compat na n) by (unfold compat; tauto).
  assert (Hc2 : compat n na) by (unfold compat; destruct Hna; auto).
  assert (Hb : bdim na n = n).
  { unfold bdim. destruct Hna as [->| ->]; [|reflexivity].
    now destruct (n =? 1)%nat. }
  destruct (@tzip_lift2_shaped R R R Rmult (fun _ => True) (fun v => v = 0)
              (fun v => v = 0) na 1 1 n h w ra z) as (rz & Erz & Hrz); auto;
    try (unfold compat; auto; fail); try (intros a b _ ->; ring).
  rewrite Hb in Hrz. simpl in Hrz.
  destruct (@tzip_lift2_shaped R R R Rminus (fun v => v = 0) (fun v => v = 0)
              (fun v => v = 0) n h w n h w rz u) as (d & Ed & Hd); auto;
    try (unfold compat; auto; fail); try (intros a b -> ->; ring).
  assert (Hbn : forall k, bdim k k = k).
  { intros k. unfold bdim. now destruct (k =? 1)%nat. }
  rewrite !Hbn in Hd.
  destruct (@tzip_lift2_shaped C C C Cmul (fun _ => True) (fun _ => True)
              (fun _ => True) n (2 * h) (2 * w) n (2 * h) (2 * w) Y Ht)
    as (hy & Ehy & Hhy); auto; try (unfold compat; auto; fail).
  rewrite !Hbn in Hhy. rewrite Ehy. simpl.
  destruct (@tzip_lift2_shaped R R R Rplus (fun _ => True) (fun _ => True)
              (fun _ => True) n (2 * h) (2 * w) na 1 1 HtH ra)
    as (lhs & El & _); auto; try (unfold compat; auto; fail).
  rewrite El. simpl. rewrite Erz. simpl. rewrite Ed. simpl.
  assert (H0 : shaped (fun c => c = C0) n (2 * h) (2 * w)
                 (fft2 (complex (ifftshift (pad_double 0 d))))).
  { apply fft2_zero. eapply shaped_tmap; [|apply shaped_ifftshift, shaped_pad_double;
                                           [|exact Hd]; reflexivity].
    intros a ->. reflexivity. }
  rewrite (@tzip_right_unit C C Cadd (fun c => c = C0) n (2 * h) (2 * w) hy _); auto.
  intros [a1 a2] b ->. unfold Cadd, C0. simpl. f_equal; ring.
Qed.

Lemma init_l2_is_X_Update_from_zero_witness :
  X_Update_Gaussian [[[C0; C0]; [C0; C0]]] [[[C0; C0]; [C0; C0]]] [[[1; 1]; [1; 1]]]
                    [[[0]]] [[[0]]] [[[/ 1]]]
  = init_l2 [[[C0; C0]; [C0; C0]]] [[[C0; C0]; [C0; C0]]] [[[1; 1]; [1; 1]]] [[[1]]].
Proof.
  apply (@init_l2_is_X_Update_from_zero 1 1 1 1 _ _ _ [[[1]]]).
  - repeat constructor.
  - repeat constructor.
  - repeat constructor.
  - now left.
  - repeat constructor.
  - unfold recip. simpl. rewrite recip_entry_ok by lra. reflexivity.
  - repeat constructor.
  - repeat constructor.
Defined.

(** ** The two shifts *)

Lemma roll_left_length A s (l : list A) : length (roll_left s l) = length l.
Proof.
  unfold roll_left. rewrite length_app, length_skipn, length_firstn. lia.
Qed.

Lemma roll_left_back A b (l : list A) :
  (b <= length l)%nat -> roll_left (length l - b) (roll_left b l) = l.
Proof.
  intros Hb. unfold roll_left.
  assert (Hs : length (skipn b l) = (length l - b)%nat) by apply length_skipn.
  rewrite skipn_app, firstn_app, Hs, Nat.sub_diag. simpl.
  rewrite <- Hs at 1. rewrite skipn_all. rewrite <- Hs. rewrite firstn_all.
  simpl. rewrite app_nil_r. apply firstn_skipn.
Qed.

Lemma half_le n : (n / 2 <= n)%nat.
Proof. apply Nat.Div0.div_le_upper_bound. lia. Qed.

Lemma ifftshift1_fftshift1 A (l : list A) : ifftshift1 (fftshift1 l) = l.
Proof.
  unfold ifftshift1, fftshift1. rewrite roll_left_length.
  pose proof (half_le (length l)) as H.
  replace (length l / 2)%nat with (length l - (length l - length l / 2))%nat at 1 by lia.
  apply roll_left_back. lia.
Qed.

Lemma fftshift1_ifftshift1 A (l : list A) : fftshift1 (ifftshift1 l) = l.
Proof.
  unfold ifftshift1, fftshift1. rewrite roll_left_length.
  apply roll_left_back, half_le.
Qed.

Lemma map_id_on A (f : A -> A) (l : list A) : (forall a, f a = a) -> map f l = l.
Proof. intros H. induction l as [|a l IH]; simpl; [|rewrite H, IH]; auto. Qed.

Lemma ifftshift_fftshift A (T : tensor A) : ifftshift (fftshift T) = T.
Proof.
  unfold ifftshift, fftshift. rewrite !map_map. apply map_id_on; intros X.
  unfold fftshift1 at 1. rewrite map_roll_left.
  rewrite map_map, (map_id_on _ X (@ifftshift1_fftshift1 A)), length_map.
  apply (ifftshift1_fftshift1 X).
Qed.

Lemma fftshift_ifftshift A (T : tensor A) : fftshift (ifftshift T) = T.
Proof.
  unfold ifftshift, fftshift. rewrite !map_map. apply map_id_on; intros X.
  unfold ifftshift1 at 1. rewrite map_roll_left.
  rewrite map_map, (map_id_on _ X (@fftshift1_ifftshift1 A)), length_map.
  apply (fftshift1_ifftshift1 X).
Qed.

(** X4: the shift that the solves apply before the forward transform
    ([ifftshift]) and the one they apply after the inverse transform
    ([fftshift]) undo each other, in both orders, on every batch,
    whatever the sizes (odd ones included). *)
Theorem shifts_undo_each_other A (T : tensor A) :
  ifftshift (fftshift T) = T /\ fftshift (ifftshift T) = T.
Proof.
  split; [apply ifftshift_fftshift | apply fftshift_ifftshift].
Qed.

Lemma roll_half A (l : list A) : roll (length l / 2) l = fftshift1 l.
Proof.
  unfold roll, fftshift1. destruct l as [|a l]; [reflexivity|].
  rewrite Nat.mod_small; [reflexivity|].
  apply Nat.div_lt; simpl; lia.
Qed.

Lemma roll_one A s (X : A) : roll s [X] = [X].
Proof.
  unfold roll. cbn [length]. rewrite Nat.mod_1_r. reflexivity.
Qed.

Lemma map_ext_Forall A B (f g : A -> B) (P : A -> Prop) l :
  (forall a, P a -> f a = g a) -> Forall P l -> map f l = map g l.
Proof.
  intros H. induction 1 as [|a l Ha _ IH]; simpl; [|rewrite H, IH]; auto.
Qed.

Lemma rolls_unsqueezed A s1 s2 s3 (T : tensor A) :
  map (roll s1) (map (map (roll s2)) (map (map (map (roll s3))) (unsqueeze1 T)))
  = unsqueeze1 (map (fun X => roll s2 (map (roll s3) X)) T).
Proof.
  unfold unsqueeze1. rewrite !map_map. apply map_ext. intros X. simpl.
  apply roll_one.
Qed.

Lemma utils_ifftshift_unsqueezed A n h w (T : tensor A) :
  has_shape n h w T ->
  utils_ifftshift (unsqueeze1 T) = unsqueeze1 (fftshift T).
Proof.
  intros HT. destruct T as [|X T]; [reflexivity|].
  destruct HT as [Hn HT]. inversion HT as [|? ? [Hh HX] HT']; subst.
  unfold utils_ifftshift. cbv zeta. rewrite rolls_unsqueezed. f_equal.
  change (width (hd [] (hd [] (unsqueeze1 (X :: T))))) with (width X).
  set (s3 := (width X / 2)%nat).
  change (length (hd [] (hd [] (map (map (map (roll s3))) (unsqueeze1 (X :: T))))))
    with (length (map (roll s3) X)).
  rewrite length_map. unfold fftshift.
  apply map_ext_Forall with (P := sized (sized (fun _ => True) w) (length X)); auto.
  intros Y [HlY HY].
  assert (Hr : map (roll s3) Y = map (@fftshift1 A) Y).
  { destruct X as [|r0 X].
    - simpl in HlY. destruct Y; [reflexivity|discriminate].
    - apply map_ext_Forall with (P := sized (fun _ => True) w); auto.
      intros r [Hr _]. unfold s3, width.
      inversion HX as [|? ? [Hr0 _] _]. cbn [hd]. rewrite Hr0, <- Hr.
      apply roll_half. }
  rewrite Hr. rewrite <- HlY, <- (length_map (@fftshift1 A) Y). apply roll_half.
Qed.

(** X5: [utils.utils_torch.ifftshift] rolls every dimension but the
    batch by half of its size rounded down: on a batch (N,1,H,W) it is
    torch's [fftshift] over the last two dimensions, not torch's
    [ifftshift]. *)
Theorem utils_ifftshift_is_fftshift A n h w (T : tensor A) :
  has_shape n h w T ->
  utils_ifftshift (unsqueeze1 T) = unsqueeze1 (fftshift T).
Proof.
  apply utils_ifftshift_unsqueezed.
Qed.

Lemma utils_ifftshift_is_fftshift_witness :
  utils_ifftshift (unsqueeze1 [[[1; 2; 3]%nat]]) = unsqueeze1 (fftshift [[[1; 2; 3]%nat]]).
Proof.
  apply (@utils_ifftshift_is_fftshift nat 1 1 3). repeat constructor.
Defined.

Lemma fftshift1_even A (l : list A) :
  Nat.Even (length l) -> fftshift1 l = ifftshift1 l.
Proof.
  intros [k Hk]. unfold fftshift1, ifftshift1. rewrite Hk.
  replace (2 * k / 2)%nat with k by (rewrite Nat.mul_comm, Nat.div_mul; lia).
  f_equal. lia.
Qed.

Lemma fftshift_even A n h w (T : tensor A) :
  has_shape n h w T -> Nat.Even h -> Nat.Even w -> fftshift T = ifftshift T.
Proof.
  intros [_ HT] Hh Hw. unfold fftshift, ifftshift.
  apply map_ext_Forall with (P := sized (sized (fun _ => True) w) h); auto.
  intros X [HlX HX].
  rewrite (@map_ext_Forall _ _ (@fftshift1 A) (@ifftshift1 A) (sized (fun _ => True) w) X);
    auto.
  - apply fftshift1_even. now rewrite length_map, HlX.
  - intros r [Hr _]. apply fftshift1_even. now rewrite Hr.
Qed.

(** X6: when the height and the width are even,
    [utils.utils_torch.ifftshift] agrees with torch's [ifftshift] on a
    batch (N,1,H,W), and applying it twice gives the batch back. *)
Theorem utils_ifftshift_even_sizes A n h w (T : tensor A) :
  has_shape n h w T -> Nat.Even h -> Nat.Even w ->
  utils_ifftshift (unsqueeze1 T) = unsqueeze1 (ifftshift T) /\
  utils_ifftshift (utils_ifftshift (unsqueeze1 T)) = unsqueeze1 T.
Proof.
  intros HT Hh Hw.
  pose proof (fftshift_even HT Hh Hw) as He.
  rewrite (utils_ifftshift_unsqueezed HT). split.
  - now rewrite He.
  - rewrite (utils_ifftshift_unsqueezed (shaped_fftshift HT)).
    rewrite He at 1. f_equal. apply fftshift_ifftshift.
Qed.

Lemma utils_ifftshift_even_sizes_witness :
  utils_ifftshift (unsqueeze1 [[[1; 2]; [3; 4]]%nat])
  = unsqueeze1 (ifftshift [[[1; 2]; [3; 4]]%nat]) /\
  utils_ifftshift (utils_ifftshift (unsqueeze1 [[[1; 2]; [3; 4]]%nat]))
  = unsqueeze1 [[[1; 2]; [3; 4]]%nat].
Proof.
  apply (@utils_ifftshift_even_sizes nat 1 2 2).
  - repeat constructor.
  - exists 1%nat. reflexivity.
  - exists 1%nat. reflexivity.
Defined.

Lemma hd_roll_left A s (l : list A) d :
  (s < length l)%nat -> nth 0 (roll_left s l) d = nth s l d.
Proof.
  intros Hs. unfold roll_left. rewrite app_nth1.
  - rewrite nth_skipn. f_equal. lia.
  - rewrite length_skipn. lia.
Qed.

Lemma odd_halves k : ((2 * k + 3) / 2 = k + 1)%nat.
Proof.
  replace (2 * k + 3)%nat with (1 + (k + 1) * 2)%nat by lia.
  rewrite Nat.div_add by lia. reflexivity.
Qed.

(** X7: on a row of odd length at least 3 whose entries are distinct,
    [utils.utils_torch.ifftshift] differs from torch's [ifftshift], and
    applying it twice does not give the row back. *)
Theorem utils_ifftshift_odd_row A (l : list A) k :
  length l = (2 * k + 3)%nat -> NoDup l ->
  utils_ifftshift (unsqueeze1 [[l]]) <> unsqueeze1 (ifftshift [[l]]) /\
  utils_ifftshift (utils_ifftshift (unsqueeze1 [[l]])) <> unsqueeze1 [[l]].
Proof.
  intros Hl Hnd.
  assert (HT : has_shape 1 1 (2 * k + 3) [[l]]).
  { repeat (split; [reflexivity|]; constructor; [|constructor]).
    split; auto. apply Forall_forall. trivial. }
  destruct l as [|d l]; [simpl in Hl; lia|]. set (r := d :: l) in *.
  assert (H1 : fftshift [[r]] = [[fftshift1 r]]) by reflexivity.
  assert (H2 : ifftshift [[r]] = [[ifftshift1 r]]) by reflexivity.
  rewrite (utils_ifftshift_unsqueezed HT), H1, H2. split.
  - unfold unsqueeze1. cbn [map]. intros E. inversion E as [E1].
    apply (f_equal (fun x => nth 0 x d)) in E1.
    unfold fftshift1, ifftshift1 in E1. rewrite Hl, odd_halves in E1.
    rewrite !hd_roll_left in E1 by lia.
    apply NoDup_nth in E1; auto; lia.
  - change [[fftshift1 r]] with ([[fftshift1 r]] : tensor A).
    assert (HT' : has_shape 1 1 (2 * k + 3) [[fftshift1 r]]).
    { rewrite <- H1. now apply shaped_fftshift. }
    change (unsqueeze1 [[fftshift1 r]]) with (unsqueeze1 ([[fftshift1 r]] : tensor A)).
    rewrite (utils_ifftshift_unsqueezed HT').
    assert (H3 : fftshift [[fftshift1 r]] = [[fftshift1 (fftshift1 r)]]) by reflexivity.
    rewrite H3. unfold unsqueeze1. cbn [map]. intros E. inversion E as [E1].
    apply (f_equal (fun x => nth 0 x d)) in E1.
    unfold fftshift1 at 1 in E1. rewrite hd_roll_left in E1.
    2:{ unfold fftshift1. rewrite roll_left_length, Hl, odd_halves. lia. }
    unfold fftshift1 in E1. rewrite roll_left_length, Hl, odd_halves in E1.
    replace (2 * k + 3 - (k + 1))%nat with (k + 2)%nat in E1 by lia.
    unfold roll_left in E1. rewrite app_nth2 in E1 by (rewrite length_skipn; lia).
    rewrite length_skipn, Hl in E1.
    replace (k + 2 - (2 * k + 3 - (k + 2)))%nat with 1%nat in E1 by lia.
    rewrite nth_firstn in E1. replace (1 <? k + 2)%nat with true in E1.
    2:{ symmetry. apply Nat.ltb_lt. lia. }
    apply NoDup_nth in E1; auto; lia.
Qed.

Lemma utils_ifftshift_odd_row_witness :
  utils_ifftshift (unsqueeze1 [[[1; 2; 3]%nat]]) <> unsqueeze1 (ifftshift [[[1; 2; 3]%nat]]) /\
  utils_ifftshift (utils_ifftshift (unsqueeze1 [[[1; 2; 3]%nat]]))
  <> unsqueeze1 [[[1; 2; 3]%nat]].
Proof.
  apply (@utils_ifftshift_odd_row nat [1; 2; 3]%nat 0 eq_refl).
  repeat constructor; simpl; intuition discriminate.
Defined.

(** ** The weight predictor on any kernel *)

Lemma SubNet_features_ok training p n h w (kernel : tensor R) :
  has_shape n h w kernel ->
  exists x xs,
    conv_layers training p
      (map (fun X => [X])
         (abs_sq (fft2 (complex (ifftshift
            (map (pad_128 (length (hd [] kernel)) (width (hd [] kernel))) kernel))))))
    = Ok x /\ mapM view_features x = Ok xs /\
    sized (fun v => length v = 1024%nat) n xs.
Proof.
  intros Hk.
  pose proof (kernel_own_sizes Hk) as Hk'.
  set (h0 := length (hd [] kernel)) in *. set (w0 := width (hd [] kernel)) in *.
  assert (Hpad : has_shape n 128 128 (map (pad_128 h0 w0) kernel)).
  { eapply sized_map; [|exact Hk']. intros K. apply pad_128_sized. }
  assert (HH : has_shape n 128 128
                 (abs_sq (fft2 (complex (ifftshift (map (pad_128 h0 w0) kernel)))))).
  { pose proof (shaped_ifftshift Hpad) as H1.
    pose proof (shaped_tmap RtoC (fun _ => True) (fun _ _ => I) H1) as H2.
    pose proof (shaped_abs_sq (shaped_fft2 H2)) as H3.
    eapply shaped_impl; [|exact H3]. trivial. }
  destruct (@conv_layers_ok training p n
              (map (fun X => [X])
                   (abs_sq (fft2 (complex (ifftshift (map (pad_128 h0 w0) kernel)))))))
    as (x & Ex & Hx).
  { eapply sized_map; [|exact HH]. intros X HX.
    split; [reflexivity | constructor; [exact HX | constructor]]. }
  destruct (@mapM_sized _ _ view_features (has_shape 16 8 8)
              (fun v => length v = 1024%nat) n x) as (xs & Exs & Hxs); auto.
  { intros F HF. apply view_features_ok; auto. }
  exists x, xs. auto.
Qed.

(** X8: the weight predictor accepts a kernel of any height and width,
    smaller or larger than 128 (it is padded or cropped to 128 by 128),
    in training and in evaluation mode: with one noise scalar per
    kernel it returns one row of [n] weights per kernel, every weight
    above the floor 1e-6. *)
Theorem SubNet_forward_any_kernel_size training nit p n h w (kernel alpha : tensor R) :
  has_shape n h w kernel -> has_shape n 1 1 alpha ->
  exists sched, SubNet_forward training nit p kernel alpha = Ok sched /\
                sized (sized (fun r => rho_floor < r) nit) n sched.
Proof.
  intros Hk Ha.
  destruct (@SubNet_forward_ok training nit p n h w kernel alpha Hk Ha)
    as (sched & E & [Hl HF]).
  exists sched. split; auto. split; auto.
  pose proof (SubNet_forward_floor training nit p kernel alpha) as Hfl.
  rewrite E in Hfl. simpl in Hfl.
  rewrite Forall_forall in *. intros row Hrow. destruct (HF row Hrow) as [Hr _].
  split; auto.
Qed.

Lemma SubNet_forward_any_kernel_size_witness :
  exists sched,
    SubNet_forward true 3 zero_subnet_w [repeat (repeat 1 130) 129] [[[1]]] = Ok sched /\
    sized (sized (fun r => rho_floor < r) 3) 1 sched.
Proof.
  apply (@SubNet_forward_any_kernel_size true 3 zero_subnet_w 1 129 130).
  - split; [reflexivity|]. constructor; [|constructor].
    split; [apply repeat_length|]. apply Forall_forall. intros r Hr.
    apply repeat_spec in Hr. subst r. split; [apply repeat_length|].
    apply Forall_forall. trivial.
  - apply has_shape_111.
Defined.

(** X9: the weight predictor fails, on its [view(N,1,1)], when the noise
    levels do not hold exactly one scalar per kernel of the batch. *)
Theorem SubNet_forward_needs_one_alpha_per_kernel training nit p n h w
  (kernel alpha : tensor R) :
  has_shape n h w kernel ->
  length (concat (map (@concat R) alpha)) <> n ->
  SubNet_forward training nit p kernel alpha = Err ShapeError.
Proof.
  intros Hk Hne.
  destruct (@SubNet_features_ok training p n h w kernel Hk) as (x & xs & Ex & Exs & _).
  unfold SubNet_forward. rewrite Ex. simpl. rewrite Exs. simpl.
  unfold view_scalars. destruct Hk as [Hn _]. unfold tensor, image in *. rewrite Hn.
  destruct (length (concat (map (@concat R) alpha)) =? n)%nat eqn:E; [|reflexivity].
  apply Nat.eqb_eq in E. contradiction.
Qed.

Lemma SubNet_forward_needs_one_alpha_per_kernel_witness :
  SubNet_forward true 3 zero_subnet_w [[[1]]] [[[1; 2]]] = Err ShapeError.
Proof.
  apply (@SubNet_forward_needs_one_alpha_per_kernel true 3 zero_subnet_w 1 1 1).
  - apply has_shape_111.
  - simpl. lia.
Defined.

(** ** Renaming the keys of a state dictionary *)

Lemma partition_tail_prefix p k :
  has_dot p = false ->
  partition_tail (String.append p (String.String "."%char k)) = k.
Proof.
  induction p as [|c p IH]; simpl; intros H.
  - reflexivity.
  - apply orb_false_iff in H. destruct H as [Hc Hp]. rewrite Hc. auto.
Qed.

Lemma partition_tail_no_dot k : has_dot k = false -> partition_tail k = String.EmptyString.
Proof.
  induction k as [|c k IH]; simpl; intros H; auto.
  apply orb_false_iff in H. destruct H as [Hc Hp]. rewrite Hc. auto.
Qed.

Lemma od_set_fresh V k (v : V) d :
  ~ In k (map fst d) -> od_set k v d = d ++ [(k, v)].
Proof.
  induction d as [|[k' v'] d IH]; simpl; intros H; auto.
  destruct (String.eqb_spec k' k) as [->|Hne]; [tauto|].
  rewrite IH; tauto.
Qed.

Lemma od_set_keys V k (v : V) d :
  map fst (od_set k v d) = if in_dec String.string_dec k (map fst d)
                           then map fst d else map fst d ++ [k].
Proof.
  induction d as [|[k' v'] d IH]; simpl; auto.
  destruct (String.eqb_spec k' k) as [->|Hne]; simpl.
  - destruct (String.string_dec k k); [|congruence].
    destruct (in_dec String.string_dec k (map fst d)); reflexivity.
  - rewrite IH. destruct (String.string_dec k' k); [contradiction|].
    destruct (in_dec String.string_dec k (map fst d)); reflexivity.
Qed.

Lemma od_get_set V k k' (v : V) d :
  od_get k (od_set k' v d) = if String.eqb k' k then Some v else od_get k d.
Proof.
  induction d as [|[k0 v0] d IH]; simpl.
  - reflexivity.
  - destruct (String.eqb_spec k0 k') as [->|Hne]; simpl.
    + destruct (String.eqb k' k); reflexivity.
    + rewrite IH. destruct (String.eqb_spec k0 k) as [->|Hne'].
      * destruct (String.eqb_spec k' k); [congruence|reflexivity].
      * reflexivity.
Qed.

Lemma fold_distinct V (d : odict V) : forall acc,
  NoDup (map fst acc ++ new_keys d) ->
  fold_left (fun new kv => od_set (partition_tail (fst kv)) (snd kv) new) d acc
  = acc ++ map (fun kv => (partition_tail (fst kv), snd kv)) d.
Proof.
  induction d as [|[k v] d IH]; intros acc H; simpl.
  - now rewrite app_nil_r.
  - simpl in H. rewrite od_set_fresh.
    + rewrite IH.
      * now rewrite <- app_assoc.
      * rewrite map_app. simpl. rewrite <- app_assoc. exact H.
    + apply NoDup_remove_2 in H. intros Hin. apply H. apply in_or_app. now left.
Qed.

(** X10: renaming undoes a prefix: when every key of a dictionary (of
    distinct keys) is written behind one prefix without a dot and a dot,
    as ["module." + key], [rename_state_dict_keys] gives the dictionary
    back, entries, values and order. *)
Theorem rename_strips_prefix V (prefix : String.string) (d : odict V) :
  has_dot prefix = false -> NoDup (map fst d) ->
  rename_state_dict_keys
    (map (fun kv => (String.append prefix (String.String "."%char (fst kv)), snd kv)) d)
  = d.
Proof.
  intros Hp Hd. unfold rename_state_dict_keys. rewrite fold_distinct.
  - simpl. rewrite map_map. simpl. rewrite <- (map_id d) at 2. apply map_ext.
    intros [k v]. simpl. now rewrite partition_tail_prefix.
  - simpl. unfold new_keys. rewrite map_map. simpl.
    erewrite map_ext; [exact Hd|]. intros [k v]. simpl. now apply partition_tail_prefix.
Qed.

Lemma find_app_l A (f : A -> bool) (l1 l2 : list A) :
  find f (l1 ++ l2) = match find f l1 with Some x => Some x | None => find f l2 end.
Proof.
  induction l1 as [|a l1 IH]; simpl; auto. destruct (f a); auto.
Qed.

Lemma fold_lookup V (k : String.string) (d : odict V) : forall acc,
  od_get k (fold_left (fun new kv => od_set (partition_tail (fst kv)) (snd kv) new) d acc)
  = match find (fun kv => String.eqb (partition_tail (fst kv)) k) (rev d) with
    | Some kv => Some (snd kv)
    | None => od_get k acc
    end.
Proof.
  induction d as [|[k0 v0] d IH]; intros acc; simpl.
  - reflexivity.
  - rewrite IH, od_get_set.
    rewrite find_app_l. simpl.
    destruct (find _ (rev d)); [reflexivity|].
    destruct (String.eqb (partition_tail k0) k); reflexivity.
Qed.

(** X11: in the renamed dictionary, a key holds the value of the last
    entry of the original whose key, cut after its first dot, is that
    key; it holds nothing when there is no such entry. *)
Theorem rename_last_entry_wins V (d : odict V) (k : String.string) :
  od_get k (rename_state_dict_keys d)
  = option_map snd (find (fun kv => String.eqb (partition_tail (fst kv)) k) (rev d)).
Proof.
  unfold rename_state_dict_keys. rewrite fold_lookup.
  destruct (find _ (rev d)); reflexivity.
Qed.

Lemma od_set_length V k (v : V) d :
  length (od_set k v d) = if in_dec String.string_dec k (map fst d)
                          then length d else S (length d).
Proof.
  rewrite <- (length_map fst (od_set k v d)), od_set_keys.
  destruct (in_dec String.string_dec k (map fst d)).
  - apply length_map.
  - rewrite length_app, length_map. simpl. lia.
Qed.

Lemma fold_size V (d : odict V) : forall acc,
  NoDup (map fst acc) ->
  let out := fold_left (fun new kv => od_set (partition_tail (fst kv)) (snd kv) new)
                       d acc in
  NoDup (map fst out) /\
  (length out <= length acc + length d)%nat /\
  (length out = (length acc + length d)%nat <-> NoDup (map fst acc ++ new_keys d)).
Proof.
  induction d as [|[k v] d IH]; intros acc Hacc; simpl.
  - rewrite app_nil_r. repeat split; auto; lia.
  - set (k' := partition_tail k).
    assert (Hacc' : NoDup (map fst (od_set k' v acc))).
    { rewrite od_set_keys. destruct (in_dec String.string_dec k' (map fst acc)); auto.
      apply NoDup_app; auto.
      - repeat constructor. simpl. tauto.
      - intros x Hx [<-|[]]. contradiction. }
    destruct (IH _ Hacc') as (H1 & H2 & H3). split; [exact H1|].
    rewrite od_set_length in H2, H3. rewrite od_set_keys in H3.
    destruct (in_dec String.string_dec k' (map fst acc)) as [Hin|Hnin].
    + split; [lia|]. split; [lia|]. intros Hnd. exfalso.
      apply NoDup_remove_2 in Hnd. apply Hnd. apply in_or_app. now left.
    + split; [lia|]. rewrite <- app_assoc in H3. simpl in H3.
      rewrite <- H3. lia.
Qed.

(** X12: the renamed dictionary has distinct keys and never more
    entries than the original; it has as many exactly when the keys,
    cut after their first dot, are distinct: entries whose cut keys
    collide are merged. *)
Theorem rename_loses_entries_on_collision V (d : odict V) :
  NoDup (map fst (rename_state_dict_keys d)) /\
  (length (rename_state_dict_keys d) <= length d)%nat /\
  (length (rename_state_dict_keys d) = length d <-> NoDup (new_keys d)).
Proof.
  destruct (@fold_size V d [] (NoDup_nil _)) as (H1 & H2 & H3). simpl in *.
  repeat split; auto; apply H3.
Qed.

Lemma last_cons A (a d : A) (l : list A) : last (a :: l) d = last l a.
Proof.
  revert a d. induction l as [|b l IH]; intros a d; [reflexivity|].
  change (last (a :: b :: l) d) with (last (b :: l) d).
  now rewrite !IH.
Qed.

Lemma fold_same_key V (k : String.string) (d : odict V) : forall v0,
  Forall (fun kv => partition_tail (fst kv) = k) d ->
  fold_left (fun new kv => od_set (partition_tail (fst kv)) (snd kv) new) d [(k, v0)]
  = [(k, last (map snd d) v0)].
Proof.
  induction d as [|[k1 v1] d IH]; intros v0 H; simpl map.
  - reflexivity.
  - pose proof (Forall_inv H) as H1. pose proof (Forall_inv_tail H) as H'.
    simpl in H1. rewrite last_cons. simpl. rewrite H1, String.eqb_refl.
    apply IH. exact H'.
Qed.

(** X13: a key without a dot is renamed to the empty string: a
    non-empty dictionary whose keys hold no dot is reduced to a single
    entry under the empty key, with the value of the last entry. *)
Theorem rename_keys_without_dot_collapse V (d : odict V) k0 v0 :
  Forall (fun kv => has_dot (fst kv) = false) ((k0, v0) :: d) ->
  rename_state_dict_keys ((k0, v0) :: d)
  = [(String.EmptyString, last (map snd d) v0)].
Proof.
  intros H. unfold rename_state_dict_keys. simpl.
  pose proof (Forall_inv H) as H0. pose proof (Forall_inv_tail H) as H'.
  simpl in H0. rewrite (partition_tail_no_dot _ H0).
  apply fold_same_key.
  eapply Forall_impl; [|exact H']. intros kv. apply partition_tail_no_dot.
Qed.

Lemma rename_keys_without_dot_collapse_witness :
  rename_state_dict_keys [("weight"%string, 1%nat); ("bias"%string, 2%nat)]
  = [(String.EmptyString, 2%nat)].
Proof.
  apply (@rename_keys_without_dot_collapse nat [("bias"%string, 2%nat)]
           "weight"%string 1%nat).
  repeat constructor.
Defined.

Lemma rename_strips_prefix_witness :
  rename_state_dict_keys
    [("module.conv.weight"%string, 1%nat); ("module.conv.bias"%string, 2%nat)]
  = [("conv.weight"%string, 1%nat); ("conv.bias"%string, 2%nat)].
Proof.
  apply (@rename_strips_prefix nat "module"%string
           [("conv.weight"%string, 1%nat); ("conv.bias"%string, 2%nat)]).
  - reflexivity.
  - repeat constructor; simpl; intuition discriminate.
Defined.


(** ** Downsampling *)

Lemma conv_out_size n r : (1 <= r <= n)%nat -> ((n - r) / r + 1 = n / r)%nat.
Proof.
  intros H. replace n with ((n - r) + 1 * r)%nat at 2 by lia.
  rewrite Nat.div_add by lia. reflexivity.
Qed.

Lemma down_sample_ok rate h w (input : image R) :
  sized (sized (fun _ => True) w) h input ->
  (1 <= rate <= h)%nat -> (rate <= w)%nat ->
  down_sample rate input
  = Ok (map (fun i =>
          map (fun j =>
            rsum (map (fun a =>
              rsum (map (fun b => 1 / INR (rate * rate)
                                  * entry input (i * rate + a) (j * rate + b))
                        (seq 0 rate)))
              (seq 0 rate)))
            (seq 0 (w / rate)))
          (seq 0 (h / rate))).
Proof.
  intros [Hl HX] Hr Hw. unfold down_sample.
  assert (HW : width input = w).
  { destruct input as [|r0 X]; [simpl in Hl; lia|].
    inversion HX as [|? ? [Hr0 _] _]. exact Hr0. }
  rewrite Hl, HW.
  replace ((rate =? 0)%nat || (h <? rate)%nat || (w <? rate)%nat) with false.
  - now rewrite !conv_out_size by lia.
  - symmetry. apply orb_false_iff. split; [apply orb_false_iff; split|].
    + apply Nat.eqb_neq. lia.
    + apply Nat.ltb_ge. lia.
    + apply Nat.ltb_ge. lia.
Qed.

(** X14: on an image of [h] by [w], [down_sample] fails when the rate is
    0 or exceeds the height or the width, and otherwise returns an image
    of [h // rate] by [w // rate]. *)
Theorem down_sample_size rate h w (input : image R) :
  sized (sized (fun _ => True) w) h input ->
  ((rate = 0 \/ h < rate \/ w < rate)%nat -> down_sample rate input = Err ShapeError) /\
  ((1 <= rate <= h)%nat -> (rate <= w)%nat ->
   exists out, down_sample rate input = Ok out /\
               sized (sized (fun _ => True) (w / rate)) (h / rate) out).
Proof.
  intros HX. split.
  - intros Hbad. destruct HX as [Hl HX]. unfold down_sample. rewrite Hl.
    destruct (rate =? 0)%nat eqn:E0; [reflexivity|]. apply Nat.eqb_neq in E0.
    destruct (h <? rate)%nat eqn:E1; [reflexivity|]. apply Nat.ltb_ge in E1.
    assert (HW : width input = w).
    { destruct input as [|r0 X]; [simpl in Hl; lia|].
      inversion HX as [|? ? [Hr0 _] _]. exact Hr0. }
    rewrite HW. destruct (w <? rate)%nat eqn:E2; [reflexivity|].
    apply Nat.ltb_ge in E2. lia.
  - intros Hr Hw. rewrite (down_sample_ok HX Hr Hw). eexists. split; [reflexivity|].
    split; [now rewrite length_map, length_seq|].
    apply Forall_map, Forall_forall. intros i _.
    split; [now rewrite length_map, length_seq|].
    apply Forall_map, Forall_forall. trivial.
Qed.

Lemma rsum_ext A (f g : A -> R) l :
  (forall x, In x l -> f x = g x) -> rsum (map f l) = rsum (map g l).
Proof.
  induction l as [|a l IH]; simpl; intros H; auto.
  rewrite H by auto. rewrite IH; auto.
Qed.

Lemma rsum_scal A c (g : A -> R) l : rsum (map (fun x => c * g x) l) = c * rsum (map g l).
Proof.
  induction l as [|a l IH]; simpl; [ring|]. rewrite IH. ring.
Qed.

Lemma rsum_swap A B (F : A -> B -> R) la lb :
  rsum (map (fun i => rsum (map (fun j => F i j) lb)) la)
  = rsum (map (fun j => rsum (map (fun i => F i j) la)) lb).
Proof.
  induction la as [|a la IH]; simpl.
  - induction lb as [|b lb IHb]; simpl; [reflexivity|]. rewrite <- IHb. ring.
  - rewrite IH. clear IH. induction lb as [|b lb IHb]; simpl; [ring|].
    rewrite <- IHb. ring.
Qed.

Lemma rsum_seq_shift (g : nat -> R) s n :
  rsum (map g (seq s n)) = rsum (map (fun a => g (s + a)%nat) (seq 0 n)).
Proof.
  revert g s. induction n as [|n IH]; intros g s; simpl; [reflexivity|].
  rewrite Nat.add_0_r. f_equal. rewrite (IH g (S s)), (IH (fun a => g (s + a)%nat) 1%nat).
  apply rsum_ext. intros x _. f_equal. lia.
Qed.

Lemma rsum_blocks (g : nat -> R) r n :
  rsum (map g (seq 0 (n * r)))
  = rsum (map (fun i => rsum (map (fun a => g (i * r + a)%nat) (seq 0 r))) (seq 0 n)).
Proof.
  induction n as [|n IH]; [reflexivity|].
  replace (S n * r)%nat with (n * r + r)%nat by lia.
  rewrite seq_app, map_app, rsum_app, IH. simpl plus.
  rewrite seq_S, map_app, rsum_app. simpl. rewrite (rsum_seq_shift g (n * r) r). ring.
Qed.

Lemma rows_by_index h w (X : image R) :
  sized (sized (fun _ => True) w) h X ->
  map (fun i => map (fun j => entry X i j) (seq 0 w)) (seq 0 h) = X.
Proof.
  intros [Hl HX]. subst h.
  apply nth_ext with (d := []) (d' := []).
  - now rewrite length_map, length_seq.
  - intros i Hi. rewrite length_map, length_seq in Hi.
    rewrite (@nth_indep _ _ i [] (map (fun j => entry X 0 j) (seq 0 w)))
      by (now rewrite length_map, length_seq).
    rewrite (map_nth (fun i => map (fun j => entry X i j) (seq 0 w)) (seq 0 (length X)) 0%nat i).
    rewrite seq_nth by auto. simpl.
    assert (Hr : length (nth i X []) = w).
    { rewrite Forall_forall in HX. apply (HX (nth i X [])). now apply nth_In. }
    apply nth_ext with (d := 0) (d' := 0).
    + now rewrite length_map, length_seq.
    + intros j Hj. rewrite length_map, length_seq in Hj.
      rewrite (@nth_indep _ _ j 0 (entry X i 0)) by (now rewrite length_map, length_seq).
      rewrite (map_nth (fun j => entry X i j) (seq 0 w) 0%nat j).
      rewrite seq_nth by auto. reflexivity.
Qed.

(** X15: when the rate divides the height and the width, downsampling
    keeps the mean: the entries of the result sum to the sum of the
    entries of the image divided by [rate**2], the factor by which the
    number of entries shrinks. *)
Theorem down_sample_keeps_mean rate h w (input : image R) :
  (1 <= rate)%nat -> (1 <= h)%nat -> (1 <= w)%nat ->
  sized (sized (fun _ => True) (w * rate)) (h * rate) input ->
  exists out, down_sample rate input = Ok out /\
              sized (sized (fun _ => True) w) h out /\
              rsum (map rsum out) = rsum (map rsum input) / INR (rate * rate).
Proof.
  intros Hr Hh Hw HX.
  assert (Hhr : (1 <= rate <= h * rate)%nat) by nia.
  assert (Hwr : (rate <= w * rate)%nat) by nia.
  rewrite (down_sample_ok HX Hhr Hwr). rewrite !Nat.div_mul by lia.
  eexists. split; [reflexivity|]. split.
  { split; [now rewrite length_map, length_seq|].
    apply Forall_map, Forall_forall. intros i _.
    split; [now rewrite length_map, length_seq|].
    apply Forall_map, Forall_forall. trivial. }
  assert (Hin : rsum (map rsum input)
                = rsum (map (fun p => rsum (map (fun q => entry input p q)
                                                (seq 0 (w * rate))))
                            (seq 0 (h * rate)))).
  { rewrite <- (rows_by_index HX) at 1. now rewrite map_map. }
  rewrite Hin, !map_map.
  set (c := 1 / INR (rate * rate)).
  replace (rsum (map (fun p => rsum (map (fun q => entry input p q) (seq 0 (w * rate))))
                     (seq 0 (h * rate))) / INR (rate * rate))
    with (c * rsum (map (fun p => rsum (map (fun q => entry input p q) (seq 0 (w * rate))))
                        (seq 0 (h * rate)))) by (unfold c; field; apply not_0_INR; nia).
  rewrite (rsum_blocks (fun p => rsum (map (fun q => entry input p q) (seq 0 (w * rate))))
             rate h).
  rewrite <- rsum_scal. apply rsum_ext. intros i _.
  rewrite <- rsum_scal.
  rewrite (rsum_swap (fun j a => rsum (map (fun b => c * entry input (i * rate + a)
                                                       (j * rate + b)) (seq 0 rate)))).
  apply rsum_ext. intros a _.
  rewrite (rsum_blocks (fun q => entry input (i * rate + a) q) rate w).
  rewrite <- rsum_scal. apply rsum_ext. intros j _. now rewrite rsum_scal.
Qed.

(** X16: at rate 1 [down_sample] returns a non-empty image unchanged. *)
Theorem down_sample_rate_one h w (input : image R) :
  (1 <= h)%nat -> (1 <= w)%nat ->
  sized (sized (fun _ => True) w) h input ->
  down_sample 1 input = Ok input.
Proof.
  intros Hh Hw HX.
  rewrite (@down_sample_ok 1 h w input HX) by lia.
  rewrite !Nat.div_1_r. apply f_equal.
  etransitivity; [|apply (rows_by_index HX)].
  apply map_ext. intros i. apply map_ext. intros j. simpl.
  rewrite !Nat.add_0_r, !Nat.mul_1_r. field.
Qed.

Lemma rsum_between A (g : A -> R) lo hi l :
  (forall x, In x l -> lo <= g x <= hi) ->
  INR (length l) * lo <= rsum (map g l) <= INR (length l) * hi.
Proof.
  induction l as [|a l IH]; intros H.
  - simpl. lra.
  - change (length (a :: l)) with (S (length l)). rewrite S_INR. simpl.
    pose proof (H a (or_introl eq_refl)). 
    assert (H' : forall x, In x l -> lo <= g x <= hi) by (intros; apply H; now right).
    specialize (IH H'). lra.
Qed.

Lemma entry_in_range (P : R -> Prop) h w (X : image R) i j :
  sized (sized P w) h X -> (i < h)%nat -> (j < w)%nat -> P (entry X i j).
Proof.
  intros [Hl HX] Hi Hj. unfold entry. rewrite Forall_forall in HX.
  destruct (HX (nth i X [])) as [Hr HP]; [apply nth_In; lia|].
  rewrite Forall_forall in HP. apply HP. apply nth_In. lia.
Qed.

(** X17: downsampling never leaves the range of the image: when every
    entry lies between [lo] and [hi], so does every entry of the
    result (a non-negative image stays non-negative, a constant one
    stays constant). *)
Theorem down_sample_stays_in_range rate h w lo hi (input : image R) :
  (1 <= rate <= h)%nat -> (rate <= w)%nat ->
  sized (sized (fun v => lo <= v <= hi) w) h input ->
  exists out, down_sample rate input = Ok out /\
              sized (sized (fun v => lo <= v <= hi) (w / rate)) (h / rate) out.
Proof.
  intros Hr Hw HX.
  assert (HX' : sized (sized (fun _ : R => True) w) h input).
  { eapply sized_impl; [|exact HX]. intros r. apply sized_impl. trivial. }
  rewrite (down_sample_ok HX' Hr Hw). eexists. split; [reflexivity|].
  split; [now rewrite length_map, length_seq|].
  apply Forall_map, Forall_forall. intros i Hi. apply in_seq in Hi.
  split; [now rewrite length_map, length_seq|].
  apply Forall_map, Forall_forall. intros j Hj. apply in_seq in Hj.
  assert (Hi' : (i * rate + rate <= h)%nat).
  { pose proof (Nat.Div0.mul_div_le h rate). nia. }
  assert (Hj' : (j * rate + rate <= w)%nat).
  { pose proof (Nat.Div0.mul_div_le w rate). nia. }
  set (c := 1 / INR (rate * rate)).
  assert (Hrate : 0 < INR rate) by (apply lt_0_INR; lia).
  assert (Hc : 0 < c).
  { unfold c. rewrite mult_INR. apply Rdiv_lt_0_compat; [lra|nra]. }
  assert (Hone : INR rate * (INR rate * c) = 1).
  { unfold c. rewrite mult_INR. field. lra. }
  pose proof (@rsum_between nat
    (fun a => rsum (map (fun b => c * entry input (i * rate + a) (j * rate + b))
                        (seq 0 rate)))
    (INR rate * (c * lo)) (INR rate * (c * hi)) (seq 0 rate)) as Hs.
  rewrite length_seq in Hs.
  assert (Hin : forall a, In a (seq 0 rate) ->
            INR rate * (c * lo)
            <= rsum (map (fun b => c * entry input (i * rate + a) (j * rate + b))
                         (seq 0 rate))
            <= INR rate * (c * hi)).
  { intros a Ha. apply in_seq in Ha.
    pose proof (@rsum_between nat
      (fun b => c * entry input (i * rate + a) (j * rate + b))
      (c * lo) (c * hi) (seq 0 rate)) as Hs'.
    rewrite length_seq in Hs'. apply Hs'. intros b Hb. apply in_seq in Hb.
    assert (He : lo <= entry input (i * rate + a) (j * rate + b) <= hi).
    { apply (@entry_in_range (fun v => lo <= v <= hi) h w); auto; lia. }
    nra. }
  specialize (Hs Hin).
  assert (E1 : INR rate * (INR rate * (c * lo)) = lo).
  { transitivity (INR rate * (INR rate * c) * lo); [ring | rewrite Hone; ring]. }
  assert (E2 : INR rate * (INR rate * (c * hi)) = hi).
  { transitivity (INR rate * (INR rate * c) * hi); [ring | rewrite Hone; ring]. }
  rewrite E1, E2 in Hs. exact Hs.
Qed.

Lemma sized_2x2 (a b c d : R) (P : R -> Prop) :
  P a -> P b -> P c -> P d -> sized (sized P 2) 2 [[a; b]; [c; d]].
Proof.
  intros. repeat (split; [reflexivity|]; repeat constructor); auto.
Qed.

Lemma down_sample_size_witness :
  down_sample 3 [[1; 2]; [3; 4]] = Err ShapeError /\
  exists out, down_sample 2 [[1; 2]; [3; 4]] = Ok out /\
              sized (sized (fun _ => True) (2 / 2)) (2 / 2) out.
Proof.
  split.
  - apply (proj1 (@down_sample_size 3 2 2 [[1; 2]; [3; 4]] (@sized_2x2 1 2 3 4 (fun _ => True) I I I I))). lia.
  - apply (proj2 (@down_sample_size 2 2 2 [[1; 2]; [3; 4]] (@sized_2x2 1 2 3 4 (fun _ => True) I I I I))); lia.
Defined.

Lemma down_sample_keeps_mean_witness :
  exists out, down_sample 2 [[1; 2]; [3; 4]] = Ok out /\
              sized (sized (fun _ => True) 1) 1 out /\
              rsum (map rsum out) = rsum (map rsum [[1; 2]; [3; 4]]) / INR (2 * 2).
Proof.
  apply (@down_sample_keeps_mean 2 1 1 [[1; 2]; [3; 4]]); try lia.
  exact (@sized_2x2 1 2 3 4 (fun _ => True) I I I I).
Defined.

Lemma down_sample_rate_one_witness :
  down_sample 1 [[1; 2]; [3; 4]] = Ok [[1; 2]; [3; 4]].
Proof.
  apply (@down_sample_rate_one 2 2); try lia.
  exact (@sized_2x2 1 2 3 4 (fun _ => True) I I I I).
Defined.

Lemma down_sample_stays_in_range_witness :
  exists out, down_sample 2 [[1; 2]; [3; 4]] = Ok out /\
              sized (sized (fun v => 0 <= v <= 4) (2 / 2)) (2 / 2) out.
Proof.
  apply (@down_sample_stays_in_range 2 2 2 0 4); try lia.
  apply (@sized_2x2 1 2 3 4 (fun v => 0 <= v <= 4)); lra.
Defined.

(** ** The transfer function of a kernel *)

Lemma nth_map_lt A B (f : A -> B) (l : list A) k d d' :
  (k < length l)%nat -> nth k (map f l) d = f (nth k l d').
Proof.
  intros H. rewrite (nth_indep (map f l) d (f d')) by (now rewrite length_map).
  apply map_nth.
Qed.

Lemma length_take A (s : nat * nat) (l : list A) :
  (snd s <= length l)%nat -> length (take s l) = extent s.
Proof.
  intros H. unfold take, extent. rewrite length_firstn, length_skipn. lia.
Qed.

Lemma nth_take A (s : nat * nat) (l : list A) k d :
  (k < extent s)%nat -> nth k (take s l) d = nth (fst s + k) l d.
Proof.
  intros H. unfold take. rewrite nth_firstn.
  replace (k <? extent s)%nat with true by (symmetry; now apply Nat.ltb_lt).
  apply nth_skipn.
Qed.

Lemma length_put A (s : nat * nat) (new l : list A) :
  (fst s <= snd s <= length l)%nat -> length new = extent s ->
  length (put s new l) = length l.
Proof.
  intros H Hn. unfold put, extent in *.
  rewrite !length_app, length_firstn, length_skipn. lia.
Qed.

Lemma nth_put A (s : nat * nat) (new l : list A) i d :
  (fst s <= snd s <= length l)%nat -> length new = extent s ->
  nth i (put s new l) d
  = if (fst s <=? i)%nat && (i <? snd s)%nat then nth (i - fst s) new d else nth i l d.
Proof.
  intros H Hn. unfold put, extent in *.
  destruct (fst s <=? i)%nat eqn:E1; simpl.
  - apply Nat.leb_le in E1.
    rewrite app_nth2 by (rewrite length_firstn; lia).
    rewrite length_firstn, Nat.min_l by lia.
    destruct (i <? snd s)%nat eqn:E2.
    + apply Nat.ltb_lt in E2. rewrite app_nth1 by lia. reflexivity.
    + apply Nat.ltb_ge in E2. rewrite app_nth2 by lia.
      rewrite nth_skipn. f_equal. lia.
  - apply Nat.leb_gt in E1. rewrite app_nth1 by (rewrite length_firstn; lia).
    rewrite nth_firstn.
    replace (i <? fst s)%nat with true by (symmetry; now apply Nat.ltb_lt).
    reflexivity.
Qed.

Lemma length_expand A (d : A) n l : length (expand d n l) = n.
Proof.
  unfold expand. destruct (length l =? n)%nat eqn:E.
  - now apply Nat.eqb_eq.
  - apply repeat_length.
Qed.

Lemma nth_expand A (d : A) n l k :
  (k < n)%nat ->
  nth k (expand d n l) d = nth (if (length l =? n)%nat then k else 0%nat) l d.
Proof.
  intros H. unfold expand. destruct (length l =? n)%nat; [reflexivity|].
  rewrite nth_repeat_lt by auto. destruct l; reflexivity.
Qed.

Lemma nth_nil A k (d : A) : nth k [] d = d.
Proof. destruct k; reflexivity. Qed.

Lemma sized_nth A (P : A -> Prop) n (l : list A) k d :
  sized P n l -> (k < n)%nat -> P (nth k l d).
Proof.
  intros [Hl HP] Hk. rewrite Forall_forall in HP. apply HP, nth_In. lia.
Qed.

Lemma entry_assign2d H W sh sw rs cs (src X : image R) i j :
  sized (sized (fun _ => True) W) H X ->
  sized (sized (fun _ => True) sw) sh src ->
  (fst rs <= snd rs <= H)%nat -> (fst cs <= snd cs <= W)%nat ->
  entry (assign2d rs cs src X) i j
  = if in_slice rs i && in_slice cs j
    then entry src (if (sh =? extent rs)%nat then i - fst rs else 0)%nat
                   (if (sw =? extent cs)%nat then j - fst cs else 0)%nat
    else entry X i j.
Proof.
  intros HX Hsrc Hrs Hcs. unfold entry, assign2d.
  pose proof HX as [HlX _]. pose proof Hsrc as [Hls _].
  assert (Hlt : length (take rs X) = extent rs) by (apply length_take; lia).
  assert (HlM : length (map (fun p => put cs (expand 0 (extent cs) (fst p)) (snd p))
                            (combine (expand [] (extent rs) src) (take rs X)))
                = extent rs).
  { rewrite length_map, length_combine, length_expand, Hlt. apply Nat.min_id. }
  rewrite nth_put by (auto; lia).
  unfold in_slice.
  destruct ((fst rs <=? i)%nat && (i <? snd rs)%nat) eqn:ER; [|reflexivity].
  apply andb_true_iff in ER. destruct ER as [E1 E2].
  apply Nat.leb_le in E1. apply Nat.ltb_lt in E2.
  assert (Hk : (i - fst rs < extent rs)%nat) by (unfold extent; lia).
  rewrite (@nth_map_lt _ _ (fun p => put cs (expand 0 (extent cs) (fst p)) (snd p))
             (combine (expand [] (extent rs) src) (take rs X)) (i - fst rs) []
             ([], []))
    by (rewrite length_combine, length_expand, Hlt, Nat.min_id; exact Hk).
  rewrite combine_nth by (now rewrite length_expand, Hlt).
  cbn [fst snd]. rewrite nth_take by exact Hk.
  replace (fst rs + (i - fst rs))%nat with i by lia.
  rewrite nth_expand by exact Hk. rewrite Hls.
  assert (HXi : length (nth i X []) = W).
  { apply (@sized_nth _ (sized (fun _ => True) W) H X i [] HX). lia. }
  rewrite nth_put by (rewrite ?length_expand; auto; lia).
  simpl andb.
  destruct ((fst cs <=? j)%nat && (j <? snd cs)%nat) eqn:EC; [|reflexivity].
  apply andb_true_iff in EC. destruct EC as [E3 E4].
  apply Nat.leb_le in E3. apply Nat.ltb_lt in E4.
  rewrite nth_expand by (unfold extent; lia).
  set (bi := (if (sh =? extent rs)%nat then (i - fst rs)%nat else 0%nat)).
  destruct (Nat.lt_ge_cases bi sh) as [Hb|Hb].
  - assert (Hr : length (nth bi src []) = sw).
    { apply (@sized_nth _ (sized (fun _ => True) sw) sh src bi [] Hsrc Hb). }
    now rewrite Hr.
  - rewrite (nth_overflow src) by lia. now rewrite !nth_nil.
Qed.

Lemma assign2d_sized H W rs cs (src X : image R) :
  sized (sized (fun _ => True) W) H X ->
  (fst rs <= snd rs <= H)%nat -> (fst cs <= snd cs <= W)%nat ->
  sized (sized (fun _ => True) W) H (assign2d rs cs src X).
Proof.
  intros HX Hrs Hcs. pose proof HX as [HlX HFX]. unfold assign2d.
  assert (Hlt : length (take rs X) = extent rs) by (apply length_take; lia).
  split.
  - rewrite length_put; auto; [lia|].
    rewrite length_map, length_combine, length_expand, Hlt. apply Nat.min_id.
  - unfold put. rewrite Forall_forall in HFX.
    apply Forall_app. split; [|apply Forall_app; split].
    + apply Forall_forall. intros r Hr. apply HFX. eapply In_firstn; eauto.
    + apply Forall_map, Forall_forall. intros [a b] Hab. cbn [fst snd].
      apply in_combine_r in Hab. unfold take in Hab.
      apply In_firstn in Hab. apply In_skipn in Hab.
      destruct (HFX b Hab) as [Hb _]. split; [|apply Forall_forall; trivial].
      change (length (put cs (expand 0 (extent cs) a) b) = W). rewrite length_put; rewrite ?length_expand; auto. lia.
    + apply Forall_forall. intros r Hr. apply HFX. eapply In_skipn; eauto.
Qed.

Lemma source_sized h w srs scs (K : image R) :
  sized (sized (fun _ => True) w) h K ->
  (snd srs <= h)%nat -> (snd scs <= w)%nat ->
  sized (sized (fun _ => True) (extent scs)) (extent srs) (map (take scs) (take srs K)).
Proof.
  intros [Hl HK] Hr Hc. split.
  - rewrite length_map. apply length_take. lia.
  - apply Forall_map, Forall_forall. intros r Hr'. unfold take in Hr'.
    apply In_firstn in Hr'. apply In_skipn in Hr'.
    rewrite Forall_forall in HK. destruct (HK r Hr') as [Hlr _].
    split; [apply length_take; lia | apply Forall_forall; trivial].
Qed.

Lemma entry_source h w srs scs (K : image R) k l :
  sized (sized (fun _ => True) w) h K ->
  (snd srs <= h)%nat -> (k < extent srs)%nat -> (l < extent scs)%nat ->
  entry (map (take scs) (take srs K)) k l = entry K (fst srs + k) (fst scs + l).
Proof.
  intros [Hl HK] Hr Hk Hl'. unfold entry.
  rewrite (@nth_map_lt _ _ (take scs) (take srs K) k [] [])
    by (rewrite length_take; lia).
  rewrite nth_take by exact Hl'. now rewrite nth_take by exact Hk.
Qed.

Lemma assign_holds N H W h w rs cs srs scs F (ker psf : tensor R) :
  has_shape N h w ker -> holds N H W F psf ->
  (fst rs <= snd rs <= H)%nat -> (fst cs <= snd cs <= W)%nat ->
  (snd srs <= h)%nat -> (snd scs <= w)%nat ->
  fits (extent srs) (extent rs) = true -> fits (extent scs) (extent cs) = true ->
  exists psf',
    assign rs cs srs scs ker psf = Ok psf' /\
    holds N H W
      (fun b i j =>
         if in_slice rs i && in_slice cs j
         then entry (nth b ker [])
                (fst srs + (if (extent srs =? extent rs)%nat then i - fst rs else 0))%nat
                (fst scs + (if (extent scs =? extent cs)%nat then j - fst cs else 0))%nat
         else F b i j)
      psf'.
Proof.
  intros Hk [Hp HF] Hrs Hcs Hsr Hsc Hfr Hfc. unfold assign.
  pose proof Hk as [Hlk HFk]. pose proof Hp as [Hlp HFp].
  unfold tensor, image in *. rewrite Hlk, Hlp, Hfr, Hfc. unfold fits at 1. rewrite Nat.eqb_refl. simpl.
  eexists. split; [reflexivity|].
  assert (He : expand [] N ker = ker).
  { unfold expand. now rewrite Hlk, Nat.eqb_refl. }
  rewrite He.
  match goal with |- context [map ?f (combine ker psf)] =>
    assert (Hn : forall b, (b < N)%nat ->
              nth b (map f (combine ker psf)) []
              = assign2d rs cs (map (take scs) (take srs (nth b ker []))) (nth b psf []))
  end.
  { intros b Hb.
    match goal with |- context [map ?f (combine ker psf)] =>
      rewrite (@nth_map_lt _ _ f (combine ker psf) b [] ([], []))
        by (rewrite length_combine; lia)
    end.
    rewrite combine_nth by lia. reflexivity. }
  split.
  - split; [rewrite length_map, length_combine; lia|].
    apply Forall_map, Forall_forall. intros [K X] HKX. cbn [fst snd].
    apply in_combine_r in HKX. rewrite Forall_forall in HFp.
    apply assign2d_sized; auto.
  - intros b i j Hb. pose proof (Hn b Hb) as Hnb. unfold tensor, image in *.
    rewrite Hnb.
    assert (HKb : sized (sized (fun _ => True) w) h (nth b ker [])).
    { apply (@sized_nth _ (sized (sized (fun _ => True) w) h) N ker b [] Hk Hb). }
    assert (HXb : sized (sized (fun _ => True) W) H (nth b psf [])).
    { apply (@sized_nth _ (sized (sized (fun _ => True) W) H) N psf b [] Hp Hb). }
    rewrite (@entry_assign2d H W (extent srs) (extent scs) rs cs _ _ i j HXb
               (source_sized srs scs HKb Hsr Hsc) Hrs Hcs).
    destruct (in_slice rs i && in_slice cs j) eqn:E; [|now apply HF].
    apply andb_true_iff in E. destruct E as [Ei Ej]. unfold in_slice in Ei, Ej.
    apply andb_true_iff in Ei, Ej. destruct Ei as [Ei1 Ei2]. destruct Ej as [Ej1 Ej2].
    apply Nat.leb_le in Ei1, Ej1. apply Nat.ltb_lt in Ei2, Ej2.
    unfold fits in Hfr, Hfc. apply orb_true_iff in Hfr, Hfc.
    apply entry_source with (h := h) (w := w); auto.
    + destruct (extent srs =? extent rs)%nat eqn:E.
      * apply Nat.eqb_eq in E. unfold extent in *. lia.
      * destruct Hfr as [Hf|Hf]; [congruence|]. apply Nat.eqb_eq in Hf. lia.
    + destruct (extent scs =? extent cs)%nat eqn:E.
      * apply Nat.eqb_eq in E. unfold extent in *. lia.
      * destruct Hfc as [Hf|Hf]; [congruence|]. apply Nat.eqb_eq in Hf. lia.
Qed.

Lemma assign_misfit rs cs srs scs (ker psf : tensor R) :
  fits (extent srs) (extent rs) = false \/ fits (extent scs) (extent cs) = false ->
  assign rs cs srs scs ker psf = Err ShapeError.
Proof.
  intros H. unfold assign.
  destruct H as [-> | ->]; rewrite ?andb_false_r; reflexivity.
Qed.

Lemma zeros_hold N H W :
  holds N H W (fun _ _ _ => 0) (repeat (repeat (repeat 0 W) H) N).
Proof.
  split.
  - repeat (apply sized_repeat). exact I.
  - intros b i j Hb. unfold entry. rewrite nth_repeat_lt by auto.
    destruct (Nat.lt_ge_cases i H) as [Hi|Hi].
    + rewrite nth_repeat_lt by auto. destruct (Nat.lt_ge_cases j W) as [Hj|Hj].
      * now rewrite nth_repeat_lt.
      * apply nth_overflow. now rewrite repeat_length.
    + rewrite (nth_overflow (repeat (repeat 0 W) H)) by (now rewrite repeat_length).
      apply nth_nil.
Qed.

Lemma kernel_sizes N h w (ker : tensor R) :
  (1 <= N)%nat -> has_shape N h w ker ->
  length (hd [] ker) = h /\ ((1 <= h)%nat -> width (hd [] ker) = w).
Proof.
  intros HN [Hl HF]. destruct ker as [|K ker]; [simpl in Hl; lia|].
  inversion HF as [|? ? [HK HFK] _]. cbn [hd]. split; auto.
  intros Hh. destruct K as [|r K]; [simpl in HK; lia|].
  inversion HFK as [|? ? [Hr _] _]. exact Hr.
Qed.

Lemma psf_to_otf_holds N H W h w (ker : tensor R) :
  let c := ((h + 1) / 2)%nat in
  (1 <= N)%nat -> (1 <= h)%nat -> has_shape N h w ker ->
  (c <= H)%nat -> (c <= W)%nat -> (c <= w)%nat ->
  fits (h - c) c = true -> fits (w - c) c = true ->
  exists psf, psf_to_otf ker (N, H, W) = Ok (psf, fft2 (complex psf)) /\
              holds N H W (psf_entries H W h w c ker) psf.
Proof.
  intros c HN Hh Hk HcH HcW Hcw Hfh Hfw.
  destruct (kernel_sizes HN Hk) as [Eh Ew]. specialize (Ew Hh).
  assert (Hc1 : (1 <= c)%nat).
  { unfold c. change 1%nat with (2 / 2)%nat at 1. apply Nat.Div0.div_le_mono. lia. }
  assert (Hch : (c <= h)%nat).
  { unfold c. apply Nat.Div0.div_le_upper_bound. lia. }
  unfold psf_to_otf. rewrite Eh, Ew. fold c.
  assert (S1 : forall n, (c <= n)%nat -> slice_to c n = (0, c)%nat).
  { intros n Hn. unfold slice_to. now rewrite Nat.min_l. }
  assert (S2 : forall n, (c <= n)%nat -> slice_from c n = (c, n)%nat).
  { intros n Hn. unfold slice_from. now rewrite Nat.min_l. }
  assert (S3 : forall n, slice_last c n = (n - c, n)%nat).
  { intros n. unfold slice_last. destruct (Nat.eqb_spec c 0); [lia|reflexivity]. }
  rewrite !S1, !S2, !S3 by assumption.
  assert (Fcc : fits c c = true) by (unfold fits; now rewrite Nat.eqb_refl).
  destruct (@assign_holds N H W h w (0, c)%nat (0, c)%nat (c, h)%nat (c, w)%nat _ ker _
              Hk (zeros_hold N H W)) as (p1 & E1 & H1);
    try (cbn [fst snd extent]; unfold extent; cbn [fst snd]; rewrite ?Nat.sub_0_r; auto; lia).
  rewrite E1. cbn [bind].
  destruct (@assign_holds N H W h w (0, c)%nat (W - c, W)%nat (c, h)%nat (0, c)%nat _ ker _
              Hk H1) as (p2 & E2 & H2);
    try (cbn [fst snd extent]; unfold extent; cbn [fst snd]; rewrite ?Nat.sub_0_r;
         try replace (W - (W - c))%nat with c by lia; auto; lia).
  rewrite E2. cbn [bind].
  destruct (@assign_holds N H W h w (H - c, H)%nat (0, c)%nat (0, c)%nat (c, w)%nat _ ker _
              Hk H2) as (p3 & E3 & H3);
    try (cbn [fst snd extent]; unfold extent; cbn [fst snd]; rewrite ?Nat.sub_0_r;
         try replace (H - (H - c))%nat with c by lia; auto; lia).
  rewrite E3. cbn [bind].
  destruct (@assign_holds N H W h w (H - c, H)%nat (W - c, W)%nat (0, c)%nat (0, c)%nat
              _ ker _ Hk H3) as (p4 & E4 & H4);
    try (cbn [fst snd extent]; unfold extent; cbn [fst snd]; rewrite ?Nat.sub_0_r;
         try replace (H - (H - c))%nat with c by lia;
         try replace (W - (W - c))%nat with c by lia; auto; lia).
  rewrite E4. cbn [bind].
  exists p4. split; [reflexivity|].
  destruct H4 as [Hs4 HF4]. split; [exact Hs4|].
  intros b i j Hb. rewrite (HF4 b i j Hb). unfold psf_entries, extent. cbn [fst snd].
  rewrite !Nat.sub_0_r.
  replace (H - (H - c))%nat with c by lia. replace (W - (W - c))%nat with c by lia.
  rewrite !Nat.eqb_refl. reflexivity.
Qed.

Ltac cases_nat :=
  repeat match goal with
  | |- context [(?a <=? ?b)%nat] => destruct (Nat.leb_spec a b)
  | |- context [(?a <? ?b)%nat] => destruct (Nat.ltb_spec a b)
  | |- context [(?a =? ?b)%nat] => destruct (Nat.eqb_spec a b)
  end.

Lemma entry_outside h w (K : image R) i j :
  sized (sized (fun _ => True) w) h K -> (h <= i)%nat \/ (w <= j)%nat ->
  entry K i j = 0.
Proof.
  intros HK Hij. unfold entry. destruct (Nat.lt_ge_cases i h) as [Hi|Hi].
  - destruct Hij as [Hij|Hij]; [lia|].
    apply nth_overflow.
    rewrite (proj1 (@sized_nth _ (sized (fun _ => True) w) h K i [] HK Hi)). exact Hij.
  - rewrite (nth_overflow K) by (destruct HK; lia). apply nth_nil.
Qed.

Lemma shifted_index n c i :
  (1 <= c <= n)%nat -> (i < n)%nat ->
  ((i + c) mod n = if (i + c <? n)%nat then i + c else i + c - n)%nat.
Proof.
  intros Hc Hi. destruct (Nat.ltb_spec (i + c) n) as [H|H].
  - now apply Nat.mod_small.
  - replace (i + c)%nat with ((i + c - n) + 1 * n)%nat at 1 by lia.
    rewrite Nat.Div0.mod_add. apply Nat.mod_small. lia.
Qed.

(** X18: for a square kernel of even size 2c and a target of at least
    that size, [psf_to_otf] returns, with its transform, the kernel
    padded with zeros to the target size and shifted circularly by [c]
    rows and [c] columns, so that the entry [(c, c)] of the kernel comes
    to the origin: [psf[i][j] = padded[(i + c) mod H][(j + c) mod W]]. *)
Theorem psf_to_otf_even_kernel N H W c (ker : tensor R) :
  (1 <= N)%nat -> (1 <= c)%nat -> has_shape N (2 * c) (2 * c) ker ->
  (2 * c <= H)%nat -> (2 * c <= W)%nat ->
  exists psf,
    psf_to_otf ker (N, H, W) = Ok (psf, fft2 (complex psf)) /\
    has_shape N H W psf /\
    forall b i j, (b < N)%nat -> (i < H)%nat -> (j < W)%nat ->
      entry (nth b psf []) i j
      = entry (nth b ker []) ((i + c) mod H) ((j + c) mod W).
Proof.
  intros HN Hc Hk HH HW.
  assert (Ec : ((2 * c + 1) / 2 = c)%nat).
  { replace (2 * c + 1)%nat with (1 + c * 2)%nat by lia.
    rewrite Nat.div_add by lia. reflexivity. }
  assert (Ef : fits (2 * c - c) c = true).
  { unfold fits. replace (2 * c - c)%nat with c by lia. now rewrite Nat.eqb_refl. }
  destruct (@psf_to_otf_holds N H W (2 * c) (2 * c) ker) as (psf & E & Hs & HF);
    rewrite ?Ec; auto; try lia.
  exists psf. split; [exact E|]. split; [exact Hs|].
  intros b i j Hb Hi Hj. rewrite (HF b i j Hb). rewrite Ec.
  assert (HK : sized (sized (fun _ => True) (2 * c)) (2 * c) (nth b ker [])).
  { apply (@sized_nth _ (sized (sized (fun _ => True) (2 * c)) (2 * c)) N ker b [] Hk Hb). }
  rewrite !shifted_index by lia.
  unfold psf_entries, in_slice. cbn [fst snd].
  replace (2 * c - c)%nat with c by lia. rewrite Nat.eqb_refl.
  cases_nat; cbn [andb]; try lia;
    try (f_equal; lia);
    try (symmetry; apply (@entry_outside _ _ _ _ _ HK); lia).
Qed.

(** X19: [psf_to_otf] fails on every kernel with an odd number of rows
    other than 3 (a 1 by 1 kernel included), when the target has at
    least [center] rows: the first assignment copies [h - center] rows
    into [center] rows. *)
Theorem psf_to_otf_odd_kernel n N H W h w (ker : tensor R) :
  (1 <= n)%nat -> has_shape n h w ker ->
  Nat.Odd h -> h <> 3%nat -> ((h + 1) / 2 <= H)%nat ->
  psf_to_otf ker (N, H, W) = Err ShapeError.
Proof.
  intros Hn Hk [k Hodd] H3 HH.
  destruct (kernel_sizes Hn Hk) as [Eh _].
  assert (Ec : ((h + 1) / 2 = k + 1)%nat).
  { rewrite Hodd. replace (2 * k + 1 + 1)%nat with ((k + 1) * 2)%nat by lia.
    apply Nat.div_mul. lia. }
  unfold psf_to_otf. rewrite Eh. rewrite Ec in *.
  rewrite assign_misfit; [reflexivity|]. left.
  unfold slice_from, slice_to, extent, fits. cbn [fst snd].
  rewrite !Nat.min_l by lia. rewrite Nat.sub_0_r.
  apply orb_false_iff. split; apply Nat.eqb_neq; lia.
Qed.

Lemma has_shape_133 (a b c d e f g h i : R) :
  has_shape 1 3 3 [[[a; b; c]; [d; e; f]; [g; h; i]]].
Proof.
  repeat (split; [reflexivity|]; repeat constructor).
Qed.

(** X20: a 3 by 3 kernel is accepted, by broadcasting its single last
    row and column over two rows and two columns: the result is not
    the circular shift of the kernel.  Its entry [(2, 2)] fills the
    first 2 by 2 corner, and its centre [(1, 1)] lands in the last
    corner of the target instead of the origin. *)
Theorem psf_to_otf_3x3_kernel N H W (ker : tensor R) :
  (1 <= N)%nat -> has_shape N 3 3 ker -> (4 <= H)%nat -> (4 <= W)%nat ->
  exists psf,
    psf_to_otf ker (N, H, W) = Ok (psf, fft2 (complex psf)) /\
    has_shape N H W psf /\
    forall b, (b < N)%nat ->
      bentry psf b 0 0 = bentry ker b 2 2 /\
      bentry psf b 0 1 = bentry ker b 2 2 /\
      bentry psf b 1 0 = bentry ker b 2 2 /\
      bentry psf b 1 1 = bentry ker b 2 2 /\
      bentry psf b 0 (W - 2) = bentry ker b 2 0 /\
      bentry psf b 0 (W - 1) = bentry ker b 2 1 /\
      bentry psf b 1 (W - 2) = bentry ker b 2 0 /\
      bentry psf b 1 (W - 1) = bentry ker b 2 1 /\
      bentry psf b (H - 2) 0 = bentry ker b 0 2 /\
      bentry psf b (H - 2) 1 = bentry ker b 0 2 /\
      bentry psf b (H - 1) 0 = bentry ker b 1 2 /\
      bentry psf b (H - 1) 1 = bentry ker b 1 2 /\
      bentry psf b (H - 2) (W - 2) = bentry ker b 0 0 /\
      bentry psf b (H - 2) (W - 1) = bentry ker b 0 1 /\
      bentry psf b (H - 1) (W - 2) = bentry ker b 1 0 /\
      bentry psf b (H - 1) (W - 1) = bentry ker b 1 1 /\
      forall i j, (2 <= i < H - 2)%nat \/ (2 <= j < W - 2)%nat -> bentry psf b i j = 0.
Proof.
  intros HN Hk HH HW.
  destruct (@psf_to_otf_holds N H W 3 3 ker) as (psf & E & Hs & HF);
    try (cbn; lia); auto.
  exists psf. split; [exact E|]. split; [exact Hs|].
  intros b Hb. unfold bentry.
  change ((3 + 1) / 2)%nat with 2%nat in HF.
  repeat split; try (intros i j Hij); rewrite (HF _ _ _ Hb);
    unfold psf_entries, in_slice; cbn [fst snd];
    change (3 - 2 =? 2)%nat with false; cbv iota;
    cases_nat; cbn [andb]; try lia; try reflexivity; f_equal; lia.
Qed.

Lemma psf_to_otf_even_kernel_witness :
  exists psf,
    psf_to_otf [[[1; 2]; [3; 4]]] (1, 2, 2)%nat = Ok (psf, fft2 (complex psf)) /\
    has_shape 1 2 2 psf /\
    forall b i j, (b < 1)%nat -> (i < 2)%nat -> (j < 2)%nat ->
      entry (nth b psf []) i j
      = entry (nth b [[[1; 2]; [3; 4]]] []) ((i + 1) mod 2) ((j + 1) mod 2).
Proof.
  apply (@psf_to_otf_even_kernel 1 2 2 1 [[[1; 2]; [3; 4]]]); try lia.
  repeat (split; [reflexivity|]; repeat constructor).
Defined.

Lemma psf_to_otf_odd_kernel_witness :
  psf_to_otf [[[1]]] (1, 1, 1)%nat = Err ShapeError.
Proof.
  apply (@psf_to_otf_odd_kernel 1 1 1 1 1 1 [[[1]]]).
  - lia.
  - apply has_shape_111.
  - exists 0%nat. reflexivity.
  - lia.
  - cbn. lia.
Defined.

Lemma psf_to_otf_3x3_kernel_witness :
  exists psf,
    psf_to_otf laplacian_kernel (1, 4, 4)%nat = Ok (psf, fft2 (complex psf)) /\
    has_shape 1 4 4 psf /\
    forall b, (b < 1)%nat ->
      bentry psf b 0 0 = bentry laplacian_kernel b 2 2 /\
      bentry psf b 0 1 = bentry laplacian_kernel b 2 2 /\
      bentry psf b 1 0 = bentry laplacian_kernel b 2 2 /\
      bentry psf b 1 1 = bentry laplacian_kernel b 2 2 /\
      bentry psf b 0 (4 - 2) = bentry laplacian_kernel b 2 0 /\
      bentry psf b 0 (4 - 1) = bentry laplacian_kernel b 2 1 /\
      bentry psf b 1 (4 - 2) = bentry laplacian_kernel b 2 0 /\
      bentry psf b 1 (4 - 1) = bentry laplacian_kernel b 2 1 /\
      bentry psf b (4 - 2) 0 = bentry laplacian_kernel b 0 2 /\
      bentry psf b (4 - 2) 1 = bentry laplacian_kernel b 0 2 /\
      bentry psf b (4 - 1) 0 = bentry laplacian_kernel b 1 2 /\
      bentry psf b (4 - 1) 1 = bentry laplacian_kernel b 1 2 /\
      bentry psf b (4 - 2) (4 - 2) = bentry laplacian_kernel b 0 0 /\
      bentry psf b (4 - 2) (4 - 1) = bentry laplacian_kernel b 0 1 /\
      bentry psf b (4 - 1) (4 - 2) = bentry laplacian_kernel b 1 0 /\
      bentry psf b (4 - 1) (4 - 1) = bentry laplacian_kernel b 1 1 /\
      forall i j, (2 <= i < 4 - 2)%nat \/ (2 <= j < 4 - 2)%nat -> bentry psf b i j = 0.
Proof.
  apply (@psf_to_otf_3x3_kernel 1 4 4 laplacian_kernel); try lia.
  apply has_shape_133.
Defined.

(** ** The multi-scale loss *)

Lemma avg_pool_ok k h w (X : image R) :
  sized (sized (fun _ => True) w) h X ->
  (1 <= k <= h)%nat -> (k <= w)%nat ->
  exists Y, avg_pool k X = Ok Y /\ sized (sized (fun _ => True) (w / k)) (h / k) Y.
Proof.
  intros [Hl HX] Hk Hw. unfold avg_pool.
  assert (HW : width X = w).
  { destruct X as [|r0 X]; [simpl in Hl; lia|].
    inversion HX as [|? ? [Hr0 _] _]. exact Hr0. }
  rewrite Hl, HW.
  replace ((k =? 0)%nat || (h <? k)%nat || (w <? k)%nat) with false.
  - rewrite !conv_out_size by lia. eexists. split; [reflexivity|].
    split; [now rewrite length_map, length_seq|].
    apply Forall_map, Forall_forall. intros i _.
    split; [now rewrite length_map, length_seq|].
    apply Forall_map, Forall_forall. trivial.
  - symmetry. apply orb_false_iff. split; [apply orb_false_iff; split|].
    + apply Nat.eqb_neq. lia.
    + apply Nat.ltb_ge. lia.
    + apply Nat.ltb_ge. lia.
Qed.

Lemma avg_pool_small k h w (X : image R) :
  sized (sized (fun _ => True) w) h X ->
  (h < k)%nat \/ (w < k)%nat -> avg_pool k X = Err ShapeError.
Proof.
  intros [Hl HX] Hk. unfold avg_pool. rewrite Hl.
  destruct (k =? 0)%nat eqn:E0; [reflexivity|]. apply Nat.eqb_neq in E0.
  destruct (h <? k)%nat eqn:E1; [reflexivity|]. apply Nat.ltb_ge in E1.
  assert (HW : width X = w).
  { destruct X as [|r0 X]; [simpl in Hl; lia|].
    inversion HX as [|? ? [Hr0 _] _]. exact Hr0. }
  rewrite HW. destruct (w <? k)%nat eqn:E2; [reflexivity|].
  apply Nat.ltb_ge in E2. lia.
Qed.

Lemma avg_pool_err k (X : image R) e : avg_pool k X = Err e -> e = ShapeError.
Proof.
  unfold avg_pool. destruct (_ || _ || _); intros H; inversion H; reflexivity.
Qed.

Lemma AvgPool2d_ok k n h w (T : tensor R) :
  has_shape n h w T -> (1 <= k <= h)%nat -> (k <= w)%nat ->
  exists T', AvgPool2d k T = Ok T' /\ has_shape n (h / k) (w / k) T'.
Proof.
  intros HT Hk Hw. unfold AvgPool2d.
  apply (@mapM_sized _ _ (avg_pool k) (sized (sized (fun _ => True) w) h)
           (sized (sized (fun _ => True) (w / k)) (h / k)) n T); auto.
  intros X HX. now apply avg_pool_ok.
Qed.

Lemma AvgPool2d_small k n h w (T : tensor R) :
  (1 <= n)%nat -> has_shape n h w T -> (h < k)%nat \/ (w < k)%nat ->
  AvgPool2d k T = Err ShapeError.
Proof.
  intros Hn [Hl HT] Hk. unfold AvgPool2d.
  destruct T as [|X T]; [simpl in Hl; lia|]. inversion HT as [|? ? HX _].
  simpl. now rewrite (avg_pool_small HX Hk).
Qed.

Lemma AvgPool2d_err k (T : tensor R) e : AvgPool2d k T = Err e -> e = ShapeError.
Proof.
  unfold AvgPool2d. induction T as [|X T IH]; simpl; [discriminate|].
  destruct (avg_pool k X) eqn:E; simpl.
  - destruct (mapM (avg_pool k) T); simpl; [discriminate|].
    intros H. inversion H; subst. now apply IH.
  - intros H. inversion H; subst. eapply avg_pool_err; eauto.
Qed.

Lemma flatten_length (P : R -> Prop) n h w (T : tensor R) :
  shaped P n h w T -> length (flatten T) = (n * (h * w))%nat.
Proof.
  intros HT. unfold flatten.
  apply (@length_concat_sized R (fun _ => True) n (h * w)).
  destruct HT as [Hl HF]. split; [now rewrite length_map|].
  apply Forall_map. eapply Forall_impl; [|exact HF]. intros X HX.
  split; [now apply (@length_concat_sized R P h w)|apply Forall_forall; trivial].
Qed.

Lemma flatten_Forall (P : R -> Prop) n h w (T : tensor R) :
  shaped P n h w T -> Forall P (flatten T).
Proof.
  intros [_ HF]. unfold flatten. apply Forall_concat, Forall_map.
  eapply Forall_impl; [|exact HF]. intros X [_ HX]. apply Forall_concat.
  eapply Forall_impl; [|exact HX]. intros r [_ Hr]. exact Hr.
Qed.

Lemma rsum_zeros l : Forall (fun v => v = 0) l -> rsum l = 0.
Proof.
  induction 1 as [|v l Hv _ IH]; simpl; [reflexivity|]. rewrite Hv, IH. ring.
Qed.

Lemma mean_all_zero n h w (T : tensor R) :
  (1 <= n)%nat -> (1 <= h)%nat -> (1 <= w)%nat ->
  shaped (fun v => v = 0) n h w T -> mean_all T = Ok 0.
Proof.
  intros Hn Hh Hw HT. unfold mean_all, mean.
  rewrite (flatten_length HT).
  destruct (Nat.eqb_spec (n * (h * w)) 0) as [E|_]; [nia|].
  rewrite (rsum_zeros (flatten_Forall HT)). f_equal. unfold Rdiv. ring.
Qed.

Lemma mean_all_nonneg (T : tensor R) l :
  all_entries (fun v => 0 <= v) T -> mean_all T = Ok l -> 0 <= l.
Proof.
  intros HT. unfold mean_all, mean.
  destruct (Nat.eqb_spec (length (flatten T)) 0) as [E|E]; [discriminate|].
  intros H. inversion H; subst. clear H.
  apply Rmult_le_pos.
  - apply rsum_nonneg. unfold flatten. apply Forall_concat, Forall_map.
    eapply Forall_impl; [|exact HT]. intros X HX. apply Forall_concat. exact HX.
  - left. apply Rinv_0_lt_compat. apply lt_0_INR. lia.
Qed.

Lemma tzip_same_shape A B D (f : A -> B -> D) (PC : D -> Prop) n h w
  (Ta : tensor A) (Tb : tensor B) :
  (forall a b, PC (f a b)) ->
  has_shape n h w Ta -> has_shape n h w Tb ->
  exists Tc, tzip (lift2 f) Ta Tb = Ok Tc /\ shaped PC n h w Tc.
Proof.
  intros Hf Ha Hb.
  destruct (@tzip_lift2_shaped A B D f (fun _ => True) (fun _ => True) PC
              n h w n h w Ta Tb) as (Tc & E & HTc); auto;
    try (unfold compat; auto; fail).
  exists Tc. split; auto.
  assert (Hbn : forall k, bdim k k = k).
  { intros k. unfold bdim. now destruct (k =? 1)%nat. }
  now rewrite !Hbn in HTc.
Qed.

Lemma bzip_diag A D (f : A -> A -> res D) (l : list A) :
  bzip f l l = mapM (fun a => f a a) l.
Proof.
  unfold bzip. rewrite Nat.eqb_refl. induction l as [|a l IH]; simpl; [reflexivity|].
  now rewrite IH.
Qed.

Lemma tzip_diag_zero n h w (f : R -> R -> R) (T : tensor R) :
  (forall x, f x x = 0) -> has_shape n h w T ->
  exists d, tzip (lift2 f) T T = Ok d /\ shaped (fun v => v = 0) n h w d.
Proof.
  intros Hf HT. unfold tzip. rewrite bzip_diag.
  apply (@mapM_sized _ _ _ (sized (sized (fun _ => True) w) h)
           (sized (sized (fun v => v = 0) w) h) n T); auto.
  intros X HX. rewrite bzip_diag.
  apply (@mapM_sized _ _ _ (sized (fun _ => True) w) (sized (fun v => v = 0) w) h X); auto.
  intros r Hr. rewrite bzip_diag.
  apply (@mapM_sized _ _ _ (fun _ => True) (fun v => v = 0) w r); auto.
  intros x _. unfold lift2. rewrite Hf. eauto.
Qed.

Lemma loss_equal_inputs f n h w (T : tensor R) :
  known f -> (1 <= n)%nat -> (1 <= h)%nat -> (1 <= w)%nat ->
  has_shape n h w T -> f T T = Ok 0.
Proof.
  intros [-> | ->] Hn Hh Hw HT.
  - unfold L1Loss.
    destruct (@tzip_diag_zero n h w (fun x y => Rabs (x - y)) T) as (d & -> & Hd); auto.
    { intros x. rewrite Rminus_diag. apply Rabs_R0. }
    simpl. now apply mean_all_zero with (n := n) (h := h) (w := w).
  - unfold MSELoss.
    destruct (@tzip_diag_zero n h w (fun x y => (x - y) * (x - y)) T) as (d & -> & Hd); auto.
    { intros x. ring. }
    simpl. now apply mean_all_zero with (n := n) (h := h) (w := w).
Qed.

Lemma loss_nonneg f (a b : tensor R) l : known f -> f a b = Ok l -> 0 <= l.
Proof.
  intros [-> | ->]; unfold L1Loss, MSELoss; intros E.
  - pose proof (@tzip_lift2_sat R R R (fun x y => Rabs (x - y)) (fun _ => True)
                  (fun _ => True) (fun v => 0 <= v) a b) as Hs.
    destruct (tzip _ a b) as [d|]; simpl in E; [|discriminate].
    eapply mean_all_nonneg; [|exact E]. apply Hs.
    + intros x y _ _. apply Rabs_pos.
    + apply all_entries_True.
    + apply all_entries_True.
  - pose proof (@tzip_lift2_sat R R R (fun x y => (x - y) * (x - y)) (fun _ => True)
                  (fun _ => True) (fun v => 0 <= v) a b) as Hs.
    destruct (tzip _ a b) as [d|]; simpl in E; [|discriminate].
    eapply mean_all_nonneg; [|exact E]. apply Hs.
    + intros x y _ _. apply Rle_0_sqr.
    + apply all_entries_True.
    + apply all_entries_True.
Qed.

Lemma loss_symmetric f (a b : tensor R) : known f -> f a b = f b a.
Proof.
  intros [-> | ->]; unfold L1Loss, MSELoss.
  - rewrite (@tzip_swap R R R (fun x y => Rabs (x - y)) (fun x y => Rabs (x - y)) a b);
      auto. intros x y. apply Rabs_minus_sym.
  - rewrite (@tzip_swap R R R (fun x y => (x - y) * (x - y))
               (fun x y => (x - y) * (x - y)) a b); auto. intros x y. ring.
Qed.

Lemma init_known n_scales norm f :
  loss (MultiScaleLoss_init n_scales norm) = Some f -> known f.
Proof.
  destruct norm; simpl; intros H; inversion H; [now left | now right].
Qed.

Lemma pow2_le i s : (i < s)%nat -> (2 ^ i <= 2 ^ (s - 1))%nat.
Proof. intros H. apply Nat.pow_le_mono_r; lia. Qed.

Lemma pow2_pos i : (1 <= 2 ^ i)%nat.
Proof. pose proof (Nat.pow_nonzero 2 i). lia. Qed.

Lemma div_pos_le a k : (1 <= k <= a)%nat -> (1 <= a / k)%nat.
Proof.
  intros H. apply Nat.div_le_lower_bound; lia.
Qed.

Lemma loss_loop_equal m f n h w (T : tensor R) range :
  loss m = Some f -> known f -> (1 <= n)%nat -> has_shape n h w T ->
  Forall (fun i => (2 ^ i <= h)%nat /\ (2 ^ i <= w)%nat) range ->
  loss_loop m T T range 0 = Return 0.
Proof.
  intros Hm Hf Hn HT. induction 1 as [|i range [Hh Hw] _ IH]; [reflexivity|].
  cbn [loss_loop]. unfold loss_step. pose proof (pow2_pos i) as Hp.
  destruct (@AvgPool2d_ok (2 ^ i) n h w T HT) as (T' & -> & HT'); auto.
  cbn [torch obind]. rewrite Hm.
  rewrite (@loss_equal_inputs f n (h / 2 ^ i) (w / 2 ^ i) T'); auto;
    try (apply div_pos_le; lia).
  cbn [torch obind].
  replace (0 + 1 / 2 ^ i * 0) with 0 by (unfold Rdiv; ring). exact IH.
Qed.

(** X21: the multi-scale loss of a batch against itself is 0, for the
    norm L1 and for L2, on a non-empty batch whose height and width are
    at least [2 ** (scales - 1)], the largest pooling window. *)
Theorem MultiScaleLoss_zero_on_equal n_scales norm n h w (T : tensor R) :
  norm <> other_norm -> (1 <= n)%nat -> has_shape n h w T ->
  (2 ^ (n_scales - 1) <= h)%nat -> (2 ^ (n_scales - 1) <= w)%nat ->
  MultiScaleLoss_forward (MultiScaleLoss_init n_scales norm) T T = Return 0.
Proof.
  intros Hnorm Hn HT Hh Hw. unfold MultiScaleLoss_forward.
  destruct (loss (MultiScaleLoss_init n_scales norm)) as [f|] eqn:E.
  - apply (@loss_loop_equal _ f n h w); auto.
    + eapply init_known; eauto.
    + apply Forall_forall. intros i Hi. apply in_seq in Hi. simpl in Hi.
      assert (Hi' : (i < n_scales)%nat) by lia.
      pose proof (pow2_le Hi'). lia.
  - destruct norm; simpl in E; congruence.
Qed.

Lemma loss_step_nonneg m f output target i acc l :
  loss m = Some f -> known f -> 0 <= acc ->
  loss_step m output target i acc = Return l -> 0 <= l.
Proof.
  intros Hm Hf Hacc. unfold loss_step.
  destruct (AvgPool2d (2 ^ i) output) as [o|]; cbn [torch obind]; [|discriminate].
  destruct (AvgPool2d (2 ^ i) target) as [t|]; cbn [torch obind]; [|discriminate].
  rewrite Hm. destruct (f o t) as [v|] eqn:E; cbn [torch obind]; [|discriminate].
  intros H. inversion H; subst.
  pose proof (@loss_nonneg f o t v Hf E) as Hv.
  assert (Hw : 0 < 1 / 2 ^ i).
  { apply Rdiv_lt_0_compat; [lra|]. apply pow_lt. lra. }
  nra.
Qed.

Lemma loss_step_symmetric m f output target i acc :
  loss m = Some f -> known f ->
  loss_step m output target i acc = loss_step m target output i acc.
Proof.
  intros Hm Hf. unfold loss_step.
  destruct (AvgPool2d (2 ^ i) output) as [o|e] eqn:Eo;
    destruct (AvgPool2d (2 ^ i) target) as [t|e'] eqn:Et; cbn [torch obind]; auto.
  - rewrite Hm. now rewrite (@loss_symmetric f o t Hf).
  - apply AvgPool2d_err in Eo, Et. now subst.
Qed.

Lemma loss_loop_props m f output target range : forall acc,
  loss m = Some f -> known f ->
  loss_loop m output target range acc = loss_loop m target output range acc /\
  (0 <= acc -> forall l, loss_loop m output target range acc = Return l -> 0 <= l).
Proof.
  induction range as [|i range IH]; intros acc Hm Hf.
  - split; [reflexivity|]. intros Hacc l H. simpl in H. inversion H; subst. exact Hacc.
  - cbn [loss_loop]. rewrite (@loss_step_symmetric m f output target i acc Hm Hf).
    destruct (loss_step m target output i acc) as [a|r] eqn:E; cbn [obind].
    + split; [apply IH; auto|]. intros Hacc l Hl.
      rewrite <- (@loss_step_symmetric m f output target i acc Hm Hf) in E.
      pose proof (@loss_step_nonneg m f output target i acc a Hm Hf Hacc E) as Ha.
      eapply (proj2 (IH a Hm Hf)); eauto.
    + split; [reflexivity|]. discriminate.
Qed.

(** X22: for the norms L1 and L2 the multi-scale loss is symmetric in
    its two arguments, errors included, and a loss that is returned is
    never negative. *)
Theorem MultiScaleLoss_symmetric_nonneg n_scales norm (output target : tensor R) :
  norm <> other_norm ->
  MultiScaleLoss_forward (MultiScaleLoss_init n_scales norm) output target
  = MultiScaleLoss_forward (MultiScaleLoss_init n_scales norm) target output /\
  forall l, MultiScaleLoss_forward (MultiScaleLoss_init n_scales norm) output target
            = Return l -> 0 <= l.
Proof.
  intros Hnorm. unfold MultiScaleLoss_forward.
  destruct (loss (MultiScaleLoss_init n_scales norm)) as [f|] eqn:E.
  - pose proof (@init_known n_scales norm f E) as Hf.
    destruct (@loss_loop_props _ f output target (seq 0 (scales (MultiScaleLoss_init n_scales norm)))
                0 E Hf) as [H1 H2].
    split; [exact H1|]. apply H2. lra.
  - destruct norm; simpl in E; congruence.
Qed.

(** X23: with a norm other than 'L1' and 'L2' the constructor assigns no
    loss function, and [forward] raises AttributeError at its first
    scale (on non-empty images, with at least one scale). *)
Theorem MultiScaleLoss_unknown_norm n_scales n h w n' h' w' (output target : tensor R) :
  (1 <= n_scales)%nat ->
  has_shape n h w output -> has_shape n' h' w' target ->
  (1 <= h)%nat -> (1 <= w)%nat -> (1 <= h')%nat -> (1 <= w')%nat ->
  MultiScaleLoss_forward (MultiScaleLoss_init n_scales other_norm) output target
  = Raise AttributeError.
Proof.
  intros Hs Ho Ht Hh Hw Hh' Hw'. unfold MultiScaleLoss_forward.
  destruct n_scales as [|s]; [lia|]. cbn [scales MultiScaleLoss_init seq loss_loop].
  unfold loss_step. change (2 ^ 0)%nat with 1%nat.
  destruct (@AvgPool2d_ok 1 n h w output Ho) as (o & -> & _); try lia.
  destruct (@AvgPool2d_ok 1 n' h' w' target Ht) as (t & -> & _); try lia.
  reflexivity.
Qed.

Lemma loss_ok f n h w (a b : tensor R) :
  known f -> (1 <= n)%nat -> (1 <= h)%nat -> (1 <= w)%nat ->
  has_shape n h w a -> has_shape n h w b -> exists l, f a b = Ok l.
Proof.
  intros Hf Hn Hh Hw Ha Hb.
  assert (Hm : forall d, has_shape n h w d -> exists l, mean_all d = Ok l).
  { intros d Hd. unfold mean_all. rewrite (flatten_length Hd).
    destruct (Nat.eqb_spec (n * (h * w)) 0) as [E|_]; [nia|]. eauto. }
  destruct Hf as [-> | ->]; unfold L1Loss, MSELoss.
  - destruct (@tzip_same_shape R R R (fun x y => Rabs (x - y)) (fun _ => True) n h w a b)
      as (d & -> & Hd); auto. simpl. now apply Hm.
  - destruct (@tzip_same_shape R R R (fun x y => (x - y) * (x - y)) (fun _ => True)
                n h w a b) as (d & -> & Hd); auto. simpl. now apply Hm.
Qed.

Lemma loss_loop_small m f n h w (output target : tensor R) range : forall acc,
  loss m = Some f -> known f -> (1 <= n)%nat ->
  has_shape n h w output -> has_shape n h w target ->
  Exists (fun i => (h < 2 ^ i)%nat \/ (w < 2 ^ i)%nat) range ->
  loss_loop m output target range acc = Raise (Torch ShapeError).
Proof.
  intros acc Hm Hf Hn Ho Ht Hex. revert acc.
  induction range as [|i range IH]; intros acc; [inversion Hex|].
  cbn [loss_loop]. unfold loss_step.
  destruct (Nat.le_gt_cases (2 ^ i) h) as [Hh|Hh];
    [destruct (Nat.le_gt_cases (2 ^ i) w) as [Hw|Hw]|].
  - pose proof (pow2_pos i) as Hp.
    destruct (@AvgPool2d_ok (2 ^ i) n h w output Ho) as (o & -> & Ho'); auto.
    destruct (@AvgPool2d_ok (2 ^ i) n h w target Ht) as (t & -> & Ht'); auto.
    cbn [torch obind]. rewrite Hm.
    destruct (@loss_ok f n (h / 2 ^ i) (w / 2 ^ i) o t) as (l & ->); auto;
      try (apply div_pos_le; lia).
    cbn [torch obind]. apply IH.
    inversion Hex as [? ? Hbad|? ? Hrest]; subst; [lia|exact Hrest].
  - rewrite (@AvgPool2d_small (2 ^ i) n h w output); auto.
  - rewrite (@AvgPool2d_small (2 ^ i) n h w output); auto.
Qed.

(** X24: on non-empty batches of one shape whose height or width is
    below [2 ** (scales - 1)], [forward] fails in a pooling layer: the
    default of three scales needs images of at least 4 by 4. *)
Theorem MultiScaleLoss_small_image n_scales norm n h w (output target : tensor R) :
  norm <> other_norm -> (1 <= n)%nat -> (1 <= h)%nat -> (1 <= w)%nat ->
  has_shape n h w output -> has_shape n h w target ->
  (h < 2 ^ (n_scales - 1))%nat \/ (w < 2 ^ (n_scales - 1))%nat ->
  MultiScaleLoss_forward (MultiScaleLoss_init n_scales norm) output target
  = Raise (Torch ShapeError).
Proof.
  intros Hnorm Hn Hh Hw Ho Ht Hsmall. unfold MultiScaleLoss_forward.
  destruct (loss (MultiScaleLoss_init n_scales norm)) as [f|] eqn:E.
  - apply (@loss_loop_small _ f n h w); auto.
    + eapply init_known; eauto.
    + apply Exists_exists. exists (n_scales - 1)%nat. split; [|exact Hsmall].
      apply in_seq. simpl.
      destruct n_scales as [|s]; [simpl in Hsmall; lia|lia].
  - destruct norm; simpl in E; congruence.
Qed.

Lemma has_shape_122 (a b c d : R) : has_shape 1 2 2 [[[a; b]; [c; d]]].
Proof.
  repeat (split; [reflexivity|]; repeat constructor).
Qed.

Lemma L1_known : L1 <> other_norm.
Proof. discriminate. Qed.

Lemma MultiScaleLoss_zero_on_equal_witness :
  MultiScaleLoss_forward (MultiScaleLoss_init 2 L1) [[[1; 2]; [3; 4]]] [[[1; 2]; [3; 4]]]
  = Return 0.
Proof.
  apply (@MultiScaleLoss_zero_on_equal 2 L1 1 2 2 [[[1; 2]; [3; 4]]] L1_known);
    try (simpl; lia).
  apply has_shape_122.
Defined.

Lemma MultiScaleLoss_symmetric_nonneg_witness :
  MultiScaleLoss_forward (MultiScaleLoss_init 1 L1) [[[1]]] [[[2]]]
  = MultiScaleLoss_forward (MultiScaleLoss_init 1 L1) [[[2]]] [[[1]]] /\
  forall l, MultiScaleLoss_forward (MultiScaleLoss_init 1 L1) [[[1]]] [[[2]]] = Return l ->
            0 <= l.
Proof.
  exact (@MultiScaleLoss_symmetric_nonneg 1 L1 [[[1]]] [[[2]]] L1_known).
Defined.

Lemma MultiScaleLoss_unknown_norm_witness :
  MultiScaleLoss_forward (MultiScaleLoss_init 1 other_norm) [[[1]]] [[[2]]]
  = Raise AttributeError.
Proof.
  apply (@MultiScaleLoss_unknown_norm 1 1 1 1 1 1 1 [[[1]]] [[[2]]]); try lia;
    apply has_shape_111.
Defined.

Lemma MultiScaleLoss_small_image_witness :
  MultiScaleLoss_forward (MultiScaleLoss_init 3 L1) [[[1; 2]; [3; 4]]] [[[1; 2]; [3; 4]]]
  = Raise (Torch ShapeError).
Proof.
  apply (@MultiScaleLoss_small_image 3 L1 1 2 2 _ _ L1_known); try lia;
    try apply has_shape_122.
  left. simpl. lia.
Defined.

(** ** The data set *)

(** X25: as the sources stand, no data set can be built:
    [Galaxy_Dataset.__init__] reads [self.survey], which neither the
    constructor nor [Dataset] assigns, before it opens any file, and
    raises AttributeError for every argument; so does [get_dataloader],
    which builds the data set first in both of its branches. *)
Theorem Galaxy_Dataset_cannot_be_built (L : Type) env
  (loaders_train loaders_test : odict pyval -> outcome L)
  data_path train psf_folder obs_folder gt_folder :
  Galaxy_Dataset_init env data_path train psf_folder obs_folder gt_folder
  = Raise AttributeError /\
  get_dataloader env loaders_train loaders_test data_path train
                 psf_folder obs_folder gt_folder
  = Raise AttributeError.
Proof.
  split.
  - reflexivity.
  - unfold get_dataloader. destruct train; reflexivity.
Qed.

(** ** The inversion of the discrete Fourier transform *)

Ltac calg :=
  repeat match goal with z : C |- _ => destruct z end;
  unfold Cmul, Cadd, Cscal, RtoC, C0; cbn [fst snd]; f_equal; ring.

Lemma Cmul_comm a b : Cmul a b = Cmul b a.
Proof. calg. Qed.

Lemma Cmul_assoc a b c : Cmul a (Cmul b c) = Cmul (Cmul a b) c.
Proof. calg. Qed.

Lemma Cmul_add_l a b c : Cmul a (Cadd b c) = Cadd (Cmul a b) (Cmul a c).
Proof. calg. Qed.

Lemma Cmul_add_r a b c : Cmul (Cadd a b) c = Cadd (Cmul a c) (Cmul b c).
Proof. calg. Qed.

Lemma Cmul_0_r z : Cmul z C0 = C0.
Proof. calg. Qed.

Lemma Cadd_assoc a b c : Cadd a (Cadd b c) = Cadd (Cadd a b) c.
Proof. calg. Qed.

Lemma Cadd_comm a b : Cadd a b = Cadd b a.
Proof. calg. Qed.

Lemma Csum_ext A (F G : A -> C) l :
  (forall x, In x l -> F x = G x) -> Csum (map F l) = Csum (map G l).
Proof.
  induction l as [|a l IH]; simpl; intros H; auto.
  rewrite H by auto. rewrite IH; auto.
Qed.

Lemma Csum_app l1 l2 : Csum (l1 ++ l2) = Cadd (Csum l1) (Csum l2).
Proof.
  induction l1 as [|a l1 IH]; simpl.
  - now rewrite Cadd_0_l.
  - now rewrite IH, Cadd_assoc.
Qed.

Lemma Csum_mul_l A c (F : A -> C) l :
  Csum (map (fun x => Cmul c (F x)) l) = Cmul c (Csum (map F l)).
Proof.
  induction l as [|a l IH]; simpl.
  - now rewrite Cmul_0_r.
  - now rewrite IH, Cmul_add_l.
Qed.

Lemma Csum_mul_r A c (F : A -> C) l :
  Csum (map (fun x => Cmul (F x) c) l) = Cmul (Csum (map F l)) c.
Proof.
  rewrite (Cmul_comm _ c), <- Csum_mul_l. apply Csum_ext. intros. apply Cmul_comm.
Qed.

Lemma Csum_add A (F G : A -> C) l :
  Csum (map (fun x => Cadd (F x) (G x)) l) = Cadd (Csum (map F l)) (Csum (map G l)).
Proof.
  induction l as [|a l IH]; simpl.
  - now rewrite Cadd_0_l.
  - rewrite IH. calg.
Qed.

Lemma Csum_swap A B (F : A -> B -> C) la lb :
  Csum (map (fun i => Csum (map (fun j => F i j) lb)) la)
  = Csum (map (fun j => Csum (map (fun i => F i j) la)) lb).
Proof.
  induction la as [|a la IH]; simpl.
  - symmetry. apply Csum_zero. reflexivity.
  - rewrite IH. now rewrite <- Csum_add.
Qed.

Lemma Csum_delta (a : C) i n :
  (i < n)%nat ->
  Csum (map (fun k => if (k =? i)%nat then a else C0) (seq 0 n)) = a.
Proof.
  intros Hi. assert (Hr : exists r, n = (i + S r)%nat) by (exists (n - S i)%nat; lia).
  destruct Hr as [r ->].
  rewrite seq_app, map_app, Csum_app. simpl seq. cbn [map Csum fold_right plus].
  rewrite Nat.eqb_refl.
  rewrite (@Csum_zero nat (fun k => if (k =? i)%nat then a else C0) (seq 0 i)).
  - fold (Csum (map (fun k => if (k =? i)%nat then a else C0) (seq (S i) r))).
    rewrite (@Csum_zero nat (fun k => if (k =? i)%nat then a else C0) (seq (S i) r)).
    + calg.
    + intros k Hk. apply in_seq in Hk. destruct (Nat.eqb_spec k i); [lia|reflexivity].
  - intros k Hk. apply in_seq in Hk. destruct (Nat.eqb_spec k i); [lia|reflexivity].
Qed.

Lemma cis_add a b : cis (a + b) = Cmul (cis a) (cis b).
Proof.
  unfold cis, Cmul. cbn [fst snd]. rewrite cos_plus, sin_plus. f_equal; ring.
Qed.

Lemma cis_2PI_nat k : cis (2 * PI * INR k) = (1, 0).
Proof.
  unfold cis. f_equal.
  - replace (2 * PI * INR k) with (0 + 2 * INR k * PI) by ring.
    rewrite cos_period. apply cos_0.
  - replace (2 * PI * INR k) with (0 + 2 * INR k * PI) by ring.
    rewrite sin_period. apply sin_0.
Qed.

Lemma cis_neg a : cis (- a) = Cconj (cis a).
Proof. unfold cis, Cconj. cbn [fst snd]. now rewrite cos_neg, sin_neg. Qed.

Lemma cis_2PI_diff p m : cis (2 * PI * (INR p - INR m)) = (1, 0).
Proof.
  replace (2 * PI * (INR p - INR m)) with (2 * PI * INR p + - (2 * PI * INR m)) by ring.
  rewrite cis_add, cis_neg, !cis_2PI_nat. unfold Cmul, Cconj. cbn [fst snd].
  f_equal; ring.
Qed.

(** The sum of the powers of [cis t]. *)
Lemma geometric n t :
  Cmul (Cadd (cis t) (-1, 0)) (Csum (map (fun k => cis (INR k * t)) (seq 0 n)))
  = Cadd (cis (INR n * t)) (-1, 0).
Proof.
  induction n as [|n IH].
  - simpl. rewrite Rmult_0_l, cis_0. unfold Cmul, Cadd, C0. cbn [fst snd]. f_equal; ring.
  - rewrite seq_S, map_app, Csum_app, Cmul_add_l, IH. simpl map. cbn [Csum fold_right].
    rewrite Cadd_0_r. rewrite S_INR.
    replace ((INR n + 1) * t) with (INR n * t + t) by ring.
    rewrite cis_add. simpl plus.
    generalize (cis (INR n * t)) (cis t). intros a b. calg.
Qed.

Lemma cos_lt_1 t : 0 < t < 2 * PI -> cos t < 1.
Proof.
  intros Ht. replace t with (2 * (t / 2)) by field.
  rewrite cos_2a_sin.
  assert (Hs : 0 < sin (t / 2)) by (apply sin_gt_0; lra).
  nra.
Qed.

Lemma cis_not_1 d M :
  (0 < d < M)%nat -> fst (cis (2 * PI * INR d / INR M)) < 1.
Proof.
  intros Hd. unfold cis. cbn [fst]. apply cos_lt_1.
  assert (HM : 0 < INR M) by (apply lt_0_INR; lia).
  assert (Hd0 : 0 < INR d) by (apply lt_0_INR; lia).
  assert (HdM : INR d < INR M) by (apply lt_INR; lia).
  pose proof PI_RGT_0 as Hpi. split.
  - apply Rdiv_lt_0_compat; [nra|lra].
  - apply Rmult_lt_reg_r with (r := INR M); [lra|].
    replace (2 * PI * INR d / INR M * INR M) with (2 * PI * INR d) by (field; lra).
    nra.
Qed.

Lemma zero_divisor (z g : C) :
  fst z <> 0 \/ snd z <> 0 -> Cmul z g = C0 -> g = C0.
Proof.
  destruct z as [x y], g as [g1 g2]. unfold Cmul, C0. cbn [fst snd].
  intros Hz H. injection H as H1 H2.
  assert (Hn : x * x + y * y <> 0) by (destruct Hz; nra).
  assert (E1 : (x * x + y * y) * g1 = 0).
  { replace ((x * x + y * y) * g1)
      with (x * (x * g1 - y * g2) + y * (x * g2 + y * g1)) by ring.
    rewrite H1, H2. ring. }
  assert (E2 : (x * x + y * y) * g2 = 0).
  { replace ((x * x + y * y) * g2)
      with (x * (x * g2 + y * g1) - y * (x * g1 - y * g2)) by ring.
    rewrite H1, H2. ring. }
  apply Rmult_integral in E1, E2.
  f_equal; tauto.
Qed.

Lemma geometric_zero d M t :
  (0 < d < M)%nat -> (t = 2 * PI * INR d / INR M \/ t = - (2 * PI * INR d / INR M)) ->
  Csum (map (fun k => cis (INR k * t)) (seq 0 M)) = C0.
Proof.
  intros Hd Ht.
  assert (HM : INR M <> 0) by (apply not_0_INR; lia).
  assert (H1 : cis (INR M * t) = (1, 0)).
  { destruct Ht as [-> | ->].
    - replace (INR M * (2 * PI * INR d / INR M)) with (2 * PI * INR d) by (field; exact HM).
      apply cis_2PI_nat.
    - replace (INR M * - (2 * PI * INR d / INR M)) with (- (2 * PI * INR d))
        by (field; exact HM).
      rewrite cis_neg, cis_2PI_nat. unfold Cconj. cbn [fst snd]. f_equal. ring. }
  pose proof (geometric M t) as Hg. rewrite H1 in Hg.
  apply zero_divisor with (z := Cadd (cis t) (-1, 0)).
  - left. unfold Cadd. cbn [fst].
    assert (Hc : fst (cis t) < 1).
    { destruct Ht as [-> | ->]; [now apply cis_not_1|].
      rewrite cis_neg. unfold Cconj. cbn [fst]. now apply cis_not_1. }
    lra.
  - rewrite Hg. unfold Cadd, C0. cbn [fst snd]. f_equal; ring.
Qed.

Lemma twiddle_pair k m p M :
  (1 <= M)%nat ->
  Cmul (twiddle (-1) k m M) (twiddle 1 p k M)
  = cis (INR k * (2 * PI * (INR p - INR m) / INR M)).
Proof.
  intros HM. unfold twiddle. rewrite <- cis_add. f_equal. field.
  apply not_0_INR. lia.
Qed.

Lemma orthogonal m p M :
  (m < M)%nat -> (p < M)%nat ->
  Csum (map (fun k => Cmul (twiddle (-1) k m M) (twiddle 1 p k M)) (seq 0 M))
  = if (m =? p)%nat then RtoC (INR M) else C0.
Proof.
  intros Hm Hp.
  rewrite (@Csum_ext nat _ (fun k => cis (INR k * (2 * PI * (INR p - INR m) / INR M))));
    [|intros k _; apply twiddle_pair; lia].
  destruct (Nat.eqb_spec m p) as [->|Hne].
  - rewrite (@Csum_ext nat _ (fun _ => (1, 0))).
    + clear. induction M as [|M IH]; [reflexivity|].
      rewrite S_INR, seq_S, map_app, Csum_app, IH.
      cbn [map Csum fold_right]. unfold Cadd, RtoC, C0. cbn [fst snd]. f_equal; ring.
    + intros k _. replace (INR k * (2 * PI * (INR p - INR p) / INR M)) with 0.
      * apply cis_0.
      * unfold Rdiv. ring.
  - destruct (Nat.lt_ge_cases m p) as [Hlt|Hge].
    + apply geometric_zero with (d := (p - m)%nat); [lia|]. left.
      rewrite minus_INR by lia. reflexivity.
    + apply geometric_zero with (d := (m - p)%nat); [lia|]. right.
      rewrite minus_INR by lia. unfold Rdiv. ring.
Qed.

Lemma combine_seq A (d : A) (l : list A) : forall s,
  combine (seq s (length l)) l = map (fun i => (i, nth (i - s) l d)) (seq s (length l)).
Proof.
  induction l as [|a l IH]; intros s; [reflexivity|].
  cbn [length seq combine map]. rewrite Nat.sub_diag. cbn [nth]. f_equal.
  rewrite IH. apply map_ext_in. intros i Hi. apply in_seq in Hi.
  replace (i - s)%nat with (S (i - S s)) by lia. reflexivity.
Qed.

Lemma indexed_sum A (d : A) (F : nat * A -> C) (l : list A) :
  Csum (map F (indexed l)) = Csum (map (fun i => F (i, nth i l d)) (seq 0 (length l))).
Proof.
  unfold indexed. rewrite (combine_seq d l 0), map_map.
  apply Csum_ext. intros i _. now rewrite Nat.sub_0_r.
Qed.

Lemma dft2_entry_index sgn M N (X : image C) k l :
  sized (sized (fun _ => True) N) M X ->
  dft2_entry sgn X k l
  = Csum2 M N (fun m n => Cmul (centry X m n)
                               (Cmul (twiddle sgn k m M) (twiddle sgn l n N))).
Proof.
  intros HX. pose proof HX as [HM HF]. unfold dft2_entry, Csum2.
  rewrite (indexed_sum []). rewrite HM. apply Csum_ext. intros m Hm. apply in_seq in Hm.
  cbn [fst snd].
  assert (Hr : length (nth m X []) = N).
  { apply (@sized_nth _ (sized (fun _ => True) N) M X m [] HX). lia. }
  assert (HW : width X = N).
  { destruct X as [|r0 X]; [simpl in HM; lia|].
    inversion HF as [|? ? [Hr0 _] _]. exact Hr0. }
  rewrite (indexed_sum C0), Hr, HW. reflexivity.
Qed.

Lemma centry_dft2 sgn M N (X : image C) k l :
  sized (sized (fun _ => True) N) M X -> (k < M)%nat -> (l < N)%nat ->
  centry (dft2 sgn X) k l = dft2_entry sgn X k l.
Proof.
  intros HX Hk Hl. pose proof HX as [HM HF].
  assert (HW : width X = N).
  { destruct X as [|r0 X]; [simpl in HM; lia|].
    inversion HF as [|? ? [Hr0 _] _]. exact Hr0. }
  rewrite dft2_entries, HM, HW. unfold centry.
  rewrite (@nth_map_lt _ _ (fun k => map (dft2_entry sgn X k) (seq 0 N)) (seq 0 M) k [] 0%nat)
    by (now rewrite length_seq).
  rewrite seq_nth by auto.
  rewrite (@nth_map_lt _ _ (dft2_entry sgn X (0 + k)) (seq 0 N) l C0 0%nat)
    by (now rewrite length_seq).
  now rewrite seq_nth by auto.
Qed.

Lemma four_sums (x a b : nat -> nat -> C) (a' b' : nat -> C) lk ll lm ln :
  Csum (map (fun k => Csum (map (fun l =>
     Cmul (Csum (map (fun m => Csum (map (fun n =>
              Cmul (x m n) (Cmul (a k m) (b l n))) ln)) lm))
          (Cmul (a' k) (b' l))) ll)) lk)
  = Csum (map (fun m => Csum (map (fun n =>
     Cmul (x m n)
          (Cmul (Csum (map (fun k => Cmul (a k m) (a' k)) lk))
                (Csum (map (fun l => Cmul (b l n) (b' l)) ll)))) ln)) lm).
Proof.
  set (T := fun k l m n =>
              Cmul (Cmul (x m n) (Cmul (a k m) (b l n))) (Cmul (a' k) (b' l))).
  transitivity (Csum (map (fun k => Csum (map (fun l =>
                  Csum (map (fun m => Csum (map (fun n => T k l m n) ln)) lm)) ll)) lk)).
  { apply Csum_ext. intros k _. apply Csum_ext. intros l _.
    rewrite <- Csum_mul_r. apply Csum_ext. intros m _.
    now rewrite <- Csum_mul_r. }
  transitivity (Csum (map (fun m => Csum (map (fun n =>
                  Csum (map (fun k => Csum (map (fun l => T k l m n) ll)) lk)) ln)) lm)).
  { transitivity (Csum (map (fun k => Csum (map (fun m =>
                    Csum (map (fun l => Csum (map (fun n => T k l m n) ln)) ll)) lm)) lk)).
    { apply Csum_ext. intros k _.
      apply (Csum_swap (fun l m => Csum (map (fun n => T k l m n) ln))). }
    rewrite (Csum_swap (fun k m => Csum (map (fun l => Csum (map (fun n => T k l m n) ln))
                                             ll))).
    apply Csum_ext. intros m _.
    transitivity (Csum (map (fun k => Csum (map (fun n =>
                      Csum (map (fun l => T k l m n) ll)) ln)) lk)).
    { apply Csum_ext. intros k _.
      apply (Csum_swap (fun l n => T k l m n)). }
    apply (Csum_swap (fun k n => Csum (map (fun l => T k l m n) ll))). }
  apply Csum_ext. intros m _. apply Csum_ext. intros n _.
  rewrite <- Csum_mul_r, <- Csum_mul_l. apply Csum_ext. intros k _.
  rewrite <- Csum_mul_l, <- Csum_mul_l. apply Csum_ext. intros l _.
  unfold T. generalize (x m n) (a k m) (b l n) (a' k) (b' l). intros. calg.
Qed.

Lemma dft2_round_trip_entry M N (X : image C) p q :
  sized (sized (fun _ => True) N) M X -> (p < M)%nat -> (q < N)%nat ->
  centry (dft2 1 (dft2 (-1) X)) p q = Cmul (RtoC (INR (M * N))) (centry X p q).
Proof.
  intros HX Hp Hq.
  pose proof (@sized_dft2 (fun _ => True) (-1) M N X HX) as HY.
  rewrite (centry_dft2 1 HY Hp Hq), (dft2_entry_index 1 _ _ HY). unfold Csum2.
  rewrite (@Csum_ext nat _ (fun k => Csum (map (fun l =>
             Cmul (Csum (map (fun m => Csum (map (fun n =>
                      Cmul (centry X m n)
                           (Cmul (twiddle (-1) k m M) (twiddle (-1) l n N)))
                      (seq 0 N))) (seq 0 M)))
                  (Cmul (twiddle 1 p k M) (twiddle 1 q l N))) (seq 0 N)))).
  2:{ intros k Hk. apply in_seq in Hk. apply Csum_ext. intros l Hl. apply in_seq in Hl.
      rewrite (centry_dft2 (-1) HX) by lia.
      now rewrite (dft2_entry_index (-1) _ _ HX). }
  rewrite (four_sums (centry X) (fun k m => twiddle (-1) k m M)
             (fun l n => twiddle (-1) l n N) (fun k => twiddle 1 p k M)
             (fun l => twiddle 1 q l N)).
  rewrite (@Csum_ext nat _ (fun m => if (m =? p)%nat
                                     then Cmul (RtoC (INR (M * N))) (centry X p q)
                                     else C0)).
  - now apply Csum_delta.
  - intros m Hm. apply in_seq in Hm.
    rewrite (@Csum_ext nat _ (fun n => if (n =? q)%nat
               then (if (m =? p)%nat then Cmul (RtoC (INR (M * N))) (centry X p q) else C0)
               else C0)).
    + now apply Csum_delta.
    + intros n Hn. apply in_seq in Hn.
      rewrite (orthogonal (M := M)) by lia. rewrite (orthogonal (M := N)) by lia.
      destruct (Nat.eqb_spec m p) as [->|_]; destruct (Nat.eqb_spec n q) as [->|_];
        rewrite ?Cmul_0_l, ?Cmul_0_r; auto.
      rewrite mult_INR. generalize (centry X p q). intros z. calg.
Qed.

Lemma sized_width A (P : A -> Prop) M N (X : image A) :
  sized (sized P N) M X -> (1 <= M)%nat -> width X = N.
Proof.
  intros [HM HF] H1. destruct X as [|r0 X]; [simpl in HM; lia|].
  inversion HF as [|? ? [Hr0 _] _]. exact Hr0.
Qed.

Lemma image_ext A (d : A) M N (X Y : image A) :
  sized (sized (fun _ => True) N) M X -> sized (sized (fun _ => True) N) M Y ->
  (forall i j, (i < M)%nat -> (j < N)%nat -> nth j (nth i X []) d = nth j (nth i Y []) d) ->
  X = Y.
Proof.
  intros HX HY H. pose proof HX as [HlX _]. pose proof HY as [HlY _].
  apply nth_ext with (d := []) (d' := []); [lia|].
  intros i Hi. rewrite HlX in Hi.
  assert (Hx : length (nth i X []) = N).
  { apply (@sized_nth _ (sized (fun _ => True) N) M X i [] HX Hi). }
  assert (Hy : length (nth i Y []) = N).
  { apply (@sized_nth _ (sized (fun _ => True) N) M Y i [] HY Hi). }
  apply nth_ext with (d := d) (d' := d); [lia|].
  intros j Hj. rewrite Hx in Hj. now apply H.
Qed.

Lemma ifft_fft_image M N (X : image C) :
  sized (sized (fun _ => True) N) M X ->
  map (map (Cscal (/ INR (length (dft2 (-1) X) * width (dft2 (-1) X)))))
      (dft2 1 (dft2 (-1) X)) = X.
Proof.
  intros HX.
  pose proof (@sized_dft2 (fun _ => True) (-1) M N X HX) as HY.
  pose proof (@sized_dft2 (fun _ => True) 1 M N _ HY) as HZ.
  apply (@image_ext C C0 M N); auto.
  - eapply sized_map; [|exact HZ]. intros r Hr.
    eapply sized_map; [|exact Hr]. trivial.
  - intros i j Hi Hj.
    assert (Hr : length (nth i (dft2 1 (dft2 (-1) X)) []) = N).
    { apply (@sized_nth _ (sized (fun _ => True) N) M _ i [] HZ Hi). }
    rewrite (@nth_map_lt _ _ (map (Cscal (/ INR (length (dft2 (-1) X)
                                                  * width (dft2 (-1) X)))))
               (dft2 1 (dft2 (-1) X)) i [] []) by (destruct HZ; lia).
    rewrite (@nth_map_lt _ _ (Cscal (/ INR (length (dft2 (-1) X) * width (dft2 (-1) X))))
               (nth i (dft2 1 (dft2 (-1) X)) []) j C0 C0) by lia.
    fold (centry (dft2 1 (dft2 (-1) X)) i j). fold (centry X i j).
    rewrite (dft2_round_trip_entry HX Hi Hj).
    rewrite (proj1 HY), (sized_width HY) by lia.
    assert (Hne : INR (M * N) <> 0) by (apply not_0_INR; nia).
    generalize (centry X i j). intros [a b]. unfold Cscal, Cmul, RtoC. cbn [fst snd].
    f_equal; field; exact Hne.
Qed.

Lemma ifft2_fft2 n h w (T : tensor C) :
  has_shape n h w T -> ifft2 (fft2 T) = T.
Proof.
  intros [_ HT]. unfold ifft2, fft2. rewrite map_map.
  rewrite <- (map_id T) at 2.
  apply map_ext_Forall with (P := sized (sized (fun _ => True) w) h); auto.
  intros X HX. now apply ifft_fft_image with (M := h) (N := w).
Qed.


(** X26: [ifftn] undoes [fftn]: the inverse transform of the transform
    of a batch is the batch, for every height and width (the discrete
    Fourier inversion, with the normalisation by 1/(H*W) on the inverse
    side). *)
Theorem ifftn_undoes_fftn n h w (x : tensor C) :
  has_shape n h w x -> ifftn (fftn x) = x.
Proof.
  apply ifft2_fft2.
Qed.

Lemma real_complex (x : tensor R) : real (complex x) = x.
Proof.
  unfold real, complex. rewrite tmap_tmap. unfold tmap.
  rewrite <- (map_id x) at 2. apply map_ext. intros X.
  rewrite <- (map_id X) at 2. apply map_ext. intros r.
  rewrite <- (map_id r) at 2. apply map_ext. reflexivity.
Qed.

(** X27: convolution by a transfer function that is 1 at every
    frequency changes nothing: [conv_fft_batch(H, x)] returns the real
    batch [x]. *)
Theorem conv_fft_batch_unit_transfer n h w (H : tensor C) (x : tensor R) :
  has_shape n h w x -> shaped (fun c => c = (1, 0)) n h w H ->
  conv_fft_batch H x = Ok x.
Proof.
  intros Hx HH. unfold conv_fft_batch, cmul, fftn, ifftn.
  assert (Hc : has_shape n h w (complex x)).
  { eapply shaped_tmap; [|exact Hx]. trivial. }
  rewrite (@tzip_right_unit C C Cmul (fun c => c = (1, 0)) n h w (fft2 (complex x)) H);
    auto.
  - simpl. now rewrite (ifft2_fft2 Hc), real_complex.
  - intros [a b] c ->. unfold Cmul. cbn [fst snd]. f_equal; ring.
  - now apply shaped_fft2 with (P := fun _ => True).
Qed.

Lemma ones_122 : shaped (fun c : C => c = (1, 0)) 1 2 2 [[[(1, 0); (1, 0)]; [(1, 0); (1, 0)]]].
Proof.
  repeat (split; [reflexivity|]; repeat constructor).
Qed.

Lemma ifftn_undoes_fftn_witness :
  ifftn (fftn [[[(1, 0); (2, 0)]; [(3, 0); (4, 0)]]]) = [[[(1, 0); (2, 0)]; [(3, 0); (4, 0)]]].
Proof.
  apply (@ifftn_undoes_fftn 1 2 2).
  repeat (split; [reflexivity|]; repeat constructor).
Defined.

Lemma conv_fft_batch_unit_transfer_witness :
  conv_fft_batch [[[(1, 0); (1, 0)]; [(1, 0); (1, 0)]]] [[[1; 2]; [3; 4]]]
  = Ok [[[1; 2]; [3; 4]]].
Proof.
  apply (@conv_fft_batch_unit_transfer 1 2 2).
  - apply has_shape_122.
  - apply ones_122.
Defined.


(** ** The solve for a kernel with a flat spectrum *)

Lemma mapM_pure A B (g : A -> B) (l : list A) :
  mapM (fun a => Ok (g a)) l = Ok (map g l).
Proof. induction l as [|a l IH]; simpl; [|rewrite IH]; reflexivity. Qed.

Lemma bzip_single A B D (f : A -> B -> res D) a lb :
  bzip f [a] lb = mapM (f a) lb.
Proof.
  unfold bzip. destruct lb as [|b [|b' lb]]; reflexivity.
Qed.

Lemma bzip_scalar_row A B D (f : A -> B -> D) r (X : image B) :
  bzip (bzip (lift2 f)) [[r]] X = Ok (map (map (f r)) X).
Proof.
  rewrite bzip_single.
  rewrite (mapM_ext _ (fun row => Ok (map (f r) row))).
  - apply mapM_pure.
  - intros row. rewrite bzip_single. apply mapM_pure.
Qed.

Lemma mapM2_combine A B D (f : A -> B -> res D) (g : A * B -> D) : forall la lb,
  (forall a b, In (a, b) (combine la lb) -> f a b = Ok (g (a, b))) ->
  mapM2 f la lb = Ok (map g (combine la lb)).
Proof.
  induction la as [|a la IH]; intros [|b lb] H; try reflexivity.
  simpl. rewrite H by (now left). simpl. rewrite IH; [reflexivity|].
  intros a' b' Hin. apply H. now right.
Qed.

Lemma map_combine_repeat A B D (g : A -> B -> D) (r : A) (l : list B) :
  map (fun p => g (fst p) (snd p)) (combine (repeat r (length l)) l) = map (g r) l.
Proof.
  induction l as [|b l IH]; simpl; [|rewrite IH]; reflexivity.
Qed.

Lemma combine_map_left A A' B (f : A -> A') (la : list A) (lb : list B) :
  combine (map f la) lb = map (fun p => (f (fst p), snd p)) (combine la lb).
Proof.
  revert lb. induction la as [|a la IH]; intros [|b lb]; simpl; [| | |rewrite IH];
    reflexivity.
Qed.

Lemma combine_map_right A B B' (f : B -> B') (la : list A) (lb : list B) :
  combine la (map f lb) = map (fun p => (fst p, f (snd p))) (combine la lb).
Proof.
  revert lb. induction la as [|a la IH]; intros [|b lb]; simpl; [| | |rewrite IH];
    reflexivity.
Qed.

Lemma tzip_scalars A D (f : R -> A -> D) (P : R -> Prop) n nr H W
  (rho : tensor R) (T : tensor A) :
  nr = n \/ nr = 1%nat -> shaped P nr 1 1 rho -> has_shape n H W T ->
  tzip (lift2 f) rho T
  = Ok (map (fun p => map (map (f (fst p))) (snd p)) (combine (weights_of n rho) T)).
Proof.
  intros Hnr [Hlr HFr] [HlT _]. unfold tzip, weights_of.
  assert (Hform : Forall (fun X => X = [[nth 0 (nth 0 X []) 0]]) rho).
  { eapply Forall_impl; [|exact HFr]. intros X [HX HFX].
    destruct X as [|r0 [|r1 X]]; try discriminate.
    inversion HFX as [|? ? [Hr0 _] _]. destruct r0 as [|v [|v' r0]]; try discriminate.
    reflexivity. }
  unfold tensor, image in *. rewrite Hlr. destruct (Nat.eqb_spec nr n) as [->|Hne].
  - unfold bzip at 1. rewrite Hlr, HlT, Nat.eqb_refl.
    rewrite (@mapM2_combine _ _ _ _
               (fun p => map (map (f (nth 0 (nth 0 (fst p) []) 0))) (snd p))).
    + f_equal. rewrite combine_map_left, map_map. reflexivity.
    + intros X Y Hin. apply in_combine_l in Hin. rewrite Forall_forall in Hform.
      rewrite (Hform X Hin) at 1. apply bzip_scalar_row.
  - destruct Hnr as [->| ->]; [contradiction|].
    destruct rho as [|X [|X' rho]]; try discriminate.
    inversion Hform as [|? ? HX _]. rewrite HX at 1. rewrite bzip_single.
    rewrite (mapM_ext _ (fun Y => Ok (map (map (f (nth 0 (nth 0 X []) 0))) Y)))
      by (intros Y; apply bzip_scalar_row).
    rewrite mapM_pure. f_equal. cbn [hd]. rewrite <- HlT.
    symmetry. apply (map_combine_repeat (fun r Y => map (map (f r)) Y)).
Qed.

Lemma weights_of_sized (P : R -> Prop) n nr (rho : tensor R) :
  nr = n \/ nr = 1%nat -> shaped P nr 1 1 rho -> sized P n (weights_of n rho).
Proof.
  intros Hnr [Hlr HFr]. unfold weights_of.
  assert (HP : Forall (fun X => P (nth 0 (nth 0 X []) 0)) rho).
  { eapply Forall_impl; [|exact HFr]. intros X [HX HFX].
    destruct X as [|r0 [|r1 X]]; try discriminate.
    inversion HFX as [|? ? [Hr0 Hv] _]. destruct r0 as [|v [|v' r0]]; try discriminate.
    inversion Hv. assumption. }
  unfold tensor, image in *. rewrite Hlr. destruct (Nat.eqb_spec nr n) as [->|Hne].
  - split; [now rewrite length_map|]. now apply Forall_map.
  - destruct Hnr as [->| ->]; [contradiction|]. apply sized_repeat.
    destruct rho as [|X rho]; [discriminate|]. now inversion HP.
Qed.

Lemma bzip_pointwise A B D (f : A -> B -> res D) da db dc n la lb lc :
  length la = n -> length lb = n -> length lc = n ->
  (forall i, (i < n)%nat -> f (nth i la da) (nth i lb db) = Ok (nth i lc dc)) ->
  bzip f la lb = Ok lc.
Proof.
  intros Ha Hb Hc H. unfold bzip. rewrite Ha, Hb, Nat.eqb_refl.
  revert n lb lc Ha Hb Hc H.
  induction la as [|a la IH]; intros n [|b lb] [|c lc] Ha Hb Hc H;
    simpl in *; try lia; try reflexivity.
  rewrite (H 0%nat) by lia. simpl.
  rewrite (IH (length la) lb lc); auto; try lia.
  intros i Hi. apply (H (S i)). lia.
Qed.

Lemma tzip_pointwise A B D (f : A -> B -> res D) da db dc n h w
  (Ta : tensor A) (Tb : tensor B) (Tc : tensor D) :
  has_shape n h w Ta -> has_shape n h w Tb -> has_shape n h w Tc ->
  (forall b i j, (b < n)%nat -> (i < h)%nat -> (j < w)%nat ->
     f (nth3 da Ta b i j) (nth3 db Tb b i j) = Ok (nth3 dc Tc b i j)) ->
  tzip f Ta Tb = Ok Tc.
Proof.
  intros Ha Hb Hc H. unfold tzip.
  apply (@bzip_pointwise _ _ _ _ [] [] [] n); try (destruct Ha, Hb, Hc; assumption).
  intros b Hb'.
  pose proof (@sized_nth _ _ n Ta b [] Ha Hb') as Ha1.
  pose proof (@sized_nth _ _ n Tb b [] Hb Hb') as Hb1.
  pose proof (@sized_nth _ _ n Tc b [] Hc Hb') as Hc1.
  apply (@bzip_pointwise _ _ _ _ [] [] [] h); try (destruct Ha1, Hb1, Hc1; assumption).
  intros i Hi.
  pose proof (@sized_nth _ _ h _ i [] Ha1 Hi) as Ha2.
  pose proof (@sized_nth _ _ h _ i [] Hb1 Hi) as Hb2.
  pose proof (@sized_nth _ _ h _ i [] Hc1 Hi) as Hc2.
  apply (@bzip_pointwise _ _ _ _ da db dc w); try (destruct Ha2, Hb2, Hc2; assumption).
  intros j Hj. now apply H.
Qed.

Lemma tensor_ext A (d : A) n h w (T1 T2 : tensor A) :
  has_shape n h w T1 -> has_shape n h w T2 ->
  (forall b i j, (b < n)%nat -> (i < h)%nat -> (j < w)%nat ->
     nth3 d T1 b i j = nth3 d T2 b i j) ->
  T1 = T2.
Proof.
  intros H1 H2 H. pose proof H1 as [Hl1 _]. pose proof H2 as [Hl2 _].
  apply nth_ext with (d := []) (d' := []);
    [transitivity n; [exact Hl1 | symmetry; exact Hl2]|].
  intros b Hb. replace (length T1) with n in Hb by (symmetry; exact Hl1).
  apply (@image_ext A d h w).
  - apply (@sized_nth _ _ n T1 b [] H1 Hb).
  - apply (@sized_nth _ _ n T2 b [] H2 Hb).
  - intros i j Hi Hj. now apply H.
Qed.

Lemma nth3_tmap A B (f : A -> B) d (T : tensor A) b i j :
  nth3 (f d) (tmap f T) b i j = f (nth3 d T b i j).
Proof.
  unfold nth3, tmap, tensor, image in *.
  assert (E1 : nth b (map (map (map f)) T) [] = map (map f) (nth b T []))
    by (apply (map_nth (map (map f)) T [] b)).
  assert (E2 : nth i (map (map f) (nth b T [])) [] = map f (nth i (nth b T []) []))
    by (apply (map_nth (map f) (nth b T []) [] i)).
  rewrite E1, E2. apply map_nth.
Qed.

Lemma nth3_const A (k d : A) n h w (T : tensor A) b i j :
  shaped (fun v => v = k) n h w T -> (b < n)%nat -> (i < h)%nat -> (j < w)%nat ->
  nth3 d T b i j = k.
Proof.
  intros HT Hb Hi Hj. unfold nth3.
  pose proof (@sized_nth _ _ n T b [] HT Hb) as H1.
  pose proof (@sized_nth _ _ h _ i [] H1 Hi) as H2.
  apply (@sized_nth _ (fun v => v = k) w _ j d H2 Hj).
Qed.

Lemma nth3_weighted A D (g : R -> A -> D) (d : A) (dd : D) n h w rs (T : tensor A) b i j :
  length rs = n -> has_shape n h w T -> (b < n)%nat -> (i < h)%nat -> (j < w)%nat ->
  nth3 dd (map (fun p => map (map (g (fst p))) (snd p)) (combine rs T)) b i j
  = g (nth b rs 0) (nth3 d T b i j).
Proof.
  intros Hrs HT Hb Hi Hj. unfold nth3, tensor, image in *. pose proof HT as [HlT _].
  rewrite (@nth_map_lt _ _ (fun p => map (map (g (fst p))) (snd p)) (combine rs T) b []
             (0, [])) by (rewrite length_combine; lia).
  rewrite combine_nth by lia. cbn [fst snd].
  pose proof (@sized_nth _ _ n T b [] HT Hb) as H1.
  rewrite (@nth_map_lt _ _ (map (g (nth b rs 0))) (nth b T []) i [] [])
    by (destruct H1; lia).
  pose proof (@sized_nth _ _ h _ i [] H1 Hi) as H2.
  rewrite (@nth_map_lt _ _ (g (nth b rs 0)) (nth i (nth b T []) []) j dd d)
    by (destruct H2; lia).
  reflexivity.
Qed.

Lemma weighted_shape A D (g : R -> A -> D) n h w rs (T : tensor A) :
  length rs = n -> has_shape n h w T ->
  has_shape n h w (map (fun p => map (map (g (fst p))) (snd p)) (combine rs T)).
Proof.
  intros Hrs [HlT HT]. unfold tensor, image in *.
  split; [rewrite length_map, length_combine; lia|].
  apply Forall_map, Forall_forall. intros [r X] Hin. cbn [fst snd].
  apply in_combine_r in Hin. rewrite Forall_forall in HT.
  eapply sized_map; [|exact (HT X Hin)]. intros row Hrow.
  eapply sized_map; [|exact Hrow]. trivial.
Qed.

Lemma zip3_shape A B n h w (Ta : tensor A) (Tb : tensor B) :
  has_shape n h w Ta -> has_shape n h w Tb -> has_shape n h w (zip3 Ta Tb).
Proof.
  intros [Hla HFa] [Hlb HFb]. unfold zip3, tensor, image in *.
  split; [rewrite length_map, length_combine; lia|].
  apply Forall_map, Forall_forall. intros [X Y] Hin. cbn [fst snd].
  rewrite Forall_forall in HFa, HFb.
  destruct (HFa X (in_combine_l _ _ _ _ Hin)) as [HlX HFX].
  destruct (HFb Y (in_combine_r _ _ _ _ Hin)) as [HlY HFY].
  split; [rewrite length_map, length_combine; lia|].
  apply Forall_map, Forall_forall. intros [r s] Hin'. cbn [fst snd].
  rewrite Forall_forall in HFX, HFY.
  destruct (HFX r (in_combine_l _ _ _ _ Hin')) as [Hlr _].
  destruct (HFY s (in_combine_r _ _ _ _ Hin')) as [Hls _].
  split; [rewrite length_combine; lia|]. apply Forall_forall. trivial.
Qed.

Lemma nth3_zip3 A B (da : A) (db : B) n h w (Ta : tensor A) (Tb : tensor B) b i j :
  has_shape n h w Ta -> has_shape n h w Tb ->
  (b < n)%nat -> (i < h)%nat -> (j < w)%nat ->
  nth3 (da, db) (zip3 Ta Tb) b i j = (nth3 da Ta b i j, nth3 db Tb b i j).
Proof.
  intros Ha Hb Hb' Hi Hj. unfold nth3, zip3, tensor, image in *.
  pose proof Ha as [Hla _]. pose proof Hb as [Hlb _].
  rewrite (@nth_map_lt _ _ (fun p => map (fun q => combine (fst q) (snd q))
                                        (combine (fst p) (snd p)))
             (combine Ta Tb) b [] ([], [])) by (rewrite length_combine; lia).
  rewrite combine_nth by lia. cbn [fst snd].
  pose proof (@sized_nth _ _ n Ta b [] Ha Hb') as HA1.
  pose proof (@sized_nth _ _ n Tb b [] Hb Hb') as HB1.
  pose proof HA1 as [Ha1 _]. pose proof HB1 as [Hb1 _].
  rewrite (@nth_map_lt _ _ (fun q => combine (fst q) (snd q))
             (combine (nth b Ta []) (nth b Tb [])) i [] ([], []))
    by (rewrite length_combine; lia).
  rewrite (combine_nth (nth b Ta []) (nth b Tb []) i [] []) by lia. cbn [fst snd].
  apply combine_nth.
  pose proof (@sized_nth _ _ h _ i [] HA1 Hi) as [Ha2 _].
  pose proof (@sized_nth _ _ h _ i [] HB1 Hi) as [Hb2 _].
  lia.
Qed.


Lemma zip3_fst A B (da : A) (db : B) n h w (Ta : tensor A) (Tb : tensor B) :
  has_shape n h w Ta -> has_shape n h w Tb -> tmap fst (zip3 Ta Tb) = Ta.
Proof.
  intros Ha Hb. apply (@tensor_ext A da n h w); auto.
  - eapply shaped_tmap; [|apply (zip3_shape Ha Hb)]. trivial.
  - intros b i j Hb' Hi Hj.
    transitivity (fst (nth3 (da, db) (zip3 Ta Tb) b i j));
      [apply (@nth3_tmap _ _ fst (da, db))|].
    now rewrite (nth3_zip3 da db Ha Hb Hb' Hi Hj).
Qed.

Lemma zip3_snd A B (da : A) (db : B) n h w (Ta : tensor A) (Tb : tensor B) :
  has_shape n h w Ta -> has_shape n h w Tb -> tmap snd (zip3 Ta Tb) = Tb.
Proof.
  intros Ha Hb. apply (@tensor_ext B db n h w); auto.
  - eapply shaped_tmap; [|apply (zip3_shape Ha Hb)]. trivial.
  - intros b i j Hb' Hi Hj.
    transitivity (snd (nth3 (da, db) (zip3 Ta Tb) b i j));
      [apply (@nth3_tmap _ _ snd (da, db))|].
    now rewrite (nth3_zip3 da db Ha Hb Hb' Hi Hj).
Qed.

Lemma tzip_zip3 A B D (f : A -> B -> D) (da : A) (db : B) n h w
  (Ta : tensor A) (Tb : tensor B) :
  has_shape n h w Ta -> has_shape n h w Tb ->
  tzip (lift2 f) Ta Tb = Ok (tmap (fun p => f (fst p) (snd p)) (zip3 Ta Tb)).
Proof.
  intros Ha Hb.
  apply (@tzip_pointwise _ _ _ _ da db (f da db) n h w); auto.
  - eapply shaped_tmap; [|apply (zip3_shape Ha Hb)]. trivial.
  - intros b i j Hb' Hi Hj. unfold lift2. f_equal.
    transitivity ((fun p => f (fst p) (snd p)) (nth3 (da, db) (zip3 Ta Tb) b i j));
      [|symmetry; apply (@nth3_tmap _ _ (fun p => f (fst p) (snd p)) (da, db))].
    now rewrite (nth3_zip3 da db Ha Hb Hb' Hi Hj).
Qed.

Lemma map_pad_list A B (f : A -> B) z a b l :
  map f (pad_list z a b l) = pad_list (f z) a b (map f l).
Proof.
  unfold pad_list. now rewrite !map_app, !map_repeat.
Qed.

Lemma width_map A B (f : A -> B) (X : image A) : width (map (map f) X) = width X.
Proof. destruct X; [reflexivity|]. unfold width. simpl. apply length_map. Qed.

Lemma tmap_pad_double A B (f : A -> B) z (T : tensor A) :
  tmap f (pad_double z T) = pad_double (f z) (tmap f T).
Proof.
  unfold tmap, pad_double. rewrite !map_map. apply map_ext. intros X.
  unfold pad_double2d. rewrite map_pad_list, width_map, length_map, map_repeat.
  f_equal. rewrite !map_map. apply map_ext. intros r. apply map_pad_list.
Qed.

Lemma map_ifftshift1 A B (f : A -> B) (l : list A) :
  map f (ifftshift1 l) = ifftshift1 (map f l).
Proof. unfold ifftshift1. now rewrite map_roll_left, length_map. Qed.

Lemma tmap_ifftshift A B (f : A -> B) (T : tensor A) :
  tmap f (ifftshift T) = ifftshift (tmap f T).
Proof.
  unfold tmap, ifftshift. rewrite !map_map. apply map_ext. intros X.
  rewrite map_ifftshift1. f_equal. rewrite !map_map. apply map_ext. intros r.
  apply map_ifftshift1.
Qed.

Lemma map_crop_list A B (f : A -> B) (l : list A) :
  map f (crop_list l) = crop_list (map f l).
Proof. unfold crop_list. now rewrite length_map, skipn_map, firstn_map. Qed.

Lemma tmap_crop_half A B (f : A -> B) (T : tensor A) :
  tmap f (crop_half T) = crop_half (tmap f T).
Proof.
  unfold tmap, crop_half. rewrite !map_map. apply map_ext. intros X.
  unfold crop_half2d. rewrite <- (map_crop_list (map f) X), !map_map.
  apply map_ext. intros r. apply map_crop_list.
Qed.

Lemma wmap_natural A A' D D' (g : R -> A -> D) (g' : R -> A' -> D')
  (op1 : image A -> image A') (op2 : image D -> image D') rs (T : tensor A) :
  (forall r X, In X T -> op2 (map (map (g r)) X) = map (map (g' r)) (op1 X)) ->
  map op2 (wmap g rs T) = wmap g' rs (map op1 T).
Proof.
  intros H. unfold wmap. rewrite combine_map_right, !map_map.
  apply map_ext_in. intros [r X] Hin. cbn [fst snd]. apply H.
  eapply in_combine_r; eauto.
Qed.

Lemma tmap_wmap A D E (f : D -> E) (g : R -> A -> D) rs (T : tensor A) :
  tmap f (wmap g rs T) = wmap (fun r a => f (g r a)) rs T.
Proof.
  unfold tmap, wmap. rewrite map_map. apply map_ext. intros [r X]. cbn [fst snd].
  rewrite map_map. apply map_ext. intros row. now rewrite map_map.
Qed.

Lemma wmap_tmap A B D (g : R -> B -> D) (f : A -> B) rs (T : tensor A) :
  wmap g rs (tmap f T) = wmap (fun r a => g r (f a)) rs T.
Proof.
  unfold tmap, wmap. rewrite combine_map_right, map_map.
  apply map_ext. intros [r X]. cbn [fst snd].
  rewrite map_map. apply map_ext. intros row. now rewrite map_map.
Qed.

Lemma wmap_ext A D (g g' : R -> A -> D) rs (T : tensor A) :
  (forall r a, g r a = g' r a) -> wmap g rs T = wmap g' rs T.
Proof.
  intros H. unfold wmap. apply map_ext. intros [r X]. cbn [fst snd].
  apply map_ext. intros row. apply map_ext. intros a. apply H.
Qed.

Lemma map_map_map A B D (f : A -> B) (g : B -> D) (X : image A) :
  map (map g) (map (map f) X) = map (map (fun a => g (f a))) X.
Proof. rewrite map_map. apply map_ext. intros r. apply map_map. Qed.

(** Linearity of the transform in its input. *)
Lemma centry_map A (f : A -> C) (d : A) M N (X : image A) m n :
  sized (sized (fun _ => True) N) M X -> (m < M)%nat -> (n < N)%nat ->
  centry (map (map f) X) m n = f (nth n (nth m X []) d).
Proof.
  intros HX Hm Hn. unfold centry.
  rewrite (@nth_map_lt _ _ (map f) X m [] []) by (destruct HX; lia).
  pose proof (@sized_nth _ _ M X m [] HX Hm) as [Hr _].
  now rewrite (@nth_map_lt _ _ f (nth m X []) n C0 d) by lia.
Qed.

Lemma Csum2_ext M N (F G : nat -> nat -> C) :
  (forall m n, (m < M)%nat -> (n < N)%nat -> F m n = G m n) -> Csum2 M N F = Csum2 M N G.
Proof.
  intros H. unfold Csum2. apply Csum_ext. intros m Hm. apply in_seq in Hm.
  apply Csum_ext. intros n Hn. apply in_seq in Hn. apply H; lia.
Qed.

Lemma Csum2_linear M N (k : C) (F G : nat -> nat -> C) :
  Cadd (Cmul k (Csum2 M N F)) (Csum2 M N G)
  = Csum2 M N (fun m n => Cadd (Cmul k (F m n)) (G m n)).
Proof.
  unfold Csum2. rewrite <- Csum_mul_l, <- Csum_add. apply Csum_ext. intros m _.
  now rewrite <- Csum_mul_l, <- Csum_add.
Qed.

Lemma dft2_linear A (g1 g2 g : A -> C) (k : C) sgn M N (W : image A) i j :
  (forall a, Cadd (Cmul k (g1 a)) (g2 a) = g a) ->
  sized (sized (fun _ => True) N) M W -> (i < M)%nat -> (j < N)%nat ->
  Cadd (Cmul k (centry (dft2 sgn (map (map g1) W)) i j))
       (centry (dft2 sgn (map (map g2) W)) i j)
  = centry (dft2 sgn (map (map g) W)) i j.
Proof.
  intros Hg HW Hi Hj.
  assert (Hs : forall f : A -> C, sized (sized (fun _ => True) N) M (map (map f) W)).
  { intros f. eapply sized_map; [|exact HW]. intros r Hr.
    eapply sized_map; [|exact Hr]. trivial. }
  rewrite !(centry_dft2 sgn (Hs _) Hi Hj), !(dft2_entry_index sgn _ _ (Hs _)).
  rewrite Csum2_linear. apply Csum2_ext. intros m n Hm Hn.
  destruct M as [|M']; [lia|]. destruct W as [|r0 W]; [destruct HW; discriminate|].
  destruct N as [|N']; [lia|].
  assert (Hd : exists d : A, True).
  { destruct HW as [_ HF]. inversion HF as [|? ? [Hr0 _] _].
    destruct r0 as [|d r0]; [discriminate|]. now exists d. }
  destruct Hd as [d _].
  rewrite !(centry_map _ d HW Hm Hn). rewrite <- Hg.
  generalize (twiddle sgn i m (S M')) (twiddle sgn j n (S N')).
  generalize (g1 (nth n (nth m (r0 :: W) []) d)) (g2 (nth n (nth m (r0 :: W) []) d)).
  intros. calg.
Qed.

Lemma dft2_scal s sgn M N (X : image C) :
  sized (sized (fun _ => True) N) M X ->
  dft2 sgn (map (map (Cscal s)) X) = map (map (Cscal s)) (dft2 sgn X).
Proof.
  intros HX.
  assert (Hs : sized (sized (fun _ => True) N) M (map (map (Cscal s)) X)).
  { eapply sized_map; [|exact HX]. intros r Hr. eapply sized_map; [|exact Hr]. trivial. }
  apply (@image_ext C C0 M N).
  - now apply sized_dft2 with (P := fun _ => True).
  - eapply sized_map; [|apply (@sized_dft2 (fun _ => True) sgn M N X HX)].
    intros r Hr. eapply sized_map; [|exact Hr]. trivial.
  - intros i j Hi Hj.
    fold (centry (dft2 sgn (map (map (Cscal s)) X)) i j).
    fold (centry (map (map (Cscal s)) (dft2 sgn X)) i j).
    rewrite (centry_map (Cscal s) C0 (@sized_dft2 (fun _ => True) sgn M N X HX) Hi Hj).
    fold (centry (dft2 sgn X) i j).
    rewrite (centry_dft2 sgn Hs Hi Hj), (centry_dft2 sgn HX Hi Hj).
    rewrite (dft2_entry_index sgn _ _ Hs), (dft2_entry_index sgn _ _ HX).
    unfold Csum2.
    transitivity (Cmul (RtoC s) (Csum (map (fun m => Csum (map (fun n =>
                    Cmul (centry X m n) (Cmul (twiddle sgn i m M) (twiddle sgn j n N)))
                    (seq 0 N))) (seq 0 M)))).
    + rewrite <- Csum_mul_l. apply Csum_ext. intros m Hm. apply in_seq in Hm.
      rewrite <- Csum_mul_l. apply Csum_ext. intros n Hn. apply in_seq in Hn.
      rewrite (centry_map (Cscal s) C0 HX) by lia. fold (centry X m n).
      generalize (centry X m n) (twiddle sgn i m M) (twiddle sgn j n N). intros. calg.
    + generalize (Csum (map (fun m => Csum (map (fun n =>
                    Cmul (centry X m n) (Cmul (twiddle sgn i m M) (twiddle sgn j n N)))
                    (seq 0 N))) (seq 0 M))). intros z. calg.
Qed.

Lemma sized_rect A (P : A -> Prop) M N (X : image A) :
  sized (sized P N) M X -> rect X.
Proof.
  intros [Hl HF]. unfold rect, width. destruct X as [|r0 X]; [constructor|].
  cbn [hd]. inversion HF as [|? ? [Hr0 _] _]. subst.
  eapply Forall_impl; [|exact HF]. intros r [Hr _]. cbn beta. congruence.
Qed.

Lemma crop_pad_tensor A (P : A -> Prop) (z : A) n h w (T : tensor A) :
  shaped P n h w T -> crop_half (pad_double z T) = T.
Proof.
  intros [_ HT]. unfold crop_half, pad_double. rewrite map_map.
  rewrite <- (map_id T) at 2. apply map_ext_in. intros X HX.
  rewrite Forall_forall in HT. apply crop_pad_2d. eapply sized_rect. apply HT, HX.
Qed.

Lemma fftshift_wmap A D (g : R -> A -> D) rs (T : tensor A) :
  fftshift (wmap g rs T) = wmap g rs (fftshift T).
Proof.
  unfold fftshift. apply wmap_natural. intros r X _.
  rewrite map_fftshift1. f_equal. rewrite !map_map. apply map_ext. intros row.
  symmetry. apply map_fftshift1.
Qed.

Lemma crop_half_wmap A D (g : R -> A -> D) rs (T : tensor A) :
  crop_half (wmap g rs T) = wmap g rs (crop_half T).
Proof.
  unfold crop_half. apply wmap_natural. intros r X _.
  unfold crop_half2d. rewrite <- (map_crop_list (map (g r)) X), !map_map.
  apply map_ext. intros row. symmetry. apply map_crop_list.
Qed.

Lemma ifft2_wmap (s : R -> R) n M N rs (T : tensor C) :
  has_shape n M N T ->
  ifft2 (wmap (fun r => Cscal (s r)) rs T) = wmap (fun r => Cscal (s r)) rs (ifft2 T).
Proof.
  intros [_ HT]. unfold ifft2. apply wmap_natural. intros r X HX.
  rewrite Forall_forall in HT. specialize (HT X HX).
  rewrite length_map, width_map, (dft2_scal (s r) 1 HT), !map_map_map.
  apply map_ext. intros row. apply map_ext. intros [a b].
  unfold Cscal. cbn [fst snd]. f_equal; ring.
Qed.

Lemma nth3_fft2_tmap A (g : A -> C) n M N (W : tensor A) b i j :
  has_shape n M N W -> (b < n)%nat ->
  nth3 C0 (fft2 (tmap g W)) b i j = centry (dft2 (-1) (map (map g) (nth b W []))) i j.
Proof.
  intros [Hl _] Hb. unfold nth3, fft2, tmap, centry. unfold tensor, image in *.
  rewrite map_map.
  rewrite nth_map_lt with (d' := @nil (list A)) by lia.
  reflexivity.
Qed.

Lemma has_shape_tmap A B (f : A -> B) n h w (T : tensor A) :
  has_shape n h w T -> has_shape n h w (tmap f T).
Proof. apply shaped_tmap. trivial. Qed.

Lemma has_shape_fft2 n h w (T : tensor C) :
  has_shape n h w T -> has_shape n h w (fft2 T).
Proof. apply shaped_fft2. Qed.

Lemma has_shape_of A (P : A -> Prop) n h w (T : tensor A) :
  shaped P n h w T -> has_shape n h w T.
Proof. apply shaped_impl. trivial. Qed.

Lemma spectrum_of_part (g : R * R -> R) (V : tensor (R * R)) :
  g (0, 0) = 0 ->
  fft2 (complex (ifftshift (pad_double 0 (tmap g V))))
  = fft2 (tmap (fun a => RtoC (g a)) (ifftshift (pad_double (0, 0) V))).
Proof.
  intros Hg. unfold complex.
  rewrite !tmap_ifftshift, !tmap_pad_double, tmap_tmap. cbn beta. now rewrite Hg.
Qed.

(** X28: for a kernel whose transfer function is the same real number
    [c] at every frequency ([Ht] is [c] and [HtH] is [c * c] everywhere),
    the closed-form solve works entry by entry: with [Y] the spectrum of
    the shifted, padded observation [y], it returns
    [(c * y + (rho * z - u)) / (rho + c * c)] at every pixel, [rho]
    holding one positive weight per element or one for the batch.  The
    transforms, shifts, padding and crop cancel out for every batch size,
    height and width. *)
Theorem X_Update_flat_kernel n h w nr c (y z u rho : tensor R) (Ht : tensor C)
  (HtH : tensor R) :
  has_shape n h w y -> has_shape n h w z -> has_shape n h w u ->
  shaped (fun v => v = (c, 0)) n (2 * h) (2 * w) Ht ->
  shaped (fun v => v = c * c) n (2 * h) (2 * w) HtH ->
  nr = n \/ nr = 1%nat -> shaped (fun r => 0 < r) nr 1 1 rho ->
  X_Update_Gaussian (fft2 (complex (ifftshift (pad_double 0 y)))) Ht HtH z u rho
  = (rz <- rmul rho z ;; d <- rsub rz u ;;
     num <- tzip (lift2 (fun yv dv => c * yv + dv)) y d ;;
     tzip (lift2 (fun v r => v / (r + c * c))) num rho).
Proof.
  intros Hy Hz Hu HHt HHtH Hnr Hrho.
  pose proof (weights_of_sized Hnr Hrho) as Hrs.
  assert (Hrz : rmul rho z = Ok (wmap Rmult (weights_of n rho) z))
    by apply (tzip_scalars Rmult Hnr Hrho Hz).
  assert (Hsz : has_shape n h w (wmap Rmult (weights_of n rho) z))
    by (apply weighted_shape; [apply Hrs | exact Hz]).
  set (rs := weights_of n rho) in *. set (rz := wmap Rmult rs z) in *.
  assert (Hd : rsub rz u = Ok (tmap (fun p => fst p - snd p) (zip3 rz u)))
    by apply (tzip_zip3 Rminus 0 0 Hsz Hu).
  assert (Hsd : has_shape n h w (tmap (fun p => fst p - snd p) (zip3 rz u))).
  { apply has_shape_tmap, (zip3_shape Hsz Hu). }
  set (d := tmap (fun p => fst p - snd p) (zip3 rz u)) in *.
  pose proof (zip3_shape Hy Hsd) as HV.
  pose proof (zip3_fst 0 0 Hy Hsd) as HyV.
  pose proof (zip3_snd 0 0 Hy Hsd) as HdV.
  set (V := zip3 y d) in *.
  assert (HW : has_shape n (2 * h) (2 * w) (ifftshift (pad_double (0, 0) V))).
  { apply shaped_ifftshift, shaped_pad_double; auto. }
  pose proof (@spectrum_of_part fst V eq_refl) as HY.
  pose proof (@spectrum_of_part snd V eq_refl) as HF.
  rewrite HyV in HY. rewrite HdV in HF.
  set (W := ifftshift (pad_double (0, 0) V)) in *.
  set (G := fun a : R * R => RtoC (c * fst a + snd a)).
  assert (HGW : has_shape n (2 * h) (2 * w) (tmap G W)).
  { apply has_shape_tmap, HW. }
  assert (HR : has_shape n (2 * h) (2 * w) (fft2 (tmap G W)))
    by (apply has_shape_fft2, HGW).
  (* left side *)
  unfold X_Update_Gaussian.
  assert (HL : radd rho HtH = Ok (wmap Rplus rs HtH)).
  { eapply (@tzip_scalars _ _ Rplus _ n nr (2 * h) (2 * w) rho HtH Hnr Hrho).
    apply (has_shape_of HHtH). }
  rewrite HL, HY. cbn [bind].
  assert (Hhy : cmul Ht (fft2 (tmap (fun a => RtoC (fst a)) W))
                = Ok (tmap (Cmul (c, 0)) (fft2 (tmap (fun a => RtoC (fst a)) W)))).
  { assert (HS : has_shape n (2 * h) (2 * w) (fft2 (tmap (fun a => RtoC (fst a)) W))).
    { apply has_shape_fft2, has_shape_tmap, HW. }
    apply (@tzip_pointwise _ _ _ (lift2 Cmul) C0 C0 (Cmul (c, 0) C0) n (2 * h) (2 * w)).
    - apply (has_shape_of HHt).
    - exact HS.
    - apply has_shape_tmap, HS.
    - intros b i j Hb Hi Hj. rewrite nth3_tmap.
      rewrite (nth3_const C0 HHt Hb Hi Hj). reflexivity. }
  rewrite Hhy, Hrz. cbn [bind]. rewrite Hd. cbn [bind]. rewrite HF.
  assert (Hrhs : cadd (tmap (Cmul (c, 0)) (fft2 (tmap (fun a => RtoC (fst a)) W)))
                      (fft2 (tmap (fun a => RtoC (snd a)) W))
                 = Ok (fft2 (tmap G W))).
  { apply (@tzip_pointwise _ _ _ (lift2 Cadd) (Cmul (c, 0) C0) C0 C0 n (2 * h) (2 * w)).
    - apply has_shape_tmap, has_shape_fft2, has_shape_tmap, HW.
    - apply has_shape_fft2, has_shape_tmap, HW.
    - exact HR.
    - intros b i j Hb Hi Hj. rewrite nth3_tmap.
      rewrite !(nth3_fft2_tmap _ i j HW Hb). unfold lift2. apply f_equal.
      apply (@dft2_linear _ _ _ G (c, 0) (-1) (2 * h) (2 * w)); auto.
      + intros [a1 a2]. unfold G, Cadd, Cmul, RtoC. cbn [fst snd]. f_equal; ring.
      + destruct HW as [HWl HWF]. rewrite Forall_forall in HWF. apply HWF.
        apply nth_In. unfold tensor, image in *. lia. }
  rewrite Hrhs. cbn [bind].
  set (sc := fun r : R => / (r + c * c)).
  assert (Hq : cdiv (fft2 (tmap G W)) (wmap Rplus rs HtH)
               = Ok (wmap (fun r => Cscal (sc r)) rs (fft2 (tmap G W)))).
  { apply (@tzip_pointwise _ _ _ cdiv_entry C0 0 C0 n (2 * h) (2 * w)).
    - exact HR.
    - apply weighted_shape; [apply Hrs|apply (has_shape_of HHtH)].
    - apply weighted_shape; [apply Hrs|exact HR].
    - intros b i j Hb Hi Hj.
      assert (HH : has_shape n (2 * h) (2 * w) HtH)
        by apply (has_shape_of HHtH).
      unfold wmap.
      rewrite (@nth3_weighted _ _ Rplus 0 0 n (2 * h) (2 * w) rs HtH b i j
                 (proj1 Hrs) HH Hb Hi Hj).
      rewrite (@nth3_weighted _ _ (fun r => Cscal (sc r)) C0 C0 n (2 * h) (2 * w) rs
                 (fft2 (tmap G W)) b i j (proj1 Hrs) HR Hb Hi Hj).
      rewrite (nth3_const 0 HHtH Hb Hi Hj).
      apply cdiv_entry_ok.
      assert (0 < nth b rs 0).
      { destruct Hrs as [Hl HFr]. rewrite Forall_forall in HFr. apply HFr, nth_In. lia. }
      nra. }
  rewrite Hq. cbn [bind].
  rewrite (ifft2_wmap sc rs HR), (ifft2_fft2 HGW).
  rewrite fftshift_wmap. unfold real. rewrite tmap_wmap, crop_half_wmap.
  unfold W at 1. rewrite tmap_ifftshift, fftshift_ifftshift.
  rewrite <- tmap_crop_half, (crop_pad_tensor (0, 0) HV), wmap_tmap.
  (* right side *)
  assert (Hnum : tzip (lift2 (fun yv dv => c * yv + dv)) y d
                 = Ok (tmap (fun p => c * fst p + snd p) V))
    by apply (tzip_zip3 (fun yv dv => c * yv + dv) 0 0 Hy Hsd).
  rewrite Hnum. cbn [bind].
  rewrite (tzip_swap (fun v r => v / (r + c * c)) (fun r v => v / (r + c * c)))
    by reflexivity.
  assert (Hsn : has_shape n h w (tmap (fun p => c * fst p + snd p) V))
    by apply has_shape_tmap, HV.
  rewrite (tzip_scalars (fun r v => v / (r + c * c)) Hnr Hrho Hsn).
  fold rs. apply f_equal.
  change (wmap (fun r a => Creal (Cscal (sc r) (G a))) rs V
          = wmap (fun r v => v / (r + c * c)) rs (tmap (fun p => c * fst p + snd p) V)).
  rewrite wmap_tmap. apply wmap_ext. intros r a.
  unfold Creal, Cscal, G, RtoC, sc. cbn [fst snd]. unfold Rdiv. ring.
Qed.

Lemma X_Update_flat_kernel_witness :
  X_Update_Gaussian (fft2 (complex (ifftshift (pad_double 0 [[[3]]]))))
    [[[(2, 0); (2, 0)]; [(2, 0); (2, 0)]]] [[[4; 4]; [4; 4]]]
    [[[1]]] [[[0]]] [[[1]]]
  = (rz <- rmul [[[1]]] [[[1]]] ;; d <- rsub rz [[[0]]] ;;
     num <- tzip (lift2 (fun yv dv => 2 * yv + dv)) [[[3]]] d ;;
     tzip (lift2 (fun v r => v / (r + 2 * 2))) num [[[1]]]).
Proof.
  apply (@X_Update_flat_kernel 1 1 1 1 2).
  - repeat (split; [reflexivity|]; repeat constructor).
  - repeat (split; [reflexivity|]; repeat constructor).
  - repeat (split; [reflexivity|]; repeat constructor).
  - repeat (split; [reflexivity|]; repeat constructor).
  - repeat (split; [reflexivity|]; repeat constructor); lra.
  - left. reflexivity.
  - repeat (split; [reflexivity|]; repeat constructor); lra.
Defined.

(** * The solve and the clamp, entry by entry *)

(** ** Entries of the batches of the solve *)

Lemma nth3_default A (d d' : A) n h w (T : tensor A) b i j :
  has_shape n h w T -> (b < n)%nat -> (i < h)%nat -> (j < w)%nat ->
  nth3 d T b i j = nth3 d' T b i j.
Proof.
  intros HT Hb Hi Hj. unfold nth3.
  pose proof (@sized_nth _ _ n T b [] HT Hb) as HX.
  pose proof (@sized_nth _ _ h (nth b T []) i [] HX Hi) as [Hr _].
  apply nth_indep. lia.
Qed.

Lemma nth3_tmap_in A B (f : A -> B) (d : A) (d' : B) n h w (T : tensor A) b i j :
  has_shape n h w T -> (b < n)%nat -> (i < h)%nat -> (j < w)%nat ->
  nth3 d' (tmap f T) b i j = f (nth3 d T b i j).
Proof.
  intros HT Hb Hi Hj. rewrite <- (nth3_tmap f d T b i j).
  apply (@nth3_default _ d' (f d) n h w); auto. now apply has_shape_tmap.
Qed.

Lemma weights_of_nth (P : R -> Prop) n nr (rho : tensor R) b :
  nr = n \/ nr = 1%nat -> shaped P nr 1 1 rho -> (b < n)%nat ->
  nth b (weights_of n rho) 0 = nth3 0 rho (b mod nr) 0 0.
Proof.
  intros Hnr [Hl _] Hb. unfold weights_of, nth3.
  destruct (Nat.eqb_spec (length rho) n) as [E|E].
  - assert (Hm : (b mod nr = b)%nat).
    { destruct Hnr as [->| ->]; [now apply Nat.mod_small|].
      unfold tensor, image in *. rewrite Nat.mod_1_r. lia. }
    rewrite Hm.
    rewrite nth_map_lt with (d' := @nil (list R)) by (unfold tensor, image in *; lia).
    reflexivity.
  - destruct Hnr as [->| ->]; [unfold tensor, image in *; lia|].
    rewrite Nat.mod_1_r, nth_repeat_lt by exact Hb.
    destruct rho as [|X rho]; reflexivity.
Qed.

Lemma nth_crop_list A (d : A) k (l : list A) i :
  length l = (2 * k)%nat -> (i < k)%nat ->
  nth i (crop_list l) d = nth (i + k / 2) l d.
Proof.
  intros Hl Hi. unfold crop_list. rewrite Hl, double_half.
  replace ((2 * k - k) / 2)%nat with (k / 2)%nat by (f_equal; lia).
  rewrite nth_firstn.
  destruct (Nat.ltb_spec i k) as [_|]; [|lia].
  rewrite nth_skipn. f_equal. lia.
Qed.

Lemma half_bound (h i : nat) : (i < h)%nat -> (i + h / 2 < 2 * h)%nat.
Proof.
  intros Hi. assert (h / 2 <= h)%nat by (apply Nat.Div0.div_le_upper_bound; lia). lia.
Qed.

Lemma nth_crop_half2d A (d : A) h w (X : image A) i j :
  sized (sized (fun _ => True) (2 * w)) (2 * h) X -> (i < h)%nat -> (j < w)%nat ->
  nth j (nth i (crop_half2d X) []) d = nth (j + w / 2) (nth (i + h / 2) X []) d.
Proof.
  intros HX Hi Hj. unfold crop_half2d.
  assert (Hc : (i < length (crop_list X))%nat).
  { unfold crop_list. rewrite length_firstn, length_skipn.
    destruct HX as [HXl _]. unfold image in *. rewrite HXl, double_half.
    assert ((2 * h - h) / 2 <= h)%nat by (apply Nat.Div0.div_le_upper_bound; lia). lia. }
  rewrite nth_map_lt with (d' := @nil A) by exact Hc.
  rewrite (@nth_crop_list _ [] h X i) by (destruct HX; auto).
  pose proof (@sized_nth _ _ (2 * h) X (i + h / 2) [] HX (half_bound Hi)) as [Hr _].
  apply nth_crop_list; auto.
Qed.

Lemma nth3_crop_half A (d : A) n h w (T : tensor A) b i j :
  has_shape n (2 * h) (2 * w) T -> (b < n)%nat -> (i < h)%nat -> (j < w)%nat ->
  nth3 d (crop_half T) b i j = nth3 d T b (i + h / 2) (j + w / 2).
Proof.
  intros HT Hb Hi Hj. unfold nth3, crop_half.
  rewrite nth_map_lt with (d' := @nil (list A))
    by (destruct HT; unfold tensor, image in *; lia).
  apply nth_crop_half2d; auto.
  apply (@sized_nth _ _ n T b [] HT Hb).
Qed.

Lemma shaped_nth3 A (P : A -> Prop) (d : A) n h w (T : tensor A) b i j :
  shaped P n h w T -> (b < n)%nat -> (i < h)%nat -> (j < w)%nat ->
  P (nth3 d T b i j).
Proof.
  intros HT Hb Hi Hj. unfold nth3.
  pose proof (@sized_nth _ _ n T b [] HT Hb) as HX.
  pose proof (@sized_nth _ _ h (nth b T []) i [] HX Hi) as [Hl HF].
  rewrite Forall_forall in HF. apply HF, nth_In. lia.
Qed.

(** C2: the solver is the spec's formula, for all operands and errors
    included: the crop of the real part (the first component, the
    imaginary part being dropped) of the shifted inverse transform of
    (Ht*Y + FFT(shift(padDouble(rho*z - u)))) over (rho + HtH).  On a
    batch of [n] images of [h] by [w] with spectra of twice the size, a
    non-negative [HtH] and one positive weight per element or one for the
    batch, it returns an image [x] of [h] by [w] given entry by entry:
    [d] is [rho*z - u], the quotient [q] is
    [(Ht*Y + FFT(shift(padDouble(d)))) / (rho + HtH)] at every frequency,
    and pixel [(i, j)] of [x] is the real part of entry
    [(i + h/2, j + w/2)] of the shifted inverse transform of [q]. *)
Theorem X_Update_Gaussian_formula (Y Ht : tensor C) (HtH z u rho : tensor R) :
  X_Update_Gaussian Y Ht HtH z u rho = spec_solve Y Ht HtH z u rho /\
  forall n h w nr,
    has_shape n (2 * h) (2 * w) Y -> has_shape n (2 * h) (2 * w) Ht ->
    shaped (fun v => 0 <= v) n (2 * h) (2 * w) HtH ->
    has_shape n h w z -> has_shape n h w u ->
    nr = n \/ nr = 1%nat -> shaped (fun r => 0 < r) nr 1 1 rho ->
    exists (d : tensor R) (q : tensor C) (x : tensor R),
      X_Update_Gaussian Y Ht HtH z u rho = Ok x /\
      has_shape n h w d /\ has_shape n (2 * h) (2 * w) q /\ has_shape n h w x /\
      (forall b i j, (b < n)%nat -> (i < h)%nat -> (j < w)%nat ->
         nth3 0 d b i j
         = nth3 0 rho (b mod nr) 0 0 * nth3 0 z b i j - nth3 0 u b i j) /\
      (forall b i j, (b < n)%nat -> (i < 2 * h)%nat -> (j < 2 * w)%nat ->
         nth3 C0 q b i j
         = Cscal (/ (nth3 0 rho (b mod nr) 0 0 + nth3 0 HtH b i j))
             (Cadd (Cmul (nth3 C0 Ht b i j) (nth3 C0 Y b i j))
                   (nth3 C0 (fft2 (complex (ifftshift (pad_double 0 d)))) b i j))) /\
      (forall b i j, (b < n)%nat -> (i < h)%nat -> (j < w)%nat ->
         nth3 0 x b i j
         = fst (nth3 C0 (fftshift (ifft2 q)) b (i + h / 2) (j + w / 2))).
Proof.
  split.
  { unfold X_Update_Gaussian, spec_solve, spec_numerator, spec_denominator.
    pose proof (tzip_lift2_err Rplus rho HtH) as H1.
    pose proof (tzip_lift2_err Cmul Ht Y) as H2.
    pose proof (tzip_lift2_err Rmult rho z) as H3.
    fold (radd rho HtH) in H1. fold (cmul Ht Y) in H2. fold (rmul rho z) in H3.
    destruct (radd rho HtH) as [lhs|e1]; destruct (cmul Ht Y) as [hy|e2];
      destruct (rmul rho z) as [rz|e3]; simpl in *; subst; auto.
    all: pose proof (tzip_lift2_err Rminus rz u) as H4; fold (rsub rz u) in H4.
    all: destruct (rsub rz u) as [d|e4]; simpl in *; subst; auto.
    all: pose proof (tzip_lift2_err Cadd hy (fft2 (complex (ifftshift (pad_double 0 d))))) as H5.
    all: fold (cadd hy (fft2 (complex (ifftshift (pad_double 0 d))))) in H5.
    all: destruct (cadd hy _) as [rhs|e5]; simpl in *; subst; auto. }
  intros n h w nr HY HHt HHtH Hz Hu Hnr Hrho.
  pose proof (weights_of_sized Hnr Hrho) as Hrs.
  pose proof (has_shape_of HHtH) as HH.
  assert (Hw : forall b, (b < n)%nat ->
             nth b (weights_of n rho) 0 = nth3 0 rho (b mod nr) 0 0)
    by (intros b Hb; apply (weights_of_nth Hnr Hrho Hb)).
  assert (HL : radd rho HtH = Ok (wmap Rplus (weights_of n rho) HtH))
    by apply (@tzip_scalars _ _ Rplus _ n nr (2 * h) (2 * w) rho HtH Hnr Hrho HH).
  assert (Hrz : rmul rho z = Ok (wmap Rmult (weights_of n rho) z))
    by apply (tzip_scalars Rmult Hnr Hrho Hz).
  set (rs := weights_of n rho) in *.
  assert (HsL : has_shape n (2 * h) (2 * w) (wmap Rplus rs HtH))
    by (apply weighted_shape; [apply Hrs | exact HH]).
  assert (Hsz : has_shape n h w (wmap Rmult rs z))
    by (apply weighted_shape; [apply Hrs | exact Hz]).
  set (lhs := wmap Rplus rs HtH) in *. set (rz := wmap Rmult rs z) in *.
  assert (Hd : rsub rz u = Ok (tmap (fun p => fst p - snd p) (zip3 rz u)))
    by apply (tzip_zip3 Rminus 0 0 Hsz Hu).
  assert (Hsd : has_shape n h w (tmap (fun p => fst p - snd p) (zip3 rz u)))
    by apply has_shape_tmap, (zip3_shape Hsz Hu).
  set (d := tmap (fun p => fst p - snd p) (zip3 rz u)) in *.
  assert (Hhy : cmul Ht Y = Ok (tmap (fun p => Cmul (fst p) (snd p)) (zip3 Ht Y)))
    by apply (tzip_zip3 Cmul C0 C0 HHt HY).
  assert (Hshy : has_shape n (2 * h) (2 * w)
                   (tmap (fun p => Cmul (fst p) (snd p)) (zip3 Ht Y)))
    by apply has_shape_tmap, (zip3_shape HHt HY).
  set (hy := tmap (fun p => Cmul (fst p) (snd p)) (zip3 Ht Y)) in *.
  pose proof (spectrum_shaped Hsd) as HF.
  set (F := fft2 (complex (ifftshift (pad_double 0 d)))) in *.
  assert (Hrhs : cadd hy F = Ok (tmap (fun p => Cadd (fst p) (snd p)) (zip3 hy F)))
    by apply (tzip_zip3 Cadd C0 C0 Hshy HF).
  assert (Hsr : has_shape n (2 * h) (2 * w)
                  (tmap (fun p => Cadd (fst p) (snd p)) (zip3 hy F)))
    by apply has_shape_tmap, (zip3_shape Hshy HF).
  set (rhs := tmap (fun p => Cadd (fst p) (snd p)) (zip3 hy F)) in *.
  set (q := tmap (fun p : C * R => Cscal (/ snd p) (fst p)) (zip3 rhs lhs)).
  assert (Hsq : has_shape n (2 * h) (2 * w) q)
    by apply has_shape_tmap, (zip3_shape Hsr HsL).
  assert (Elhs : forall b i j, (b < n)%nat -> (i < 2 * h)%nat -> (j < 2 * w)%nat ->
             nth3 0 lhs b i j = nth3 0 rho (b mod nr) 0 0 + nth3 0 HtH b i j).
  { intros b i j Hb Hi Hj. unfold lhs, wmap.
    rewrite (@nth3_weighted _ _ Rplus 0 0 n (2 * h) (2 * w) rs HtH b i j
               (proj1 Hrs) HH Hb Hi Hj).
    now rewrite Hw. }
  assert (Epos : forall b i j, (b < n)%nat -> (i < 2 * h)%nat -> (j < 2 * w)%nat ->
             nth3 0 lhs b i j <> 0).
  { intros b i j Hb Hi Hj. rewrite (Elhs b i j Hb Hi Hj), <- (Hw b Hb).
    assert (0 < nth b rs 0).
    { destruct Hrs as [Hl HFr]. rewrite Forall_forall in HFr. apply HFr, nth_In. lia. }
    assert (0 <= nth3 0 HtH b i j).
    { apply (@shaped_nth3 _ (fun v => 0 <= v) 0 n (2 * h) (2 * w) HtH b i j HHtH Hb Hi Hj). }
    lra. }
  assert (Eq : forall b i j, (b < n)%nat -> (i < 2 * h)%nat -> (j < 2 * w)%nat ->
             nth3 C0 q b i j = Cscal (/ nth3 0 lhs b i j) (nth3 C0 rhs b i j)).
  { intros b i j Hb Hi Hj. unfold q.
    rewrite (@nth3_tmap_in _ _ (fun p : C * R => Cscal (/ snd p) (fst p)) (C0, 0) C0
               n (2 * h) (2 * w) (zip3 rhs lhs) b i j (zip3_shape Hsr HsL) Hb Hi Hj).
    rewrite (nth3_zip3 C0 0 Hsr HsL Hb Hi Hj). reflexivity. }
  assert (Hq : cdiv rhs lhs = Ok q).
  { apply (@tzip_pointwise _ _ _ cdiv_entry C0 0 C0 n (2 * h) (2 * w)); auto.
    intros b i j Hb Hi Hj. rewrite (Eq b i j Hb Hi Hj).
    apply cdiv_entry_ok. now apply Epos. }
  exists d, q, (crop_half (real (fftshift (ifft2 q)))).
  assert (Hsw : has_shape n (2 * h) (2 * w) (fftshift (ifft2 q))).
  { apply shaped_fftshift. eapply shaped_ifft2. exact Hsq. }
  split; [|split; [exact Hsd|split; [exact Hsq|split; [|split; [|split]]]]].
  - unfold X_Update_Gaussian. rewrite HL, Hhy, Hrz. cbn [bind].
    rewrite Hd. cbn [bind]. fold F. rewrite Hrhs. cbn [bind]. rewrite Hq. reflexivity.
  - apply shaped_crop_half. unfold real. now apply has_shape_tmap.
  - intros b i j Hb Hi Hj. unfold d.
    rewrite (@nth3_tmap_in _ _ (fun p : R * R => fst p - snd p) (0, 0) 0
               n h w (zip3 rz u) b i j (zip3_shape Hsz Hu) Hb Hi Hj).
    rewrite (nth3_zip3 0 0 Hsz Hu Hb Hi Hj). cbn [fst snd]. unfold rz, wmap.
    rewrite (@nth3_weighted _ _ Rmult 0 0 n h w rs z b i j (proj1 Hrs) Hz Hb Hi Hj).
    now rewrite Hw.
  - intros b i j Hb Hi Hj. rewrite (Eq b i j Hb Hi Hj), (Elhs b i j Hb Hi Hj).
    f_equal. unfold rhs.
    rewrite (@nth3_tmap_in _ _ (fun p : C * C => Cadd (fst p) (snd p)) (C0, C0) C0
               n (2 * h) (2 * w) (zip3 hy F) b i j (zip3_shape Hshy HF) Hb Hi Hj).
    rewrite (nth3_zip3 C0 C0 Hshy HF Hb Hi Hj). cbn [fst snd]. f_equal. unfold hy.
    rewrite (@nth3_tmap_in _ _ (fun p : C * C => Cmul (fst p) (snd p)) (C0, C0) C0
               n (2 * h) (2 * w) (zip3 Ht Y) b i j (zip3_shape HHt HY) Hb Hi Hj).
    now rewrite (nth3_zip3 C0 C0 HHt HY Hb Hi Hj).
  - intros b i j Hb Hi Hj.
    rewrite (@nth3_crop_half _ 0 n h w (real (fftshift (ifft2 q))) b i j); auto.
    + unfold real.
      apply (@nth3_tmap_in _ _ Creal C0 0 n (2 * h) (2 * w)); auto using half_bound.
    + unfold real. now apply has_shape_tmap.
Qed.

Lemma X_Update_Gaussian_formula_witness :
  exists x : tensor R,
    X_Update_Gaussian [[[(3, 0); (1, 2)]; [(0, 1); (2, 0)]]]
      [[[(1, 0); (0, 1)]; [(2, 0); (1, 1)]]] [[[1; 1]; [4; 2]]]
      [[[5]]] [[[1]]] [[[2]]] = Ok x /\
    has_shape 1 1 1 x.
Proof.
  destruct (proj2 (X_Update_Gaussian_formula
                     [[[(3, 0); (1, 2)]; [(0, 1); (2, 0)]]]
                     [[[(1, 0); (0, 1)]; [(2, 0); (1, 1)]]] [[[1; 1]; [4; 2]]]
                     [[[5]]] [[[1]]] [[[2]]]) 1%nat 1%nat 1%nat 1%nat)
    as (d & q & x & Hx & _ & _ & Hs & _).
  - repeat (split; [reflexivity|]; repeat constructor).
  - repeat (split; [reflexivity|]; repeat constructor).
  - repeat (split; [reflexivity|]; repeat constructor); lra.
  - repeat (split; [reflexivity|]; repeat constructor).
  - repeat (split; [reflexivity|]; repeat constructor).
  - left. reflexivity.
  - repeat (split; [reflexivity|]; repeat constructor); lra.
  - exists x. split; [exact Hx | exact Hs].
Defined.

(** ** The clamp of the observed image, entry by entry *)

(** C9: [forward] clamps the observed image to non-negative values
    before anything else: its outcome on [y] is its outcome on
    [max(y, 0)].  For a batch [y] of [n] images of [h] by [w], the
    clamped batch [y0] has entry [max(v, 0)] where [y] has [v], none of
    its entries is negative, the spectrum [Y] and the warm start of the
    setup are computed from [y0], and the dual variable starts with
    every entry 0 and the shape of the observed batch. *)
Theorem forward_clamps_observed m (y kernel alpha : tensor R) :
  forward m y kernel alpha = forward m (tmap (fun v => Rmax v 0) y) kernel alpha /\
  forall n h w, has_shape n h w y ->
    exists y0 : tensor R,
      shaped (fun v => 0 <= v) n h w y0 /\
      (forall b i j, (b < n)%nat -> (i < h)%nat -> (j < w)%nat ->
         nth3 0 y0 b i j = Rmax (nth3 0 y b i j) 0) /\
      forward m y kernel alpha = forward m y0 kernel alpha /\
      forall c, setup m y kernel alpha = Ok c ->
        s_Y c = fft2 (complex (ifftshift (pad_double 0 y0))) /\
        init_l2 (s_Y c) (s_Ht c) (s_HtH c) alpha = Ok (s_z c) /\
        shaped (fun v => v = 0) n h w (s_u c).
Proof.
  assert (Hf : forward m y kernel alpha = forward m (clamp_nonneg y) kernel alpha)
    by (unfold forward, run; now rewrite setup_clamp).
  split; [exact Hf|].
  intros n h w Hy. exists (clamp_nonneg y).
  split; [|split; [|split; [exact Hf|]]].
  - unfold clamp_nonneg. eapply shaped_tmap; [|exact Hy].
    intros a _. apply Rmax_r.
  - intros b i j Hb Hi Hj. unfold clamp_nonneg.
    apply (@nth3_tmap_in _ _ (fun v => Rmax v 0) 0 0 n h w y b i j Hy Hb Hi Hj).
  - intros c Hc. unfold setup in Hc.
    destruct (if subnet m then _ else _) as [rho|e]; [|discriminate].
    cbn [bind] in Hc.
    destruct (init_l2 _ _ _ _) as [z|e] eqn:Ez; [|discriminate].
    cbn [bind] in Hc. injection Hc as <-. cbn [s_Y s_Ht s_HtH s_z s_u].
    split; [reflexivity|]. split; [exact Ez|].
    unfold zeros_like, clamp_nonneg. rewrite tmap_tmap.
    eapply shaped_tmap; [|exact Hy]. reflexivity.
Qed.

Lemma forward_clamps_observed_witness :
  exists (y0 : tensor R) (c : setup_t),
    shaped (fun v => 0 <= v) 1 1 2 y0 /\
    nth3 0 y0 0 0 0 = Rmax (-1) 0 /\ nth3 0 y0 0 0 1 = Rmax 2 0 /\
    forward (fixed_model 1 [1]) [[[-1; 2]]] [[[1; 0]]] [[[1]]]
    = forward (fixed_model 1 [1]) y0 [[[1; 0]]] [[[1]]] /\
    setup (fixed_model 1 [1]) [[[-1; 2]]] [[[1; 0]]] [[[1]]] = Ok c /\
    s_Y c = fft2 (complex (ifftshift (pad_double 0 y0))) /\
    shaped (fun v => v = 0) 1 1 2 (s_u c).
Proof.
  assert (Hy : has_shape 1 1 2 [[[-1; 2]]])
    by (repeat (split; [reflexivity|]; repeat constructor)).
  assert (Hk : has_shape 1 1 2 [[[1; 0]]])
    by (repeat (split; [reflexivity|]; repeat constructor)).
  assert (Ha : shaped (fun a => 0 < a) 1 1 1 [[[1]]])
    by (repeat (split; [reflexivity|]; repeat constructor); lra).
  destruct (proj2 (forward_clamps_observed (fixed_model 1 [1])
                     [[[-1; 2]]] [[[1; 0]]] [[[1]]]) 1%nat 1%nat 2%nat Hy)
    as (y0 & Hs & He & Hf & Hc).
  destruct (@setup_ok (fixed_model 1 [1]) 1 1 2 [[[-1; 2]]] [[[1; 0]]] [[[1]]] []
              Hy Hk Ha eq_refl) as (c & Ec & _).
  destruct (Hc c Ec) as (HY & _ & Hu).
  exists y0, c. split; [exact Hs|].
  split; [apply (He 0%nat 0%nat 0%nat); lia|].
  split; [apply (He 0%nat 0%nat 1%nat); lia|].
  split; [exact Hf|]. split; [exact Ec|]. split; [exact HY | exact Hu].
Defined.
